(** * Hotel OLTP synthetic data generator: shallow embedding and properties

    The definitions below embed the row generator
    [scripts/hotel_oltp_data_gen_pg_meaningful_unique_v7.py].  Python
    dictionaries are finite maps, Python sets are finite sets (or lists
    used through membership only), [random] and [uuid] draw from an
    explicit oracle, and exceptions are an explicit outcome. *)

From Stdlib Require Import ZArith Ascii String.
From stdpp Require Import gmap strings list sorting pretty.

Open Scope string_scope.
Open Scope list_scope.
Open Scope Z_scope.
Open Scope nat_scope.

Set Warnings "-clear-no-such-hyp".

(** ** Python builtins on strings *)

(** [sorted] on [str] compares code points left to right, which is
    [String.leb]. *)
Definition str_le (a b : string) : Prop := String.leb a b = true.

#[global] Instance str_le_dec a b : Decision (str_le a b).
Proof. unfold str_le. apply _. Defined.

#[global] Instance str_le_total : Total str_le.
Proof. intros a b. apply String.leb_total. Qed.

Definition sorted (l : list string) : list string := merge_sort str_le l.

Definition is_upper (c : ascii) : bool :=
  (65 <=? nat_of_ascii c) && (nat_of_ascii c <=? 90).

Definition is_lower (c : ascii) : bool :=
  (97 <=? nat_of_ascii c) && (nat_of_ascii c <=? 122).

Definition map_string (f : ascii → ascii) : string → string :=
  fix go s := match s with
              | EmptyString => EmptyString
              | String c s => String (f c) (go s)
              end.

(** [str.lower] and [str.upper], on the ASCII letters. *)
Definition lower : string → string :=
  map_string (λ c, if is_upper c then ascii_of_nat (nat_of_ascii c + 32) else c).

Definition upper : string → string :=
  map_string (λ c, if is_lower c then ascii_of_nat (nat_of_ascii c - 32) else c).

(** [str.title] on a single word: first letter upper, rest lower. *)
Definition title (s : string) : string :=
  match s with
  | String c s' => upper (String c EmptyString) +:+ lower s'
  | EmptyString => EmptyString
  end.

(** [sub in s] *)
Fixpoint contains (sub s : string) : bool :=
  String.prefix sub s ||
  match s with
  | EmptyString => false
  | String _ s' => contains sub s'
  end.

(** [s.endswith(suf)] *)
Definition endswith (suf s : string) : bool :=
  (String.length suf <=? String.length s) &&
  bool_decide (substring (String.length s - String.length suf) (String.length suf) s = suf).

(** [s[:n]] for [n >= 0]; a negative bound counts from the end. *)
Definition slice_to (n : Z) (s : string) : string :=
  if (0 <=? n)%Z then substring 0 (Z.to_nat n) s
  else substring 0 (String.length s - Z.to_nat (- n)) s.

Definition is_space (c : ascii) : bool :=
  let n := nat_of_ascii c in
  ((9 <=? n) && (n <=? 13)) || ((28 <=? n) && (n <=? 32)).

Fixpoint lstrip (s : string) : string :=
  match s with
  | String c s' => if is_space c then lstrip s' else s
  | EmptyString => EmptyString
  end.

Fixpoint rstrip (s : string) : string :=
  match s with
  | String c s' =>
    match rstrip s' with
    | EmptyString => if is_space c then EmptyString else String c EmptyString
    | r => String c r
    end
  | EmptyString => EmptyString
  end.

(** [str.strip] *)
Definition strip (s : string) : string := rstrip (lstrip s).

(** [x in {...}] for a set or list literal of strings. *)
Definition one_of (x : string) (l : list string) : bool := bool_decide (x ∈ l).

(** [any(k in name for k in ks)] *)
Definition any_in (ks : list string) (name : string) : bool :=
  existsb (λ k, contains k name) ks.

(** Truth value of an optional string ([None] and [""] are false). *)
Definition truthy (o : option string) : bool :=
  match o with
  | Some s => negb (bool_decide (s = ""))
  | None => false
  end.

(** [f"{n:0{w}d}"] for [n >= 0]. *)
Definition zero_pad (w : nat) (n : nat) : string :=
  let d := pretty n in
  String.concat "" (replicate (w - String.length d) "0") +:+ d.

(** The double-quote character, as a string. *)
Definition dq : string := String (ascii_of_nat 34) EmptyString.

Definition hex_digit (n : nat) : ascii :=
  if n <? 10 then ascii_of_nat (48 + n) else ascii_of_nat (87 + n).

(** ** Schema records *)

Module ColumnInfo.
Record t : Type := mk
  { table : string; column : string; data_type : string; udt_name : string;
    is_nullable : bool; char_max_len : option Z;
    numeric_precision : option Z; numeric_scale : option Z }.
End ColumnInfo.

Module ForeignKey.
Record t : Type := mk
  { table : string; column : string; ref_table : string; ref_column : string }.
End ForeignKey.

Module PrimaryKey.
Record t : Type := mk { table : string; columns : list string }.
End PrimaryKey.

(** ** Dependency ordering *)

Module Topo.

(** [{t: set() for t in tables}] *)
Definition empty_sets (tables : list string) : gmap string (gset string) :=
  foldl (λ m t, <[t := ∅]> m) ∅ tables.

(** One iteration of [for fk in fks]. *)
Definition add_fk (st : gmap string (gset string) * gmap string (gset string))
    (fk : ForeignKey.t) : gmap string (gset string) * gmap string (gset string) :=
  let child := ForeignKey.table fk in
  let parent := ForeignKey.ref_table fk in
  if bool_decide (child ∈ dom st.1) && bool_decide (parent ∈ dom st.1)
  then (alter (λ s, s ∪ {[parent]}) child st.1,
        alter (λ s, s ∪ {[child]}) parent st.2)
  else st.

Definition build (tables : list string) (fks : list ForeignKey.t)
    : gmap string (gset string) * gmap string (gset string) :=
  foldl add_fk (empty_sets tables, empty_sets tables) fks.

(** [deps[t]]; every key read by the loop is a table, so the lookup never
    raises [KeyError]. *)
Definition get (m : gmap string (gset string)) (t : string) : gset string :=
  default ∅ (m !! t).

(** One iteration of [for m in sorted(rdeps[n])]. *)
Definition relax (n : string) (out : list string)
    (st : gmap string (gset string) * list string) (m : string)
    : gmap string (gset string) * list string :=
  let deps := alter (λ s, s ∖ {[n]}) m st.1 in
  if bool_decide (get deps m = ∅) && bool_decide (m ∉ out) && bool_decide (m ∉ st.2)
  then (deps, st.2 ++ [m])
  else (deps, st.2).

(** [while q: ...]; [None] when the fuel runs out before [q] is empty. *)
Fixpoint loop (fuel : nat) (rdeps deps : gmap string (gset string))
    (q out : list string) : option (list string) :=
  match q with
  | [] => Some out
  | n :: q =>
    match fuel with
    | O => None
    | S fuel =>
      let out := out ++ [n] in
      let st := foldl (relax n out) (deps, q) (sorted (elements (get rdeps n))) in
      loop fuel rdeps st.1 (sorted st.2) out
    end
  end.

Definition topo_sort_tables_fuel (fuel : nat) (tables : list string)
    (fks : list ForeignKey.t) : option (list string) :=
  let '(deps, rdeps) := build tables fks in
  let q := sorted (filter (λ t, get deps t = ∅) tables) in
  out ← loop fuel rdeps deps q [];
  let remaining := filter (λ t, t ∉ out) tables in
  Some (out ++ sorted remaining).

(** The loop body runs at most once per entry of [tables]. *)
Definition topo_sort_tables (tables : list string) (fks : list ForeignKey.t)
    : option (list string) :=
  topo_sort_tables_fuel (length tables) tables fks.

(** [p] occurs strictly before every occurrence of [c]. *)
Definition before (l : list string) (p c : string) : Prop :=
  ∀ j, l !! j = Some c → ∃ i, i < j ∧ l !! i = Some p.

(** A foreign key from [c] to [p] whose two ends are tables in scope. *)
Definition edge (tables : list string) (fks : list ForeignKey.t) (c p : string) : Prop :=
  ∃ fk, fk ∈ fks ∧ ForeignKey.table fk = c ∧ ForeignKey.ref_table fk = p
        ∧ c ∈ tables ∧ p ∈ tables.

(** [t] lies on a foreign-key cycle (a self-reference included) or reaches
    one by following foreign keys from child to parent. *)
Definition cyclic (tables : list string) (fks : list ForeignKey.t) (t : string) : Prop :=
  ∃ u, rtc (edge tables fks) t u ∧ tc (edge tables fks) u u.

(** The foreign-key graph restricted to [tables] has no cycle: parents
    have a strictly smaller rank than their children. *)
Definition acyclic (tables : list string) (fks : list ForeignKey.t) : Prop :=
  ∃ rank : string → nat, ∀ fk, fk ∈ fks →
    ForeignKey.table fk ∈ tables → ForeignKey.ref_table fk ∈ tables →
    rank (ForeignKey.ref_table fk) < rank (ForeignKey.table fk).

End Topo.

(** ** Values, exceptions and the generator's state *)

(** The Python values that occur in a generated row.  A float is the
    decimal [num / 10^scale] ([round(x, scale)]), a date is a day number
    and a datetime a number of seconds. *)
Inductive value : Type :=
  | VNone
  | VBool (b : bool)
  | VInt (z : Z)
  | VFloat (num : Z) (scale : nat)
  | VStr (s : string)
  | VDate (d : Z)
  | VDateTime (t : Z).

#[global] Instance value_eq_dec : EqDecision value.
Proof. solve_decision. Defined.

#[global] Instance value_inhabited : Inhabited value := populate VNone.

Definition numeric (v : value) : option (Z * nat) :=
  match v with
  | VBool b => Some (Z.b2z b, 0)
  | VInt z => Some (z, 0)
  | VFloat n s => Some (n, s)
  | _ => None
  end.

(** Python [==]: [bool], [int] and [float] compare as numbers, everything
    else compares within its own type. *)
Definition py_eq (a b : value) : bool :=
  match numeric a, numeric b with
  | Some (x, s), Some (y, t) => (x * 10 ^ Z.of_nat t =? y * 10 ^ Z.of_nat s)%Z
  | None, None => bool_decide (a = b)
  | _, _ => false
  end.

(** [v in s] and [s.add(v)] on a set of values. *)
Definition py_in (v : value) (s : list value) : bool := existsb (py_eq v) s.

Definition set_add (v : value) (s : list value) : list value :=
  if py_in v s then s else s ++ [v].

(** The same for a set of pairs. *)
Definition pair_in (p : value * value) (s : list (value * value)) : bool :=
  existsb (λ q, py_eq p.1 q.1 && py_eq p.2 q.2) s.

Definition is_none (v : value) : bool :=
  match v with VNone => true | _ => false end.

Inductive exn : Type :=
  | RuntimeError (msg : string)
  | AttributeError (attr : string)
  | UnboundLocalError (var : string)
  | IndexError
  | TypeError
  | ValueError.

Inductive outcome (A : Type) : Type :=
  | Ok (a : A)
  | Raise (e : exn)
  | OutOfFuel.
Arguments Ok {A} a.
Arguments Raise {A} e.
Arguments OutOfFuel {A}.

Record location : Type := Location
  { city : string; state : string; country : string; postal_prefix : string;
    timezone : string; postal_code : string; street1 : string;
    street2 : option string }.

(** The module-level registries and the supply of random outcomes
    ([random], [uuid] and Faker all draw from [tape]). *)
Record world : Type := World
  { tape : nat → nat;
    pos : nat;
    _UNIQUE_SEEN : gmap (string * string) (list string);
    _UNIQUE_POOL_STATE : gmap (string * string) (list string);
    _ROW_LOCATION : gmap (string * Z) location }.

Definition M (A : Type) : Type := world → outcome (A * world).

#[global] Instance M_ret : MRet M := λ A a w, Ok (a, w).

#[global] Instance M_bind : MBind M := λ A B f m w,
  match m w with
  | Ok (a, w') => f a w'
  | Raise e => Raise e
  | OutOfFuel => OutOfFuel
  end.

#[global] Instance M_fmap : FMap M := λ A B f m, a ← m; mret (f a).

Definition raise {A} (e : exn) : M A := λ _, Raise e.

Definition out_of_fuel {A} : M A := λ _, OutOfFuel.

(** The outcome of a computation, without the final state. *)
Definition run {A} (m : M A) (w : world) : outcome A :=
  match m w with
  | Ok (a, _) => Ok a
  | Raise e => Raise e
  | OutOfFuel => OutOfFuel
  end.

Fixpoint foldM {A B} (f : A → B → M A) (a : A) (l : list B) : M A :=
  match l with
  | [] => mret a
  | b :: l => a' ← f a b; foldM f a' l
  end.

Definition draw : M nat := λ w,
  Ok (tape w (pos w),
      World (tape w) (S (pos w)) (_UNIQUE_SEEN w) (_UNIQUE_POOL_STATE w) (_ROW_LOCATION w)).

Definition randbelow (n : nat) : M nat := k ← draw; mret (k mod n).

Module random.

Definition choice {A} (seq : list A) : M A :=
  k ← randbelow (length seq);
  match seq !! k with
  | Some a => mret a
  | None => raise IndexError
  end.

Definition randint (a b : Z) : M Z :=
  k ← randbelow (Z.to_nat (b - a + 1));
  mret (a + Z.of_nat k)%Z.

(** [random.random() < percent / 100] *)
Definition below (percent : nat) : M bool :=
  k ← randbelow 100; mret (k <? percent).

(** [round(random.uniform(a, b), scale)] *)
Definition uniform_round (a b : Z) (scale : nat) : M value :=
  k ← randbelow (Z.to_nat ((b - a) * 10 ^ Z.of_nat scale + 1));
  mret (VFloat (a * 10 ^ Z.of_nat scale + Z.of_nat k) scale).

Definition swap {A} (x : list A) (i j : nat) : list A :=
  match x !! i, x !! j with
  | Some a, Some b => <[i := b]> (<[j := a]> x)
  | _, _ => x
  end.

Fixpoint shuffle_from {A} (i : nat) (x : list A) : M (list A) :=
  match i with
  | O => mret x
  | S i' => j ← randbelow (S i); shuffle_from i' (swap x i j)
  end.

(** [for i in reversed(range(1, len(x))): j = randbelow(i + 1); swap] *)
Definition shuffle {A} (x : list A) : M (list A) :=
  shuffle_from (length x - 1) x.

Fixpoint sample_from {A} (k : nat) (pool : list A) (n : nat) : M (list A) :=
  match k with
  | O => mret []
  | S k' =>
    j ← randbelow n;
    match pool !! j, pool !! (n - 1) with
    | Some a, Some z => rest ← sample_from k' (<[j := z]> pool) (n - 1); mret (a :: rest)
    | _, _ => raise ValueError
    end
  end.

(** Selection of [k] entries without replacement. *)
Definition sample {A} (population : list A) (k : nat) : M (list A) :=
  if length population <? k then raise ValueError
  else sample_from k population (length population).

End random.

(** [str(uuid.uuid4())], rendered from the random outcome. *)
Definition uuid4 : M string := k ← draw; mret ("uuid-" +:+ pretty k).

(** [uuid.uuid4().hex[:6]] *)
Definition uuid_hex6 : M string :=
  k ← draw;
  mret (string_of_list_ascii
          (map (λ i, hex_digit ((k / 16 ^ i) mod 16)) [5; 4; 3; 2; 1; 0])).

(** ** Configuration constants *)

Definition LOCATION_POOL : list (string * string * string * string * string) :=
  [("Boston", "MA", "US", "02", "America/New_York");
   ("New York", "NY", "US", "10", "America/New_York");
   ("Chicago", "IL", "US", "60", "America/Chicago");
   ("Austin", "TX", "US", "78", "America/Chicago");
   ("Denver", "CO", "US", "80", "America/Denver");
   ("Seattle", "WA", "US", "98", "America/Los_Angeles");
   ("San Francisco", "CA", "US", "94", "America/Los_Angeles");
   ("San Jose", "CA", "US", "95", "America/Los_Angeles");
   ("Miami", "FL", "US", "33", "America/New_York");
   ("Bengaluru", "KA", "IN", "560", "Asia/Kolkata");
   ("Hyderabad", "TS", "IN", "500", "Asia/Kolkata");
   ("Mumbai", "MH", "IN", "400", "Asia/Kolkata");
   ("Chennai", "TN", "IN", "600", "Asia/Kolkata")].

Definition HOTEL_BRANDS : list string :=
  ["Marriott"; "Hilton"; "Hyatt"; "Westin"; "Sheraton"; "Ibis"; "Novotel";
   "Taj"; "Oberoi"; "Radisson"].

Definition ROOM_TYPE_NAMES : list string :=
  ["Standard King"; "Standard Queen"; "Deluxe King"; "Deluxe Queen";
   "Studio"; "Junior Suite"; "Executive Suite"; "Family Suite"].

(** The function-level variables of an assembler that survive from one
    column, and one row, to the next.  [v = None] is the unbound local. *)
Module Locals.
Record t : Type := mk
  { row : gmap string value;
    v : option value;
    seen_uniques : gmap string (list value);
    pk_vals : list value }.
End Locals.

(** The Faker library: each provider maps one random outcome to a value. *)
Record Faker : Type := MkFaker
  { word : nat → string;
    email : nat → string;
    sentence : nat → nat → string;
    phone_number : nat → string;
    street_name : nat → string;
    date_between : string → string → nat → Z;
    date_time_between : string → string → nat → Z }.

Section Generator.

(** The Faker instance, [date.today()] and Python's [str] on values. *)
Context (fake : Faker) (today : Z) (str_of : value → string).

Definition faker {A} (provider : Faker → nat → A) : M A :=
  k ← draw; mret (provider fake k).

(** ** Unique text registry *)

Definition seen_of (key : string * string) : M (list string) := λ w,
  Ok (default [] (_UNIQUE_SEEN w !! key), w).

Definition seen_put (key : string * string) (seen : list string) : M unit := λ w,
  Ok (tt, World (tape w) (pos w) (<[key := seen]> (_UNIQUE_SEEN w))
                (_UNIQUE_POOL_STATE w) (_ROW_LOCATION w)).

(** [for _ in range(max_tries)]; falling off the end returns [None]. *)
Fixpoint unique_text_loop (key : string * string) (make_value : M string)
    (max_tries : nat) : M (option string) :=
  match max_tries with
  | O => mret None
  | S n =>
    s ← make_value;
    let v := strip s in
    seen ← seen_of key;
    if negb (bool_decide (v = "")) && negb (bool_decide (v ∈ seen))
    then _ ← seen_put key (seen ++ [v]); mret (Some v)
    else unique_text_loop key make_value n
  end.

Definition unique_text_tries (key : string * string) (make_value : M string)
    (max_tries : nat) : M (option string) :=
  seen ← seen_of key;
  _ ← seen_put key seen;
  unique_text_loop key make_value max_tries.

Definition default_max_tries : nat := Z.to_nat 200000.

Definition unique_text (key : string * string) (make_value : M string)
    : M (option string) :=
  unique_text_tries key make_value default_max_tries.

(** Every candidate that [make_value] produces during [n] tries, starting
    in [w], is empty or was already issued for [key]. *)
Fixpoint exhausted (key : string * string) (make_value : M string) (n : nat)
    (w : world) : Prop :=
  match n with
  | O => True
  | S n =>
    ∃ s w', make_value w = Ok (s, w') ∧
      (strip s = "" ∨ strip s ∈ default [] (_UNIQUE_SEEN w' !! key)) ∧
      exhausted key make_value n w'
  end.

(** The world after [_UNIQUE_SEEN.setdefault(key, set())]. *)
Definition setdefault_seen (key : string * string) (w : world) : world :=
  World (tape w) (pos w)
        (<[key := default [] (_UNIQUE_SEEN w !! key)]> (_UNIQUE_SEEN w))
        (_UNIQUE_POOL_STATE w) (_ROW_LOCATION w).

Definition pool_state (key : string * string) : M (option (list string)) := λ w,
  Ok (_UNIQUE_POOL_STATE w !! key, w).

Definition pool_put (key : string * string) (pool : list string) : M unit := λ w,
  Ok (tt, World (tape w) (pos w) (_UNIQUE_SEEN w)
                (<[key := pool]> (_UNIQUE_POOL_STATE w)) (_ROW_LOCATION w)).

Definition slice_opt (maxlen : option Z) (s : string) : string :=
  match maxlen with
  | Some n => slice_to n s
  | None => s
  end.

Definition unique_choice_from_pool (key : string * string) (base_list : list string)
    (maxlen : option Z) : M string :=
  st ← pool_state key;
  pool ← match st with
         | Some pool => mret pool
         | None => pool ← random.shuffle base_list; _ ← pool_put key pool; mret pool
         end;
  v ← match last pool with
      | Some v => _ ← pool_put key (removelast pool); mret v
      | None => b ← random.choice base_list; h ← uuid_hex6; mret (b +:+ "_" +:+ h)
      end;
  mret (slice_opt maxlen v).

(** ** Row locations *)

Definition location_of (key : string * Z) : M (option location) := λ w,
  Ok (_ROW_LOCATION w !! key, w).

Definition location_put (key : string * Z) (loc : location) : M unit := λ w,
  Ok (tt, World (tape w) (pos w) (_UNIQUE_SEEN w) (_UNIQUE_POOL_STATE w)
                (<[key := loc]> (_ROW_LOCATION w))).

Definition get_row_location (table : string) (row_idx : Z) : M location :=
  let key := (lower table, row_idx) in
  cached ← location_of key;
  match cached with
  | Some loc => mret loc
  | None =>
    '(c, st, co, pfx, tz) ← random.choice LOCATION_POOL;
    code ← (if bool_decide (co = "US") then
              n ← random.randint 0 999; mret (pfx +:+ zero_pad 3 (Z.to_nat n))
            else if String.length pfx =? 3 then
              n ← random.randint 0 999; mret (pfx +:+ zero_pad 3 (Z.to_nat n))
            else
              n ← random.randint 0 9999; mret (pfx +:+ zero_pad 4 (Z.to_nat n)));
    num ← random.randint 10 9999;
    street ← faker street_name;
    apt ← random.randint 1 999;
    suite ← random.randint 100 1999;
    s2 ← random.choice [None; Some ("Apt " +:+ pretty apt); Some ("Suite " +:+ pretty suite)];
    let loc := Location c st co pfx tz code (pretty num +:+ " " +:+ street) s2 in
    _ ← location_put key loc;
    mret loc
  end.

(** ** Value generator *)

Definition INT_TYPES : list string := ["integer"; "bigint"; "smallint"].

Definition TEXT_TYPES : list string := ["character varying"; "character"; "text"].

(** [x or d] on an optional integer. *)
Definition or_default (x : option Z) (d : Z) : Z :=
  match x with
  | Some n => if (n =? 0)%Z then d else n
  | None => d
  end.

(** [unique_text(...)[:maxlen]]: slicing [None] raises [TypeError]. *)
Definition sliced (maxlen : Z) (m : M (option string)) : M value :=
  r ← m;
  match r with
  | Some s => mret (VStr (slice_to maxlen s))
  | None => raise TypeError
  end.

Definition generate_text (col : ColumnInfo.t) (row_idx : Z) (name : string) : M value :=
  let maxlen := or_default (ColumnInfo.char_max_len col) 255 in
  let key := (ColumnInfo.table col, ColumnInfo.column col) in
  if one_of name ["city"; "state"; "country"; "postal_code"; "zipcode"; "zip"]
     || contains "timezone" name
     || one_of name ["address_line1"; "address_line2"; "street"; "street1"; "street2"]
  then
    loc ← get_row_location (ColumnInfo.table col) row_idx;
    if contains "timezone" name then mret (VStr (slice_to maxlen (timezone loc)))
    else if one_of name ["city"] then mret (VStr (slice_to maxlen (city loc)))
    else if one_of name ["state"] then mret (VStr (slice_to maxlen (state loc)))
    else if one_of name ["country"] then mret (VStr (slice_to maxlen (country loc)))
    else if one_of name ["postal_code"; "zipcode"; "zip"]
    then mret (VStr (slice_to maxlen (postal_code loc)))
    else if one_of name ["address_line1"; "street"; "street1"]
    then mret (VStr (slice_to maxlen (street1 loc)))
    else mret (VStr (slice_to maxlen (default "" (street2 loc))))
  else if bool_decide (lower (ColumnInfo.table col) = "hotel")
          && one_of name ["name"; "hotel_name"]
  then
    brand ← random.choice HOTEL_BRANDS;
    loc ← get_row_location (ColumnInfo.table col) row_idx;
    suffix ← random.choice ["Hotel"; "Resort"; "Suites"; "Inn"];
    mret (VStr (slice_to maxlen (brand +:+ " " +:+ city loc +:+ " " +:+ suffix)))
  else if bool_decide (lower (ColumnInfo.table col) = "room_type")
          && one_of name ["name"; "room_type_name"]
  then v ← unique_choice_from_pool key ROOM_TYPE_NAMES (Some maxlen); mret (VStr v)
  else if one_of name ["phone"; "phone_number"]
  then p ← faker phone_number; mret (VStr (slice_to maxlen p))
  else if one_of name ["currency"; "currency_code"]
  then c ← random.choice ["USD"; "INR"]; mret (VStr (slice_to maxlen c))
  else if one_of name ["state_code"; "state_abbr"]
  then loc ← get_row_location (ColumnInfo.table col) row_idx;
       mret (VStr (slice_to maxlen (state loc)))
  else if contains "timezone" name
  then mret (VStr (slice_to maxlen "America/New_York"))
  else if bool_decide (name = "email")
  then sliced maxlen (unique_text key (faker email))
  else if endswith "_name" name || one_of name ["name"; "code"]
  then sliced maxlen
         (unique_text key (w ← faker word; h ← uuid_hex6; mret (title w +:+ "_" +:+ h)))
  else if contains "timezone" name
  then mret (VStr (slice_to maxlen "America/New_York"))
  else if (maxlen <=? 20)%Z
  then w ← faker word; mret (VStr (slice_to maxlen w))
  else if (maxlen <=? 80)%Z
  then t ← faker (λ f, sentence f 6); mret (VStr (slice_to maxlen t))
  else t ← faker (λ f, sentence f 10); mret (VStr (slice_to maxlen t)).

Definition generate_numeric (col : ColumnInfo.t) (name : string) : M value :=
  let scale := Z.to_nat (or_default (ColumnInfo.numeric_scale col) 2) in
  if contains "percent" name || endswith "_pct" name || endswith "pct" name
  then random.uniform_round 0 100 scale
  else if contains "ratio" name || contains "fraction" name
  then random.uniform_round 0 1 scale
  else if bool_decide (lower (ColumnInfo.table col) = "promotion")
          && one_of name ["value"; "discount_value"; "discount_amount"; "discount"]
  then random.uniform_round 5 50 scale
  else if any_in ["amount"; "price"; "rate"; "cost"; "fee"; "total"; "tax"] name
  then random.uniform_round 20 2000 scale
  else random.uniform_round 0 1000 scale.

Definition generate_int (row_idx : Z) (name : string) : M value :=
  if endswith "_id" name then mret (VInt row_idx)
  else if bool_decide (name = "score") then VInt <$> random.randint 1 5
  else if any_in ["rating"; "stars"; "score"] name then VInt <$> random.randint 1 5
  else if any_in ["count"; "qty"; "quantity"; "nights"; "floor"; "occupancy"] name
  then VInt <$> random.randint 1 10
  else VInt <$> random.randint 1 100000.

Definition generate_value (col : ColumnInfo.t) (row_idx : Z)
    (enums : gmap string (list string)) : M value :=
  let name := lower (ColumnInfo.column col) in
  let dt := lower (ColumnInfo.data_type col) in
  let udt := lower (ColumnInfo.udt_name col) in
  match enums !! udt with
  | Some labels =>
    null ← (if ColumnInfo.is_nullable col then random.below 3 else mret false) : M bool;
    if null : bool then mret VNone else VStr <$> random.choice labels
  | None =>
    if one_of name ["created_at"; "updated_at"; "loaded_at"; "ingested_at"]
    then
      base ← faker (λ f, date_time_between f "-2y" "now");
      if bool_decide (name = "updated_at")
      then d ← random.randint 0 180; mret (VDateTime (base + 86400 * d))
      else mret (VDateTime base)
    else if bool_decide (dt = "date")
    then VDate <$> faker (λ f, date_between f "-2y" "+1y")
    else if one_of dt ["timestamp without time zone"; "timestamp with time zone"]
            || one_of udt ["timestamp"; "timestamptz"]
    then VDateTime <$> faker (λ f, date_time_between f "-2y" "now")
    else if one_of dt INT_TYPES || one_of udt ["int2"; "int4"; "int8"]
    then generate_int row_idx name
    else if bool_decide (dt = "uuid") || bool_decide (udt = "uuid")
    then VStr <$> uuid4
    else if bool_decide (dt = "boolean")
    then VBool <$> (if contains "is_" name || endswith "_flag" name
                    then random.below 85 else random.below 50)
    else if one_of dt ["numeric"; "decimal"] || bool_decide (udt = "numeric")
    then generate_numeric col name
    else if one_of dt TEXT_TYPES
    then generate_text col row_idx name
    else mret VNone
  end.

(** ** Pieces shared by the assemblers *)

(** [{c.column.lower(): c.column for c in cols}] *)
Definition col_lc_of (cols : list ColumnInfo.t) : gmap string string :=
  foldl (λ m c, <[lower (ColumnInfo.column c) := ColumnInfo.column c]> m) ∅ cols.

(** [a or b] on optional strings. *)
Definition str_or (a b : option string) : option string :=
  if truthy a then a else b.

(** [w.writerow([row.get(cn) for cn in colnames])], before CSV encoding. *)
Definition writerow (cols : list ColumnInfo.t) (row : gmap string value) : list value :=
  map (λ c, default VNone (row !! ColumnInfo.column c)) cols.

(** [rows[:n_rows]] *)
Definition rows_to {A} (n_rows : Z) (rows : list A) : list A :=
  if (0 <=? n_rows)%Z then take (Z.to_nat n_rows) rows
  else take (length rows - Z.to_nat (- n_rows)) rows.

Definition len {A} (l : list A) : Z := Z.of_nat (length l).

(** [random.choice(candidates) if candidates else (None if c.is_nullable else 1)] *)
Definition fk_choice (ref_ids : gmap string (list value)) (parent_table : string)
    (c : ColumnInfo.t) : M value :=
  let candidates := default [] (ref_ids !! parent_table) in
  match candidates with
  | [] => mret (if ColumnInfo.is_nullable c then VNone else VInt 1)
  | _ => random.choice candidates
  end.

(** One iteration of the [for c in cols] loop of the junction assemblers. *)
Definition fill_column (table_lc : string)
    (fk_map : gmap (string * string) (string * string))
    (ref_ids : gmap string (list value)) (enums : gmap string (list string))
    (idx : Z) (row : gmap string value) (c : ColumnInfo.t) : M (gmap string value) :=
  if bool_decide (is_Some (row !! ColumnInfo.column c)) then mret row
  else
    match fk_map !! (table_lc, ColumnInfo.column c) with
    | Some (parent_table, _) =>
      v ← fk_choice ref_ids parent_table c;
      mret (<[ColumnInfo.column c := v]> row)
    | None =>
      v ← generate_value c idx enums;
      v ← (if is_none v && negb (ColumnInfo.is_nullable c)
           then if one_of (lower (ColumnInfo.data_type c)) INT_TYPES
                then mret (VInt 1)
                else h ← uuid_hex6; mret (VStr ("VAL_" +:+ h))
           else mret v);
      mret (<[ColumnInfo.column c := v]> row)
    end.

Definition fill_row (table_lc : string)
    (fk_map : gmap (string * string) (string * string))
    (ref_ids : gmap string (list value)) (enums : gmap string (list string))
    (cols : list ColumnInfo.t) (idx : Z) (row : gmap string value)
    : M (gmap string value) :=
  foldM (fill_column table_lc fk_map ref_ids enums idx) row cols.

(** [seen] and [rows] of a junction assembler. *)
Definition junction : Type := list (value * value) * list (gmap string value).

(** ** Single-column uniqueness and the non-null sentinel *)

Definition set_row (row : gmap string value) (st : Locals.t) : Locals.t :=
  Locals.mk row (Locals.v st) (Locals.seen_uniques st) (Locals.pk_vals st).

Definition set_v (v : value) (st : Locals.t) : Locals.t :=
  Locals.mk (Locals.row st) (Some v) (Locals.seen_uniques st) (Locals.pk_vals st).

Definition set_seen (column : string) (seen : list value) (st : Locals.t) : Locals.t :=
  Locals.mk (Locals.row st) (Locals.v st)
            (<[column := seen]> (Locals.seen_uniques st)) (Locals.pk_vals st).

Definition read_v (st : Locals.t) : M value :=
  match Locals.v st with
  | Some v => mret v
  | None => raise (UnboundLocalError "v")
  end.

(** Attribute access on a [ColumnInfo] for the integer-valued fields. *)
Definition getattr (c : ColumnInfo.t) (attr : string) : M (option Z) :=
  if bool_decide (attr = "char_max_len") then mret (ColumnInfo.char_max_len c)
  else if bool_decide (attr = "numeric_precision") then mret (ColumnInfo.numeric_precision c)
  else if bool_decide (attr = "numeric_scale") then mret (ColumnInfo.numeric_scale c)
  else raise (AttributeError attr).

(** [while v in seen_uniques[c.column] and tries < max_tries] *)
Fixpoint retry_unique (c : ColumnInfo.t) (i : Z) (enums : gmap string (list string))
    (seen : list value) (budget : nat) (tries : Z) (v : value) : M (value * Z) :=
  if py_in v seen then
    match budget with
    | O => mret (v, tries)
    | S budget =>
      v' ← generate_value c (i + (tries + 1)) enums;
      retry_unique c i enums seen budget (tries + 1) v'
    end
  else mret (v, tries).

(** "Force uniqueness deterministically as a last resort". *)
Definition force_unique (c : ColumnInfo.t) (i tries : Z) (v : value) : M value :=
  match v with
  | VStr s =>
    suffix ← uuid_hex6;
    maxlen ← getattr c "character_maximum_length";
    let maxlen := or_default maxlen 255 in
    let keep := (1 `max` (maxlen - (1 + Z.of_nat (String.length suffix))))%Z in
    mret (VStr (slice_to maxlen (slice_to keep s +:+ "_" +:+ suffix)))
  | VInt z => mret (VInt (z + i * 1000 + tries))
  | VBool b => mret (VInt (Z.b2z b + i * 1000 + tries))
  | _ => h ← uuid_hex6; mret (VStr (str_of v +:+ "_" +:+ h))
  end.

(** Body of [if c.column in seen_uniques and v is not None]. *)
Definition enforce_unique (c : ColumnInfo.t) (i : Z) (enums : gmap string (list string))
    (v : value) (seen : list value) : M (value * list value) :=
  '(v, tries) ← retry_unique c i enums seen 50 0 v;
  v ← (if py_in v seen then force_unique c i tries v else mret v);
  mret (v, set_add v seen).

Definition unique_block (c : ColumnInfo.t) (i : Z) (enums : gmap string (list string))
    (st : Locals.t) : M Locals.t :=
  match Locals.seen_uniques st !! ColumnInfo.column c with
  | Some seen =>
    v ← read_v st;
    if is_none v then mret st
    else
      '(v, seen) ← enforce_unique c i enums v seen;
      mret (set_seen (ColumnInfo.column c) seen (set_v v st))
  | None => mret st
  end.

(** Body of [if v is None and not c.is_nullable]. *)
Definition sentinel (c : ColumnInfo.t) (v : value) : M value :=
  if is_none v && negb (ColumnInfo.is_nullable c) then
    let dt := lower (ColumnInfo.data_type c) in
    if one_of dt TEXT_TYPES then
      r ← unique_text (ColumnInfo.table c, ColumnInfo.column c)
            (h ← uuid_hex6; mret ("VAL_" +:+ h));
      mret (from_option VStr VNone r)
    else if one_of dt INT_TYPES then mret (VInt 1)
    else if bool_decide (dt = "boolean") then mret (VBool false)
    else if bool_decide (dt = "date") then mret (VDate today)
    else mret (VStr "VAL")
  else mret v.

(** [row[col] = x] guarded by [if col:]. *)
Definition put (col : option string) (x : value) (row : gmap string value)
    : gmap string value :=
  match col with
  | Some name => if truthy col then <[name := x]> row else row
  | None => row
  end.

(** The post-assembly repair of an ordered pair of columns: when both
    values are present and [hi < lo], [hi] becomes [lo + timedelta(days=1)]. *)
Definition repair_order (lo_col hi_col : option string)
    (row : gmap string value) : M (gmap string value) :=
  match lo_col, hi_col with
  | Some lo, Some hi =>
    if truthy lo_col && truthy hi_col then
      match default VNone (row !! lo), default VNone (row !! hi) with
      | VNone, _ | _, VNone => mret row
      | VDateTime ci, VDateTime co =>
        mret (if (co <? ci)%Z then <[hi := VDateTime (ci + 86400)]> row else row)
      | VDate ci, VDate co =>
        mret (if (co <? ci)%Z then <[hi := VDate (ci + 1)]> row else row)
      | _, _ => raise TypeError
      end
    else mret row
  | _, _ => mret row
  end.

(** ** stay: status-dependent timestamps *)

Section Stay.
Context (table : string) (cols : list ColumnInfo.t).
Context (fk_map : gmap (string * string) (string * string)).
Context (ref_ids : gmap string (list value)) (n_rows : Z).
Context (enums : gmap string (list string)).
Context (uniq_cols_in_table : gset string).

Definition _register_unique (col : string) (val : value) (st : Locals.t)
    : bool * Locals.t :=
  if is_none val then (true, st)
  else
    match Locals.seen_uniques st !! col with
    | None => (true, st)
    | Some s => if py_in val s then (false, st) else (true, set_seen col (s ++ [val]) st)
    end.

(** [for _ in range(50): if _register_unique(c.column, v): break; v = ...] *)
Fixpoint register_loop (n : nat) (c : ColumnInfo.t) (i : Z) (st : Locals.t) : M Locals.t :=
  match n with
  | O => mret st
  | S n =>
    v ← read_v st;
    let '(ok, st) := _register_unique (ColumnInfo.column c) v st in
    if ok then mret st
    else v' ← generate_value c i enums; register_loop n c i (set_v v' st)
  end.

(** One iteration of [for c in cols]. *)
Definition stay_column (i : Z) (st : Locals.t) (c : ColumnInfo.t) : M Locals.t :=
  if bool_decide (is_Some (Locals.row st !! ColumnInfo.column c)) then mret st
  else
    st ← match fk_map !! (lower table, ColumnInfo.column c) with
         | Some (parent_table, _) =>
           x ← fk_choice ref_ids parent_table c;
           mret (set_row (<[ColumnInfo.column c := x]> (Locals.row st)) st)
         | None => v ← generate_value c i enums; mret (set_v v st)
         end;
    st ← unique_block c i enums st;
    v ← read_v st;
    v ← sentinel c v;
    st ← (if bool_decide (ColumnInfo.column c ∈ uniq_cols_in_table)
          then register_loop 50 c i (set_v v st)
          else mret (set_v v st));
    st ← unique_block c i enums st;
    v ← read_v st;
    mret (set_row (<[ColumnInfo.column c := v]> (Locals.row st)) st).

Context (booking_id_col status_col aci_col aco_col : option string).
Context (is_booking_unique : bool) (booking_ids : list value).
Context (stay_status_choices : list string).

(** One iteration of [for i in range(1, n_rows + 1)]: the row that is
    written is [Locals.row] of the result. *)
Definition stay_row (i : Z) (st : Locals.t) : M Locals.t :=
  let row : gmap string value := ∅ in
  row ← (if truthy booking_id_col then
           x ← (if is_booking_unique then
                  match booking_ids !! Z.to_nat (i - 1) with
                  | Some b => mret b
                  | None => raise IndexError
                  end
                else
                  match booking_ids with
                  | [] => mret (VInt 1)
                  | _ => random.choice booking_ids
                  end);
           mret (put booking_id_col x row)
         else mret row);
  '(scenario, row) ←
    (if truthy status_col && negb (bool_decide (stay_status_choices = [])) then
       sc ← random.choice stay_status_choices;
       mret (Some sc, put status_col (VStr sc) row)
     else mret (None, row));
  let s := upper (default "" scenario) in
  let is_cancel := contains "CANCEL" s in
  let is_out := contains "OUT" s in
  let is_in := contains "IN" s && negb is_out in
  row ← (if is_cancel then mret (put aco_col VNone (put aci_col VNone row))
         else if is_out then
           ci ← faker (λ f, date_time_between f "-180d" "now");
           d ← random.randint 1 10;
           h ← random.randint 0 6;
           m ← random.randint 0 59;
           let co := (ci + (86400 * d + 3600 * h + 60 * m))%Z in
           mret (put aco_col (VDateTime co) (put aci_col (VDateTime ci) row))
         else if is_in then
           ci ← faker (λ f, date_time_between f "-180d" "now");
           mret (put aco_col VNone (put aci_col (VDateTime ci) row))
         else mret (put aco_col VNone (put aci_col VNone row)));
  st ← foldM (stay_column i) (set_row row st) cols;
  row ← repair_order aci_col aco_col (Locals.row st);
  mret (set_row row st).

End Stay.

(** What C6 asks of a written stay row: a status containing CANCEL comes
    with null timestamps, and the two timestamps are never both present
    with check-out before check-in. *)
Definition stay_row_ok (status_col aci_col aco_col : option string)
    (row : gmap string value) : Prop :=
  (∀ sc s, status_col = Some sc → row !! sc = Some (VStr s) →
     contains "CANCEL" (upper s) = true →
     (∀ a, aci_col = Some a → row !! a = Some VNone) ∧
     (∀ o, aco_col = Some o → row !! o = Some VNone)) ∧
  (∀ a o, aci_col = Some a → aco_col = Some o →
     row !! a = Some VNone ∨ row !! o = Some VNone ∨
     ∃ ci co, row !! a = Some (VDateTime ci) ∧ row !! o = Some (VDateTime co)
              ∧ (ci ≤ co)%Z).

Definition generate_stay_csv (table : string)
    (cols : list ColumnInfo.t) (fk_map : gmap (string * string) (string * string))
    (ref_ids : gmap string (list value)) (n_rows : Z)
    (enums : gmap string (list string)) (unique_cols : gmap string (gset string))
    : M (list (list value)) :=
  let col_lc := col_lc_of cols in
  let table_lc := lower table in
  let booking_id_col := col_lc !! "booking_id" in
  let status_col := str_or (col_lc !! "stay_status") (col_lc !! "status") in
  let aci_col := col_lc !! "actual_checkin_at" in
  let aco_col := col_lc !! "actual_checkout_at" in
  let booking_ids := default [] (ref_ids !! "booking") in
  let uniq_cols_in_table := default ∅ (unique_cols !! table_lc) in
  let is_booking_unique :=
    truthy booking_id_col && bool_decide (default "" booking_id_col ∈ uniq_cols_in_table) in
  booking_ids ←
    (if is_booking_unique then
       if (len booking_ids <? n_rows)%Z then
         raise (RuntimeError
           (table_lc +:+ "." +:+ dq +:+ default "" booking_id_col +:+ dq
            +:+ " is UNIQUE but only " +:+ pretty (len booking_ids)
            +:+ " booking ids exist for requested n_rows=" +:+ pretty n_rows +:+ "."))
       else random.shuffle booking_ids
     else mret booking_ids);
  let status_ci :=
    find (λ c, bool_decide (ColumnInfo.column c = default "" status_col)) cols in
  let stay_status_choices :=
    match status_ci with
    | Some c => default [] (enums !! lower (ColumnInfo.udt_name c))
    | None => []
    end in
  let seen_uniques : gmap string (list value) := gset_to_gmap [] uniq_cols_in_table in
  '(rows, _) ←
    foldM (λ '(rows, st) i,
             st ← stay_row table cols fk_map ref_ids enums uniq_cols_in_table
                    booking_id_col status_col aci_col aco_col
                    is_booking_unique booking_ids stay_status_choices i st;
             mret (rows ++ [writerow cols (Locals.row st)], st))
          ([], Locals.mk ∅ None seen_uniques []) (seqZ 1 n_rows);
  mret rows.

(** ** booking_room: UNIQUE(booking_id, room_id) *)

Section Junction.
Context (table : string) (cols : list ColumnInfo.t).
Context (fk_map : gmap (string * string) (string * string)).
Context (ref_ids : gmap string (list value)) (n_rows : Z).
Context (enums : gmap string (list string)).
Context (first_col second_col : string) (second_ids : list value).

(** [seen.add(pair)], the new row filled from [cols], [rows.append(row)]. *)
Definition add_pair (a b : value) (st : junction) : M junction :=
  row ← fill_row (lower table) fk_map ref_ids enums cols (len st.2 + 1)
          (<[second_col := b]> {[first_col := a]});
  mret (st.1 ++ [(a, b)], st.2 ++ [row]).

(** [for _ in range(k)]: draw a partner, skip a pair already seen, stop
    once [n_rows] rows exist. *)
Fixpoint pairs_inner (k : nat) (a : value) (st : junction) : M junction :=
  match k with
  | O => mret st
  | S k =>
    b ← random.choice second_ids;
    if pair_in (a, b) st.1 then pairs_inner k a st
    else
      st' ← add_pair a b st;
      if (n_rows <=? len st'.2)%Z then mret st' else pairs_inner k a st'
  end.

(** [while len(rows) < n_rows] of [generate_booking_room_csv]. *)
Fixpoint booking_room_loop (fuel : nat) (booking_ids : list value) (i : nat)
    (st : junction) : M junction :=
  if (len st.2 <? n_rows)%Z then
    match fuel with
    | O => out_of_fuel
    | S fuel =>
      match booking_ids !! (i mod length booking_ids) with
      | Some b =>
        rooms_for_booking ← random.randint 1 3;
        st' ← pairs_inner (Z.to_nat rooms_for_booking) b st;
        booking_room_loop fuel booking_ids (i + 1) st'
      | None => raise IndexError
      end
    end
  else mret st.

(** [for p2 in promo_ids] of the deterministic fill. *)
Fixpoint product_inner (ids : list value) (a : value) (st : junction) : M junction :=
  match ids with
  | [] => mret st
  | b :: ids =>
    if (n_rows <=? len st.2)%Z then mret st
    else if pair_in (a, b) st.1 then product_inner ids a st
    else st' ← add_pair a b st; product_inner ids a st'
  end.

(** [for b2 in booking_ids] of the deterministic fill. *)
Fixpoint product_fill (first_ids : list value) (st : junction) : M junction :=
  match first_ids with
  | [] => mret st
  | a :: first_ids =>
    st' ← product_inner second_ids a st;
    if (n_rows <=? len st'.2)%Z then mret st' else product_fill first_ids st'
  end.

(** [while len(rows) < n_rows] of [generate_booking_discount_csv]. *)
Fixpoint booking_discount_loop (fuel : nat) (booking_ids : list value) (i : Z)
    (st : junction) : M junction :=
  if (len st.2 <? n_rows)%Z then
    match fuel with
    | O => out_of_fuel
    | S fuel =>
      match booking_ids !! (Z.to_nat i mod length booking_ids) with
      | Some b =>
        promos_for_booking ← random.randint 0 2;
        if (promos_for_booking =? 0)%Z
        then booking_discount_loop fuel booking_ids (i + 1) st
        else
          st ← pairs_inner (Z.to_nat promos_for_booking) b st;
          let i := (i + 1)%Z in
          st ← (if (n_rows * 20 <? i)%Z && (len st.2 <? n_rows)%Z
                then product_fill booking_ids st else mret st);
          booking_discount_loop fuel booking_ids i st
      | None => raise IndexError
      end
    end
  else mret st.

(** [for cid in random.sample(category_ids, k=k)] *)
Fixpoint review_inner (cids : list value) (rid : value) (st : junction) : M junction :=
  match cids with
  | [] => mret st
  | cid :: cids =>
    if (n_rows <=? len st.2)%Z then mret st
    else if pair_in (rid, cid) st.1 then review_inner cids rid st
    else st' ← add_pair rid cid st; review_inner cids rid st'
  end.

(** [while len(rows) < n_rows] of [generate_review_score_csv]; the
    deterministic fill is followed by [break]. *)
Fixpoint review_score_loop (fuel : nat) (review_ids : list value) (i : Z)
    (st : junction) : M junction :=
  if (len st.2 <? n_rows)%Z then
    match fuel with
    | O => out_of_fuel
    | S fuel =>
      match review_ids !! (Z.to_nat i mod length review_ids) with
      | Some rid =>
        k ← random.randint 1 (5 `min` len second_ids);
        cids ← random.sample second_ids (Z.to_nat k);
        st ← review_inner cids rid st;
        let i := (i + 1)%Z in
        if (n_rows * 10 <? i)%Z && (len st.2 <? n_rows)%Z
        then product_fill review_ids st
        else review_score_loop fuel review_ids i st
      | None => raise IndexError
      end
    end
  else mret st.

End Junction.

Definition generate_booking_room_csv (fuel : nat) (table : string)
    (cols : list ColumnInfo.t) (fk_map : gmap (string * string) (string * string))
    (ref_ids : gmap string (list value)) (n_rows : Z)
    (enums : gmap string (list string)) : M (list (list value)) :=
  let col_lc := col_lc_of cols in
  let booking_ids := default [] (ref_ids !! "booking") in
  let room_ids := default [] (ref_ids !! "room") in
  if bool_decide (booking_ids = []) || bool_decide (room_ids = [])
  then raise (RuntimeError
                "booking_room needs booking and room ids available before generation.")
  else
    match col_lc !! "booking_id", col_lc !! "room_id" with
    | Some booking_id_col, Some room_id_col =>
      if negb (truthy (Some booking_id_col)) || negb (truthy (Some room_id_col))
      then raise (RuntimeError "booking_room expected columns booking_id and room_id.")
      else
        booking_ids ← random.shuffle booking_ids;
        st ← booking_room_loop table cols fk_map ref_ids n_rows enums
               booking_id_col room_id_col room_ids fuel booking_ids 0 ([], []);
        mret (writerow cols <$> rows_to n_rows st.2)
    | _, _ => raise (RuntimeError "booking_room expected columns booking_id and room_id.")
    end.

(** ** room_night: UNIQUE(room_id, night_date) *)

Definition total_days : nat := 1095.

Section RoomNight.
Context (table : string) (cols : list ColumnInfo.t).
Context (fk_map : gmap (string * string) (string * string)).
Context (ref_ids : gmap string (list value)) (n_rows : Z).
Context (enums : gmap string (list string)).
Context (room_id_col night_date_col : string) (per_room : Z).

(** [for off in offsets] *)
Fixpoint room_night_inner (offsets : list nat) (rid : value) (st : junction) : M junction :=
  match offsets with
  | [] => mret st
  | off :: offsets =>
    let nd := VDate (today - 730 + Z.of_nat off) in
    if pair_in (rid, nd) st.1 then room_night_inner offsets rid st
    else
      row ← fill_row (lower table) fk_map ref_ids enums cols (len st.2 + 1)
              (<[night_date_col := nd]> {[room_id_col := rid]});
      let st' := (st.1 ++ [(rid, nd)], st.2 ++ [row]) in
      if (n_rows <=? len st'.2)%Z then mret st' else room_night_inner offsets rid st'
  end.

(** [for rid in room_ids] *)
Fixpoint room_night_loop (room_ids : list value) (st : junction) : M junction :=
  match room_ids with
  | [] => mret st
  | rid :: room_ids =>
    if (n_rows <=? len st.2)%Z then mret st
    else
      let k := Z.to_nat (per_room `min` Z.of_nat total_days) in
      offsets ← random.sample (seq 0 total_days) k;
      st' ← room_night_inner offsets rid st;
      room_night_loop room_ids st'
  end.

End RoomNight.

Definition generate_room_night_csv (table : string)
    (cols : list ColumnInfo.t) (fk_map : gmap (string * string) (string * string))
    (ref_ids : gmap string (list value)) (n_rows : Z)
    (enums : gmap string (list string)) : M (list (list value)) :=
  let col_lc := col_lc_of cols in
  let room_ids := default [] (ref_ids !! "room") in
  if bool_decide (room_ids = [])
  then raise (RuntimeError "room_night needs room ids available before generation.")
  else
    match col_lc !! "room_id", col_lc !! "night_date" with
    | Some room_id_col, Some night_date_col =>
      if negb (truthy (Some room_id_col)) || negb (truthy (Some night_date_col))
      then raise (RuntimeError "room_night expected columns room_id and night_date.")
      else
        let per_room := (1 `max` (n_rows `div` len room_ids))%Z in
        room_ids ← random.shuffle room_ids;
        st ← room_night_loop table cols fk_map ref_ids n_rows enums
               room_id_col night_date_col per_room room_ids ([], []);
        mret (writerow cols <$> rows_to n_rows st.2)
    | _, _ => raise (RuntimeError "room_night expected columns room_id and night_date.")
    end.

(** ** booking_discount: UNIQUE(booking_id, promotion_id) *)

Definition generate_booking_discount_csv (fuel : nat) (table : string)
    (cols : list ColumnInfo.t) (fk_map : gmap (string * string) (string * string))
    (ref_ids : gmap string (list value)) (n_rows : Z)
    (enums : gmap string (list string)) : M (list (list value)) :=
  let col_lc := col_lc_of cols in
  let booking_id_col := col_lc !! "booking_id" in
  let promo_id_col := str_or (col_lc !! "promotion_id") (col_lc !! "promo_id") in
  match booking_id_col, promo_id_col with
  | Some booking_id_name, Some promo_id_name =>
    if negb (truthy booking_id_col) || negb (truthy promo_id_col)
    then raise (RuntimeError "booking_discount expected booking_id and promotion_id columns.")
    else
      let booking_ids := default [] (ref_ids !! "booking") in
      let promo_ids := default [] (ref_ids !! "promotion") in
      if bool_decide (booking_ids = []) || bool_decide (promo_ids = [])
      then raise (RuntimeError "booking_discount needs booking + promotion ids loaded first.")
      else
        booking_ids ← random.shuffle booking_ids;
        let max_pairs := (len booking_ids * len promo_ids)%Z in
        if (max_pairs <? n_rows)%Z
        then raise (RuntimeError
               ("Requested " +:+ pretty n_rows +:+ " booking_discount rows but only "
                +:+ pretty max_pairs
                +:+ " unique (booking_id,promotion_id) pairs exist."))
        else
          st ← booking_discount_loop table cols fk_map ref_ids n_rows enums
                 booking_id_name promo_id_name promo_ids fuel booking_ids 0 ([], []);
          mret (writerow cols <$> rows_to n_rows st.2)
  | _, _ => raise (RuntimeError "booking_discount expected booking_id and promotion_id columns.")
  end.

(** ** review_score: UNIQUE(review_id, review_category_id) *)

Definition generate_review_score_csv (fuel : nat) (table : string)
    (cols : list ColumnInfo.t) (fk_map : gmap (string * string) (string * string))
    (ref_ids : gmap string (list value)) (n_rows : Z)
    (enums : gmap string (list string)) : M (list (list value)) :=
  let col_lc := col_lc_of cols in
  let review_id_col := col_lc !! "review_id" in
  let category_id_col := str_or (col_lc !! "review_category_id") (col_lc !! "category_id") in
  match review_id_col, category_id_col with
  | Some review_id_name, Some category_id_name =>
    if negb (truthy review_id_col) || negb (truthy category_id_col)
    then raise (RuntimeError "review_score expected review_id and review_category_id columns.")
    else
      let review_ids := default [] (ref_ids !! "review") in
      let category_ids := default [] (ref_ids !! "review_category") in
      if bool_decide (review_ids = []) || bool_decide (category_ids = [])
      then raise (RuntimeError "review_score needs review + review_category ids loaded first.")
      else
        let max_pairs := (len review_ids * len category_ids)%Z in
        if (max_pairs <? n_rows)%Z
        then raise (RuntimeError
               ("Requested " +:+ pretty n_rows +:+ " review_score rows but only "
                +:+ pretty max_pairs
                +:+ " unique (review_id,review_category_id) pairs exist."))
        else
          review_ids ← random.shuffle review_ids;
          st ← review_score_loop table cols fk_map ref_ids n_rows enums
                 review_id_name category_id_name category_ids fuel review_ids 0 ([], []);
          mret (writerow cols <$> st.2)
  | _, _ => raise (RuntimeError "review_score expected review_id and review_category_id columns.")
  end.

(** ** The generic column loop (default path and booking) *)

(** [pk.columns[0] if (pk and len(pk.columns) == 1) else None] *)
Definition pk_col_of (pk : option PrimaryKey.t) : option string :=
  match pk with
  | Some k => match PrimaryKey.columns k with [c] => Some c | _ => None end
  | None => None
  end.

(** The pools of the UNIQUE(FK) columns; the set [unique_fk_cols] is
    visited in schema order. *)
Definition unique_fk_pools_of (table_lc : string) (cols : list ColumnInfo.t)
    (fk_map : gmap (string * string) (string * string))
    (ref_ids : gmap string (list value)) (uniq_cols_in_table : gset string)
    (n_rows : Z) : M (gmap string (list value)) :=
  let unique_fk_cols :=
    remove_dups
      (filter (λ name, is_Some (fk_map !! (table_lc, name)) ∧ name ∈ uniq_cols_in_table)
              (ColumnInfo.column <$> cols)) in
  foldM (λ pools fk_col,
           match fk_map !! (table_lc, fk_col) with
           | Some (parent_table, _) =>
             parent_ids ← random.shuffle (default [] (ref_ids !! parent_table));
             mret (<[fk_col := rows_to n_rows parent_ids]> pools)
           | None => mret pools
           end) ∅ unique_fk_cols.

Section Columns.
Context (table_lc : string) (pk_col : option string).
Context (fk_map : gmap (string * string) (string * string)).
Context (ref_ids : gmap string (list value)).
Context (enums : gmap string (list string)).
Context (unique_fk_pools : gmap string (list value)).

(** The foreign-key branch: a UNIQUE(FK) column takes its pool
    positionally, any other one samples the parent keys. *)
Definition fk_value (parent_table : string) (i : Z) (c : ColumnInfo.t) : M value :=
  match unique_fk_pools !! ColumnInfo.column c with
  | Some (p :: pool) =>
    let pool := p :: pool in
    let idx := (i - 1)%Z in
    if (idx <? len pool)%Z
    then match pool !! Z.to_nat idx with
         | Some x => mret x
         | None => raise IndexError
         end
    else mret (if ColumnInfo.is_nullable c then VNone else default VNone (last pool))
  | _ => fk_choice ref_ids parent_table c
  end.

(** One iteration of [for c in cols]. *)
Definition column_step (i : Z) (st : Locals.t) (c : ColumnInfo.t) : M Locals.t :=
  let name := ColumnInfo.column c in
  if bool_decide (is_Some (Locals.row st !! name)) then mret st
  else
    st ← (if truthy pk_col && bool_decide (pk_col = Some name)
          then v ← generate_value c i enums; mret (set_v v st)
          else mret st);
    hit ← match Locals.seen_uniques st !! name with
          | Some seen =>
            v ← read_v st;
            if is_none v then mret None
            else r ← enforce_unique c i enums v seen; mret (Some r)
          | None => mret None
          end;
    match hit with
    | Some (v, seen) =>
      let st := set_seen name seen (set_v v st) in
      mret (Locals.mk (<[name := v]> (Locals.row st)) (Locals.v st)
                      (Locals.seen_uniques st) (Locals.pk_vals st ++ [v]))
    | None =>
      match fk_map !! (table_lc, name) with
      | Some (parent_table, _) =>
        x ← fk_value parent_table i c;
        mret (set_row (<[name := x]> (Locals.row st)) st)
      | None =>
        v ← generate_value c i enums;
        st ← unique_block c i enums (set_v v st);
        v ← read_v st;
        v ← sentinel c v;
        mret (set_row (<[name := v]> (Locals.row st)) (set_v v st))
      end
    end.

End Columns.

(** [{c: set() for c in uniq_cols_in_table}] *)
Definition fresh_seen (uniq_cols_in_table : gset string) : gmap string (list value) :=
  gset_to_gmap [] uniq_cols_in_table.

(** [next((col_lc[k] for k in keys if k in col_lc), None)]; the set
    literal is visited in the order it is written. *)
Definition first_key (col_lc : gmap string string) (keys : list string) : option string :=
  head (omap (λ k, col_lc !! k) keys).

(** ** booking: [checkout_date >= checkin_date] *)

Definition generate_booking_csv (table : string)
    (cols : list ColumnInfo.t) (fk_map : gmap (string * string) (string * string))
    (ref_ids : gmap string (list value)) (n_rows : Z)
    (enums : gmap string (list string)) (unique_cols : gmap string (gset string))
    (pk : option PrimaryKey.t)
    : M (list (list value) * gmap string (list value)) :=
  let col_lc := col_lc_of cols in
  let table_lc := lower table in
  let checkin_col := col_lc !! "checkin_date" in
  let checkout_col := col_lc !! "checkout_date" in
  let status_col := str_or (col_lc !! "booking_status") (col_lc !! "status") in
  let pk_col := pk_col_of pk in
  let status_ci :=
    find (λ c, bool_decide (ColumnInfo.column c = default "" status_col)) cols in
  let booking_status_choices :=
    match status_ci with
    | Some c => default [] (enums !! lower (ColumnInfo.udt_name c))
    | None => []
    end in
  let uniq_cols_in_table := default ∅ (unique_cols !! table_lc) in
  unique_fk_pools ← unique_fk_pools_of table_lc cols fk_map ref_ids uniq_cols_in_table n_rows;
  '(rows, st) ←
    foldM (λ '(rows, st) i,
             let row : gmap string value := ∅ in
             row ← (if truthy status_col && negb (bool_decide (booking_status_choices = []))
                    then sc ← random.choice booking_status_choices;
                         mret (put status_col (VStr sc) row)
                    else mret row);
             row ← (if truthy checkin_col && truthy checkout_col
                    then ci ← faker (λ f, date_between f "-180d" "+365d");
                         d ← random.randint 1 14;
                         mret (put checkout_col (VDate (ci + d)) (put checkin_col (VDate ci) row))
                    else mret row);
             st ← foldM (column_step table_lc pk_col fk_map ref_ids enums unique_fk_pools i)
                    (set_row row st) cols;
             row ← repair_order checkin_col checkout_col (Locals.row st);
             mret (rows ++ [writerow cols row], set_row row st))
          ([], Locals.mk ∅ None (fresh_seen uniq_cols_in_table) []) (seqZ 1 n_rows);
  mret (rows, if truthy pk_col then <[table_lc := Locals.pk_vals st]> ref_ids else ref_ids).

(** ** Main CSV generator *)

Definition start_keys : list string :=
  ["start_date"; "from_date"; "valid_from"; "effective_start_date"; "block_start_date"].

Definition end_keys : list string :=
  ["end_date"; "to_date"; "valid_to"; "effective_end_date"; "block_end_date"; "expires_on"].

(** The rows written for [table] and the reference-key pool afterwards
    (the default path and booking store their [pk_vals] in it). *)
Definition generate_table_csv (fuel : nat) (table : string)
    (cols : list ColumnInfo.t) (pk : option PrimaryKey.t)
    (fk_map : gmap (string * string) (string * string))
    (ref_ids : gmap string (list value)) (n_rows : Z)
    (enums : gmap string (list string)) (unique_cols : gmap string (gset string))
    : M (list (list value) * gmap string (list value)) :=
  let tl := lower table in
  if bool_decide (tl = "booking_room")
  then rows ← generate_booking_room_csv fuel table cols fk_map ref_ids n_rows enums;
       mret (rows, ref_ids)
  else if bool_decide (tl = "room_night")
  then rows ← generate_room_night_csv table cols fk_map ref_ids n_rows enums;
       mret (rows, ref_ids)
  else if bool_decide (tl = "stay")
  then rows ← generate_stay_csv table cols fk_map ref_ids n_rows enums unique_cols;
       mret (rows, ref_ids)
  else if bool_decide (tl = "booking")
  then generate_booking_csv table cols fk_map ref_ids n_rows enums unique_cols pk
  else if bool_decide (tl = "booking_discount")
  then rows ← generate_booking_discount_csv fuel table cols fk_map ref_ids n_rows enums;
       mret (rows, ref_ids)
  else if bool_decide (tl = "review_score")
  then rows ← generate_review_score_csv fuel table cols fk_map ref_ids n_rows enums;
       mret (rows, ref_ids)
  else
    let table_lc := lower table in
    let pk_col := pk_col_of pk in
    let uniq_cols_in_table := default ∅ (unique_cols !! table_lc) in
    unique_fk_pools ← unique_fk_pools_of table_lc cols fk_map ref_ids uniq_cols_in_table n_rows;
    let col_lc := col_lc_of cols in
    let start_col := first_key col_lc start_keys in
    let end_col := first_key col_lc end_keys in
    '(rows, st) ←
      foldM (λ '(rows, st) i,
               let row : gmap string value := ∅ in
               row ← (if truthy start_col && truthy end_col
                      then d_from ← faker (λ f, date_between f "-365d" "+365d");
                           d ← random.randint 1 60;
                           mret (put end_col (VDate (d_from + d))
                                   (put start_col (VDate d_from) row))
                      else mret row);
               st ← foldM (column_step table_lc pk_col fk_map ref_ids enums unique_fk_pools i)
                      (set_row row st) cols;
               mret (rows ++ [writerow cols (Locals.row st)], st))
            ([], Locals.mk ∅ None (fresh_seen uniq_cols_in_table) []) (seqZ 1 n_rows);
    mret (rows, if truthy pk_col then <[table_lc := Locals.pk_vals st]> ref_ids else ref_ids).

End Generator.

(** ** COPY load and PK cache *)

(** The PostgreSQL server behind the connection, as far as the key cache
    uses it. *)
Module Pg.

(** A stored row maps column names to values, a table holds its rows in
    storage order, and the database maps (schema, table) to the table. *)
Definition database : Type := gmap (string * string) (list (gmap string value)).

(** The statements [cache_pk_values] sends. *)
Inductive statement : Type :=
  | SET_search_path (schema : string)
  | SELECT_ORDER_BY (column table order_column : string).

(** The text of a statement: identifiers are double-quoted. *)
Definition text (s : statement) : string :=
  match s with
  | SET_search_path schema => "SET search_path TO " +:+ dq +:+ schema +:+ dq
  | SELECT_ORDER_BY column table order_column =>
    "SELECT " +:+ dq +:+ column +:+ dq +:+ " FROM " +:+ dq +:+ table +:+ dq
    +:+ " ORDER BY " +:+ dq +:+ order_column +:+ dq
  end.

(** A cursor: the schema unqualified table names resolve to ([None]
    before any [SET search_path]) and the result set of the last
    statement ([None] when it returned no rows to fetch). *)
Record cursor : Type := Cursor
  { search_path : option string;
    result : option (list (list value)) }.

Definition new_cursor : cursor := Cursor None None.

Section Server.

(** The order of the sort key's type, and the stored tables. *)
Context (le : relation value) `{!∀ x y, Decision (le x y)}.
Context (db : database).

(** [cur.execute(text s)]; [None] when the server rejects the statement
    and psycopg2 raises (no schema to resolve the table in, unknown table
    or column). *)
Definition execute (s : statement) (cur : cursor) : option cursor :=
  match s with
  | SET_search_path schema => Some (Cursor (Some schema) None)
  | SELECT_ORDER_BY column table order_column =>
    schema ← search_path cur;
    rows ← db !! (schema, table);
    keyed ← mapM (λ r : gmap string value,
                    k ← r !! order_column; x ← r !! column; Some (k, x)) rows;
    Some (Cursor (search_path cur)
                 (Some ((λ kx, [kx.2]) <$> merge_sort (λ a b, le a.1 b.1) keyed)))
  end.

(** [cur.fetchall()]; [None] when there is nothing to fetch. *)
Definition fetchall (cur : cursor) : option (list (list value)) := result cur.

End Server.

End Pg.

Section Loader.

Context (le : relation value) `{!∀ x y, Decision (le x y)}.
Context (conn : Pg.database).

(** The reference-key pool after the call; [None] when the database
    raises. *)
Definition cache_pk_values (schema table : string) (pk : option PrimaryKey.t)
    (ref_ids : gmap string (list value)) : option (gmap string (list value)) :=
  match pk with
  | Some k =>
    match PrimaryKey.columns k with
    | [pk_col] =>
      let table_lc := lower table in
      cur ← Pg.execute le conn (Pg.SET_search_path schema) Pg.new_cursor;
      cur ← Pg.execute le conn (Pg.SELECT_ORDER_BY pk_col table pk_col) cur;
      rows ← Pg.fetchall cur;
      keys ← mapM (λ r : list value, r !! 0) rows;
      Some (<[table_lc := keys]> ref_ids)
    | _ => Some ref_ids
    end
  | None => Some ref_ids
  end.

End Loader.

(** ** Schema introspection

    Each [fetch_*] function runs one catalogue query and files the rows
    [cur.fetchall()] returns; the rows are the argument here. *)

(** [out.setdefault(k, []).append(x)] *)
Definition append_to {A} (k : string) (x : A) (out : gmap string (list A))
    : gmap string (list A) :=
  <[k := default [] (out !! k) ++ [x]]> out.

(** A row of the [information_schema.columns] query: table, column, data
    type, udt name, is_nullable, character_maximum_length,
    numeric_precision, numeric_scale. *)
Definition column_row : Type :=
  string * string * string * string * string * option Z * option Z * option Z.

Definition fetch_columns (rows : list column_row) : gmap string (list ColumnInfo.t) :=
  foldl (λ out '(t, c, dt, udt, nul, cmax, prec, scale),
           append_to t (ColumnInfo.mk t c dt udt (bool_decide (nul = "YES"))
                          cmax prec scale) out)
        ∅ rows.

(** The table a catalogue row belongs to and the [ColumnInfo] made of it. *)
Definition row_table (r : column_row) : string :=
  let '(t, _, _, _, _, _, _, _) := r in t.

Definition row_info (r : column_row) : ColumnInfo.t :=
  let '(t, c, dt, udt, nul, cmax, prec, scale) := r in
  ColumnInfo.mk t c dt udt (bool_decide (nul = "YES")) cmax prec scale.

(** Rows are (table, column, ordinal position). *)
Definition fetch_primary_keys (rows : list (string * string * Z))
    : gmap string PrimaryKey.t :=
  let tmp := foldl (λ tmp '(t, c, _), append_to t c tmp) ∅ rows in
  map_imap (λ t cols, Some (PrimaryKey.mk t cols)) tmp.

(** Rows are (table, column, referenced table, referenced column). *)
Definition fetch_foreign_keys (rows : list (string * string * string * string))
    : list ForeignKey.t :=
  (λ '(t, c, rt, rc), ForeignKey.mk t c rt rc) <$> rows.

(** Rows are (enum name, enum label), in [enumsortorder]. *)
Definition fetch_enum_values (rows : list (string * string)) : gmap string (list string) :=
  foldl (λ out '(enum_name, enum_value), append_to (lower enum_name) enum_value out)
        ∅ rows.

(** Rows are (table, column) of the single-column UNIQUE constraints;
    [out.setdefault(t.lower(), set()).add(c)]. *)
Definition fetch_unique_columns (rows : list (string * string))
    : gmap string (gset string) :=
  foldl (λ out '(t, c), <[lower t := default ∅ (out !! lower t) ∪ {[c]}]> out) ∅ rows.

(** ** Foreign-key map and row counts *)

(** [{(fk.table.lower(), fk.column): (fk.ref_table.lower(), fk.ref_column) for fk in fks}] *)
Definition build_fk_map (fks : list ForeignKey.t)
    : gmap (string * string) (string * string) :=
  foldl (λ m fk,
           <[(lower (ForeignKey.table fk), ForeignKey.column fk) :=
               (lower (ForeignKey.ref_table fk), ForeignKey.ref_column fk)]> m)
        ∅ fks.

(** The [if]/[elif] chain of [default_row_counts] on the lowercased name. *)
Definition row_count_of (tl : string) : Z :=
  if any_in ["lookup"; "type"; "status"; "code"; "catalog"; "policy"; "rate_plan";
             "rate_calendar"] tl then 50
  else if bool_decide (tl = "hotel") then 12
  else if bool_decide (tl = "room") then 1000
  else if contains "customer" tl then 30000
  else if contains "booking" tl then 70000
  else if any_in ["payment"; "invoice"; "transaction"; "charge"] tl then 60000
  else if any_in ["refund"; "cancellation"] tl then 8000
  else 2000.

Definition default_row_counts (tables : list string) : gmap string Z :=
  foldl (λ rc t, <[t := row_count_of (lower t)]> rc) ∅ tables.

Definition ROW_COUNTS_OVERRIDE : list (string * Z) :=
  [("booking", 70000); ("booking_room", 90000); ("guest", 120000); ("invoice", 70000);
   ("payment", 60000); ("refund", 8000); ("booking_cancellation", 8000); ("room", 1000);
   ("hotel", 12); ("customer", 30000); ("channel", 12); ("promotion", 2000)]%Z.

(** [for k, v in ROW_COUNTS_OVERRIDE.items(): if k in rc: rc[k] = v] *)
Definition apply_overrides (rc : gmap string Z) : gmap string Z :=
  foldl (λ rc '(k, v), if bool_decide (is_Some (rc !! k)) then <[k := v]> rc else rc)
        rc ROW_COUNTS_OVERRIDE.

(** [TRUNCATE] statements of [truncate_tables], children first. *)
Definition truncate_tables (schema : string) (load_order : list string) : list string :=
  ("SET search_path TO " +:+ dq +:+ schema +:+ dq) ::
  ((λ t, "TRUNCATE TABLE " +:+ dq +:+ t +:+ dq +:+ " RESTART IDENTITY CASCADE;")
     <$> reverse load_order).

(** ** Registries: what callers rely on *)

(** The values issued so far for [key] by [unique_text]. *)
Definition issued (key : string * string) (w : world) : list string :=
  default [] (_UNIQUE_SEEN w !! key).

(** A value generator that leaves the registry of issued values alone. *)
Definition keeps_registry (make_value : M string) : Prop :=
  ∀ w s w', make_value w = Ok (s, w') → _UNIQUE_SEEN w' = _UNIQUE_SEEN w.

(** [n] successive calls of [unique_choice_from_pool] for one key. *)
Definition unique_choices (key : string * string) (base_list : list string)
    (maxlen : option Z) (n : nat) : M (list string) :=
  foldM (λ acc _, v ← unique_choice_from_pool key base_list maxlen; mret (acc ++ [v]))
        [] (seq 0 n).

(** ** Junction tables *)

(** The key-pair cells of the written lines: pairwise distinct pairs, the
    first component from one pool and the second from the other. *)
Definition key_pairs (A B : list value) (jf js : nat) (rows : list (list value)) : Prop :=
  ∃ pairs, NoDup pairs ∧ Forall (λ p, p.1 ∈ A ∧ p.2 ∈ B) pairs ∧
           Forall2 (λ p line, line !! jf = Some p.1 ∧ line !! js = Some p.2) pairs rows.

(** The night dates [generate_room_night_csv] draws from:
    [start + timedelta(days=off)] for [off in range(total_days)]. *)
Definition nights (today : Z) : list value :=
  (λ off, VDate (today - 730 + Z.of_nat off)) <$> seq 0 total_days.

(** ** The non-null contract *)

(** The columns [generate_value] has a generator for: the conditions of
    its type dispatch, in the order it tests them. *)
Definition supported (enums : gmap string (list string)) (col : ColumnInfo.t) : bool :=
  let name := lower (ColumnInfo.column col) in
  let dt := lower (ColumnInfo.data_type col) in
  let udt := lower (ColumnInfo.udt_name col) in
  bool_decide (is_Some (enums !! udt))
  || one_of name ["created_at"; "updated_at"; "loaded_at"; "ingested_at"]
  || bool_decide (dt = "date")
  || one_of dt ["timestamp without time zone"; "timestamp with time zone"]
  || one_of udt ["timestamp"; "timestamptz"]
  || one_of dt INT_TYPES || one_of udt ["int2"; "int4"; "int8"]
  || bool_decide (dt = "uuid") || bool_decide (udt = "uuid")
  || bool_decide (dt = "boolean")
  || one_of dt ["numeric"; "decimal"] || bool_decide (udt = "numeric")
  || one_of dt TEXT_TYPES.

(** The reference-key pools hold no null. *)
Definition pools_ok (ref_ids : gmap string (list value)) : Prop :=
  ∀ t ids, ref_ids !! t = Some ids → VNone ∉ ids.

(** The assemblers that fill every column not set by the pair loop with
    [generate_value] and an inline sentinel. *)
Definition junction_tables : list string :=
  ["booking_room"; "room_night"; "booking_discount"; "review_score"].

(** The columns the non-null contract covers.  In the junction tables:
    every NOT NULL column.  In [stay]: the booking key, and every NOT NULL
    column other than the two actual timestamps, which the status scenario
    sets.  A column under a uniqueness constraint is covered when
    [generate_value] has a generator for it, and a foreign key of [stay]
    other than the booking key when its type is not a text type. *)
Definition in_contract (table : string) (cols : list ColumnInfo.t)
    (fk_map : gmap (string * string) (string * string))
    (enums : gmap string (list string)) (unique_cols : gmap string (gset string))
    (c : ColumnInfo.t) : Prop :=
  let tl := lower table in
  let name := ColumnInfo.column c in
  let col_lc := col_lc_of cols in
  ColumnInfo.is_nullable c = false ∧
  (tl ∈ junction_tables ∨
   (tl = "stay" ∧ col_lc !! "booking_id" = Some name) ∨
   (((name ∉ default ∅ (unique_cols !! tl)) ∨ supported enums c = true) ∧
    (tl = "stay" →
     col_lc !! "actual_checkin_at" ≠ Some name ∧
     col_lc !! "actual_checkout_at" ≠ Some name ∧
     (fk_map !! (tl, name) = None ∨
      one_of (lower (ColumnInfo.data_type c)) TEXT_TYPES = false)))).

(** ** The written file *)

(** [csv.writer] writes [None] and the empty string alike, as an empty
    field. *)
Definition blank (v : value) : bool :=
  match v with
  | VNone => true
  | VStr s => bool_decide (s = "")
  | _ => false
  end.

(** [COPY ... FORMAT CSV] reads field [j] of the written line as NULL: the
    field is empty and unquoted.  A line that consists of one empty field
    is written as a quoted empty string, which is not NULL. *)
Definition written_null (line : list value) (j : nat) : bool :=
  negb (bool_decide (length line = 1)) && from_option blank false (line !! j).

(** The Faker providers whose text is written as it comes never return
    the empty string. *)
Definition faker_ok (fake : Faker) : Prop :=
  ∀ k, word fake k ≠ "" ∧ phone_number fake k ≠ "" ∧ ∀ n, sentence fake n k ≠ "".

(** No enum has an empty label. *)
Definition enums_ok (enums : gmap string (list string)) : Prop :=
  ∀ t labels, enums !! t = Some labels → "" ∉ labels.

(** No declared maximum length is negative. *)
Definition lengths_ok (cols : list ColumnInfo.t) : Prop :=
  ∀ c n, c ∈ cols → ColumnInfo.char_max_len c = Some n → (0 ≤ n)%Z.

(** The reference-key pools hold no empty string. *)
Definition pools_filled (ref_ids : gmap string (list value)) : Prop :=
  ∀ t ids, ref_ids !! t = Some ids → VStr "" ∉ ids.

(** A location whose fields, the second address line apart, are not
    empty. *)
Definition location_ok (loc : location) : Prop :=
  city loc ≠ "" ∧ state loc ≠ "" ∧ country loc ≠ "" ∧ timezone loc ≠ "" ∧
  postal_code loc ≠ "" ∧ street1 loc ≠ "".

(** The registries a run starts from hold no empty text: every cached
    location has its fields (the second address line apart), and no
    remaining pool entry is empty.  The empty registries of a fresh
    process qualify. *)
Definition world_ok (w : world) : Prop :=
  (∀ key loc, _ROW_LOCATION w !! key = Some loc → location_ok loc) ∧
  (∀ key pool, _UNIQUE_POOL_STATE w !! key = Some pool → "" ∉ pool).

(** The text columns [generate_value] fills from the second address line
    of the row's location, which is the empty string for a location
    without one. *)
Definition blank_source (c : ColumnInfo.t) : bool :=
  one_of (lower (ColumnInfo.column c)) ["address_line2"; "street2"]
  && one_of (lower (ColumnInfo.data_type c)) TEXT_TYPES.

(** The columns that are written from the value an earlier column left in
    the local [v]: in [stay] a foreign key other than the booking key, in
    the default path and [booking] a column under a uniqueness constraint
    other than the single-column primary key. *)
Definition takes_stale (table : string) (cols : list ColumnInfo.t)
    (pk : option PrimaryKey.t) (fk_map : gmap (string * string) (string * string))
    (unique_cols : gmap string (gset string)) (c : ColumnInfo.t) : Prop :=
  let tl := lower table in
  let name := ColumnInfo.column c in
  (tl = "stay" ∧ is_Some (fk_map !! (tl, name))
   ∧ col_lc_of cols !! "booking_id" ≠ Some name) ∨
  (tl ≠ "stay" ∧ (tl ∉ junction_tables) ∧ name ∈ default ∅ (unique_cols !! tl)
   ∧ ¬ (pk_col_of pk = Some name ∧ name ≠ "")).

(** The columns whose written field is never NULL: the columns of the
    non-null contract that do not draw on the second address line, nor,
    when the table has such a column, on the value an earlier column
    left behind. *)
Definition field_contract (table : string) (cols : list ColumnInfo.t)
    (pk : option PrimaryKey.t) (fk_map : gmap (string * string) (string * string))
    (enums : gmap string (list string)) (unique_cols : gmap string (gset string))
    (c : ColumnInfo.t) : Prop :=
  in_contract table cols fk_map enums unique_cols c ∧
  blank_source c = false ∧
  (takes_stale table cols pk fk_map unique_cols c →
   ∀ c', c' ∈ cols → blank_source c' = false).

(** ** Concrete inputs used by the examples *)

Module Inputs.

(** A Faker whose providers return fixed values. *)
Definition stub_fake : Faker :=
  MkFaker (λ _, "word") (λ _, "a@example.com") (λ _ _, "Lorem ipsum.")
          (λ _, "555-0100") (λ _, "Main Street") (λ _ _ _, 0%Z) (λ _ _ _, 0%Z).

(** Python's [str] is only needed on floats, dates and [None]. *)
Definition stub_str (v : value) : string :=
  match v with
  | VNone => "None"
  | VBool b => if b then "True" else "False"
  | VInt z => pretty z
  | VStr s => s
  | _ => "?"
  end.

(** The world in which every random outcome is [0]. *)
Definition zero_world : world := World (λ _, 0) 0 ∅ ∅ ∅.

Definition int_col (table column : string) : ColumnInfo.t :=
  ColumnInfo.mk table column "integer" "int4" false None (Some 32%Z) (Some 0%Z).

Definition room_night_cols : list ColumnInfo.t :=
  [int_col "room_night" "room_id";
   ColumnInfo.mk "room_night" "night_date" "date" "date" false None None None].

Definition two_rooms : gmap string (list value) := {["room" := [VInt 1; VInt 2]]}.

(** A stay table whose [room_id] references [room], with two rooms loaded. *)
Definition stay_fk_cols : list ColumnInfo.t :=
  [int_col "stay" "stay_id"; int_col "stay" "room_id"].

Definition stay_fk_map : gmap (string * string) (string * string) :=
  {[("stay", "room_id") := ("room", "room_id")]}.

Definition rooms_100_200 : gmap string (list value) :=
  {["room" := [VInt 100; VInt 200]]}.

(** A 1:1 table: [check_in.stay_id] is a UNIQUE foreign key to [stay]. *)
Definition check_in_cols : list ColumnInfo.t :=
  [int_col "check_in" "check_in_id"; int_col "check_in" "stay_id"].

Definition check_in_pk : option PrimaryKey.t :=
  Some (PrimaryKey.mk "check_in" ["check_in_id"]).

Definition check_in_fk_map : gmap (string * string) (string * string) :=
  {[("check_in", "stay_id") := ("stay", "stay_id")]}.

Definition stays_10_20_30 : gmap string (list value) :=
  {["stay" := [VInt 10; VInt 20; VInt 30]]}.

Definition check_in_unique : gmap string (gset string) :=
  {["check_in" := {["stay_id"]}]}.

(** A table with a nullable JSON column followed by a UNIQUE column. *)
Definition json_col (table column : string) : ColumnInfo.t :=
  ColumnInfo.mk table column "json" "json" true None None None.

Definition currency_cols : list ColumnInfo.t :=
  [json_col "fx" "note";
   ColumnInfo.mk "fx" "currency_code" "character varying" "varchar" false
                 (Some 3%Z) None None].

Definition currency_unique : gmap string (gset string) :=
  {["fx" := {["currency_code"]}]}.

Definition seq_cols : list ColumnInfo.t :=
  [json_col "ticket" "note"; int_col "ticket" "seq_no"].

Definition seq_unique : gmap string (gset string) :=
  {["ticket" := {["seq_no"]}]}.

(** The world whose random outcomes make [random.randint(1, 100000)]
    return 5, then 3055, then 5 for ever. *)
Definition collide_world : world :=
  World (λ n, if n =? 1 then 3054 else 4) 0 ∅ ∅ ∅.

(** The world whose [n]-th random outcome is [n]. *)
Definition count_world : world := World (λ n, n) 0 ∅ ∅ ∅.

Definition timestamp_col (table column : string) : ColumnInfo.t :=
  ColumnInfo.mk table column "timestamp with time zone" "timestamptz" true None None None.

Definition stay_cols : list ColumnInfo.t :=
  [int_col "stay" "stay_id";
   ColumnInfo.mk "stay" "stay_status" "USER-DEFINED" "stay_status_enum" false None None None;
   timestamp_col "stay" "actual_checkin_at";
   timestamp_col "stay" "actual_checkout_at"].

Definition stay_enums : gmap string (list string) :=
  {["stay_status_enum" := ["CANCELLED"; "CHECKED_OUT"; "CHECKED_IN"]]}.

(** The same stay table with both timestamps declared NOT NULL. *)
Definition strict_timestamp_col (table column : string) : ColumnInfo.t :=
  ColumnInfo.mk table column "timestamp with time zone" "timestamptz" false None None None.

Definition stay_strict_cols : list ColumnInfo.t :=
  [int_col "stay" "stay_id";
   ColumnInfo.mk "stay" "stay_status" "USER-DEFINED" "stay_status_enum" false None None None;
   strict_timestamp_col "stay" "actual_checkin_at";
   strict_timestamp_col "stay" "actual_checkout_at"].

(** A table whose UNIQUE NOT NULL column has a type without generator. *)
Definition payload_cols : list ColumnInfo.t :=
  [int_col "ticket" "seq_no";
   ColumnInfo.mk "ticket" "payload" "json" "json" false None None None].

Definition payload_unique : gmap string (gset string) :=
  {["ticket" := {["payload"]}]}.

(** A three-table chain, and two tables that reference each other. *)
Definition three_tables : list string := ["child"; "grandchild"; "parent"].

Definition three_fks : list ForeignKey.t :=
  [ForeignKey.mk "child" "parent_id" "parent" "id";
   ForeignKey.mk "grandchild" "child_id" "child" "id"].

Definition cycle_fks : list ForeignKey.t :=
  [ForeignKey.mk "a" "b_id" "b" "id"; ForeignKey.mk "b" "a_id" "a" "id"].

(** A pool with two entries, and a database whose [Room] table holds three
    rows stored out of key order. *)
Definition sample_pool : gmap string (list value) :=
  <["hotel" := [VInt 7]]> (<["room" := [VInt 3; VInt 1]]> ∅).

Definition sample_db : Pg.database :=
  {[("public", "Room") :=
      [{["room_id" := VInt 3]}; {["room_id" := VInt 1]}; {["room_id" := VInt 2]}]]}.

(** Integer keys in numeric order. *)
Definition int_le (a b : value) : Prop :=
  match a, b with
  | VInt x, VInt y => (x ≤ y)%Z
  | _, _ => True
  end.

#[global] Instance int_le_dec a b : Decision (int_le a b).
Proof. destruct a, b; simpl; apply _. Defined.

#[global] Instance int_le_total : Total int_le.
Proof. intros [] []; simpl; auto. lia. Qed.

(** A world in which the only token [uuid4] can produce is already issued. *)
Definition issued_world : world :=
  World (λ _, 0) 0 {[("t", "c") := ["VAL_000000"]]} ∅ ∅.

Definition val_token : M string := h ← uuid_hex6; mret ("VAL_" +:+ h).

(** The two-column junction table. *)
Definition pair_cols (table first second : string) : list ColumnInfo.t :=
  [int_col table first; int_col table second].

(** Three bookings and three rooms. *)
Definition three_by_three : gmap string (list value) :=
  <["room" := [VInt 1; VInt 2; VInt 3]]> {["booking" := [VInt 1; VInt 2; VInt 3]]}.

(** Three bookings with two promotions, three reviews with two categories. *)
Definition promo_pool : gmap string (list value) :=
  <["promotion" := [VInt 7; VInt 8]]> {["booking" := [VInt 1; VInt 2; VInt 3]]}.

Definition review_pool : gmap string (list value) :=
  <["review_category" := [VInt 7; VInt 8]]> {["review" := [VInt 1; VInt 2; VInt 3]]}.

(** A guest table with a city and a phone number, one whose second
    address line is declared NOT NULL, and one with a UNIQUE code after a
    nullable second address line. *)
Definition text_col (table column : string) (n : Z) : ColumnInfo.t :=
  ColumnInfo.mk table column "character varying" "varchar" false (Some n) None None.

Definition guest_cols : list ColumnInfo.t :=
  [int_col "guest" "guest_id"; text_col "guest" "city" 40; text_col "guest" "phone" 20].

Definition address_cols : list ColumnInfo.t :=
  [int_col "guest" "guest_id"; text_col "guest" "address_line2" 60].

Definition stale_cols : list ColumnInfo.t :=
  [ColumnInfo.mk "guest" "address_line2" "character varying" "varchar" true
                 (Some 60%Z) None None;
   text_col "guest" "code" 30].

Definition code_unique : gmap string (gset string) := {["guest" := {["code"]}]}.

(** A stay table with a nullable second address line before its room key. *)
Definition stay_address_cols : list ColumnInfo.t :=
  [ColumnInfo.mk "stay" "address_line2" "character varying" "varchar" true
                 (Some 60%Z) None None;
   int_col "stay" "room_id"].

End Inputs.

(* ================================================================= *)
(** * Properties *)

Module TopoFacts.
Import Topo Inputs.

Lemma sorted_Permutation l : sorted l ≡ₚ l.
Proof. apply merge_sort_Permutation. Qed.

Lemma elem_of_sorted x l : x ∈ sorted l ↔ x ∈ l.
Proof. by rewrite sorted_Permutation. Qed.

Lemma length_sorted l : length (sorted l) = length l.
Proof. by rewrite sorted_Permutation. Qed.

Lemma get_alter_in f m (deps : gmap string (gset string)) t :
  m ∈ dom deps →
  get (alter f m deps) t = if decide (m = t) then f (get deps t) else get deps t.
Proof.
  intros [s Hs]%elem_of_dom. unfold get. rewrite lookup_alter.
  case_decide; subst; [by rewrite Hs|done].
Qed.

Lemma get_alter_discard n m (deps : gmap string (gset string)) t :
  get (alter (λ s, s ∖ {[n]}) m deps) t
  = if decide (m = t) then get deps t ∖ {[n]} else get deps t.
Proof.
  unfold get. rewrite lookup_alter.
  case_decide; subst; [|done]. destruct (deps !! t); simpl; set_solver.
Qed.

Lemma empty_sets_spec T :
  dom (empty_sets T) = list_to_set T ∧ ∀ t, get (empty_sets T) t = ∅.
Proof.
  unfold empty_sets. induction T as [|t T IH] using rev_ind.
  - split; [set_solver|done].
  - rewrite foldl_snoc. destruct IH as [IH1 IH2]. split.
    + rewrite dom_insert_L, IH1, list_to_set_app_L. set_solver.
    + intros u. specialize (IH2 u). unfold get in *. rewrite lookup_insert.
      case_decide; done.
Qed.

Lemma build_spec T fks :
  dom (build T fks).1 = list_to_set T ∧ dom (build T fks).2 = list_to_set T ∧
  (∀ c p, p ∈ get (build T fks).1 c ↔ edge T fks c p) ∧
  (∀ c p, c ∈ get (build T fks).2 p ↔ edge T fks c p).
Proof.
  unfold build. induction fks as [|fk fks IH] using rev_ind.
  - destruct (empty_sets_spec T) as [Hd Hg]. simpl.
    split; [done|split; [done|split]]; intros c p; rewrite Hg;
      (split; [set_solver|intros (fk & Hfk & _); by apply elem_of_nil in Hfk]).
  - rewrite foldl_snoc.
    destruct (foldl add_fk _ fks) as [deps rdeps]; simpl in *.
    destruct IH as (Hd1 & Hd2 & He1 & He2).
    assert (Hsnoc : ∀ c p, edge T (fks ++ [fk]) c p ↔
      edge T fks c p ∨ (ForeignKey.table fk = c ∧ ForeignKey.ref_table fk = p
                        ∧ c ∈ T ∧ p ∈ T)).
    { intros c p. unfold edge. split.
      - intros (fk' & [Hin|Hin%list_elem_of_singleton]%elem_of_app & H); subst; eauto.
      - intros [(fk' & Hin & H)|H]; [exists fk'|exists fk];
          (split; [apply elem_of_app; rewrite ?list_elem_of_singleton; auto|done]). }
    unfold add_fk; simpl.
    destruct (bool_decide (ForeignKey.table fk ∈ dom deps)) eqn:Hc;
      [destruct (bool_decide (ForeignKey.ref_table fk ∈ dom deps)) eqn:Hp|]; simpl.
    + apply bool_decide_eq_true in Hc, Hp.
      rewrite !dom_alter_L. split; [done|split; [done|split]]; intros c p; rewrite Hsnoc.
      * rewrite get_alter_in by done. case_decide; subst.
        -- rewrite elem_of_union, elem_of_singleton, He1.
           rewrite Hd1 in Hc, Hp. rewrite !elem_of_list_to_set in Hc, Hp.
           naive_solver.
        -- rewrite He1. naive_solver.
      * rewrite get_alter_in by (by rewrite Hd2, <-Hd1). case_decide; subst.
        -- rewrite elem_of_union, elem_of_singleton, He2.
           rewrite Hd1 in Hc, Hp. rewrite !elem_of_list_to_set in Hc, Hp.
           naive_solver.
        -- rewrite He2. naive_solver.
    + apply bool_decide_eq_false in Hp. rewrite Hd1, elem_of_list_to_set in Hp.
      split; [done|split; [done|split]]; intros c p; rewrite Hsnoc, ?He1, ?He2; naive_solver.
    + apply bool_decide_eq_false in Hc. rewrite Hd1, elem_of_list_to_set in Hc.
      split; [done|split; [done|split]]; intros c p; rewrite Hsnoc, ?He1, ?He2; naive_solver.
Qed.

Section Loop.
Context (T : list string) (fks : list ForeignKey.t).
Context (rdeps : gmap string (gset string)).
Hypothesis Hrdeps : ∀ c p, c ∈ get rdeps p ↔ edge T fks c p.

(** Entries of [tables] that are neither emitted nor queued. *)
Definition pending (out q : list string) : list string :=
  filter (λ t, (t ∉ out) ∧ (t ∉ q)) T.

Lemma pending_snoc out q m :
  m ∈ T → m ∉ out → m ∉ q →
  length (pending out (q ++ [m])) < length (pending out q).
Proof.
  intros HT Hout Hq. unfold pending.
  rewrite (list_filter_iff _ (λ t, t ≠ m ∧ ((t ∉ out) ∧ (t ∉ q)))).
  - rewrite <-list_filter_filter. apply (length_filter_lt _ _ m); [|naive_solver].
    apply list_elem_of_filter. done.
  - intros t. rewrite elem_of_app, list_elem_of_singleton. naive_solver.
Qed.

Lemma pending_pop out n q :
  pending (out ++ [n]) q = pending out (n :: q).
Proof.
  unfold pending. apply list_filter_iff. intros t.
  rewrite elem_of_app, list_elem_of_singleton, elem_of_cons. naive_solver.
Qed.

Lemma pending_perm out q q' : q ≡ₚ q' → pending out q = pending out q'.
Proof.
  intros Hp. unfold pending. apply list_filter_iff. intros t. by rewrite Hp.
Qed.

(** State of the inner [for m in sorted(rdeps[n])] after the entries
    [seen] were visited, starting from [(deps, q)]. *)
Record inner_inv (n : string) (out : list string)
    (deps : gmap string (gset string)) (q seen : list string)
    (deps' : gmap string (gset string)) (q' : list string) : Prop := InnerInv
  { ii_deps : ∀ t p, p ∈ get deps' t ↔ p ∈ get deps t ∧ (t ∈ seen → p ≠ n);
    ii_mono : ∀ x, x ∈ q → x ∈ q';
    ii_new : ∀ x, x ∈ q' →
      x ∈ q ∨ (x ∈ seen ∧ (∀ p, p ∈ get deps x → p = n) ∧ x ∉ out);
    ii_cover : ∀ m, m ∈ seen → (∀ p, p ∈ get deps m → p = n) → m ∈ out ∨ m ∈ q';
    ii_nodup : NoDup q → NoDup q';
    ii_measure :
      length q' + length (pending out q') ≤ length q + length (pending out q) }.

Lemma relax_all n out deps q ms :
  (∀ m, m ∈ ms → m ∈ T) →
  inner_inv n out deps q ms
    (foldl (relax n out) (deps, q) ms).1 (foldl (relax n out) (deps, q) ms).2.
Proof.
  induction ms as [|m ms IH] using rev_ind; intros HT.
  - simpl. split; try done; try naive_solver.
    + intros t p. rewrite elem_of_nil. naive_solver.
    + intros m Hm. by apply elem_of_nil in Hm.
  - rewrite foldl_snoc.
    destruct IH as [Hd Hmono Hnew Hcov Hnd Hms].
    { intros x Hx. apply HT, elem_of_app. by left. }
    assert (HmT : m ∈ T) by (apply HT, elem_of_app; right; by apply list_elem_of_singleton).
    destruct (foldl (relax n out) (deps, q) ms) as [deps1 q1]; simpl in *.
    assert (Hd2 : ∀ t p, p ∈ get (alter (λ s, s ∖ {[n]}) m deps1) t
                  ↔ p ∈ get deps t ∧ (t ∈ ms ++ [m] → p ≠ n)).
    { intros t p. rewrite get_alter_discard, elem_of_app, list_elem_of_singleton.
      case_decide; subst; [rewrite elem_of_difference, elem_of_singleton|];
        rewrite Hd; naive_solver. }
    assert (Hempty : get (alter (λ s, s ∖ {[n]}) m deps1) m = ∅
                     ↔ ∀ p, p ∈ get deps m → p = n).
    { split.
      - intros He p Hp. destruct (decide (p = n)) as [|Hne]; [done|].
        assert (p ∈ get (alter (λ s, s ∖ {[n]}) m deps1) m) as Hin
          by (apply Hd2; naive_solver).
        rewrite He in Hin. set_solver.
      - intros Hall. apply set_eq. intros p. rewrite Hd2. split; [|set_solver].
        intros [Hp Hne]. exfalso. apply Hne; [|by apply Hall].
        apply elem_of_app. right. by apply list_elem_of_singleton. }
    unfold relax; simpl.
    destruct (bool_decide (get _ m = ∅)) eqn:He; simpl;
      [destruct (bool_decide (m ∉ out)) eqn:Ho; simpl;
       [destruct (bool_decide (m ∉ q1)) eqn:Hq; simpl|]|].
    + apply bool_decide_eq_true in He, Ho, Hq. split; simpl.
      * done.
      * intros x Hx. apply elem_of_app. left. auto.
      * intros x [Hx| ->%list_elem_of_singleton]%elem_of_app.
        -- destruct (Hnew x Hx) as [|(? & ? & ?)]; [by left|right].
           split_and!; try done. apply elem_of_app. by left.
        -- right. split_and!; try done; [|by apply Hempty].
           apply elem_of_app. right. by apply list_elem_of_singleton.
      * intros x [Hx| ->%list_elem_of_singleton]%elem_of_app Hall.
        -- destruct (Hcov x Hx Hall); [by left|right]. apply elem_of_app. by left.
        -- right. apply elem_of_app. right. by apply list_elem_of_singleton.
      * intros Hq0. apply NoDup_app. split_and!; [auto| |apply NoDup_singleton].
        intros x Hx ->%list_elem_of_singleton. done.
      * rewrite length_app; simpl.
        pose proof (pending_snoc out q1 m HmT Ho Hq). lia.
    + apply bool_decide_eq_true in He, Ho. apply bool_decide_eq_false in Hq.
      apply dec_stable in Hq. split; simpl; try done.
      * intros x Hx. destruct (Hnew x Hx) as [|(? & ? & ?)]; [by left|right].
        split_and!; try done. apply elem_of_app. by left.
      * intros x [Hx| ->%list_elem_of_singleton]%elem_of_app Hall; [auto|by right].
    + apply bool_decide_eq_true in He. apply bool_decide_eq_false in Ho.
      apply dec_stable in Ho. split; simpl; try done.
      * intros x Hx. destruct (Hnew x Hx) as [|(? & ? & ?)]; [by left|right].
        split_and!; try done. apply elem_of_app. by left.
      * intros x [Hx| ->%list_elem_of_singleton]%elem_of_app Hall; [auto|by left].
    + apply bool_decide_eq_false in He. split; simpl; try done.
      * intros x Hx. destruct (Hnew x Hx) as [|(? & ? & ?)]; [by left|right].
        split_and!; try done. apply elem_of_app. by left.
      * intros x [Hx| ->%list_elem_of_singleton]%elem_of_app Hall; [auto|].
        exfalso. apply He. by apply Hempty.
Qed.

(** State of the [while q] loop. *)
Record inv (deps : gmap string (gset string)) (q out : list string) : Prop := Inv
  { inv_deps : ∀ t p, p ∈ get deps t ↔ edge T fks t p ∧ p ∉ out;
    inv_order : ∀ j c p, out !! j = Some c → edge T fks c p →
      ∃ i, i < j ∧ out !! i = Some p;
    inv_ready : ∀ t, t ∈ q → get deps t = ∅;
    inv_queued : ∀ t, t ∈ T → t ∉ out → get deps t = ∅ → t ∈ q;
    inv_scope : ∀ x, x ∈ out ++ q → x ∈ T;
    inv_nodup : NoDup T → NoDup (out ++ q) }.

Lemma inv_step deps n q out :
  inv deps (n :: q) out →
  let out' := out ++ [n] in
  let st := foldl (relax n out') (deps, q) (sorted (elements (get rdeps n))) in
  inv st.1 (sorted st.2) out' ∧
  length (sorted st.2) + length (pending out' (sorted st.2))
  < length (n :: q) + length (pending out (n :: q)).
Proof.
  intros [Hd Ho Hr Hq Hs Hn] out' st.
  assert (HmsT : ∀ m, m ∈ sorted (elements (get rdeps n)) → m ∈ T).
  { intros m Hm%elem_of_sorted%elem_of_elements%Hrdeps.
    by destruct Hm as (? & ? & ? & ? & ? & ?). }
  destruct (relax_all n out' deps q _ HmsT) as [Jd Jmono Jnew Jcov Jnd Jms].
  fold st in Jd, Jmono, Jnew, Jcov, Jnd, Jms.
  assert (Hseen : ∀ t, n ∈ get deps t → t ∈ sorted (elements (get rdeps n))).
  { intros t Ht. apply elem_of_sorted, elem_of_elements, Hrdeps.
    by apply Hd in Ht as [? _]. }
  assert (Hd' : ∀ t p, p ∈ get st.1 t ↔ edge T fks t p ∧ p ∉ out').
  { intros t p. rewrite Jd, Hd. unfold out'.
    rewrite elem_of_app, list_elem_of_singleton. split.
    - intros [[He Hp] Hne]. split; [done|]. intros [?| ->]; [done|].
      apply Hne; [|done]. apply Hseen, Hd. done.
    - naive_solver. }
  assert (Hnil : get deps n = ∅) by (apply Hr; left).
  split; [split|].
  - done.
  - intros j c p Hj He. unfold out' in *.
    apply lookup_snoc_Some in Hj as [[Hlt Hj]|[-> <-]].
    + destruct (Ho j c p Hj He) as (i & Hi & Hp). exists i. split; [done|].
      by apply lookup_app_l_Some.
    + assert (p ∈ out) as [i Hi]%list_elem_of_lookup_1.
      { destruct (decide (p ∈ out)) as [|Hp]; [done|].
        assert (p ∈ get deps n) as Hin by (by apply Hd). rewrite Hnil in Hin.
        set_solver. }
      exists i. split; [by eapply lookup_lt_Some|by apply lookup_app_l_Some].
  - intros t Ht. rewrite elem_of_sorted in Ht. apply set_eq. intros p. split; [|set_solver].
    intros Hp. exfalso. apply Jd in Hp as [Hp Hne].
    destruct (Jnew t Ht) as [Hin|(Hin & Hall & _)].
    + rewrite (Hr t) in Hp by (by right). set_solver.
    + apply Hne; [done|]. by apply Hall.
  - intros t HtT Hout He. apply elem_of_sorted.
    assert (Hall : ∀ p, p ∈ get deps t → p = n).
    { intros p Hp. destruct (decide (p = n)) as [|Hne]; [done|].
      assert (p ∈ get st.1 t) as Hin by (apply Jd; done).
      rewrite He in Hin. set_solver. }
    assert ((t ∉ out) ∧ t ≠ n) as [Hto Htn].
    { unfold out' in Hout. rewrite elem_of_app, list_elem_of_singleton in Hout.
      naive_solver. }
    destruct (decide (get deps t = ∅)) as [He0|Hne0].
    + apply Jmono. specialize (Hq t HtT Hto He0).
      apply elem_of_cons in Hq as [|]; done.
    + assert (n ∈ get deps t) as Hin.
      { apply set_choose_L in Hne0 as [p Hp]. by rewrite <-(Hall p Hp). }
      destruct (Jcov t (Hseen t Hin) Hall); done.
  - intros x. unfold out'. rewrite !elem_of_app, list_elem_of_singleton, elem_of_sorted.
    intros [[Hx| ->]|Hx].
    + apply Hs, elem_of_app. by left.
    + apply Hs, elem_of_app. right. left.
    + destruct (Jnew x Hx) as [Hin|(Hin & _)]; [|by apply HmsT].
      apply Hs, elem_of_app. right. by right.
  - intros HT. specialize (Hn HT). unfold out'.
    apply NoDup_app in Hn as (Hn1 & Hn2 & [Hn3 Hn4]%NoDup_cons).
    rewrite sorted_Permutation. apply NoDup_app. split_and!.
    + apply NoDup_app. split_and!; [done| |apply NoDup_singleton].
      intros x Hx ->%list_elem_of_singleton. apply (Hn2 n Hx). left.
    + intros x Hx Hq'. destruct (Jnew x Hq') as [Hin|(_ & _ & Hno)]; [|done].
      apply elem_of_app in Hx as [Hx| ->%list_elem_of_singleton]; [|done].
      apply (Hn2 x Hx). by right.
    + auto.
  - rewrite length_sorted, (pending_perm _ _ _ (sorted_Permutation _)).
    rewrite <-(pending_pop out n q). simpl. unfold out' in *. lia.
Qed.

Lemma loop_total fuel : ∀ deps q out,
  inv deps q out →
  length q + length (pending out q) ≤ fuel →
  ∃ out' deps', loop fuel rdeps deps q out = Some out' ∧ inv deps' [] out'.
Proof.
  induction fuel as [|fuel IH]; intros deps q out Hinv Hfuel.
  - destruct q as [|n q]; [|simpl in Hfuel; lia]. simpl. eauto.
  - destruct q as [|n q]; [simpl; eauto|].
    destruct (inv_step deps n q out Hinv) as [Hinv' Hlt]. simpl.
    apply IH; [done|]. simpl in *. lia.
Qed.

End Loop.

Lemma list_filter_iff_elem {A} (P1 P2 : A → Prop)
    `{!∀ x, Decision (P1 x), !∀ x, Decision (P2 x)} (l : list A) :
  (∀ x, x ∈ l → P1 x ↔ P2 x) → filter P1 l = filter P2 l.
Proof.
  induction l as [|a l IH]; intros Hiff; [done|].
  rewrite !filter_cons. rewrite IH by (intros x Hx; apply Hiff; by right).
  assert (P1 a ↔ P2 a) by (apply Hiff; left).
  destruct (decide (P1 a)), (decide (P2 a)); naive_solver.
Qed.

Lemma init_inv T fks :
  let st := build T fks in
  let q := sorted (filter (λ t, get st.1 t = ∅) T) in
  inv T fks st.1 q [] ∧ length q + length (pending T [] q) ≤ length T.
Proof.
  intros st q. destruct (build_spec T fks) as (Hd1 & Hd2 & He1 & He2).
  fold st in Hd1, Hd2, He1, He2. split; [split|].
  - intros t p. rewrite He1. split; [|naive_solver].
    intros He. split; [done|]. apply not_elem_of_nil.
  - intros j c p Hj. done.
  - intros t Ht. unfold q in Ht. rewrite elem_of_sorted in Ht.
    by apply list_elem_of_filter in Ht as [? _].
  - intros t Ht _ He. apply elem_of_sorted, list_elem_of_filter. done.
  - intros x Hx. simpl in Hx. unfold q in Hx. rewrite elem_of_sorted in Hx.
    by apply list_elem_of_filter in Hx as [_ ?].
  - intros HT. simpl. unfold q. rewrite sorted_Permutation. by apply NoDup_filter.
  - unfold q at 1. rewrite length_sorted. unfold pending.
    rewrite (list_filter_iff_elem (λ t, (t ∉ []) ∧ (t ∉ q)) (λ t, ¬ get st.1 t = ∅)).
    + pose proof (filter_app_complement (λ t, get st.1 t = ∅) T) as Hp.
      apply Permutation_length in Hp. rewrite length_app in Hp. lia.
    + intros t Ht. unfold q. rewrite elem_of_sorted, list_elem_of_filter.
      split; [naive_solver|]. intros Hn. split; [apply not_elem_of_nil|].
      intros [He _]. done.
Qed.

Lemma topo_sort_inv T fks :
  ∃ out deps,
    topo_sort_tables T fks = Some (out ++ sorted (filter (λ t, t ∉ out) T))
    ∧ inv T fks deps [] out.
Proof.
  destruct (build_spec T fks) as (_ & _ & _ & He2).
  destruct (init_inv T fks) as [Hinv Hfuel].
  destruct (loop_total T fks _ He2 (length T) _ _ _ Hinv Hfuel)
    as (out & deps & Hloop & Hinv').
  exists out, deps. split; [|done].
  unfold topo_sort_tables, topo_sort_tables_fuel.
  destruct (build T fks) as [d r]; simpl in *. by rewrite Hloop.
Qed.

Lemma topo_sort_total T fks : is_Some (topo_sort_tables T fks).
Proof. destruct (topo_sort_inv T fks) as (out & deps & -> & _). eauto. Qed.

Section Emitted.
Context (T : list string) (fks : list ForeignKey.t).
Context (deps : gmap string (gset string)) (out : list string).
Hypothesis Hinv : inv T fks deps [] out.

Lemma emitted_tc j c p :
  out !! j = Some c → tc (edge T fks) c p → ∃ i, i < j ∧ out !! i = Some p.
Proof.
  intros Hj Htc. revert j Hj. induction Htc as [c p He|c m p He _ IH]; intros j Hj.
  - by eapply (inv_order _ _ _ _ _ Hinv).
  - destruct (inv_order _ _ _ _ _ Hinv j c m Hj He) as (i & Hi & Hm).
    destruct (IH i Hm) as (k & Hk & Hp). exists k. split; [lia|done].
Qed.

Lemma emitted_rtc c p : c ∈ out → rtc (edge T fks) c p → p ∈ out.
Proof.
  intros Hc Hr. induction Hr as [|c m p He _ IH]; [done|]. apply IH.
  apply list_elem_of_lookup_1 in Hc as [j Hj].
  destruct (inv_order _ _ _ _ _ Hinv j c m Hj He) as (i & _ & Hm).
  by eapply list_elem_of_lookup_2.
Qed.

Lemma emitted_not_on_cycle j : ∀ u, out !! j = Some u → ¬ tc (edge T fks) u u.
Proof.
  induction j as [j IH] using lt_wf_ind. intros u Hj Htc.
  destruct (emitted_tc j u u Hj Htc) as (i & Hi & Hu). by eapply (IH i).
Qed.

Lemma emitted_not_cyclic t : t ∈ out → ¬ cyclic T fks t.
Proof.
  intros Ht (u & Hr & Htc).
  apply (emitted_rtc _ _ Ht) in Hr. apply list_elem_of_lookup_1 in Hr as [j Hj].
  by eapply emitted_not_on_cycle.
Qed.

(** A table the loop did not emit still waits for a parent that was not
    emitted either. *)
Lemma left_over_parent t :
  t ∈ T → t ∉ out → ∃ p, edge T fks t p ∧ p ∈ T ∧ p ∉ out.
Proof.
  intros Ht Hout.
  destruct (decide (get deps t = ∅)) as [He|Hne].
  - pose proof (inv_queued _ _ _ _ _ Hinv t Ht Hout He) as Hq. by apply elem_of_nil in Hq.
  - apply set_choose_L in Hne as [p Hp].
    apply (inv_deps _ _ _ _ _ Hinv) in Hp as [He Hp]. exists p. split_and!; [done| |done].
    by destruct He as (? & ? & ? & ? & ? & ?).
Qed.

Lemma left_over_walk n : ∀ (visited : list string) x,
  x ∈ T → x ∉ out →
  (∀ v, v ∈ visited → tc (edge T fks) v x) →
  length (filter (λ t, t ∉ visited) T) ≤ n →
  cyclic T fks x.
Proof.
  induction n as [|n IH]; intros visited x Hx Hout Hreach Hlen.
  - destruct (decide (x ∈ visited)) as [Hv|Hv].
    + exists x. split; [done|by apply Hreach].
    + assert (x ∈ filter (λ t, t ∉ visited) T) as Hin by (by apply list_elem_of_filter).
      destruct (filter (λ t, t ∉ visited) T); [by apply elem_of_nil in Hin|simpl in Hlen; lia].
  - destruct (decide (x ∈ visited)) as [Hv|Hv].
    { exists x. split; [done|by apply Hreach]. }
    destruct (left_over_parent x Hx Hout) as (p & He & Hp & Hpo).
    destruct (IH (x :: visited) p Hp Hpo) as (u & Hr & Htc).
    + intros v [->|Hvin]%elem_of_cons; [by apply tc_once|].
      eapply tc_r; [by apply Hreach|done].
    + assert (length (filter (λ t, t ∉ x :: visited) T)
              < length (filter (λ t, t ∉ visited) T)); [|lia].
      rewrite (list_filter_iff _ (λ t, t ≠ x ∧ (t ∉ visited))).
      * rewrite <-list_filter_filter. apply (length_filter_lt _ _ x); [|naive_solver].
        by apply list_elem_of_filter.
      * intros t. rewrite elem_of_cons. naive_solver.
    + exists u. split; [|done]. by eapply rtc_l.
Qed.

Lemma left_over_cyclic t : t ∈ T → t ∉ out → cyclic T fks t.
Proof.
  intros Ht Hout. apply (left_over_walk (length T) [] t Ht Hout).
  - intros v Hv. by apply elem_of_nil in Hv.
  - apply length_filter.
Qed.

Lemma emitted_iff t : t ∈ out ↔ t ∈ T ∧ ¬ cyclic T fks t.
Proof.
  split.
  - intros Ht. split; [|by apply emitted_not_cyclic].
    apply (inv_scope _ _ _ _ _ Hinv). rewrite app_nil_r. done.
  - intros [Ht Hn]. destruct (decide (t ∈ out)) as [|Hout]; [done|].
    destruct Hn. by apply left_over_cyclic.
Qed.

End Emitted.

Lemma acyclic_not_cyclic T fks t : acyclic T fks → ¬ cyclic T fks t.
Proof.
  intros [rank Hrank] (u & _ & Htc).
  assert (∀ a b, tc (edge T fks) a b → rank b < rank a) as Hlt.
  { intros a b H. induction H as [a b He|a m b He _ IH].
    - destruct He as (fk & Hfk & <- & <- & Hc & Hp). by apply Hrank.
    - destruct He as (fk & Hfk & <- & <- & Hc & Hp).
      specialize (Hrank fk Hfk Hc Hp). lia. }
  specialize (Hlt u u Htc). lia.
Qed.

Lemma three_acyclic : acyclic three_tables three_fks.
Proof.
  exists (λ t, if decide (t = "parent") then 0 else if decide (t = "child") then 1 else 2).
  intros fk Hfk _ _. unfold three_fks in Hfk.
  repeat (apply elem_of_cons in Hfk as [->|Hfk]; [simpl; lia|]).
  by apply elem_of_nil in Hfk.
Defined.

(** C8: for distinct table names and any foreign-key list (self references
    and cycles included), [topo_sort_tables] returns, and what it returns
    is a permutation of the input tables. *)
Theorem topo_sort_tables_permutation (tables : list string) (fks : list ForeignKey.t) :
  NoDup tables →
  ∃ out, topo_sort_tables tables fks = Some out ∧ out ≡ₚ tables.
Proof.
  intros HT. destruct (topo_sort_inv tables fks) as (out & deps & Heq & Hinv).
  eexists. split; [done|]. rewrite sorted_Permutation.
  pose proof (inv_nodup _ _ _ _ _ Hinv HT) as Hnd. rewrite app_nil_r in Hnd.
  apply NoDup_Permutation; [|done|].
  - apply NoDup_app. split_and!; [done| |by apply NoDup_filter].
    intros x Hx [Hn _]%list_elem_of_filter. done.
  - intros x. rewrite elem_of_app, list_elem_of_filter. split.
    + intros [Hx|[_ Hx]]; [|done]. apply (inv_scope _ _ _ _ _ Hinv).
      by rewrite app_nil_r.
    + intros Hx. destruct (decide (x ∈ out)); auto.
Qed.

Lemma topo_sort_tables_permutation_witness :
  NoDup ["a"; "b"; "c"] ∧
  ∃ out, topo_sort_tables ["a"; "b"; "c"]
           (ForeignKey.mk "c" "c_id" "c" "id" :: cycle_fks) = Some out
         ∧ out ≡ₚ ["a"; "b"; "c"].
Proof.
  assert (NoDup ["a"; "b"; "c"]) as Hnd
    by (apply (bool_decide_unpack _); by vm_compute).
  split; [done|]. by apply topo_sort_tables_permutation.
Defined.

(** C5, as amended: [topo_sort_tables] returns [out ++ rest], where [out]
    is what Kahn's loop emitted and [rest] holds the tables it could not
    emit, in lexicographic order.  A table is in [rest] exactly when it
    lies on a foreign-key cycle (a self-reference included) or reaches one
    through its foreign keys; every other table is in [out].  The parents
    in scope of a table of [out] are in [out].  For every edge with both
    ends in scope whose parent is in [out], so in particular for every
    edge whose child is in [out], the parent occurs strictly before the
    child.  When the graph in scope has no cycle, [rest] is empty, every
    such edge has its child in the result and its parent strictly before
    it; the three-table schema plans [parent; child; grandchild]. *)
Theorem topo_sort_tables_parent_first (tables : list string) (fks : list ForeignKey.t) :
  (∃ out rest,
     topo_sort_tables tables fks = Some (out ++ rest) ∧
     (∀ t, t ∈ out ↔ t ∈ tables ∧ ¬ cyclic tables fks t) ∧
     (∀ t, t ∈ rest ↔ t ∈ tables ∧ cyclic tables fks t) ∧
     rest ≡ₚ filter (λ t, t ∉ out) tables ∧
     Sorted str_le rest ∧
     (∀ fk, fk ∈ fks →
        ForeignKey.table fk ∈ out → ForeignKey.ref_table fk ∈ tables →
        ForeignKey.ref_table fk ∈ out) ∧
     (∀ fk, fk ∈ fks →
        ForeignKey.table fk ∈ tables → ForeignKey.ref_table fk ∈ out →
        before (out ++ rest) (ForeignKey.ref_table fk) (ForeignKey.table fk)) ∧
     (acyclic tables fks →
        rest = [] ∧
        ∀ fk, fk ∈ fks →
          ForeignKey.table fk ∈ tables → ForeignKey.ref_table fk ∈ tables →
          ForeignKey.table fk ∈ out ∧
          before out (ForeignKey.ref_table fk) (ForeignKey.table fk)))
  ∧ topo_sort_tables three_tables three_fks = Some ["parent"; "child"; "grandchild"].
Proof.
  split; [|by vm_compute].
  destruct (topo_sort_inv tables fks) as (out & deps & Heq & Hinv).
  pose proof (emitted_iff _ _ _ _ Hinv) as Hout.
  assert (∀ t, t ∈ sorted (filter (λ t, t ∉ out) tables)
               ↔ t ∈ tables ∧ cyclic tables fks t) as Hrest.
  { intros t. rewrite elem_of_sorted, list_elem_of_filter, Hout. split.
    - intros [Hn Ht]. split; [done|]. apply (left_over_cyclic _ _ _ _ Hinv); [done|].
      rewrite Hout. tauto.
    - intros [Ht Hc]. split; [|done]. tauto. }
  assert (∀ l fk, fk ∈ fks →
            ForeignKey.table fk ∈ tables → ForeignKey.ref_table fk ∈ out →
            (∀ t, t ∈ l → t ∉ out) →
            before (out ++ l) (ForeignKey.ref_table fk) (ForeignKey.table fk)) as Hbefore.
  { intros l fk Hfk Hc Hp Hl j Hj.
    assert (edge tables fks (ForeignKey.table fk) (ForeignKey.ref_table fk)) as He.
    { exists fk. split_and!; try done. by apply Hout in Hp as [? _]. }
    apply lookup_app_Some in Hj as [Hj|[Hlen Hj]].
    - destruct (inv_order _ _ _ _ _ Hinv j _ _ Hj He) as (i & Hi & Hpi).
      exists i. split; [done|]. by apply lookup_app_l_Some.
    - apply list_elem_of_lookup_1 in Hp as [i Hi]. exists i.
      split; [apply lookup_lt_Some in Hi; lia|by apply lookup_app_l_Some]. }
  assert (∀ fk, fk ∈ fks →
            ForeignKey.table fk ∈ out → ForeignKey.ref_table fk ∈ tables →
            ForeignKey.ref_table fk ∈ out) as Hparent.
  { intros fk Hfk Hc Hp. eapply (emitted_rtc _ _ _ _ Hinv); [exact Hc|].
    apply rtc_once. exists fk. split_and!; try done. by apply Hout in Hc as [? _]. }
  exists out, (sorted (filter (λ t, t ∉ out) tables)). split_and!.
  - done.
  - done.
  - done.
  - apply sorted_Permutation.
  - apply Sorted_merge_sort. apply _.
  - exact Hparent.
  - intros fk Hfk Hc Hp. apply Hbefore; [done..|].
    intros t [_ Ht]%Hrest. rewrite Hout. tauto.
  - intros Hacyc.
    assert (sorted (filter (λ t, t ∉ out) tables) = []) as Hnil.
    { destruct (sorted _) as [|t rest] eqn:E; [done|].
      assert (t ∈ t :: rest) as Hin by left.
      apply Hrest in Hin as [_ Hc]. by apply acyclic_not_cyclic in Hc. }
    split; [done|]. intros fk Hfk Hc Hp.
    assert (∀ t, t ∈ tables → t ∈ out) as Hall.
    { intros t Ht. apply Hout. split; [done|]. by apply acyclic_not_cyclic. }
    split; [by apply Hall|]. rewrite <-(app_nil_r out). apply Hbefore; [done|done| |].
    + by apply Hall.
    + intros t Ht. by apply elem_of_nil in Ht.
Qed.

Lemma topo_sort_tables_parent_first_witness :
  acyclic three_tables three_fks ∧
  ∃ out, topo_sort_tables three_tables three_fks = Some out ∧
    ∀ fk, fk ∈ three_fks →
      ForeignKey.table fk ∈ three_tables → ForeignKey.ref_table fk ∈ three_tables →
      ForeignKey.table fk ∈ out ∧
      before out (ForeignKey.ref_table fk) (ForeignKey.table fk).
Proof.
  split; [exact three_acyclic|].
  destruct (proj1 (topo_sort_tables_parent_first three_tables three_fks))
    as (out & rest & Heq & _ & _ & _ & _ & _ & _ & Hacyc).
  destruct (Hacyc three_acyclic) as [Hnil Hall]. exists out. split; [|exact Hall].
  rewrite Heq, Hnil. by rewrite app_nil_r.
Defined.

(** C5 as stated fails on a two-table cycle: the edge with child [a] and
    parent [b] has both ends in scope, yet [a] is planned first. *)
Lemma topo_sort_tables_cycle_counterexample :
  topo_sort_tables ["a"; "b"] cycle_fks = Some ["a"; "b"] ∧
  ForeignKey.mk "a" "b_id" "b" "id" ∈ cycle_fks ∧
  ¬ before ["a"; "b"] "b" "a".
Proof.
  split; [by vm_compute|]. split; [left|].
  intros H. destruct (H 0 eq_refl) as (i & Hi & _). lia.
Qed.

End TopoFacts.

Module LoaderFacts.
Import Inputs.

Section Sorting.
Context (le : relation value) `{!∀ x y, Decision (le x y)} `{!Total le}.

#[local] Instance by_key_total : Total (λ a b : value * value, le a.1 b.1).
Proof. intros a b. apply (total le). Qed.

(** [SELECT c ... ORDER BY c] returns the stored values of [c], sorted. *)
Lemma select_order_by (db : Pg.database) schema table c rows keys cur :
  Pg.search_path cur = Some schema →
  db !! (schema, table) = Some rows →
  Forall2 (λ (r : gmap string value) k, r !! c = Some k) rows keys →
  ∃ vals, Pg.execute le db (Pg.SELECT_ORDER_BY c table c) cur
          = Some (Pg.Cursor (Some schema) (Some ((λ x, [x]) <$> vals)))
          ∧ vals ≡ₚ keys ∧ Sorted le vals.
Proof.
  intros Hpath Hrows Hkeys. simpl. rewrite Hpath. simpl. rewrite Hrows. simpl.
  assert (mapM (λ r : gmap string value, k ← r !! c; x ← r !! c; Some (k, x)) rows
          = Some ((λ k, (k, k)) <$> keys)) as ->.
  { apply mapM_Some. apply Forall2_fmap_r.
    eapply Forall2_impl; [exact Hkeys|]. intros r k Hk. simpl. by rewrite Hk. }
  simpl.
  set (sorted_pairs := merge_sort (λ a b : value * value, le a.1 b.1) ((λ k, (k, k)) <$> keys)).
  assert (sorted_pairs ≡ₚ (λ k, (k, k)) <$> keys) as Hperm by apply merge_sort_Permutation.
  assert (Forall (λ kx : value * value, kx.1 = kx.2) sorted_pairs) as Hdiag.
  { rewrite Hperm. apply Forall_fmap. by apply Forall_true. }
  exists (snd <$> sorted_pairs). split_and!.
  - f_equal. f_equal. by rewrite <-list_fmap_compose.
  - rewrite Hperm, <-list_fmap_compose. by rewrite list_fmap_id.
  - assert (snd <$> sorted_pairs = fst <$> sorted_pairs) as ->.
    { apply Forall_fmap_ext_1. eapply Forall_impl; [exact Hdiag|]. by intros kx ->. }
    apply (Sorted_fmap fst (λ a b : value * value, le a.1 b.1) le); [done|].
    apply Sorted_merge_sort. apply _.
Qed.

(** C7: after a table's load, a single-column primary key makes
    [cache_pk_values] run [SELECT pk FROM table ORDER BY pk] in the given
    schema and overwrite the entry of the lowercased table name with the
    result: the key values stored in the table, in sorted order, whatever
    the entry held before.  Every other entry is kept.  With a composite
    or absent primary key the pool is returned unchanged and the database
    is not consulted. *)
Theorem cache_pk_values_frame (conn : Pg.database) (schema table : string)
    (pk : option PrimaryKey.t) (ref_ids : gmap string (list value)) :
  match pk_col_of pk with
  | Some pk_col =>
    ∀ rows keys,
      conn !! (schema, table) = Some rows →
      Forall2 (λ (r : gmap string value) k, r !! pk_col = Some k) rows keys →
      ∃ vals ref_ids',
        cache_pk_values le conn schema table pk ref_ids = Some ref_ids' ∧
        ref_ids' !! lower table = Some vals ∧
        vals ≡ₚ keys ∧ Sorted le vals ∧
        ∀ t, t ≠ lower table → ref_ids' !! t = ref_ids !! t
  | None => cache_pk_values le conn schema table pk ref_ids = Some ref_ids
  end.
Proof.
  unfold pk_col_of, cache_pk_values.
  destruct pk as [[t cs]|]; simpl; [|done].
  destruct cs as [|c [|c' cs]]; simpl; try done.
  intros rows keys Hrows Hkeys.
  destruct (select_order_by conn schema table c rows keys
              (Pg.Cursor (Some schema) None) eq_refl Hrows Hkeys)
    as (vals & Hexec & Hperm & Hsorted).
  exists vals, (<[lower table := vals]> ref_ids).
  split_and!; [|apply lookup_insert_eq|done|done|by intros u Hu; apply lookup_insert_ne].
  change (Pg.execute le conn (Pg.SELECT_ORDER_BY c table c) (Pg.Cursor (Some schema) None)
            ≫= (λ cur, rows ← Pg.fetchall cur;
                       keys ← mapM (λ r : list value, r !! 0) rows;
                       Some (<[lower table := keys]> ref_ids))
          = Some (<[lower table := vals]> ref_ids)).
  rewrite Hexec. simpl.
  assert (mapM (λ r : list value, r !! 0) ((λ x, [x]) <$> vals) = Some vals) as ->; [|done].
  apply mapM_Some. apply Forall2_fmap_l. by apply Forall_Forall2_diag, Forall_true.
Qed.

End Sorting.

Lemma cache_pk_values_frame_witness :
  ∃ vals ref_ids',
    cache_pk_values int_le sample_db "public" "Room"
      (Some (PrimaryKey.mk "Room" ["room_id"])) sample_pool = Some ref_ids' ∧
    ref_ids' !! "room" = Some vals ∧
    vals ≡ₚ [VInt 3; VInt 1; VInt 2] ∧ Sorted int_le vals ∧
    ∀ t, t ≠ "room" → ref_ids' !! t = sample_pool !! t.
Proof.
  apply (cache_pk_values_frame int_le sample_db "public" "Room"
           (Some (PrimaryKey.mk "Room" ["room_id"])) sample_pool
           [{["room_id" := VInt 3]}; {["room_id" := VInt 1]}; {["room_id" := VInt 2]}]).
  - reflexivity.
  - repeat constructor.
Defined.

(** The run behind the witness: the pool entry [3; 1] tracked before the
    load is replaced by the stored keys in order. *)
Example cache_pk_values_run :
  cache_pk_values int_le sample_db "public" "Room"
    (Some (PrimaryKey.mk "Room" ["room_id"])) sample_pool
  = Some (<["room" := [VInt 1; VInt 2; VInt 3]]> sample_pool)
  ∧ Pg.text (Pg.SELECT_ORDER_BY "room_id" "Room" "room_id")
    = "SELECT " +:+ dq +:+ "room_id" +:+ dq +:+ " FROM " +:+ dq +:+ "Room" +:+ dq
      +:+ " ORDER BY " +:+ dq +:+ "room_id" +:+ dq.
Proof. split; [by vm_compute|done]. Qed.

End LoaderFacts.

Module RegistryFacts.
Import Inputs.

Lemma unique_text_loop_exhausted key make_value n : ∀ w,
  exhausted key make_value n w →
  ∃ w', unique_text_loop key make_value n w = Ok (None, w').
Proof.
  induction n as [|n IH]; intros w Hex; simpl in *.
  - by eexists.
  - destruct Hex as (s & w1 & Hmv & Hbad & Hex).
    destruct (IH w1 Hex) as [w' Hw']. exists w'.
    unfold mbind, M_bind at 1. rewrite Hmv.
    unfold mbind, M_bind at 1. unfold seen_of at 1.
    destruct Hbad as [He|Hin].
    + rewrite He. simpl. done.
    + rewrite (bool_decide_eq_true_2 _ Hin). rewrite andb_false_r. done.
Qed.

(** C10: when every candidate that the supplied generator produces within
    the 200,000-try budget is empty or was already issued for the key,
    [unique_text] falls off the end of its loop and returns [None]; it
    neither raises nor forces a distinct value. *)
Theorem unique_text_returns_none (key : string * string) (make_value : M string)
    (w : world) :
  exhausted key make_value default_max_tries (setdefault_seen key w) →
  ∃ w', unique_text key make_value w = Ok (None, w').
Proof.
  intros Hex. unfold unique_text, unique_text_tries.
  destruct (unique_text_loop_exhausted _ _ _ _ Hex) as [w' Hw']. exists w'.
  exact Hw'.
Qed.


Lemma exhausted_val_token n : ∀ p,
  exhausted ("t", "c") val_token n
    (World (λ _, 0) p {[("t", "c") := ["VAL_000000"]]} ∅ ∅).
Proof.
  induction n as [|n IH]; intros p; simpl; [done|].
  eexists _, _. split; [reflexivity|]. split; [|apply IH].
  right. vm_compute. left.
Qed.

Lemma unique_text_returns_none_witness :
  exhausted ("t", "c") val_token default_max_tries
    (setdefault_seen ("t", "c") issued_world) ∧
  ∃ w', unique_text ("t", "c") val_token issued_world = Ok (None, w').
Proof.
  assert (exhausted ("t", "c") val_token default_max_tries
            (setdefault_seen ("t", "c") issued_world)) as Hex
    by apply exhausted_val_token.
  split; [exact Hex|]. by apply unique_text_returns_none.
Defined.

End RegistryFacts.

Module MFacts.

Lemma bind_Ok {A B} (m : M A) (f : A → M B) w r :
  (m ≫= f) w = Ok r → ∃ a w1, m w = Ok (a, w1) ∧ f a w1 = Ok r.
Proof.
  unfold mbind, M_bind. destruct (m w) as [[a w1]| |]; [eauto|done|done].
Qed.

Lemma fmap_Ok {A B} (g : A → B) (m : M A) w r :
  (g <$> m) w = Ok r → ∃ a w1, m w = Ok (a, w1) ∧ r = (g a, w1).
Proof.
  unfold fmap, M_fmap. intros (a & w1 & Hm & Hr)%bind_Ok.
  exists a, w1. split; [done|]. by inversion Hr.
Qed.

Lemma ret_Ok {A} (a : A) w r : (mret a : M A) w = Ok r → r = (a, w).
Proof. unfold mret, M_ret. by inversion 1. Qed.

Lemma raise_Ok {A} e w (r : A * world) : raise e w = Ok r → False.
Proof. done. Qed.

Ltac inv_M H :=
  repeat match type of H with
  | (_ ≫= _) _ = Ok _ =>
      let a := fresh "a" in let w := fresh "w" in let H1 := fresh "H" in
      apply bind_Ok in H as (a & w & H1 & H)
  | (mret _) _ = Ok _ => apply ret_Ok in H
  | raise _ _ = Ok _ => by apply raise_Ok in H
  end.

Lemma swap_length {A} (x : list A) i j : length (random.swap x i j) = length x.
Proof.
  unfold random.swap. destruct (x !! i), (x !! j); rewrite ?length_insert; done.
Qed.

Lemma shuffle_from_length {A} i : ∀ (x : list A) w x' w',
  random.shuffle_from i x w = Ok (x', w') → length x' = length x.
Proof.
  induction i as [|i IH]; intros x w x' w' H; simpl in H.
  - apply ret_Ok in H. by inversion H.
  - apply bind_Ok in H as (j & w1 & _ & H). apply IH in H.
    by rewrite swap_length in H.
Qed.

Lemma shuffle_length {A} (x : list A) w x' w' :
  random.shuffle x w = Ok (x', w') → length x' = length x.
Proof. apply shuffle_from_length. Qed.

Lemma sample_from_length {A} k : ∀ (pool : list A) n w l w',
  random.sample_from k pool n w = Ok (l, w') → length l = k.
Proof.
  induction k as [|k IH]; intros pool n w l w' H; simpl in H.
  - apply ret_Ok in H. by inversion H.
  - apply bind_Ok in H as (j & w1 & _ & H).
    destruct (pool !! j); [|done]. destruct (pool !! (n - 1)); [|done].
    apply bind_Ok in H as (rest & w2 & Hr & H). apply ret_Ok in H.
    inversion H; subst. simpl. f_equal. by eapply IH.
Qed.

Lemma sample_length {A} (population : list A) k w l w' :
  random.sample population k w = Ok (l, w') → length l = k.
Proof.
  unfold random.sample. case_match; [done|]. apply sample_from_length.
Qed.

End MFacts.

Module RoomNightFacts.
Import MFacts.

Section Bound.
Context (fake : Faker) (today : Z).
Context (table : string) (cols : list ColumnInfo.t).
Context (fk_map : gmap (string * string) (string * string)).
Context (ref_ids : gmap string (list value)) (n_rows : Z).
Context (enums : gmap string (list string)).
Context (room_id_col night_date_col : string) (per_room : Z).

Lemma room_night_inner_length offsets : ∀ rid st w st' w',
  room_night_inner fake today table cols fk_map ref_ids n_rows enums
    room_id_col night_date_col offsets rid st w = Ok (st', w') →
  length st'.2 ≤ length st.2 + length offsets.
Proof.
  induction offsets as [|off offsets IH]; intros rid st w st' w' H; simpl in H.
  - apply ret_Ok in H. inversion H; subst. lia.
  - case_match.
    + apply IH in H. simpl. lia.
    + apply bind_Ok in H as (row & w1 & _ & H). simpl in H. case_match.
      * apply ret_Ok in H. inversion H; subst. simpl. rewrite length_app. simpl. lia.
      * apply IH in H. simpl in *. rewrite length_app in H. simpl in *. lia.
Qed.

Lemma room_night_loop_cons rid room_ids st :
  room_night_loop fake today table cols fk_map ref_ids n_rows enums
    room_id_col night_date_col per_room (rid :: room_ids) st
  = if (n_rows <=? len st.2)%Z then mret st
    else
      offsets ← random.sample (seq 0 total_days)
                  (Z.to_nat (per_room `min` Z.of_nat total_days));
      st' ← room_night_inner fake today table cols fk_map ref_ids n_rows enums
              room_id_col night_date_col offsets rid st;
      room_night_loop fake today table cols fk_map ref_ids n_rows enums
        room_id_col night_date_col per_room room_ids st'.
Proof. reflexivity. Qed.

Lemma room_night_loop_length room_ids : ∀ st w st' w',
  room_night_loop fake today table cols fk_map ref_ids n_rows enums
    room_id_col night_date_col per_room room_ids st w = Ok (st', w') →
  length st'.2 ≤ length st.2
    + length room_ids * Z.to_nat (per_room `min` Z.of_nat total_days).
Proof.
  induction room_ids as [|rid room_ids IH]; intros st w st' w' H.
  - apply ret_Ok in H. inversion H; subst. simpl. lia.
  - rewrite room_night_loop_cons in H. case_match.
    + apply ret_Ok in H. inversion H; subst. lia.
    + apply bind_Ok in H as (offsets & w1 & Hs & H).
      apply bind_Ok in H as (st1 & w2 & Hi & H).
      apply sample_length in Hs. apply room_night_inner_length in Hi.
      apply IH in H. rewrite length_cons. lia.
Qed.

End Bound.

Import Inputs.

Example room_night_two_rooms :
  run (generate_room_night_csv stub_fake 0 "room_night" room_night_cols ∅ two_rooms 3 ∅)
      zero_world
  = Ok [[VInt 2; VDate (-730)]; [VInt 1; VDate (-730)]].
Proof. vm_compute. reflexivity. Qed.

Lemma room_night_rows_bound fake today table cols fk_map ref_ids n_rows enums w rows w' :
  generate_room_night_csv fake today table cols fk_map ref_ids n_rows enums w
    = Ok (rows, w') →
  length rows ≤ length (default [] (ref_ids !! "room"))
    * Z.to_nat ((1 `max` (n_rows `div` len (default [] (ref_ids !! "room"))))
                `min` Z.of_nat total_days)%Z.
Proof.
  unfold generate_room_night_csv. intros H.
  case_match; [done|].
  destruct (col_lc_of cols !! "room_id") as [rc|]; [|done].
  destruct (col_lc_of cols !! "night_date") as [nc|]; [|done].
  case_match; [done|].
  apply bind_Ok in H as (ids & w1 & Hsh & H).
  apply bind_Ok in H as (st & w2 & Hl & H).
  apply ret_Ok in H. inversion H; subst.
  apply shuffle_length in Hsh. apply room_night_loop_length in Hl.
  rewrite length_fmap. unfold rows_to.
  case_match; rewrite length_take; simpl in Hl; rewrite Hsh in Hl; lia.
Qed.

(** C9: the room_night assembler writes at most
    [len(room_ids) * min(max(1, n_rows // len(room_ids)), 1095)] rows, so
    whenever [n_rows] is at least the room count and not a multiple of it
    a successful run writes strictly fewer than [n_rows] rows; with two
    rooms and [n_rows = 3] it returns normally with two rows. *)
Theorem room_night_shortfall :
  (∀ fake today table cols fk_map ref_ids n_rows enums w rows w',
     generate_room_night_csv fake today table cols fk_map ref_ids n_rows enums w
       = Ok (rows, w') →
     let room_ids := default [] (ref_ids !! "room") in
     length rows ≤ length room_ids
       * Z.to_nat ((1 `max` (n_rows `div` len room_ids)) `min` Z.of_nat total_days)%Z ∧
     (len room_ids ≤ n_rows → n_rows `mod` len room_ids ≠ 0 → len rows < n_rows)%Z)
  ∧ run (generate_room_night_csv stub_fake 0 "room_night" room_night_cols ∅ two_rooms 3 ∅)
        zero_world
    = Ok [[VInt 2; VDate (-730)]; [VInt 1; VDate (-730)]].
Proof.
  split; [|exact room_night_two_rooms].
  intros fake today table cols fk_map ref_ids n_rows enums w rows w' H room_ids.
  pose proof (room_night_rows_bound _ _ _ _ _ _ _ _ _ _ _ H) as Hb.
  fold room_ids in Hb. split; [exact Hb|].
  intros Hle Hmod. unfold len in *.
  assert (room_ids ≠ []) as Hne.
  { unfold generate_room_night_csv in H. fold room_ids in H.
    intros Hnil. rewrite Hnil in H. done. }
  assert (0 < length room_ids) as Hpos by (destruct room_ids; [done|simpl; lia]).
  set (L := Z.of_nat (length room_ids)) in *.
  assert (0 < L)%Z as HL by lia.
  pose proof (Z.div_mod n_rows L ltac:(lia)) as Hdm.
  pose proof (Z.mod_pos_bound n_rows L HL) as Hmb.
  assert (1 ≤ n_rows `div` L)%Z as Hq.
  { apply Z.div_le_lower_bound; lia. }
  assert (Z.of_nat (length rows) ≤ L * (n_rows `div` L))%Z as Hfin; [|lia].
  assert (Z.to_nat ((1 `max` (n_rows `div` L)) `min` Z.of_nat total_days)
          ≤ Z.to_nat (n_rows `div` L)) as Hk by lia.
  assert (length rows ≤ length room_ids * Z.to_nat (n_rows `div` L)) as Hn.
  { etrans; [exact Hb|]. by apply Nat.mul_le_mono_l. }
  apply Nat2Z.inj_le in Hn. rewrite Nat2Z.inj_mul, Z2Nat.id in Hn by lia. exact Hn.
Qed.

Lemma room_night_shortfall_witness :
  ∃ rows w',
    generate_room_night_csv stub_fake 0 "room_night" room_night_cols ∅ two_rooms 3 ∅
      zero_world = Ok (rows, w') ∧ (len rows < 3)%Z.
Proof.
  destruct (generate_room_night_csv stub_fake 0 "room_night" room_night_cols ∅
              two_rooms 3 ∅ zero_world) as [[rows w']| |] eqn:E.
  - exists rows, w'. split; [reflexivity|].
    apply (proj1 room_night_shortfall _ _ _ _ _ _ _ _ _ _ _ E); by vm_compute.
  - exfalso. pose proof room_night_two_rooms as H. unfold run in H. by rewrite E in H.
  - exfalso. pose proof room_night_two_rooms as H. unfold run in H. by rewrite E in H.
Defined.

End RoomNightFacts.

Module StayFacts.
Import MFacts.

Lemma randint_bounds a b w z w' :
  random.randint a b w = Ok (z, w') → (a ≤ z)%Z.
Proof.
  unfold random.randint. intros (k & w1 & _ & H)%bind_Ok.
  apply ret_Ok in H. inversion H; subst. lia.
Qed.

Lemma foldM_inv {A B} (P : A → Prop) (f : A → B → M A) l : ∀ a w a' w',
  (∀ a b w a' w', P a → f a b w = Ok (a', w') → P a') →
  P a → foldM f a l w = Ok (a', w') → P a'.
Proof.
  induction l as [|b l IH]; intros a w a' w' Hf Ha H; simpl in H.
  - apply ret_Ok in H. by inversion H; subst.
  - apply bind_Ok in H as (a1 & w1 & H1 & H). eapply IH; [done| |done]. eauto.
Qed.

Lemma put_Some name x (row : gmap string value) :
  name ≠ "" → put (Some name) x row = <[name := x]> row.
Proof. intros Hne. unfold put, truthy. by rewrite bool_decide_eq_false_2. Qed.

Lemma put_keeps col x (row : gmap string value) k :
  is_Some (row !! k) → is_Some (put col x row !! k).
Proof.
  intros Hk. unfold put. destruct col as [name|]; [|done]. case_match; [|done].
  destruct (decide (name = k)) as [->|Hne].
  - rewrite lookup_insert_eq. eauto.
  - by rewrite lookup_insert_ne.
Qed.

Lemma put_lookup col x (row : gmap string value) k :
  (∀ n, col = Some n → n ≠ "") →
  put col x row !! k = if decide (col = Some k) then Some x else row !! k.
Proof.
  intros Hne. destruct col as [name|].
  - rewrite put_Some by auto. destruct (decide (Some name = Some k)) as [Hd|Hd].
    + inversion Hd; subst. apply lookup_insert_eq.
    + apply lookup_insert_ne. congruence.
  - destruct (decide (None = Some k)); done.
Qed.

(** What the status branch stores in the two timestamp columns. *)
Definition branch_shape (scenario : option string) (x_a x_o : value) : Prop :=
  (scenario = None ∨ contains "CANCEL" (upper (default "" scenario)) = true →
     x_a = VNone ∧ x_o = VNone) ∧
  (x_a = VNone ∨ ∃ ci, x_a = VDateTime ci) ∧
  (x_o = VNone ∨ ∃ ci co, x_a = VDateTime ci ∧ x_o = VDateTime co ∧ (ci ≤ co)%Z).

Lemma repair_order_id a o (row : gmap string value) w row' w' :
  repair_order (Some a) (Some o) row w = Ok (row', w') →
  (row !! o = Some VNone ∨
   ∃ ci co, row !! a = Some (VDateTime ci) ∧ row !! o = Some (VDateTime co) ∧ (ci ≤ co)%Z) →
  row' = row.
Proof.
  intros H Hs. unfold repair_order in H.
  destruct (truthy (Some a) && truthy (Some o)); [|by apply ret_Ok in H; inversion H].
  destruct Hs as [Ho|(ci & co & Ha & Ho & Hle)].
  - rewrite Ho in H. simpl in H.
    destruct (default VNone (row !! a)); by apply ret_Ok in H; inversion H.
  - rewrite Ha, Ho in H. simpl in H. apply ret_Ok in H.
    destruct (co <? ci)%Z eqn:Hlt; [lia|]. by inversion H.
Qed.

Lemma repair_order_forces a o ci co (row : gmap string value) w :
  a ≠ "" → o ≠ "" →
  row !! a = Some (VDateTime ci) → row !! o = Some (VDateTime co) → (co < ci)%Z →
  repair_order (Some a) (Some o) row w = Ok (<[o := VDateTime (ci + 86400)]> row, w).
Proof.
  intros Ha Ho Hra Hro Hlt. unfold repair_order, truthy.
  rewrite !bool_decide_eq_false_2 by done. simpl. rewrite Hra, Hro. simpl.
  by rewrite (proj2 (Z.ltb_lt co ci) Hlt).
Qed.

Section Rows.
Context (fake : Faker) (today : Z) (str_of : value → string).
Context (table : string) (cols : list ColumnInfo.t).
Context (fk_map : gmap (string * string) (string * string)).
Context (ref_ids : gmap string (list value)).
Context (enums : gmap string (list string)).
Context (uniq : gset string).

Lemma unique_block_row c i st w st' w' :
  unique_block fake str_of c i enums st w = Ok (st', w') →
  Locals.row st' = Locals.row st.
Proof.
  unfold unique_block. intros H.
  destruct (Locals.seen_uniques st !! ColumnInfo.column c); [|by apply ret_Ok in H; inversion H].
  apply bind_Ok in H as (v & w1 & Hv & H).
  case_match; [by apply ret_Ok in H; inversion H|].
  apply bind_Ok in H as ([v' seen'] & w2 & He & H).
  apply ret_Ok in H. by inversion H.
Qed.

Lemma register_loop_row n c : ∀ i st w st' w',
  register_loop fake enums n c i st w = Ok (st', w') →
  Locals.row st' = Locals.row st.
Proof.
  induction n as [|n IH]; intros i st w st' w' H; simpl in H.
  - apply ret_Ok in H. by inversion H.
  - apply bind_Ok in H as (v & w1 & Hv & H).
    destruct (_register_unique (ColumnInfo.column c) v st) as [ok st1] eqn:Hr.
    assert (Locals.row st1 = Locals.row st) as Hrow.
    { unfold _register_unique in Hr. repeat case_match; by inversion Hr. }
    destruct ok.
    + apply ret_Ok in H. inversion H; by subst.
    + apply bind_Ok in H as (v' & w2 & _ & H). apply IH in H. by rewrite H.
Qed.

Lemma stay_column_keeps i st c w st' w' k x :
  stay_column fake today str_of table fk_map ref_ids enums uniq i st c w = Ok (st', w') →
  Locals.row st !! k = Some x → Locals.row st' !! k = Some x.
Proof.
  unfold stay_column. intros H Hk.
  case_bool_decide as Hin.
  { apply ret_Ok in H. by inversion H; subst. }
  assert (k ≠ ColumnInfo.column c) as Hne.
  { intros ->. apply Hin. eauto. }
  apply bind_Ok in H as (st1 & w1 & H1 & H).
  assert (Locals.row st1 !! k = Some x) as Hk1.
  { destruct (fk_map !! _) as [[p ?]|].
    - apply bind_Ok in H1 as (y & w0 & _ & H1). apply ret_Ok in H1.
      inversion H1; subst. simpl. by rewrite lookup_insert_ne.
    - apply bind_Ok in H1 as (y & w0 & _ & H1). apply ret_Ok in H1.
      by inversion H1; subst. }
  apply bind_Ok in H as (st2 & w2 & H2 & H). apply unique_block_row in H2.
  apply bind_Ok in H as (v & w3 & _ & H).
  apply bind_Ok in H as (v' & w4 & _ & H).
  apply bind_Ok in H as (st3 & w5 & H3 & H).
  assert (Locals.row st3 = Locals.row st2) as Hr3.
  { case_bool_decide.
    - by apply register_loop_row in H3.
    - apply ret_Ok in H3. by inversion H3. }
  apply bind_Ok in H as (st4 & w6 & H4 & H). apply unique_block_row in H4.
  apply bind_Ok in H as (v'' & w7 & _ & H). apply ret_Ok in H.
  inversion H; subst. simpl. rewrite lookup_insert_ne by done.
  by rewrite H4, Hr3, H2.
Qed.

Lemma stay_columns_keep i l : ∀ st w st' w' k x,
  foldM (stay_column fake today str_of table fk_map ref_ids enums uniq i) st l w
    = Ok (st', w') →
  Locals.row st !! k = Some x → Locals.row st' !! k = Some x.
Proof.
  intros st w st' w' k x H Hk.
  eapply (foldM_inv (λ s, Locals.row s !! k = Some x)); [|exact Hk|exact H].
  intros a b w0 a' w0' Ha Hs. by eapply stay_column_keeps.
Qed.

Context (booking_id_col status_col aci_col aco_col : option string).
Context (is_booking_unique : bool) (booking_ids : list value).
Context (stay_status_choices : list string).
Hypothesis Haci : ∀ a, aci_col = Some a → a ≠ "".
Hypothesis Haco : ∀ o, aco_col = Some o → o ≠ "".

Lemma stay_row_core i st w st' w' :
  stay_row fake today str_of table cols fk_map ref_ids enums uniq
    booking_id_col status_col aci_col aco_col is_booking_unique booking_ids
    stay_status_choices i st w = Ok (st', w') →
  ∃ scenario x_a x_o row2,
    branch_shape scenario x_a x_o ∧
    (∀ scn, scenario = Some scn →
       ∃ sc, status_col = Some sc ∧ row2 !! sc = Some (VStr scn)) ∧
    (∀ k x, put aco_col x_o (put aci_col x_a row2) !! k = Some x →
       Locals.row st' !! k = Some x).
Proof.
  unfold stay_row. intros H.
  apply bind_Ok in H as (row1 & w1 & H1 & H).
  apply bind_Ok in H as ([scenario row2] & w2 & H2 & H).
  apply bind_Ok in H as (row3 & w3 & H3 & H).
  apply bind_Ok in H as (st4 & w4 & H4 & H).
  apply bind_Ok in H as (row5 & w5 & H5 & H).
  apply ret_Ok in H. inversion H; subst; clear H. simpl.
  assert (∃ x_a x_o, row3 = put aco_col x_o (put aci_col x_a row2)
                     ∧ branch_shape scenario x_a x_o) as (x_a & x_o & -> & Hshape).
  { unfold branch_shape.
    destruct (contains "CANCEL" (upper (default "" scenario))) eqn:Hc.
    { apply ret_Ok in H3. inversion H3. exists VNone, VNone. naive_solver. }
    destruct (contains "OUT" (upper (default "" scenario))) eqn:Ho.
    { apply bind_Ok in H3 as (ci & w5' & _ & H3).
      apply bind_Ok in H3 as (d & w6 & Hd%randint_bounds & H3).
      apply bind_Ok in H3 as (h & w7 & Hh%randint_bounds & H3).
      apply bind_Ok in H3 as (m & w8 & Hm%randint_bounds & H3).
      apply ret_Ok in H3. inversion H3. eexists (VDateTime ci), (VDateTime _).
      split; [done|]. split_and!.
      - intros [->|?]; [done|done].
      - right. eauto.
      - right. eexists _, _. split_and!; [done|done|lia]. }
    destruct (contains "IN" (upper (default "" scenario)) && negb false) eqn:Hi.
    { apply bind_Ok in H3 as (ci & w5' & _ & H3).
      apply ret_Ok in H3. inversion H3. exists (VDateTime ci), VNone.
      split; [done|]. split_and!; [|by eauto|by left].
      intros [->|?]; [done|done]. }
    apply ret_Ok in H3. inversion H3. exists VNone, VNone. naive_solver. }
  assert (∀ k x, put aco_col x_o (put aci_col x_a row2) !! k = Some x →
                 Locals.row st4 !! k = Some x) as Hkeep.
  { intros k x Hk. eapply stay_columns_keep; [exact H4|exact Hk]. }
  assert (row5 = Locals.row st4) as ->.
  { destruct aci_col as [a|] eqn:Ea; [destruct aco_col as [o|] eqn:Eo|].
    - eapply (repair_order_id a o); [exact H5|].
      destruct Hshape as (_ & _ & [->|(ci & co & -> & -> & Hle)]).
      + left. apply Hkeep. rewrite put_lookup by naive_solver. by rewrite decide_True.
      + right. destruct (decide (a = o)) as [->|Hne].
        * exists co, co. split_and!; [| |lia]; apply Hkeep;
            rewrite put_lookup by naive_solver; by rewrite decide_True.
        * exists ci, co. split_and!; [| |lia]; apply Hkeep.
          -- rewrite put_lookup by naive_solver.
             rewrite decide_False by congruence.
             rewrite put_lookup by naive_solver. by rewrite decide_True.
          -- rewrite put_lookup by naive_solver. by rewrite decide_True.
    - apply ret_Ok in H5. by inversion H5.
    - apply ret_Ok in H5. by inversion H5. }
  exists scenario, x_a, x_o, row2. split_and!; [done| |done].
  intros scn ->. destruct (truthy status_col && _) eqn:Hst.
  - apply bind_Ok in H2 as (sc' & w0 & _ & H2). apply ret_Ok in H2.
    inversion H2; subst. destruct status_col as [sc|]; [|done].
    exists sc. split; [done|]. apply andb_true_iff in Hst as [Ht _].
    unfold put. rewrite Ht. apply lookup_insert_eq.
  - apply ret_Ok in H2. inversion H2.
Qed.

Lemma stay_row_is_ok i st w st' w' :
  stay_row fake today str_of table cols fk_map ref_ids enums uniq
    booking_id_col status_col aci_col aco_col is_booking_unique booking_ids
    stay_status_choices i st w = Ok (st', w') →
  stay_row_ok status_col aci_col aco_col (Locals.row st').
Proof.
  intros (scenario & x_a & x_o & row2 & (Hc & Ha & Ho) & Hscn & Hkeep)%stay_row_core.
  assert (∀ o, aco_col = Some o → Locals.row st' !! o = Some x_o) as Hro.
  { intros o Eo. apply Hkeep. rewrite put_lookup by done. by rewrite decide_True. }
  assert (∀ a, aci_col = Some a →
            Locals.row st' !! a = Some (if decide (aco_col = Some a) then x_o else x_a))
    as Hra.
  { intros a Ea. apply Hkeep. rewrite put_lookup by done. case_decide; [done|].
    rewrite put_lookup by done. by rewrite decide_True. }
  split.
  - intros sc s Esc Hs Hcancel.
    assert (x_a = VNone ∧ x_o = VNone) as [-> ->].
    { apply Hc. destruct scenario as [scn|]; [right|by left].
      destruct (Hscn scn eq_refl) as (sc' & Esc' & Hsc').
      assert (sc' = sc) as -> by congruence. simpl.
      destruct (decide (aco_col = Some sc)) as [Eo|No].
      { rewrite (Hro _ Eo) in Hs. destruct Ho as [->|(? & ? & _ & -> & _)]; done. }
      destruct (decide (aci_col = Some sc)) as [Ea|Na].
      { rewrite (Hra _ Ea), decide_False in Hs by done.
        destruct Ha as [->|(? & ->)]; done. }
      assert (Locals.row st' !! sc = Some (VStr scn)) as Hs'.
      { apply Hkeep. rewrite !put_lookup by done. by rewrite !decide_False. }
      rewrite Hs in Hs'. by inversion Hs'; subst. }
    split; [|done]. intros a Ea. rewrite (Hra _ Ea). by case_decide.
  - intros a o Ea Eo. rewrite (Hra _ Ea), (Hro _ Eo).
    destruct Ho as [->|(ci & co & -> & -> & Hle)]; [by right; left|].
    right. right. case_decide; eauto 10 with lia.
Qed.

End Rows.

Lemma col_lc_of_lookup cols k name :
  col_lc_of cols !! k = Some name → lower name = k.
Proof.
  unfold col_lc_of. induction cols as [|c cols IH] using rev_ind; [done|].
  rewrite foldl_snoc, lookup_insert. case_decide; [|done]. by intros [= <-].
Qed.

Lemma col_lc_of_nonempty cols k name :
  k ≠ "" → col_lc_of cols !! k = Some name → name ≠ "".
Proof. intros Hk <-%col_lc_of_lookup ->. by apply Hk. Qed.

Import Inputs.

Example stay_four_rows :
  run (generate_stay_csv stub_fake 0 stub_str "stay" stay_cols ∅ ∅ 4 stay_enums ∅)
      count_world
  = Ok [[VInt 1; VStr "CANCELLED"; VNone; VNone];
        [VInt 2; VStr "CHECKED_OUT"; VDateTime 0; VDateTime 360300];
        [VInt 3; VStr "CANCELLED"; VNone; VNone];
        [VInt 4; VStr "CHECKED_OUT"; VDateTime 0; VDateTime 875460]].
Proof. vm_compute. reflexivity. Qed.

(** C6: every line written by the stay assembler renders a row in which
    a status containing CANCEL comes with null check-in and check-out
    timestamps, and in which the two timestamps, when both present, have
    check-out at or after check-in; the repair step replaces a check-out
    that lies before the check-in by check-in plus one day. *)
Theorem stay_rows_consistent (fake : Faker) (today : Z) (str_of : value → string)
    (table : string) (cols : list ColumnInfo.t)
    (fk_map : gmap (string * string) (string * string))
    (ref_ids : gmap string (list value)) (n_rows : Z)
    (enums : gmap string (list string)) (unique_cols : gmap string (gset string))
    (w : world) (rows : list (list value)) (w' : world) :
  generate_stay_csv fake today str_of table cols fk_map ref_ids n_rows enums unique_cols w
    = Ok (rows, w') →
  Forall (λ line, ∃ row,
            line = writerow cols row ∧
            stay_row_ok (str_or (col_lc_of cols !! "stay_status") (col_lc_of cols !! "status"))
                        (col_lc_of cols !! "actual_checkin_at")
                        (col_lc_of cols !! "actual_checkout_at") row) rows ∧
  (∀ a o ci co (row : gmap string value) w0,
     a ≠ "" → o ≠ "" →
     row !! a = Some (VDateTime ci) → row !! o = Some (VDateTime co) → (co < ci)%Z →
     repair_order (Some a) (Some o) row w0
       = Ok (<[o := VDateTime (ci + 86400)]> row, w0)).
Proof.
  intros H. split; [|intros a o ci co row w0 ?????; by apply (repair_order_forces a o ci co)].
  revert H.
  unfold generate_stay_csv. intros H.
  apply bind_Ok in H as (ids & w1 & _ & H).
  apply bind_Ok in H as ([rows' st] & w2 & H & Hret).
  apply ret_Ok in Hret. assert (rows = rows') as <- by (by inversion Hret).
  clear Hret. revert H.
  match goal with
  | |- foldM ?f ?a ?l ?w = _ → _ =>
      intros H;
      apply (foldM_inv (λ acc, Forall (λ line, ∃ row,
               line = writerow cols row ∧
               stay_row_ok (str_or (col_lc_of cols !! "stay_status")
                                   (col_lc_of cols !! "status"))
                           (col_lc_of cols !! "actual_checkin_at")
                           (col_lc_of cols !! "actual_checkout_at") row) acc.1)
               f l a w (rows, st) w2) in H
  end; [exact H| |by constructor].
  intros [acc st0] i w0 [acc' st1] w0' Hacc Hstep. simpl in *.
  apply bind_Ok in Hstep as (st2 & w3 & Hrow & Hstep).
  apply ret_Ok in Hstep. inversion Hstep; subst; clear Hstep.
  apply Forall_app. split; [done|]. constructor; [|constructor].
  eexists. split; [reflexivity|].
  eapply stay_row_is_ok; [| |exact Hrow].
  - intros a. by apply col_lc_of_nonempty.
  - intros o. by apply col_lc_of_nonempty.
Qed.

Lemma stay_rows_consistent_witness :
  ∃ rows w',
    generate_stay_csv stub_fake 0 stub_str "stay" stay_cols ∅ ∅ 4 stay_enums ∅ count_world
      = Ok (rows, w') ∧
    Forall (λ line, ∃ row,
              line = writerow stay_cols row ∧
              stay_row_ok (Some "stay_status") (Some "actual_checkin_at")
                          (Some "actual_checkout_at") row) rows.
Proof.
  destruct (generate_stay_csv stub_fake 0 stub_str "stay" stay_cols ∅ ∅ 4 stay_enums ∅
              count_world) as [[rows w']| |] eqn:E.
  - exists rows, w'. split; [reflexivity|].
    exact (proj1 (stay_rows_consistent _ _ _ _ _ _ _ _ _ _ _ _ _ E)).
  - exfalso. pose proof stay_four_rows as H. unfold run in H. by rewrite E in H.
  - exfalso. pose proof stay_four_rows as H. unfold run in H. by rewrite E in H.
Defined.

End StayFacts.

Module ForeignKeyFacts.
Import MFacts Inputs.

Lemma bind_eq {A B} (m : M A) (f : A → M B) w a w1 :
  m w = Ok (a, w1) → (m ≫= f) w = f a w1.
Proof. unfold mbind, M_bind. by intros ->. Qed.

Lemma choice_total {A} (l : list A) w :
  l ≠ [] → ∃ a w', a ∈ l ∧ random.choice l w = Ok (a, w').
Proof.
  intros Hl. unfold random.choice, randbelow, draw, mbind, M_bind, mret, M_ret.
  destruct (l !! (tape w (pos w) mod length l)) as [a|] eqn:E.
  - exists a. eexists. split; [by eapply list_elem_of_lookup_2|done].
  - apply lookup_ge_None in E. destruct l; [done|].
    pose proof (Nat.mod_upper_bound (tape w (pos w)) (length (a :: l))). simpl in *. lia.
Qed.

(** In the stay assembler a foreign-key column that is not under a
    uniqueness constraint ends up with the value left in [v] by the
    previous column, whatever was sampled from the parent pool. *)
Lemma stay_column_fk_overwritten fake today str_of table fk_map ref_ids enums
    uniq i st c w parent pc x :
  Locals.row st !! ColumnInfo.column c = None →
  fk_map !! (lower table, ColumnInfo.column c) = Some (parent, pc) →
  default [] (ref_ids !! parent) ≠ [] →
  Locals.v st = Some x → x ≠ VNone →
  ColumnInfo.column c ∉ uniq →
  Locals.seen_uniques st !! ColumnInfo.column c = None →
  ∃ st' w',
    stay_column fake today str_of table fk_map ref_ids enums uniq i st c w = Ok (st', w')
    ∧ Locals.row st' = <[ColumnInfo.column c := x]> (Locals.row st).
Proof.
  intros Hrow Hfk Hpool Hv Hx Hu Hs. unfold stay_column.
  rewrite bool_decide_eq_false_2 by (rewrite Hrow; by intros [? ?]).
  rewrite Hfk.
  destruct (choice_total (default [] (ref_ids !! parent)) w Hpool) as (a & w1 & _ & Hch).
  assert (fk_choice ref_ids parent c w = Ok (a, w1)) as Hfc.
  { unfold fk_choice. destruct (default [] (ref_ids !! parent)); done. }
  erewrite bind_eq; [|erewrite bind_eq; [reflexivity|exact Hfc]].
  erewrite bind_eq; [|unfold unique_block; simpl; rewrite Hs; reflexivity].
  erewrite bind_eq; [|unfold read_v; simpl; rewrite Hv; reflexivity].
  erewrite bind_eq; [|unfold sentinel; destruct x; try done; reflexivity].
  rewrite bool_decide_eq_false_2 by done.
  erewrite bind_eq; [|reflexivity].
  erewrite bind_eq; [|unfold unique_block; simpl; rewrite Hs; reflexivity].
  erewrite bind_eq; [|reflexivity].
  eexists _, _. split; [reflexivity|]. simpl. apply insert_insert_eq.
Qed.

(** C1 fails on the code: the stay assembler writes [room_id = 1] and
    [room_id = 2] although the room pool is [100; 200] (the sampled key is
    overwritten by the value left in [v] by the previous column), and the
    default path writes [stay_id = 1, 2, 3] for a UNIQUE foreign key
    although the stay pool is [10; 20; 30]. *)
Theorem foreign_key_outside_pool :
  run (generate_stay_csv stub_fake 0 stub_str "stay" stay_fk_cols stay_fk_map
         rooms_100_200 2 ∅ ∅) zero_world
    = Ok [[VInt 1; VInt 1]; [VInt 2; VInt 2]] ∧
  run (generate_stay_csv stub_fake 0 stub_str "stay" stay_fk_cols stay_fk_map
         rooms_100_200 2 ∅ ∅) count_world
    = Ok [[VInt 1; VInt 1]; [VInt 2; VInt 2]] ∧
  py_in (VInt 1) [VInt 100; VInt 200] = false ∧
  run (fst <$> generate_table_csv stub_fake 0 stub_str 0 "check_in" check_in_cols
         check_in_pk check_in_fk_map stays_10_20_30 3 ∅ check_in_unique) zero_world
    = Ok [[VInt 1; VInt 1]; [VInt 2; VInt 2]; [VInt 3; VInt 3]] ∧
  py_in (VInt 1) [VInt 10; VInt 20; VInt 30] = false.
Proof. repeat split; by vm_compute. Qed.

End ForeignKeyFacts.

Module UniqueFacts.
Import MFacts Inputs.

(** Whenever the retry loop ends on a string that was already issued, the
    forced-uniqueness branch reads an attribute that [ColumnInfo] lacks. *)
Lemma force_unique_str_raises str_of c i tries s w :
  force_unique str_of c i tries (VStr s) w
  = Raise (AttributeError "character_maximum_length").
Proof. reflexivity. Qed.

(** The integer fallback adds [i * 1000 + tries] without looking at the
    values already issued. *)
Lemma force_unique_int_unchecked str_of c i tries z w :
  force_unique str_of c i tries (VInt z) w = Ok (VInt (z + i * 1000 + tries), w).
Proof. reflexivity. Qed.

(** C3 fails on the code: with the two currency codes issued, the third
    row of a UNIQUE text column exhausts its 50 retries and the string
    fallback raises [AttributeError] ([ColumnInfo] has [char_max_len], not
    [character_maximum_length]); and the integer fallback
    [5 + 3 * 1000 + 50] repeats the value 3055 issued for the second
    row. *)
Theorem unique_fallback_fails :
  run (fst <$> generate_table_csv stub_fake 0 stub_str 0 "fx" currency_cols None ∅ ∅ 3 ∅
         currency_unique) zero_world
    = Raise (AttributeError "character_maximum_length") ∧
  run (fst <$> generate_table_csv stub_fake 0 stub_str 0 "fx" currency_cols None ∅ ∅ 3 ∅
         currency_unique) count_world
    = Raise (AttributeError "character_maximum_length") ∧
  run (fst <$> generate_table_csv stub_fake 0 stub_str 0 "ticket" seq_cols None ∅ ∅ 3 ∅
         seq_unique) collide_world
    = Ok [[VNone; VInt 5]; [VNone; VInt 3055]; [VNone; VInt 3055]].
Proof. repeat split; by vm_compute. Qed.

End UniqueFacts.

Module JunctionFacts.
Import MFacts ForeignKeyFacts Inputs.

Lemma bind_out_of_fuel {A B} (m : M A) (f : A → M B) w :
  m w = OutOfFuel → (m ≫= f) w = OutOfFuel.
Proof. unfold mbind, M_bind. by intros ->. Qed.

Lemma py_eq_refl v : py_eq v v = true.
Proof.
  unfold py_eq. destruct (numeric v) as [[x s]|]; [|by apply bool_decide_eq_true].
  by apply Z.eqb_eq.
Qed.

Lemma pair_in_elem p seen : p ∈ seen → pair_in p seen = true.
Proof.
  intros Hin. unfold pair_in. apply existsb_exists. exists p.
  split; [by apply list_elem_of_In|]. by rewrite !py_eq_refl.
Qed.

Lemma randint_total a b w : ∃ z w', random.randint a b w = Ok (z, w').
Proof. by eexists _, _. Qed.

Lemma shuffle_from_total {A} i : ∀ (x : list A) w,
  ∃ x' w', random.shuffle_from i x w = Ok (x', w').
Proof.
  induction i as [|i IH]; intros x w; simpl; [by eexists _, _|].
  unfold mbind, M_bind at 1. simpl. apply IH.
Qed.

Lemma shuffle_total {A} (x : list A) w :
  ∃ x' w', random.shuffle x w = Ok (x', w') ∧ length x' = length x.
Proof.
  destruct (shuffle_from_total (length x - 1) x w) as (x' & w' & H).
  exists x', w'. split; [done|]. by eapply shuffle_length.
Qed.


Section Capacity.
Context (fake : Faker) (table first second : string).
Context (fk_map : gmap (string * string) (string * string)).
Context (ref_ids : gmap string (list value)) (n_rows : Z).
Context (enums : gmap string (list string)).
Context (A B : list value).
Hypothesis HB : B ≠ [].
Hypothesis Hcap : (len A * len B < n_rows)%Z.

Definition pairs_inv (st : junction) : Prop :=
  NoDup st.1 ∧ (∀ p, p ∈ st.1 → p.1 ∈ A ∧ p.2 ∈ B) ∧ length st.2 = length st.1.

Lemma pairs_inv_bound st : pairs_inv st → (len st.2 < n_rows)%Z.
Proof.
  intros (Hnd & Hsub & Hlen). unfold len in *. rewrite Hlen.
  assert (length st.1 ≤ length (list_prod A B)) as Hle.
  { apply submseteq_length, NoDup_submseteq; [done|].
    intros [a b] Hp. apply list_elem_of_In, in_prod_iff.
    destruct (Hsub _ Hp) as [Ha Hb]. split; by apply list_elem_of_In. }
  rewrite length_prod in Hle. lia.
Qed.

Lemma add_pair_two a b st w :
  add_pair fake table (pair_cols table first second) fk_map ref_ids enums first second a b st w
  = Ok ((st.1 ++ [(a, b)], st.2 ++ [<[second := b]> {[first := a]}]), w).
Proof.
  unfold add_pair, fill_row, pair_cols. simpl.
  unfold fill_column at 2. simpl.
  rewrite bool_decide_eq_true_2.
  2:{ destruct (decide (second = first)) as [->|Hne].
      - rewrite lookup_insert_eq. eauto.
      - rewrite lookup_insert_ne, lookup_singleton_eq by done. eauto. }
  unfold mbind, M_bind at 2. simpl.
  unfold fill_column. simpl. rewrite bool_decide_eq_true_2.
  2:{ rewrite lookup_insert_eq. eauto. }
  reflexivity.
Qed.

Lemma pairs_inner_inv k : ∀ a st w,
  a ∈ A → pairs_inv st →
  ∃ st' w',
    pairs_inner fake table (pair_cols table first second) fk_map ref_ids n_rows enums
      first second B k a st w = Ok (st', w') ∧ pairs_inv st'.
Proof.
  induction k as [|k IH]; intros a st w Ha Hinv; simpl; [by eexists _, _|].
  destruct (choice_total B w HB) as (b & w1 & Hb & Hch).
  erewrite bind_eq by exact Hch.
  destruct (pair_in (a, b) st.1) eqn:Hin; [by apply IH|].
  erewrite bind_eq by apply add_pair_two. simpl.
  assert (pairs_inv (st.1 ++ [(a, b)], st.2 ++ [<[second := b]> {[first := a]}])) as Hinv'.
  { destruct Hinv as (Hnd & Hsub & Hlen). split_and!; simpl.
    - apply NoDup_app. split_and!; [done| |apply NoDup_singleton].
      intros p Hp ->%list_elem_of_singleton. apply pair_in_elem in Hp. congruence.
    - intros p [Hp| ->%list_elem_of_singleton]%elem_of_app; [auto|done].
    - rewrite !length_app. simpl. lia. }
  pose proof (pairs_inv_bound _ Hinv') as Hlt. simpl in Hlt.
  destruct (n_rows <=? _)%Z eqn:Hle; [lia|]. by apply IH.
Qed.

Lemma booking_room_loop_diverges fuel : ∀ i st w,
  A ≠ [] → pairs_inv st →
  booking_room_loop fake table (pair_cols table first second) fk_map ref_ids n_rows enums
    first second B fuel A i st w = OutOfFuel.
Proof.
  induction fuel as [|fuel IH]; intros i st w HA Hinv; simpl;
    rewrite (proj2 (Z.ltb_lt _ _) (pairs_inv_bound _ Hinv)); [done|].
  assert (i mod length A < length A) as Hi.
  { apply Nat.mod_upper_bound. by destruct A. }
  apply lookup_lt_is_Some in Hi as [b Hb]. rewrite Hb.
  destruct (randint_total 1 3 w) as (z & w1 & Hz). erewrite bind_eq by exact Hz.
  destruct (pairs_inner_inv (Z.to_nat z) b st w1) as (st' & w2 & Hp & Hinv');
    [by eapply list_elem_of_lookup_2|done|].
  erewrite bind_eq by exact Hp. by apply IH.
Qed.

End Capacity.

Lemma col_lc_pair table first second :
  lower first = first → lower second = second → first ≠ second →
  col_lc_of (pair_cols table first second) !! first = Some first ∧
  col_lc_of (pair_cols table first second) !! second = Some second.
Proof.
  intros Hf Hs Hne. unfold col_lc_of, pair_cols. simpl. rewrite Hf, Hs.
  split; [by rewrite lookup_insert_ne, lookup_insert_eq|by rewrite lookup_insert_eq].
Qed.

(** The sibling assembler does check the capacity: it raises the
    "Requested ... rows but only ... pairs exist" error before any row is
    assembled. *)
Lemma booking_discount_capacity_error (fake : Faker) (fuel : nat)
    (table : string) (fk_map : gmap (string * string) (string * string))
    (ref_ids : gmap string (list value)) (n_rows : Z)
    (enums : gmap string (list string)) (booking_ids promo_ids : list value) (w : world) :
  ref_ids !! "booking" = Some booking_ids → ref_ids !! "promotion" = Some promo_ids →
  booking_ids ≠ [] → promo_ids ≠ [] →
  (len booking_ids * len promo_ids < n_rows)%Z →
  generate_booking_discount_csv fake fuel table (pair_cols table "booking_id" "promotion_id")
    fk_map ref_ids n_rows enums w
  = Raise (RuntimeError
      ("Requested " +:+ pretty n_rows +:+ " booking_discount rows but only "
       +:+ pretty (len booking_ids * len promo_ids)%Z
       +:+ " unique (booking_id,promotion_id) pairs exist.")).
Proof.
  intros Hb Hp HA HB Hcap. unfold generate_booking_discount_csv. rewrite Hb, Hp.
  cbv zeta. change (default [] (Some booking_ids)) with booking_ids.
  change (default [] (Some promo_ids)) with promo_ids.
  destruct (col_lc_pair table "booking_id" "promotion_id") as [-> ->]; [done..|].
  change (str_or (Some "promotion_id") _) with (Some "promotion_id").
  cbv iota beta.
  change (negb (truthy (Some "booking_id")) || negb (truthy (Some "promotion_id")))
    with false.
  cbv iota. rewrite !bool_decide_eq_false_2 by done.
  change (false || false) with false. cbv iota.
  destruct (shuffle_total booking_ids w) as (ids & w1 & Hsh & Hlen).
  erewrite bind_eq by exact Hsh. cbv beta zeta. unfold len in *. rewrite Hlen.
  by rewrite (proj2 (Z.ltb_lt _ _) Hcap).
Qed.

(** C2 fails on the code: [generate_booking_room_csv] has no capacity
    check.  With non-empty booking and room pools and more rows requested
    than there are (booking, room) pairs, it raises nothing and its
    [while len(rows) < n_rows] loop never ends, whatever the random
    outcomes and however many iterations are allowed. *)
Theorem booking_room_no_capacity_check (fake : Faker) (fuel : nat)
    (table : string) (fk_map : gmap (string * string) (string * string))
    (ref_ids : gmap string (list value)) (n_rows : Z)
    (enums : gmap string (list string)) (booking_ids room_ids : list value) (w : world) :
  ref_ids !! "booking" = Some booking_ids → ref_ids !! "room" = Some room_ids →
  booking_ids ≠ [] → room_ids ≠ [] →
  (len booking_ids * len room_ids < n_rows)%Z →
  generate_booking_room_csv fake fuel table (pair_cols table "booking_id" "room_id")
    fk_map ref_ids n_rows enums w = OutOfFuel.
Proof.
  intros Hb Hr HA HB Hcap. unfold generate_booking_room_csv. rewrite Hb, Hr.
  cbv zeta. change (default [] (Some booking_ids)) with booking_ids.
  change (default [] (Some room_ids)) with room_ids.
  rewrite !bool_decide_eq_false_2 by done.
  destruct (col_lc_pair table "booking_id" "room_id") as [-> ->]; [done..|].
  change (negb (truthy (Some "booking_id")) || negb (truthy (Some "room_id"))) with false.
  cbv iota beta. change (false || false) with false. cbv iota.
  destruct (shuffle_total booking_ids w) as (ids & w1 & Hsh & Hlen).
  erewrite bind_eq by exact Hsh.
  cbv beta. apply bind_out_of_fuel.
  apply (booking_room_loop_diverges fake table "booking_id" "room_id" fk_map ref_ids
           n_rows enums ids room_ids HB).
  - unfold len in *. rewrite Hlen. done.
  - intros ->. destruct booking_ids; done.
  - split_and!; [constructor| |done]. intros p Hp. by apply elem_of_nil in Hp.
Qed.


Lemma booking_room_no_capacity_check_witness :
  (len [VInt 1; VInt 2; VInt 3] * len [VInt 1; VInt 2; VInt 3] < 10)%Z ∧
  generate_booking_room_csv stub_fake 1000 "booking_room"
    (pair_cols "booking_room" "booking_id" "room_id") ∅ three_by_three 10 ∅ zero_world
  = OutOfFuel.
Proof.
  split; [by vm_compute|].
  apply (booking_room_no_capacity_check stub_fake 1000 "booking_room" ∅ three_by_three
           10 ∅ [VInt 1; VInt 2; VInt 3] [VInt 1; VInt 2; VInt 3] zero_world);
    by vm_compute.
Defined.

End JunctionFacts.

Module NonNullFacts.
Import MFacts StayFacts ForeignKeyFacts JunctionFacts Inputs.

(** A computation that never returns [None]. *)
Definition never_none (m : M value) : Prop :=
  ∀ w v w', m w = Ok (v, w') → v ≠ VNone.

Lemma never_none_ret v : v ≠ VNone → never_none (mret v).
Proof. intros Hv w v' w' H. apply ret_Ok in H. by inversion H; subst. Qed.

Lemma never_none_bind {A} (m : M A) (f : A → M value) :
  (∀ a, never_none (f a)) → never_none (m ≫= f).
Proof. intros Hf w v w' (a & w1 & _ & H)%bind_Ok. by eapply Hf. Qed.

Lemma never_none_fmap {A} (g : A → value) (m : M A) :
  (∀ a, g a ≠ VNone) → never_none (g <$> m).
Proof. intros Hg w v w' (a & w1 & _ & H)%fmap_Ok. inversion H; subst. apply Hg. Qed.

Lemma never_none_raise e : never_none (raise e).
Proof. by intros w v w' H. Qed.

Lemma never_none_sliced maxlen m : never_none (sliced maxlen m).
Proof.
  unfold sliced. apply never_none_bind. intros [s|];
    [by apply never_none_ret|apply never_none_raise].
Qed.

Ltac never_none :=
  repeat first
    [ apply never_none_sliced
    | apply never_none_raise
    | apply never_none_ret; done
    | apply never_none_fmap; done
    | apply never_none_bind; intros ?
    | match goal with |- never_none (if ?b then _ else _) => destruct b end
    | match goal with |- never_none (let '(_, _) := ?p in _) => destruct p end ].

Lemma generate_text_never_none fake col row_idx name :
  never_none (generate_text fake col row_idx name).
Proof. unfold generate_text. never_none. Qed.

Lemma generate_numeric_never_none col name : never_none (generate_numeric col name).
Proof. unfold generate_numeric, random.uniform_round. never_none. Qed.

Lemma generate_int_never_none row_idx name : never_none (generate_int row_idx name).
Proof. unfold generate_int. never_none. Qed.

(** [generate_value] returns [None] only for a nullable enumerated column
    or for a column of a type it has no generator for. *)
Lemma generate_value_none fake col row_idx enums w w' :
  generate_value fake col row_idx enums w = Ok (VNone, w') →
  ColumnInfo.is_nullable col = true ∨
  one_of (lower (ColumnInfo.data_type col)) TEXT_TYPES = false.
Proof.
  unfold generate_value. intros H.
  destruct (enums !! _) as [labels|].
  - destruct (ColumnInfo.is_nullable col); [by left|].
    exfalso. apply bind_Ok in H as (null & w1 & Hn & H).
    apply ret_Ok in Hn. inversion Hn; subst.
    apply fmap_Ok in H as (s & w2 & _ & H). inversion H.
  - destruct (one_of (lower (ColumnInfo.data_type col)) TEXT_TYPES) eqn:Ht; [|by right].
    exfalso. revert H.
    match goal with |- ?m w = _ → _ => assert (never_none m) as Hn end; [|by intros ?%Hn].
    repeat first
      [ apply generate_text_never_none
      | apply generate_numeric_never_none
      | apply generate_int_never_none
      | apply never_none_ret; done
      | apply never_none_fmap; done
      | apply never_none_bind; intros ?
      | match goal with |- never_none (if ?b then _ else _) => destruct b eqn:? end ].
    all: try done.
Qed.


(** For a non-nullable column it has a generator for, [generate_value]
    never returns [None]. *)
Lemma generate_value_supported fake col row_idx enums :
  supported enums col = true → ColumnInfo.is_nullable col = false →
  never_none (generate_value fake col row_idx enums).
Proof.
  unfold generate_value, supported.
  destruct (enums !! _) as [labels|] eqn:E; intros Hsup Hnn.
  - rewrite Hnn. intros w v w' H. apply bind_Ok in H as (null & w1 & Hn & H).
    apply ret_Ok in Hn. inversion Hn; subst.
    apply fmap_Ok in H as (s & w2 & _ & H). by inversion H.
  - rewrite bool_decide_eq_false_2 in Hsup by (by intros [? ?]).
    repeat first
      [ apply generate_text_never_none
      | apply generate_numeric_never_none
      | apply generate_int_never_none
      | apply never_none_ret; done
      | apply never_none_fmap; done
      | apply never_none_bind; intros ?
      | match goal with |- never_none (if ?b then _ else _) => destruct b eqn:? end ].
    exfalso.
    repeat match goal with H : _ || _ = false |- _ => apply orb_false_elim in H as [? ?] end.
    repeat match goal with H : ?b = false |- _ => rewrite H in Hsup end.
    done.
Qed.

Lemma sentinel_not_none today c v w v' w' :
  sentinel today c v w = Ok (v', w') →
  ColumnInfo.is_nullable c = false →
  (v = VNone → one_of (lower (ColumnInfo.data_type c)) TEXT_TYPES = false) →
  v' ≠ VNone.
Proof.
  unfold sentinel. intros H Hn Ht. rewrite Hn in H.
  destruct v; simpl in H; try (apply ret_Ok in H; by inversion H).
  rewrite Ht in H by done.
  repeat case_match; apply ret_Ok in H; by inversion H.
Qed.

Lemma choice_elem {A} (l : list A) w a w' : random.choice l w = Ok (a, w') → a ∈ l.
Proof.
  unfold random.choice. intros (k & w1 & _ & H)%bind_Ok.
  destruct (l !! k) eqn:E; [|done]. apply ret_Ok in H. inversion H; subst.
  by eapply list_elem_of_lookup_2.
Qed.


Lemma pools_ok_default ref_ids t : pools_ok ref_ids → VNone ∉ default [] (ref_ids !! t).
Proof.
  intros Hp. destruct (ref_ids !! t) as [ids|] eqn:E; simpl; [by eapply Hp|].
  apply not_elem_of_nil.
Qed.

Lemma fk_choice_not_none ref_ids parent c w v w' :
  pools_ok ref_ids → ColumnInfo.is_nullable c = false →
  fk_choice ref_ids parent c w = Ok (v, w') → v ≠ VNone.
Proof.
  intros Hp Hn. unfold fk_choice. pose proof (pools_ok_default ref_ids parent Hp) as Hd.
  destruct (default [] (ref_ids !! parent)) as [|x ids] eqn:E.
  - rewrite Hn. intros H. apply ret_Ok in H. by inversion H.
  - intros Hc%choice_elem ->. done.
Qed.

(** The value stored under [name] is present and not null. *)
Definition filled (name : string) (row : gmap string value) : Prop :=
  ∃ x, row !! name = Some x ∧ x ≠ VNone.

(** Whatever is stored under [name] is not null. *)
Definition good (name : string) (row : gmap string value) : Prop :=
  ∀ x, row !! name = Some x → x ≠ VNone.

(** What one iteration of a column loop does to the row. *)
Definition step_spec (in_contract : ColumnInfo.t → Prop)
    (row : gmap string value) (c : ColumnInfo.t) (row' : gmap string value) : Prop :=
  (∀ k, k ≠ ColumnInfo.column c → row' !! k = row !! k) ∧
  (∀ x, row !! ColumnInfo.column c = Some x → row' !! ColumnInfo.column c = Some x) ∧
  is_Some (row' !! ColumnInfo.column c) ∧
  (in_contract c → row !! ColumnInfo.column c = None → filled (ColumnInfo.column c) row').

Section ColumnLoop.
Context {S : Type} (rowof : S → gmap string value) (f : S → ColumnInfo.t → M S).
Context (Pinv : S → Prop) (in_contract : ColumnInfo.t → Prop).
Hypothesis Hstep : ∀ s c w s' w',
  Pinv s → f s c w = Ok (s', w') →
  Pinv s' ∧ step_spec in_contract (rowof s) c (rowof s').

Lemma column_loop_keeps cols : ∀ s w s' w' k x,
  Pinv s → foldM f s cols w = Ok (s', w') →
  rowof s !! k = Some x → rowof s' !! k = Some x.
Proof.
  induction cols as [|c cols IH]; intros s w s' w' k x Hs H Hk; simpl in H.
  - apply ret_Ok in H. by inversion H; subst.
  - apply bind_Ok in H as (s1 & w1 & H1 & H).
    destruct (Hstep _ _ _ _ _ Hs H1) as (Hs1 & Hne & Heq & _).
    eapply IH; [exact Hs1|exact H|].
    destruct (decide (k = ColumnInfo.column c)) as [->|Hk']; [by apply Heq|].
    by rewrite Hne.
Qed.

Lemma column_loop_inv cols : ∀ s w s' w',
  Pinv s → foldM f s cols w = Ok (s', w') → Pinv s'.
Proof.
  induction cols as [|c cols IH]; intros s w s' w' Hs H; simpl in H.
  - apply ret_Ok in H. by inversion H; subst.
  - apply bind_Ok in H as (s1 & w1 & H1 & H).
    destruct (Hstep _ _ _ _ _ Hs H1) as (Hs1 & _). by eapply IH.
Qed.

Lemma column_loop_fills cols : ∀ s w s' w' c,
  NoDup (ColumnInfo.column <$> cols) →
  Pinv s → foldM f s cols w = Ok (s', w') →
  c ∈ cols → in_contract c → good (ColumnInfo.column c) (rowof s) →
  filled (ColumnInfo.column c) (rowof s').
Proof.
  induction cols as [|c0 cols IH]; intros s w s' w' c Hnd Hs H Hc Hin Hgood; simpl in H.
  - by apply elem_of_nil in Hc.
  - apply bind_Ok in H as (s1 & w1 & H1 & H).
    rewrite fmap_cons in Hnd. apply NoDup_cons in Hnd as [Hnotin Hnd].
    destruct (Hstep _ _ _ _ _ Hs H1) as (Hs1 & Hne & Heq & Hsome & Hfill).
    apply elem_of_cons in Hc as [->|Hc].
    + assert (filled (ColumnInfo.column c0) (rowof s1)) as (x & Hx & Hxn).
      { destruct (rowof s !! ColumnInfo.column c0) as [x|] eqn:E.
        - exists x. split; [by apply Heq|by apply Hgood].
        - by apply Hfill. }
      exists x. split; [|done]. by eapply column_loop_keeps.
    + eapply IH; [done|exact Hs1|exact H|done|done|].
      intros x Hx. apply Hgood. rewrite <-Hne; [done|].
      intros Heqn. apply Hnotin. rewrite <-Heqn. by apply list_elem_of_fmap_2.
Qed.

End ColumnLoop.

Section Steps.
Context (fake : Faker) (today : Z) (str_of : value → string).
Context (fk_map : gmap (string * string) (string * string)).
Context (ref_ids : gmap string (list value)).
Context (enums : gmap string (list string)).
Context (uniq : gset string).
Hypothesis Hpools : pools_ok ref_ids.

Lemma step_spec_skip in_contract (row : gmap string value) c :
  is_Some (row !! ColumnInfo.column c) → step_spec in_contract row c row.
Proof.
  intros [x Hx]. split_and!; [done|done|by eexists|]. intros _ Hn. congruence.
Qed.

Lemma step_spec_insert in_contract (row : gmap string value) c x :
  row !! ColumnInfo.column c = None →
  (in_contract c → x ≠ VNone) →
  step_spec in_contract row c (<[ColumnInfo.column c := x]> row).
Proof.
  intros Hn Hx. split_and!.
  - intros k Hk. by rewrite lookup_insert_ne.
  - intros y Hy. congruence.
  - rewrite lookup_insert_eq. by eexists.
  - intros Hin _. exists x. split; [apply lookup_insert_eq|auto].
Qed.

Lemma fill_column_spec table_lc idx row c w row' w' :
  fill_column fake table_lc fk_map ref_ids enums idx row c w = Ok (row', w') →
  step_spec (λ c, ColumnInfo.is_nullable c = false) row c row'.
Proof.
  unfold fill_column. intros H. case_bool_decide as Hin.
  { apply ret_Ok in H. inversion H; subst. by apply step_spec_skip. }
  assert (row !! ColumnInfo.column c = None) as Hnone.
  { destruct (row !! ColumnInfo.column c) eqn:E; [|done]. destruct Hin. by eexists. }
  destruct (fk_map !! _) as [[parent ?]|].
  - apply bind_Ok in H as (v & w1 & Hv & H). apply ret_Ok in H. inversion H; subst.
    apply step_spec_insert; [done|]. intros Hnn. by eapply fk_choice_not_none.
  - apply bind_Ok in H as (v & w1 & Hv & H).
    apply bind_Ok in H as (v1 & w2 & Hv1 & H). apply ret_Ok in H. inversion H; subst.
    apply step_spec_insert; [done|]. intros Hnn. rewrite Hnn in Hv1.
    destruct v; simpl in Hv1; try (apply ret_Ok in Hv1; by inversion Hv1).
    case_match.
    + apply ret_Ok in Hv1. by inversion Hv1.
    + apply bind_Ok in Hv1 as (h & w3 & _ & Hv1). apply ret_Ok in Hv1. by inversion Hv1.
Qed.

(** Only columns under a uniqueness constraint have a seen-set. *)
Definition seen_ok (st : Locals.t) : Prop :=
  ∀ n, n ∉ uniq → Locals.seen_uniques st !! n = None.

Lemma seen_ok_set_seen name seen st :
  seen_ok st → is_Some (Locals.seen_uniques st !! name) → seen_ok (set_seen name seen st).
Proof.
  intros Hok [x Hx] n Hn. simpl. rewrite lookup_insert_ne; [by apply Hok|].
  intros ->. rewrite (Hok n Hn) in Hx. done.
Qed.

Lemma unique_block_spec c i st w st' w' :
  unique_block fake str_of c i enums st w = Ok (st', w') →
  seen_ok st →
  seen_ok st' ∧ Locals.row st' = Locals.row st ∧
  (Locals.seen_uniques st !! ColumnInfo.column c = None → st' = st).
Proof.
  unfold unique_block. intros H Hok.
  destruct (Locals.seen_uniques st !! ColumnInfo.column c) as [seen|] eqn:E.
  - apply bind_Ok in H as (v & w1 & Hv & H). case_match.
    + apply ret_Ok in H. by inversion H; subst.
    + apply bind_Ok in H as ([v1 seen1] & w2 & He & H). apply ret_Ok in H.
      inversion H; subst. split_and!; [|done|done].
      apply seen_ok_set_seen; [|by simpl; eexists]. done.
  - apply ret_Ok in H. by inversion H; subst.
Qed.

Lemma register_loop_spec n c : ∀ i st w st' w',
  register_loop fake enums n c i st w = Ok (st', w') →
  seen_ok st → seen_ok st' ∧ Locals.row st' = Locals.row st.
Proof.
  induction n as [|n IH]; intros i st w st' w' H Hok; simpl in H.
  - apply ret_Ok in H. by inversion H; subst.
  - apply bind_Ok in H as (v & w1 & Hv & H).
    destruct (_register_unique (ColumnInfo.column c) v st) as [ok st1] eqn:Hr.
    assert (seen_ok st1 ∧ Locals.row st1 = Locals.row st) as [Hok1 Hrow1].
    { unfold _register_unique in Hr. destruct (is_none v); [by inversion Hr; subst|].
      destruct (Locals.seen_uniques st !! ColumnInfo.column c) as [s0|] eqn:E;
        [|by inversion Hr; subst].
      destruct (py_in v s0); inversion Hr; subst; [done|].
      split; [|done]. apply seen_ok_set_seen; [done|by eexists]. }
    destruct ok.
    + apply ret_Ok in H. by inversion H; subst.
    + apply bind_Ok in H as (v1 & w2 & _ & H). apply IH in H as [? Hrow]; [|done].
      split; [done|]. simpl in Hrow. congruence.
Qed.

(** The local [v] is bound to a value other than [None], or unbound. *)
Definition v_ok (st : Locals.t) : Prop := ∀ x, Locals.v st = Some x → x ≠ VNone.

Lemma is_none_false v : is_none v = false → v ≠ VNone.
Proof. by destruct v. Qed.

Lemma read_v_ok st w v w' : read_v st w = Ok (v, w') → v_ok st → v ≠ VNone.
Proof.
  unfold read_v. destruct (Locals.v st) as [x|] eqn:E; [|done].
  intros H Hok. apply ret_Ok in H. inversion H; subst. by apply Hok.
Qed.

Lemma force_unique_not_none c i tries v w v' w' :
  force_unique str_of c i tries v w = Ok (v', w') → v' ≠ VNone.
Proof.
  unfold force_unique. intros H.
  destruct v; repeat (apply bind_Ok in H as (? & ? & _ & H));
    apply ret_Ok in H; by inversion H.
Qed.

Lemma retry_unique_not_none c i seen budget : ∀ tries v w v' tries' w',
  (∀ j, never_none (generate_value fake c j enums)) →
  v ≠ VNone →
  retry_unique fake c i enums seen budget tries v w = Ok ((v', tries'), w') →
  v' ≠ VNone.
Proof.
  induction budget as [|budget IH]; intros tries v w v' tries' w' Hgen Hv H; simpl in H.
  - destruct (py_in v seen); apply ret_Ok in H; by inversion H; subst.
  - destruct (py_in v seen).
    + apply bind_Ok in H as (v1 & w1 & H1 & H). eapply IH; [done| |exact H].
      by eapply Hgen.
    + apply ret_Ok in H. by inversion H; subst.
Qed.

Lemma enforce_unique_not_none c i v seen w v' seen' w' :
  (∀ j, never_none (generate_value fake c j enums)) →
  v ≠ VNone →
  enforce_unique fake str_of c i enums v seen w = Ok ((v', seen'), w') →
  v' ≠ VNone.
Proof.
  unfold enforce_unique. intros Hgen Hv H.
  apply bind_Ok in H as ([v1 tries] & w1 & H1 & H).
  apply bind_Ok in H as (v2 & w2 & H2 & H). apply ret_Ok in H. inversion H; subst.
  apply retry_unique_not_none in H1; [|done..].
  destruct (py_in v1 seen).
  - by eapply force_unique_not_none.
  - apply ret_Ok in H2. by inversion H2; subst.
Qed.

Lemma unique_block_cases c i st w st' w' :
  (∀ j, never_none (generate_value fake c j enums)) →
  unique_block fake str_of c i enums st w = Ok (st', w') →
  st' = st ∨ v_ok st'.
Proof.
  unfold unique_block. intros Hgen H.
  destruct (Locals.seen_uniques st !! _) as [seen|];
    [|apply ret_Ok in H; inversion H; by left].
  apply bind_Ok in H as (v & w1 & Hv & H). destruct (is_none v) eqn:En.
  - apply ret_Ok in H. inversion H. by left.
  - apply bind_Ok in H as ([v1 seen1] & w2 & He & H). apply ret_Ok in H.
    inversion H; subst. right. intros x. simpl. intros [= <-].
    eapply enforce_unique_not_none; [done| |exact He]. by apply is_none_false.
Qed.

Lemma register_loop_v n c : ∀ i st w st' w',
  (∀ j, never_none (generate_value fake c j enums)) →
  register_loop fake enums n c i st w = Ok (st', w') →
  v_ok st → v_ok st'.
Proof.
  induction n as [|n IH]; intros i st w st' w' Hgen H Hok; simpl in H.
  - apply ret_Ok in H. by inversion H; subst.
  - apply bind_Ok in H as (v & w1 & Hv & H).
    destruct (_register_unique (ColumnInfo.column c) v st) as [ok st1] eqn:Hr.
    assert (Locals.v st1 = Locals.v st) as Hv1.
    { unfold _register_unique in Hr. repeat case_match; by inversion Hr; subst. }
    destruct ok.
    + apply ret_Ok in H. inversion H; subst. intros x Hx. apply Hok. congruence.
    + apply bind_Ok in H as (v1 & w2 & Hg & H). eapply IH; [done|exact H|].
      intros x. simpl. intros [= <-]. by eapply Hgen.
Qed.

(** The non-null contract of the column loops: the column is declared
    NOT NULL and, when it is under a uniqueness constraint,
    [generate_value] has a generator for it. *)
Definition in_contract_default (c : ColumnInfo.t) : Prop :=
  ColumnInfo.is_nullable c = false ∧
  ((ColumnInfo.column c ∉ uniq) ∨ supported enums c = true).

Lemma contract_block c i st w st' w' :
  in_contract_default c → seen_ok st →
  unique_block fake str_of c i enums st w = Ok (st', w') →
  st' = st ∨ v_ok st'.
Proof.
  intros [Hnn [Hu|Hsup]] Hok H.
  - left. eapply unique_block_spec in H as (_ & _ & Hsame); [|done].
    apply Hsame. by apply Hok.
  - eapply unique_block_cases; [|exact H]. intros j. by apply generate_value_supported.
Qed.

Context (table_lc : string) (pk_col : option string).
Context (unique_fk_pools : gmap string (list value)).
Hypothesis Hfkpools : pools_ok unique_fk_pools.

Lemma fk_value_not_none parent i c w x w' :
  ColumnInfo.is_nullable c = false →
  fk_value ref_ids unique_fk_pools parent i c w = Ok (x, w') → x ≠ VNone.
Proof.
  intros Hnn Hx. unfold fk_value in Hx.
  destruct (unique_fk_pools !! ColumnInfo.column c) as [[|p pool]|] eqn:Ep;
    [by eapply (fk_choice_not_none ref_ids)| |by eapply (fk_choice_not_none ref_ids)].
  pose proof (Hfkpools _ _ Ep) as Hp. destruct (_ <? _)%Z.
  - destruct ((p :: pool) !! Z.to_nat (i - 1)) eqn:El; [|done].
    apply ret_Ok in Hx. inversion Hx; subst.
    intros ->. apply Hp. by eapply list_elem_of_lookup_2.
  - rewrite Hnn in Hx. apply ret_Ok in Hx. inversion Hx; subst. intros Heq.
    destruct (last (p :: pool)) as [y|] eqn:El.
    + simpl in Heq. subst. apply Hp. by apply last_Some_elem_of.
    + by apply last_None in El.
Qed.

Lemma column_step_spec i st c w st' w' :
  column_step fake today str_of table_lc pk_col fk_map ref_ids enums unique_fk_pools
    i st c w = Ok (st', w') →
  seen_ok st →
  seen_ok st' ∧ step_spec in_contract_default (Locals.row st) c (Locals.row st').
Proof.
  unfold column_step. intros H Hok. case_bool_decide as Hin.
  { apply ret_Ok in H. inversion H; subst. split; [done|]. by apply step_spec_skip. }
  assert (Locals.row st !! ColumnInfo.column c = None) as Hnone.
  { destruct (Locals.row st !! ColumnInfo.column c) eqn:E; [|done]. destruct Hin. by eexists. }
  apply bind_Ok in H as (st1 & w1 & H1 & H).
  assert (Locals.row st1 = Locals.row st ∧
          Locals.seen_uniques st1 = Locals.seen_uniques st) as [Hr1 Hs1].
  { destruct (truthy pk_col && _).
    - apply bind_Ok in H1 as (v & w0 & _ & H1). apply ret_Ok in H1. by inversion H1; subst.
    - apply ret_Ok in H1. by inversion H1; subst. }
  assert (seen_ok st1) as Hok1 by (intros n Hn; rewrite Hs1; by apply Hok).
  apply bind_Ok in H as (hit & w2 & Hhit & H).
  destruct hit as [[v seen]|].
  - destruct (Locals.seen_uniques st1 !! ColumnInfo.column c) as [seen0|] eqn:E;
      [|by apply ret_Ok in Hhit; inversion Hhit].
    apply ret_Ok in H. inversion H; subst; clear H. simpl. split.
    + intros n Hn. simpl. rewrite lookup_insert_ne; [by apply Hok1|].
      intros <-. rewrite (Hok1 _ Hn) in E. done.
    + rewrite Hr1. apply step_spec_insert; [done|].
      intros [Hnn [Hu|Hsup]]; [by rewrite (Hok1 _ Hu) in E|].
      apply bind_Ok in Hhit as (v0 & w0 & Hv0 & Hhit).
      destruct (is_none v0) eqn:En; [by apply ret_Ok in Hhit; inversion Hhit|].
      apply bind_Ok in Hhit as ([v1 seen1] & w3 & He & Hhit).
      apply ret_Ok in Hhit. inversion Hhit; subst.
      eapply enforce_unique_not_none; [|by apply is_none_false|exact He].
      intros j. by apply generate_value_supported.
  - destruct (fk_map !! _) as [[parent ?]|].
    + apply bind_Ok in H as (x & w3 & Hx & H). apply ret_Ok in H.
      inversion H; subst; clear H. simpl. split; [done|].
      rewrite Hr1. apply step_spec_insert; [done|].
      intros [Hnn _]. by eapply fk_value_not_none.
    + apply bind_Ok in H as (v & w3 & Hv & H).
      apply bind_Ok in H as (st2 & w4 & H2 & H).
      apply bind_Ok in H as (v2 & w5 & Hv2 & H).
      apply bind_Ok in H as (v3 & w6 & Hv3 & H).
      apply ret_Ok in H. inversion H; subst; clear H. simpl.
      destruct (unique_block_spec _ _ _ _ _ _ H2 Hok1) as (Hok2 & Hr2 & Hsame).
      split; [done|]. rewrite Hr2. simpl. rewrite Hr1.
      apply step_spec_insert; [done|].
      intros Hc. eapply sentinel_not_none; [exact Hv3|by destruct Hc|].
      intros ->.
      destruct (contract_block _ _ (set_v v st1) _ _ _ Hc Hok1 H2) as [-> |Hvok].
      * apply ret_Ok in Hv2. inversion Hv2; subst.
        apply generate_value_none in Hv as [Hv|Hv]; [|done]. destruct Hc. congruence.
      * by eapply read_v_ok in Hv2.
Qed.

Context (table : string).

(** In the stay assembler a foreign-key column keeps the value left in
    [v] by the previous column: its sentinel is the text token, which can
    be exhausted, when the column has a text type. *)
Definition in_contract_stay (c : ColumnInfo.t) : Prop :=
  in_contract_default c ∧
  (fk_map !! (lower table, ColumnInfo.column c) = None ∨
   one_of (lower (ColumnInfo.data_type c)) TEXT_TYPES = false).

Lemma stay_column_spec i st c w st' w' :
  stay_column fake today str_of table fk_map ref_ids enums uniq i st c w = Ok (st', w') →
  seen_ok st →
  seen_ok st' ∧ step_spec in_contract_stay (Locals.row st) c (Locals.row st').
Proof.
  unfold stay_column. intros H Hok. case_bool_decide as Hin.
  { apply ret_Ok in H. inversion H; subst. split; [done|]. by apply step_spec_skip. }
  assert (Locals.row st !! ColumnInfo.column c = None) as Hnone.
  { destruct (Locals.row st !! ColumnInfo.column c) eqn:E; [|done]. destruct Hin. by eexists. }
  apply bind_Ok in H as (st1 & w1 & H1 & H).
  apply bind_Ok in H as (st2 & w2 & H2 & H).
  apply bind_Ok in H as (v & w3 & Hv & H).
  apply bind_Ok in H as (v1 & w4 & Hv1 & H).
  apply bind_Ok in H as (st3 & w5 & H3 & H).
  apply bind_Ok in H as (st4 & w6 & H4 & H).
  apply bind_Ok in H as (v2 & w7 & Hv2 & H).
  apply ret_Ok in H. inversion H; subst; clear H. simpl.
  assert (seen_ok st1 ∧ Locals.seen_uniques st1 = Locals.seen_uniques st ∧
          ∀ y, <[ColumnInfo.column c := y]> (Locals.row st1)
               = <[ColumnInfo.column c := y]> (Locals.row st)) as (Hok1 & Hs1 & Hr1).
  { destruct (fk_map !! _) as [[parent ?]|].
    - apply bind_Ok in H1 as (x & w0 & _ & H1). apply ret_Ok in H1. inversion H1; subst.
      simpl. split_and!; [done|done|]. intros y. apply insert_insert_eq.
    - apply bind_Ok in H1 as (x & w0 & _ & H1). apply ret_Ok in H1. by inversion H1; subst. }
  destruct (unique_block_spec _ _ _ _ _ _ H2 Hok1) as (Hok2 & Hr2 & Hsame2).
  assert (seen_ok (set_v v1 st2)) as Hok2' by exact Hok2.
  assert (seen_ok st3 ∧ Locals.row st3 = Locals.row st2) as [Hok3 Hr3].
  { case_bool_decide.
    - by eapply register_loop_spec in H3 as [? ?].
    - apply ret_Ok in H3. by inversion H3; subst. }
  destruct (unique_block_spec _ _ _ _ _ _ H4 Hok3) as (Hok4 & Hr4 & Hsame4).
  split; [done|]. rewrite Hr4, Hr3, Hr2, Hr1.
  apply step_spec_insert; [done|].
  intros (Hc & Hfk).
  assert (v1 ≠ VNone) as Hv1n.
  { eapply sentinel_not_none; [exact Hv1|by destruct Hc|]. intros ->.
    destruct (fk_map !! _) as [[parent ?]|] eqn:Efk; [by destruct Hfk|].
    apply bind_Ok in H1 as (v0 & w0 & Hv0 & H1). apply ret_Ok in H1.
    inversion H1; subst.
    destruct (contract_block _ _ _ _ _ _ Hc Hok1 H2) as [-> |Hvok].
    - apply ret_Ok in Hv. inversion Hv; subst.
      apply generate_value_none in Hv0 as [Hv0|Hv0]; [|done]. destruct Hc. congruence.
    - by eapply read_v_ok in Hv. }
  assert (v_ok (set_v v1 st2)) as Hvok2 by (intros x; simpl; by intros [= <-]).
  assert (v_ok st3) as Hvok3.
  { case_bool_decide as Hu.
    - eapply register_loop_v; [|exact H3|exact Hvok2].
      intros j. destruct Hc as [Hnn [Hnu|Hsup]]; [done|].
      by apply generate_value_supported.
    - apply ret_Ok in H3. by inversion H3; subst. }
  assert (v_ok st4) as Hvok4
    by (destruct (contract_block _ _ _ _ _ _ Hc Hok3 H4) as [-> |?]; done).
  by eapply read_v_ok in Hv2.
Qed.

End Steps.

Definition not_none (v : value) : Prop := v ≠ VNone.

Lemma pools_ok_Forall ref_ids t :
  pools_ok ref_ids → Forall not_none (default [] (ref_ids !! t)).
Proof.
  intros Hp. apply Forall_forall. intros x Hx ->.
  by apply (pools_ok_default ref_ids t Hp).
Qed.

Lemma swap_Forall {A} (P : A → Prop) x i j : Forall P x → Forall P (random.swap x i j).
Proof.
  intros HP. unfold random.swap.
  destruct (x !! i) as [a|] eqn:Ei; [|done]. destruct (x !! j) as [b|] eqn:Ej; [|done].
  apply Forall_insert; [apply Forall_insert; [done|]|];
    by eapply (proj1 (Forall_lookup _ _) HP).
Qed.

Lemma shuffle_Forall {A} (P : A → Prop) (x : list A) w x' w' :
  random.shuffle x w = Ok (x', w') → Forall P x → Forall P x'.
Proof.
  unfold random.shuffle. generalize (length x - 1). intros i. revert x w.
  induction i as [|i IH]; intros x w H HP; simpl in H.
  - apply ret_Ok in H. by inversion H; subst.
  - apply bind_Ok in H as (j & w1 & _ & H). eapply IH; [exact H|]. by apply swap_Forall.
Qed.

Lemma sample_from_Forall {A} (P : A → Prop) k : ∀ (l : list A) n w r w',
  random.sample_from k l n w = Ok (r, w') → Forall P l → Forall P r.
Proof.
  induction k as [|k IH]; intros l n w r w' H HP; simpl in H.
  - apply ret_Ok in H. inversion H; subst. constructor.
  - apply bind_Ok in H as (j & w1 & _ & H).
    destruct (l !! j) as [a|] eqn:Ej; [|done].
    destruct (l !! (n - 1)) as [z|] eqn:Ez; [|done].
    apply bind_Ok in H as (rest & w2 & Hr & H). apply ret_Ok in H. inversion H; subst.
    constructor; [by eapply (proj1 (Forall_lookup _ _) HP)|].
    eapply IH; [exact Hr|]. apply Forall_insert; [done|].
    by eapply (proj1 (Forall_lookup _ _) HP).
Qed.

Lemma sample_Forall {A} (P : A → Prop) (l : list A) k w r w' :
  random.sample l k w = Ok (r, w') → Forall P l → Forall P r.
Proof.
  unfold random.sample. case_match; [done|]. apply sample_from_Forall.
Qed.

Lemma choice_Forall {A} (P : A → Prop) (l : list A) w a w' :
  random.choice l w = Ok (a, w') → Forall P l → P a.
Proof. intros Hc%choice_elem HP. by eapply (proj1 (Forall_forall _ _) HP). Qed.

Section Junctions.
Context (fake : Faker) (today : Z).
Context (table : string) (cols : list ColumnInfo.t).
Context (fk_map : gmap (string * string) (string * string)).
Context (ref_ids : gmap string (list value)) (n_rows : Z).
Context (enums : gmap string (list string)).
Context (first_col second_col : string) (second_ids : list value).
Context (c : ColumnInfo.t).
Hypothesis Hpools : pools_ok ref_ids.
Hypothesis Hnd : NoDup (ColumnInfo.column <$> cols).
Hypothesis Hc : c ∈ cols.
Hypothesis Hnn : ColumnInfo.is_nullable c = false.

Definition rows_filled (st : junction) : Prop :=
  Forall (filled (ColumnInfo.column c)) st.2.

Lemma fill_row_filled idx row w row' w' :
  fill_row fake (lower table) fk_map ref_ids enums cols idx row w = Ok (row', w') →
  good (ColumnInfo.column c) row → filled (ColumnInfo.column c) row'.
Proof.
  unfold fill_row. intros H Hg.
  eapply (column_loop_fills (λ r, r) _ (λ _, True)
            (λ c, ColumnInfo.is_nullable c = false)); [|done|done|exact H|done|done|done].
  intros s c0 w0 s' w0' _ Hs. split; [done|]. by eapply fill_column_spec.
Qed.

Lemma pair_row_good a b :
  not_none a → not_none b →
  good (ColumnInfo.column c) (<[second_col := b]> {[first_col := a]}).
Proof.
  intros Ha Hb x. rewrite lookup_insert. case_decide; [by intros [= <-]|].
  rewrite lookup_singleton. case_decide; [by intros [= <-]|done].
Qed.

Lemma add_pair_filled a b st w st' w' :
  add_pair fake table cols fk_map ref_ids enums first_col second_col a b st w
    = Ok (st', w') →
  not_none a → not_none b → rows_filled st → rows_filled st'.
Proof.
  unfold add_pair. intros H Ha Hb Hst.
  apply bind_Ok in H as (row & w1 & Hrow & H). apply ret_Ok in H. inversion H; subst.
  unfold rows_filled. simpl. apply Forall_app. split; [done|].
  constructor; [|constructor]. eapply fill_row_filled; [exact Hrow|].
  by apply pair_row_good.
Qed.

Hypothesis Hsecond : Forall not_none second_ids.

Lemma pairs_inner_filled k : ∀ a st w st' w',
  pairs_inner fake table cols fk_map ref_ids n_rows enums first_col second_col
    second_ids k a st w = Ok (st', w') →
  not_none a → rows_filled st → rows_filled st'.
Proof.
  induction k as [|k IH]; intros a st w st' w' H Ha Hst; simpl in H.
  - apply ret_Ok in H. by inversion H; subst.
  - apply bind_Ok in H as (b & w1 & Hb & H).
    destruct (pair_in (a, b) st.1); [by eapply IH|].
    apply bind_Ok in H as (st1 & w2 & H1 & H).
    apply add_pair_filled in H1; [|done|by eapply choice_Forall|done].
    destruct (n_rows <=? _)%Z; [|by eapply IH].
    apply ret_Ok in H. by inversion H; subst.
Qed.

Lemma booking_room_loop_filled fuel : ∀ ids i st w st' w',
  booking_room_loop fake table cols fk_map ref_ids n_rows enums first_col second_col
    second_ids fuel ids i st w = Ok (st', w') →
  Forall not_none ids → rows_filled st → rows_filled st'.
Proof.
  induction fuel as [|fuel IH]; intros ids i st w st' w' H Hids Hst; simpl in H.
  - destruct (len st.2 <? n_rows)%Z; [done|]. apply ret_Ok in H. by inversion H; subst.
  - destruct (len st.2 <? n_rows)%Z; [|by apply ret_Ok in H; inversion H; subst].
    destruct (ids !! _) as [b|] eqn:Eb; [|done].
    apply bind_Ok in H as (z & w1 & _ & H).
    apply bind_Ok in H as (st1 & w2 & H1 & H).
    eapply IH; [exact H|done|]. eapply pairs_inner_filled; [exact H1| |done].
    by eapply (proj1 (Forall_lookup _ _) Hids).
Qed.

Lemma product_inner_filled ids : ∀ a st w st' w',
  product_inner fake table cols fk_map ref_ids n_rows enums first_col second_col
    ids a st w = Ok (st', w') →
  Forall not_none ids → not_none a → rows_filled st → rows_filled st'.
Proof.
  induction ids as [|b ids IH]; intros a st w st' w' H Hids Ha Hst; simpl in H.
  - apply ret_Ok in H. by inversion H; subst.
  - apply Forall_cons in Hids as [Hb Hids].
    destruct (n_rows <=? _)%Z; [by apply ret_Ok in H; inversion H; subst|].
    destruct (pair_in (a, b) st.1); [by eapply IH|].
    apply bind_Ok in H as (st1 & w2 & H1 & H).
    eapply IH; [exact H|done|done|]. by eapply add_pair_filled.
Qed.

Lemma product_fill_filled ids : ∀ st w st' w',
  product_fill fake table cols fk_map ref_ids n_rows enums first_col second_col
    second_ids ids st w = Ok (st', w') →
  Forall not_none ids → rows_filled st → rows_filled st'.
Proof.
  induction ids as [|a ids IH]; intros st w st' w' H Hids Hst; simpl in H.
  - apply ret_Ok in H. by inversion H; subst.
  - apply Forall_cons in Hids as [Ha Hids].
    apply bind_Ok in H as (st1 & w1 & H1 & H).
    apply product_inner_filled in H1; [|done..].
    destruct (n_rows <=? _)%Z; [by apply ret_Ok in H; inversion H; subst|].
    by eapply IH.
Qed.

Lemma booking_discount_loop_filled fuel : ∀ ids i st w st' w',
  booking_discount_loop fake table cols fk_map ref_ids n_rows enums first_col second_col
    second_ids fuel ids i st w = Ok (st', w') →
  Forall not_none ids → rows_filled st → rows_filled st'.
Proof.
  induction fuel as [|fuel IH]; intros ids i st w st' w' H Hids Hst; simpl in H.
  - destruct (len st.2 <? n_rows)%Z; [done|]. apply ret_Ok in H. by inversion H; subst.
  - destruct (len st.2 <? n_rows)%Z; [|by apply ret_Ok in H; inversion H; subst].
    destruct (ids !! _) as [b|] eqn:Eb; [|done].
    apply bind_Ok in H as (z & w1 & _ & H).
    destruct (z =? 0)%Z; [by eapply IH|].
    apply bind_Ok in H as (st1 & w2 & H1 & H).
    apply bind_Ok in H as (st2 & w3 & H2 & H).
    eapply IH; [exact H|done|].
    apply pairs_inner_filled in H1;
      [|by eapply (proj1 (Forall_lookup _ _) Hids)|done].
    destruct (_ && _).
    + by eapply product_fill_filled.
    + apply ret_Ok in H2. by inversion H2; subst.
Qed.

Lemma review_inner_filled cids : ∀ rid st w st' w',
  review_inner fake table cols fk_map ref_ids n_rows enums first_col second_col
    cids rid st w = Ok (st', w') →
  Forall not_none cids → not_none rid → rows_filled st → rows_filled st'.
Proof.
  induction cids as [|b ids IH]; intros a st w st' w' H Hids Ha Hst; simpl in H.
  - apply ret_Ok in H. by inversion H; subst.
  - apply Forall_cons in Hids as [Hb Hids].
    destruct (n_rows <=? _)%Z; [by apply ret_Ok in H; inversion H; subst|].
    destruct (pair_in (a, b) st.1); [by eapply IH|].
    apply bind_Ok in H as (st1 & w2 & H1 & H).
    eapply IH; [exact H|done|done|]. by eapply add_pair_filled.
Qed.

Lemma review_score_loop_filled fuel : ∀ ids i st w st' w',
  review_score_loop fake table cols fk_map ref_ids n_rows enums first_col second_col
    second_ids fuel ids i st w = Ok (st', w') →
  Forall not_none ids → rows_filled st → rows_filled st'.
Proof.
  induction fuel as [|fuel IH]; intros ids i st w st' w' H Hids Hst; simpl in H.
  - destruct (len st.2 <? n_rows)%Z; [done|]. apply ret_Ok in H. by inversion H; subst.
  - destruct (len st.2 <? n_rows)%Z; [|by apply ret_Ok in H; inversion H; subst].
    destruct (ids !! _) as [rid|] eqn:Eb; [|done].
    apply bind_Ok in H as (z & w1 & _ & H).
    apply bind_Ok in H as (cids & w2 & Hs & H).
    apply bind_Ok in H as (st1 & w3 & H1 & H).
    apply review_inner_filled in H1;
      [|by eapply sample_Forall|by eapply (proj1 (Forall_lookup _ _) Hids)|done].
    destruct (_ && _).
    + by eapply product_fill_filled.
    + by eapply IH.
Qed.

End Junctions.

(** Every written line renders a row whose column [c] is filled. *)
Definition lines_filled (cols : list ColumnInfo.t) (c : ColumnInfo.t)
    (rows : list (list value)) : Prop :=
  Forall (λ line, ∃ row, line = writerow cols row ∧ filled (ColumnInfo.column c) row) rows.

Lemma lines_filled_junction cols c n_rows (st : junction) :
  rows_filled c st → lines_filled cols c (writerow cols <$> rows_to n_rows st.2).
Proof.
  intros Hst. apply Forall_fmap. unfold rows_to.
  case_match; apply Forall_take; (eapply Forall_impl; [exact Hst|]);
    intros row Hrow; by exists row.
Qed.

Lemma repair_order_filled lo hi (row : gmap string value) w row' w' name :
  repair_order lo hi row w = Ok (row', w') → filled name row → filled name row'.
Proof.
  unfold repair_order. intros H (x & Hx & Hxn).
  assert (∀ y, y ≠ VNone → ∀ k, filled name (<[k := y]> row)) as Hins.
  { intros y Hy k. destruct (decide (k = name)) as [->|Hne].
    - exists y. by rewrite lookup_insert_eq.
    - exists x. by rewrite lookup_insert_ne. }
  assert (filled name row) as Hf by (by exists x).
  repeat case_match; try done; apply ret_Ok in H; inversion H; subst; try done;
    by apply Hins.
Qed.

Section RoomNights.
Context (fake : Faker) (today : Z).
Context (table : string) (cols : list ColumnInfo.t).
Context (fk_map : gmap (string * string) (string * string)).
Context (ref_ids : gmap string (list value)) (n_rows : Z).
Context (enums : gmap string (list string)).
Context (room_id_col night_date_col : string) (per_room : Z).
Context (c : ColumnInfo.t).
Hypothesis Hpools : pools_ok ref_ids.
Hypothesis Hnd : NoDup (ColumnInfo.column <$> cols).
Hypothesis Hc : c ∈ cols.
Hypothesis Hnn : ColumnInfo.is_nullable c = false.

Lemma room_night_inner_filled offsets : ∀ rid st w st' w',
  room_night_inner fake today table cols fk_map ref_ids n_rows enums
    room_id_col night_date_col offsets rid st w = Ok (st', w') →
  not_none rid → rows_filled c st → rows_filled c st'.
Proof.
  induction offsets as [|off offsets IH]; intros rid st w st' w' H Hrid Hst; simpl in H.
  - apply ret_Ok in H. by inversion H; subst.
  - destruct (pair_in _ st.1); [by eapply IH|].
    apply bind_Ok in H as (row & w1 & Hrow & H).
    assert (rows_filled c (st.1 ++ [(rid, VDate (today - 730 + Z.of_nat off))],
                           st.2 ++ [row])) as Hst1.
    { unfold rows_filled. simpl. apply Forall_app. split; [done|].
      constructor; [|constructor].
      eapply (fill_row_filled fake table cols fk_map ref_ids enums c); try done.
      by apply pair_row_good. }
    simpl in H. destruct (n_rows <=? _)%Z; [|by eapply IH].
    apply ret_Ok in H. by inversion H; subst.
Qed.

Lemma room_night_loop_filled room_ids : ∀ st w st' w',
  room_night_loop fake today table cols fk_map ref_ids n_rows enums
    room_id_col night_date_col per_room room_ids st w = Ok (st', w') →
  Forall not_none room_ids → rows_filled c st → rows_filled c st'.
Proof.
  induction room_ids as [|rid room_ids IH]; intros st w st' w' H Hids Hst.
  - apply ret_Ok in H. by inversion H; subst.
  - rewrite RoomNightFacts.room_night_loop_cons in H.
    apply Forall_cons in Hids as [Hrid Hids].
    destruct (n_rows <=? _)%Z; [by apply ret_Ok in H; inversion H; subst|].
    apply bind_Ok in H as (offsets & w1 & _ & H).
    apply bind_Ok in H as (st1 & w2 & H1 & H).
    eapply IH; [exact H|done|]. by eapply room_night_inner_filled.
Qed.

End RoomNights.

Lemma foldM_inv_elem {A B} (P : A → Prop) (f : A → B → M A) l : ∀ a w a' w',
  (∀ a b w a' w', b ∈ l → P a → f a b w = Ok (a', w') → P a') →
  P a → foldM f a l w = Ok (a', w') → P a'.
Proof.
  induction l as [|b l IH]; intros a w a' w' Hf Ha H; simpl in H.
  - apply ret_Ok in H. by inversion H; subst.
  - apply bind_Ok in H as (a1 & w1 & H1 & H). eapply IH; [|exact (Hf _ _ _ _ _ ltac:(left) Ha H1)|exact H].
    intros a0 b0 w0 a0' w0' Hb. apply Hf. by right.
Qed.

Lemma good_put name col x (row : gmap string value) :
  good name row → x ≠ VNone → good name (put col x row).
Proof.
  intros Hg Hx y. unfold put. destruct col as [n|]; [|by apply Hg].
  case_match; [|by apply Hg]. rewrite lookup_insert. case_decide; [by intros [= <-]|].
  apply Hg.
Qed.

Lemma good_put_other name col x (row : gmap string value) :
  good name row → col ≠ Some name → good name (put col x row).
Proof.
  intros Hg Hx y. unfold put. destruct col as [n|]; [|by apply Hg].
  case_match; [|by apply Hg]. rewrite lookup_insert_ne by congruence. apply Hg.
Qed.

Lemma good_empty name : good name ∅.
Proof. intros x. by rewrite lookup_empty. Qed.

Lemma fresh_seen_ok uniq row v pk_vals :
  seen_ok uniq (Locals.mk row v (fresh_seen uniq) pk_vals).
Proof. intros n Hn. simpl. unfold fresh_seen. by apply lookup_gset_to_gmap_None. Qed.

Lemma unique_fk_pools_of_keys table_lc cols fk_map ref_ids uniq n_rows w pools w' :
  unique_fk_pools_of table_lc cols fk_map ref_ids uniq n_rows w = Ok (pools, w') →
  ∀ n, n ∉ uniq → pools !! n = None.
Proof.
  unfold unique_fk_pools_of. intros H.
  eapply (foldM_inv_elem (λ p : gmap string (list value), ∀ n, n ∉ uniq → p !! n = None));
    [|intros n _; apply lookup_empty|exact H].
  intros p fk_col w0 p' w0' Hin Hp Hs n Hn.
  apply elem_of_remove_dups, list_elem_of_filter in Hin as [[_ Hu] _].
  cbv beta in Hs. destruct (fk_map !! (table_lc, fk_col)) as [[parent ?]|].
  - apply bind_Ok in Hs as (ids & w1 & _ & Hs). apply ret_Ok in Hs. inversion Hs; subst.
    rewrite lookup_insert_ne; [by apply Hp|]. intros ->. done.
  - apply ret_Ok in Hs. inversion Hs; subst. by apply Hp.
Qed.

Section StayRows.
Context (fake : Faker) (today : Z) (str_of : value → string).
Context (table : string) (cols : list ColumnInfo.t).
Context (fk_map : gmap (string * string) (string * string)).
Context (ref_ids : gmap string (list value)).
Context (enums : gmap string (list string)).
Context (uniq : gset string).
Context (booking_id_col status_col aci_col aco_col : option string).
Context (is_booking_unique : bool) (booking_ids : list value).
Context (stay_status_choices : list string).
Context (c : ColumnInfo.t).
Hypothesis Hpools : pools_ok ref_ids.
Hypothesis Hnd : NoDup (ColumnInfo.column <$> cols).
Hypothesis Hc : c ∈ cols.
Hypothesis Hids : Forall not_none booking_ids.
Hypothesis Haci : aci_col ≠ Some (ColumnInfo.column c).
Hypothesis Haco : aco_col ≠ Some (ColumnInfo.column c).
Hypothesis Hcontract :
  (booking_id_col = Some (ColumnInfo.column c) ∧ ColumnInfo.column c ≠ "") ∨
  in_contract_stay fk_map enums uniq table c.

Lemma stay_step i s c0 w0 s' w0' :
  seen_ok uniq s →
  stay_column fake today str_of table fk_map ref_ids enums uniq i s c0 w0 = Ok (s', w0') →
  seen_ok uniq s' ∧
  step_spec (in_contract_stay fk_map enums uniq table) (Locals.row s) c0 (Locals.row s').
Proof. intros Hs Hf. by eapply stay_column_spec. Qed.

Lemma stay_row_filled i st w st' w' :
  stay_row fake today str_of table cols fk_map ref_ids enums uniq
    booking_id_col status_col aci_col aco_col is_booking_unique booking_ids
    stay_status_choices i st w = Ok (st', w') →
  seen_ok uniq st →
  seen_ok uniq st' ∧ filled (ColumnInfo.column c) (Locals.row st').
Proof.
  unfold stay_row. intros H Hok.
  apply bind_Ok in H as (row1 & w1 & H1 & H).
  apply bind_Ok in H as ([scenario row2] & w2 & H2 & H).
  apply bind_Ok in H as (row3 & w3 & H3 & H).
  apply bind_Ok in H as (st4 & w4 & H4 & H).
  apply bind_Ok in H as (row5 & w5 & H5 & H).
  apply ret_Ok in H. inversion H; subst; clear H. simpl.
  set (name := ColumnInfo.column c) in *.
  assert (good name row1 ∧
          (booking_id_col = Some name ∧ name ≠ "" → is_Some (row1 !! name)))
    as [Hg1 Hs1].
  { destruct (truthy booking_id_col) eqn:Ht.
    - apply bind_Ok in H1 as (x & w0 & Hx & H1). apply ret_Ok in H1. inversion H1; subst.
      assert (x ≠ VNone) as Hxn.
      { destruct is_booking_unique.
        - destruct (booking_ids !! _) eqn:E; [|done]. apply ret_Ok in Hx.
          inversion Hx; subst. by eapply (proj1 (Forall_lookup _ _) Hids).
        - destruct booking_ids as [|b0 ids0] eqn:E.
          + apply ret_Ok in Hx. by inversion Hx.
          + rewrite <-E in Hx. eapply (choice_Forall not_none); [exact Hx|by rewrite E]. }
      split; [apply good_put; [apply good_empty|done]|].
      intros [-> Hne]. rewrite put_Some by done. rewrite lookup_insert_eq. by eexists.
    - apply ret_Ok in H1. inversion H1; subst. split; [apply good_empty|].
      intros [-> Hne]. unfold truthy in Ht. by rewrite bool_decide_eq_false_2 in Ht.
  }
  assert (good name row2 ∧ (is_Some (row1 !! name) → is_Some (row2 !! name)))
    as [Hg2 Hs2].
  { destruct (truthy status_col && _).
    - apply bind_Ok in H2 as (sc & w0 & _ & H2). apply ret_Ok in H2. inversion H2; subst.
      split; [by apply good_put|]. apply put_keeps.
    - apply ret_Ok in H2. by inversion H2; subst. }
  assert (∃ x_a x_o, row3 = put aco_col x_o (put aci_col x_a row2)) as (x_a & x_o & ->).
  { repeat case_match;
      repeat (apply bind_Ok in H3 as (? & ? & _ & H3));
      apply ret_Ok in H3; inversion H3; subst; by eexists _, _. }
  assert (good name (put aco_col x_o (put aci_col x_a row2))) as Hg3
    by (apply good_put_other; [apply good_put_other; [done|exact Haci]|exact Haco]).
  assert (seen_ok uniq (set_row (put aco_col x_o (put aci_col x_a row2)) st)) as Hok3
    by exact Hok.
  pose proof (column_loop_inv Locals.row _ (seen_ok uniq) (in_contract_stay fk_map enums uniq table)
                (stay_step i) cols _ _ _ _ Hok3 H4) as Hok4.
  split; [done|]. eapply repair_order_filled; [exact H5|].
  destruct Hcontract as [Hb|Hin].
  - destruct (Hs2 (Hs1 Hb)) as [y0 Hy0].
    assert (is_Some (put aco_col x_o (put aci_col x_a row2) !! name)) as [y Hy]
      by (do 2 apply put_keeps; by eexists).
    exists y. split; [|by apply Hg3].
    eapply (column_loop_keeps Locals.row _ (seen_ok uniq)
              (in_contract_stay fk_map enums uniq table) (stay_step i));
      [exact Hok3|exact H4|exact Hy].
  - eapply (column_loop_fills Locals.row _ (seen_ok uniq)
              (in_contract_stay fk_map enums uniq table) (stay_step i));
      [exact Hnd|exact Hok3|exact H4|done|done|done].
Qed.

End StayRows.

Lemma lines_filled_snoc cols c rows (row : gmap string value) :
  lines_filled cols c rows → filled (ColumnInfo.column c) row →
  lines_filled cols c (rows ++ [writerow cols row]).
Proof.
  intros Hrows Hrow. apply Forall_app. split; [done|].
  apply Forall_singleton. by exists row.
Qed.

Section StayAssembler.
Context (fake : Faker) (today : Z) (str_of : value → string).
Context (table : string) (cols : list ColumnInfo.t).
Context (fk_map : gmap (string * string) (string * string)).
Context (ref_ids : gmap string (list value)) (n_rows : Z).
Context (enums : gmap string (list string)).
Context (unique_cols : gmap string (gset string)).
Context (c : ColumnInfo.t).
Hypothesis Hpools : pools_ok ref_ids.
Hypothesis Hnd : NoDup (ColumnInfo.column <$> cols).
Hypothesis Hc : c ∈ cols.
Hypothesis Haci : col_lc_of cols !! "actual_checkin_at" ≠ Some (ColumnInfo.column c).
Hypothesis Haco : col_lc_of cols !! "actual_checkout_at" ≠ Some (ColumnInfo.column c).
Hypothesis Hcontract :
  col_lc_of cols !! "booking_id" = Some (ColumnInfo.column c) ∨
  in_contract_stay fk_map enums (default ∅ (unique_cols !! lower table)) table c.

Lemma stay_filled w rows w' :
  generate_stay_csv fake today str_of table cols fk_map ref_ids n_rows enums unique_cols w
    = Ok (rows, w') →
  lines_filled cols c rows.
Proof.
  unfold generate_stay_csv. intros H.
  apply bind_Ok in H as (ids & w1 & Hids & H).
  apply bind_Ok in H as ([rows1 st1] & w2 & Hl & H).
  apply ret_Ok in H. inversion H; subst; clear H.
  set (uniq := default ∅ (unique_cols !! lower table)) in *.
  assert (Forall not_none ids) as Hforall.
  { destruct (_ && _).
    - destruct (_ <? _)%Z; [done|].
      eapply shuffle_Forall; [exact Hids|by apply pools_ok_Forall].
    - apply ret_Ok in Hids. inversion Hids; subst. by apply pools_ok_Forall. }
  assert (col_lc_of cols !! "booking_id" = Some (ColumnInfo.column c) ∧
            ColumnInfo.column c ≠ "" ∨ in_contract_stay fk_map enums uniq table c) as Hcontract'.
  { destruct Hcontract as [Hb|Hin]; [left|by right].
    split; [done|]. eapply col_lc_of_nonempty; [|exact Hb]. done. }
  eapply (foldM_inv
            (λ p : list (list value) * Locals.t,
               seen_ok uniq p.2 ∧ lines_filled cols c p.1)) in Hl as [_ Hrows];
    [exact Hrows| |split; [apply fresh_seen_ok|constructor]].
  intros [rows0 st0] i w0 [rows0' st0'] w0' [Hok Hrows] Hstep. simpl in Hok, Hrows.
  apply bind_Ok in Hstep as (st2 & w3 & Hrow & Hstep).
  apply ret_Ok in Hstep. inversion Hstep; subst; clear Hstep. simpl.
  eapply stay_row_filled in Hrow as [Hok2 Hfill]; [|done..].
  split; [done|]. by apply lines_filled_snoc.
Qed.

End StayAssembler.

Lemma rows_to_elem {A} n (l : list A) x : x ∈ rows_to n l → x ∈ l.
Proof. unfold rows_to. case_match; apply subseteq_take. Qed.

Lemma pools_ok_empty : pools_ok ∅.
Proof. intros t ids Ht. by rewrite lookup_empty in Ht. Qed.

(** The UNIQUE(FK) pools are drawn from the reference pools. *)
Lemma unique_fk_pools_of_ok table_lc cols fk_map ref_ids uniq n_rows w pools w' :
  pools_ok ref_ids →
  unique_fk_pools_of table_lc cols fk_map ref_ids uniq n_rows w = Ok (pools, w') →
  pools_ok pools.
Proof.
  unfold unique_fk_pools_of. intros Hp H.
  eapply (foldM_inv pools_ok); [|apply pools_ok_empty|exact H].
  intros p fk_col w0 p' w0' Hpp Hs. cbv beta in Hs.
  destruct (fk_map !! (table_lc, fk_col)) as [[parent ?]|].
  - apply bind_Ok in Hs as (ids & w1 & Hsh & Hs). apply ret_Ok in Hs.
    inversion Hs; subst. intros t l Hl.
    destruct (decide (t = fk_col)) as [->|Hne].
    + rewrite lookup_insert_eq in Hl. inversion Hl; subst. intros Hin%rows_to_elem.
      eapply shuffle_Forall in Hsh; [|by apply (pools_ok_Forall ref_ids parent)].
      by eapply (proj1 (Forall_forall _ _) Hsh) in Hin.
    + rewrite lookup_insert_ne in Hl by done. by eapply Hpp.
  - apply ret_Ok in Hs. by inversion Hs; subst.
Qed.

(** Case analysis on the condition of the [if] a run [H] starts with. *)
Ltac case_if H :=
  match type of H with
  | (if ?b then _ else _) _ = _ => destruct b
  end.

Section ColumnAssemblers.
Context (fake : Faker) (today : Z) (str_of : value → string).
Context (table : string) (cols : list ColumnInfo.t) (pk : option PrimaryKey.t).
Context (fk_map : gmap (string * string) (string * string)).
Context (ref_ids : gmap string (list value)) (n_rows : Z).
Context (enums : gmap string (list string)).
Context (unique_cols : gmap string (gset string)).
Context (c : ColumnInfo.t).
Hypothesis Hpools : pools_ok ref_ids.
Hypothesis Hnd : NoDup (ColumnInfo.column <$> cols).
Hypothesis Hc : c ∈ cols.
Hypothesis Hcontract :
  in_contract_default enums (default ∅ (unique_cols !! lower table)) c.

Lemma column_loop_filled table_lc pk_col unique_fk_pools i row st w st' w' :
  pools_ok unique_fk_pools →
  foldM (column_step fake today str_of table_lc pk_col fk_map ref_ids enums
           unique_fk_pools i) (set_row row st) cols w = Ok (st', w') →
  good (ColumnInfo.column c) row →
  seen_ok (default ∅ (unique_cols !! lower table)) st →
  seen_ok (default ∅ (unique_cols !! lower table)) st' ∧
  filled (ColumnInfo.column c) (Locals.row st').
Proof.
  intros Hfk H Hgood Hok.
  set (uniq := default ∅ (unique_cols !! lower table)) in *.
  assert (∀ s c0 w0 s' w0',
            seen_ok uniq s →
            column_step fake today str_of table_lc pk_col fk_map ref_ids enums
              unique_fk_pools i s c0 w0 = Ok (s', w0') →
            seen_ok uniq s' ∧
            step_spec (in_contract_default enums uniq) (Locals.row s) c0 (Locals.row s'))
    as Hstep
    by (intros s c0 w0 s' w0' Hs Hf;
        exact (column_step_spec fake today str_of fk_map ref_ids enums uniq Hpools
                 table_lc pk_col unique_fk_pools Hfk i s c0 w0 s' w0' Hf Hs)).
  assert (seen_ok uniq (set_row row st)) as Hok' by exact Hok.
  split.
  - eapply (column_loop_inv Locals.row _ (seen_ok uniq) _ Hstep); [exact Hok'|exact H].
  - eapply (column_loop_fills Locals.row _ (seen_ok uniq) _ Hstep);
      [exact Hnd|exact Hok'|exact H|done|done|done].
Qed.

Lemma booking_filled w rows ref_ids' w' :
  generate_booking_csv fake today str_of table cols fk_map ref_ids n_rows enums
    unique_cols pk w = Ok ((rows, ref_ids'), w') →
  lines_filled cols c rows.
Proof.
  unfold generate_booking_csv. intros H.
  apply bind_Ok in H as (pools & w1 & Hp & H).
  apply bind_Ok in H as ([rows1 st1] & w2 & Hl & H).
  apply ret_Ok in H. inversion H; subst; clear H.
  apply unique_fk_pools_of_ok in Hp; [|done].
  set (uniq := default ∅ (unique_cols !! lower table)) in *.
  eapply (foldM_inv
            (λ p : list (list value) * Locals.t,
               seen_ok uniq p.2 ∧ lines_filled cols c p.1)) in Hl as [_ Hrows];
    [exact Hrows| |split; [apply fresh_seen_ok|constructor]].
  intros [rows0 st0] i w0 [rows0' st0'] w0' [Hok Hrows] Hstep. simpl in Hok, Hrows.
  apply bind_Ok in Hstep as (row1 & w3 & Hr1 & Hstep).
  apply bind_Ok in Hstep as (row2 & w4 & Hr2 & Hstep).
  apply bind_Ok in Hstep as (st2 & w5 & Hcl & Hstep).
  apply bind_Ok in Hstep as (row3 & w6 & Hrep & Hstep).
  apply ret_Ok in Hstep. inversion Hstep; subst; clear Hstep. simpl.
  assert (good (ColumnInfo.column c) row1) as Hg1.
  { case_if Hr1.
    - apply bind_Ok in Hr1 as (sc & w7 & _ & Hr1). apply ret_Ok in Hr1.
      inversion Hr1; subst. by apply good_put; [apply good_empty|].
    - apply ret_Ok in Hr1. inversion Hr1; subst. apply good_empty. }
  assert (good (ColumnInfo.column c) row2) as Hg2.
  { case_if Hr2.
    - apply bind_Ok in Hr2 as (ci & w7 & _ & Hr2).
      apply bind_Ok in Hr2 as (d & w8 & _ & Hr2). apply ret_Ok in Hr2.
      inversion Hr2; subst. by do 2 (apply good_put; [|done]).
    - apply ret_Ok in Hr2. by inversion Hr2; subst. }
  eapply column_loop_filled in Hcl as [Hok2 Hfill]; [|done..].
  split; [exact Hok2|]. apply lines_filled_snoc; [done|].
  by eapply repair_order_filled.
Qed.

Lemma default_filled fuel w rows ref_ids' w' :
  lower table ∉ ["booking_room"; "room_night"; "stay"; "booking"; "booking_discount";
                 "review_score"] →
  generate_table_csv fake today str_of fuel table cols pk fk_map ref_ids n_rows enums
    unique_cols w = Ok ((rows, ref_ids'), w') →
  lines_filled cols c rows.
Proof.
  unfold generate_table_csv. intros Hsp H.
  repeat (rewrite bool_decide_eq_false_2 in H
            by (intros Heq; apply Hsp; rewrite Heq; set_solver)).
  apply bind_Ok in H as (pools & w1 & Hp & H).
  apply bind_Ok in H as ([rows1 st1] & w2 & Hl & H).
  apply ret_Ok in H. inversion H; subst; clear H.
  apply unique_fk_pools_of_ok in Hp; [|done].
  set (uniq := default ∅ (unique_cols !! lower table)) in *.
  eapply (foldM_inv
            (λ p : list (list value) * Locals.t,
               seen_ok uniq p.2 ∧ lines_filled cols c p.1)) in Hl as [_ Hrows];
    [exact Hrows| |split; [apply fresh_seen_ok|constructor]].
  intros [rows0 st0] i w0 [rows0' st0'] w0' [Hok Hrows] Hstep. simpl in Hok, Hrows.
  apply bind_Ok in Hstep as (row1 & w3 & Hr1 & Hstep).
  apply bind_Ok in Hstep as (st2 & w5 & Hcl & Hstep).
  apply ret_Ok in Hstep. inversion Hstep; subst; clear Hstep. simpl.
  assert (good (ColumnInfo.column c) row1) as Hg1.
  { case_if Hr1.
    - apply bind_Ok in Hr1 as (ci & w7 & _ & Hr1).
      apply bind_Ok in Hr1 as (d & w8 & _ & Hr1). apply ret_Ok in Hr1.
      inversion Hr1; subst. do 2 (apply good_put; [|done]). apply good_empty.
    - apply ret_Ok in Hr1. inversion Hr1; subst. apply good_empty. }
  eapply column_loop_filled in Hcl as [Hok2 Hfill]; [|done..].
  split; [exact Hok2|]. by apply lines_filled_snoc.
Qed.

End ColumnAssemblers.

Ltac pool_side :=
  first
    [ done
    | by apply pools_ok_Forall
    | by (eapply shuffle_Forall; [eassumption|by apply pools_ok_Forall])
    | by constructor ].

Section Assemblers.
Context (fake : Faker) (today : Z) (str_of : value → string).
Context (table : string) (cols : list ColumnInfo.t).
Context (fk_map : gmap (string * string) (string * string)).
Context (ref_ids : gmap string (list value)) (n_rows : Z).
Context (enums : gmap string (list string)).
Context (c : ColumnInfo.t).
Hypothesis Hpools : pools_ok ref_ids.
Hypothesis Hnd : NoDup (ColumnInfo.column <$> cols).
Hypothesis Hc : c ∈ cols.
Hypothesis Hnn : ColumnInfo.is_nullable c = false.

Lemma booking_room_filled fuel w rows w' :
  generate_booking_room_csv fake fuel table cols fk_map ref_ids n_rows enums w
    = Ok (rows, w') →
  lines_filled cols c rows.
Proof.
  unfold generate_booking_room_csv. intros H.
  destruct (_ || _); [done|].
  destruct (col_lc_of cols !! "booking_id") as [bc|]; [|done].
  destruct (col_lc_of cols !! "room_id") as [rc|]; [|done].
  destruct (_ || _); [done|].
  apply bind_Ok in H as (ids & w1 & Hsh & H).
  apply bind_Ok in H as (st & w2 & Hl & H).
  apply ret_Ok in H. inversion H; subst.
  apply lines_filled_junction.
  eapply booking_room_loop_filled in Hl; [exact Hl|pool_side..].
Qed.

Lemma room_night_filled w rows w' :
  generate_room_night_csv fake today table cols fk_map ref_ids n_rows enums w
    = Ok (rows, w') →
  lines_filled cols c rows.
Proof.
  unfold generate_room_night_csv. intros H.
  destruct (bool_decide _); [done|].
  destruct (col_lc_of cols !! "room_id") as [bc|]; [|done].
  destruct (col_lc_of cols !! "night_date") as [rc|]; [|done].
  destruct (_ || _); [done|].
  apply bind_Ok in H as (ids & w1 & Hsh & H).
  apply bind_Ok in H as (st & w2 & Hl & H).
  apply ret_Ok in H. inversion H; subst.
  apply lines_filled_junction.
  eapply room_night_loop_filled in Hl; [exact Hl|pool_side..].
Qed.

Lemma booking_discount_filled fuel w rows w' :
  generate_booking_discount_csv fake fuel table cols fk_map ref_ids n_rows enums w
    = Ok (rows, w') →
  lines_filled cols c rows.
Proof.
  unfold generate_booking_discount_csv. intros H.
  destruct (col_lc_of cols !! "booking_id") as [bc|]; [|done].
  destruct (str_or _ _) as [pc|]; [|done].
  destruct (_ || _); [done|]. destruct (_ || _); [done|].
  apply bind_Ok in H as (ids & w1 & Hsh & H).
  destruct (_ <? _)%Z; [done|].
  apply bind_Ok in H as (st & w2 & Hl & H).
  apply ret_Ok in H. inversion H; subst.
  apply lines_filled_junction.
  eapply booking_discount_loop_filled in Hl; [exact Hl|pool_side..].
Qed.

Lemma review_score_filled fuel w rows w' :
  generate_review_score_csv fake fuel table cols fk_map ref_ids n_rows enums w
    = Ok (rows, w') →
  lines_filled cols c rows.
Proof.
  unfold generate_review_score_csv. intros H.
  destruct (col_lc_of cols !! "review_id") as [bc|]; [|done].
  destruct (str_or _ _) as [pc|]; [|done].
  destruct (_ || _); [done|]. destruct (_ || _); [done|].
  destruct (_ <? _)%Z; [done|].
  apply bind_Ok in H as (ids & w1 & Hsh & H).
  apply bind_Ok in H as (st & w2 & Hl & H).
  apply ret_Ok in H. inversion H; subst.
  apply Forall_fmap.
  eapply review_score_loop_filled in Hl; [|pool_side..].
  eapply Forall_impl; [exact Hl|]. intros row Hrow. by exists row.
Qed.

End Assemblers.

Lemma writerow_lookup cols (row : gmap string value) j c :
  cols !! j = Some c →
  writerow cols row !! j = Some (default VNone (row !! ColumnInfo.column c)).
Proof.
  unfold writerow. revert j. induction cols as [|c0 cols IH]; intros [|j] Hj; try done.
  - by inversion Hj; subst.
  - by apply IH.
Qed.

Lemma lines_filled_lookup cols c rows line j :
  lines_filled cols c rows → line ∈ rows → cols !! j = Some c →
  ∃ x, line !! j = Some x ∧ x ≠ VNone.
Proof.
  intros Hrows Hline Hj.
  destruct (proj1 (Forall_forall _ _) Hrows _ Hline) as (row & -> & x & Hx & Hxn).
  exists x. split; [|done]. erewrite writerow_lookup by done. by rewrite Hx.
Qed.


(** Case analysis on the table name a dispatch in [H] tests next. *)
Ltac case_table H E :=
  match type of H with
  | (if bool_decide ?P then _ else _) _ = _ =>
    destruct (decide P) as [E|E];
    [rewrite (bool_decide_eq_true_2 _ E) in H
    |rewrite (bool_decide_eq_false_2 _ E) in H]
  end.

(** No constant of the list is the name in [H]. *)
Ltac no_member H :=
  repeat (apply elem_of_cons in H as [H|H];
          [exfalso; first [congruence | by rewrite H in *]|]);
  by apply elem_of_nil in H.

Lemma table_lines_filled fake today str_of fuel table cols pk fk_map ref_ids n_rows
    enums unique_cols w rows ref_ids' w' c :
  NoDup (ColumnInfo.column <$> cols) →
  pools_ok ref_ids →
  generate_table_csv fake today str_of fuel table cols pk fk_map ref_ids n_rows
    enums unique_cols w = Ok ((rows, ref_ids'), w') →
  c ∈ cols →
  in_contract table cols fk_map enums unique_cols c →
  lines_filled cols c rows.
Proof.
  intros Hnd Hpools H Hc (Hnn & Hcase).
  destruct (decide (lower table ∈ ["booking_room"; "room_night"; "stay"; "booking";
                                    "booking_discount"; "review_score"]))
    as [Hin|Hout].
  2:{ eapply default_filled; [exact Hpools|exact Hnd|exact Hc| |exact Hout|exact H].
      split; [done|]. destruct Hcase as [Hj|[[Hs _]|[Hd _]]]; [| |done].
      - exfalso. apply Hout. unfold junction_tables in Hj.
        repeat (apply elem_of_cons in Hj as [-> |Hj]; [set_solver|]).
        by apply elem_of_nil in Hj.
      - exfalso. apply Hout. rewrite Hs. set_solver. }
  unfold generate_table_csv in H.
  case_table H E1.
  { apply bind_Ok in H as (rows0 & w1 & Hr & H). apply ret_Ok in H.
    inversion H; subst. eapply booking_room_filled in Hr; [exact Hr|done..]. }
  case_table H E2.
  { apply bind_Ok in H as (rows0 & w1 & Hr & H). apply ret_Ok in H.
    inversion H; subst. eapply room_night_filled in Hr; [exact Hr|done..]. }
  case_table H E3.
  { apply bind_Ok in H as (rows0 & w1 & Hr & H). apply ret_Ok in H.
    inversion H; subst.
    destruct Hcase as [Hj|[[_ Hb]|[Hd Hst]]].
    - unfold junction_tables in Hj. no_member Hj.
    - eapply stay_filled in Hr; [exact Hr|done|done|done| | |by left].
      + intros Ha. apply col_lc_of_lookup in Ha, Hb. congruence.
      + intros Ha. apply col_lc_of_lookup in Ha, Hb. congruence.
    - destruct (Hst E3) as (Ha & Ho & Hfk).
      eapply stay_filled in Hr; [exact Hr|done|done|done|done|done|by right]. }
  case_table H E4.
  { eapply booking_filled in H; [exact H|done..|].
    split; [done|]. destruct Hcase as [Hj|[[Hs _]|[Hd _]]]; [| |done].
    - exfalso. unfold junction_tables in Hj. no_member Hj.
    - exfalso. congruence. }
  case_table H E5.
  { apply bind_Ok in H as (rows0 & w1 & Hr & H). apply ret_Ok in H.
    inversion H; subst. eapply booking_discount_filled in Hr; [exact Hr|done..]. }
  case_table H E6.
  { apply bind_Ok in H as (rows0 & w1 & Hr & H). apply ret_Ok in H.
    inversion H; subst. eapply review_score_filled in Hr; [exact Hr|done..]. }
  exfalso. no_member Hin.
Qed.

(** Two of the type names tested by the sentinel cannot both hold. *)
Ltac clash :=
  exfalso; unfold INT_TYPES, TEXT_TYPES in *;
  repeat match goal with
         | H : _ ∈ _ :: _ |- _ => apply elem_of_cons in H as [H|H]
         | H : _ ∈ [] |- _ => by apply elem_of_nil in H
         end;
  congruence.

(** What the sentinel block stores in [v] when it finds [None] in a
    NOT NULL column. *)
Lemma sentinel_substitutes today c w v w' :
  ColumnInfo.is_nullable c = false →
  sentinel today c VNone w = Ok (v, w') →
  let dt := lower (ColumnInfo.data_type c) in
  (dt ∈ INT_TYPES → v = VInt 1) ∧
  (dt = "boolean" → v = VBool false) ∧
  (dt = "date" → v = VDate today) ∧
  (dt ∈ TEXT_TYPES →
   ∃ r, unique_text (ColumnInfo.table c, ColumnInfo.column c)
          (h ← uuid_hex6; mret ("VAL_" +:+ h)) w = Ok (r, w') ∧
        v = from_option VStr VNone r).
Proof.
  unfold sentinel. intros -> H. cbv zeta. simpl in H. unfold one_of in H.
  case_bool_decide as Ht.
  { apply bind_Ok in H as (r & w1 & Hr & H). apply ret_Ok in H. inversion H; subst.
    split_and!; intros Hdt; [clash..|by exists r]. }
  case_bool_decide as Hi.
  { apply ret_Ok in H. inversion H; subst. split_and!; intros Hdt; [done|clash..]. }
  case_bool_decide as Hb.
  { apply ret_Ok in H. inversion H; subst. split_and!; intros Hdt; [done|done|clash..]. }
  case_bool_decide as Hd; apply ret_Ok in H; inversion H; subst;
    split_and!; intros Hdt; done.
Qed.

(** A column under a uniqueness constraint is left out of the contract
    when [generate_value] has no generator for its type: the retry of the
    uniqueness block stores the null it returns. *)
Example unique_unsupported_null :
  run (generate_table_csv stub_fake 0 stub_str 0 "ticket" payload_cols None ∅ ∅ 2
         ∅ payload_unique) zero_world
  = Ok ([[VInt 1; VInt 1]; [VInt 1; VNone]], ∅).
Proof. by vm_compute. Qed.

End NonNullFacts.

Module IntrospectionFacts.

(** Filing rows under a key keeps, for every key, the rows of that key in
    the order they arrived. *)
Lemma foldl_append_to {R A} (f : gmap string (list A) → R → gmap string (list A))
    (key : R → string) (val : R → A) :
  (∀ out r, f out r = append_to (key r) (val r) out) →
  ∀ rows init k,
    foldl f init rows !! k =
      match filter (λ r, key r = k) rows with
      | [] => init !! k
      | rs => Some (default [] (init !! k) ++ (val <$> rs))
      end.
Proof.
  intros Hf rows. induction rows as [|r rows IH]; intros init k; [done|].
  simpl. rewrite IH, Hf. unfold append_to. rewrite filter_cons.
  destruct (decide (key r = k)) as [->|Hne].
  - rewrite lookup_insert_eq. simpl.
    destruct (filter _ rows) as [|r' rs]; simpl; [done|].
    by rewrite <-app_assoc.
  - by rewrite lookup_insert_ne.
Qed.

(** [fetch_columns] files the columns of each table under the table's
    name, in the order of the query (ordinal position); a table without
    rows has no entry, and a column is nullable exactly when the catalogue
    says "YES". *)
Theorem fetch_columns_groups (rows : list column_row) (t : string) :
  fetch_columns rows !! t =
    match filter (λ r, row_table r = t) rows with
    | [] => None
    | rs => Some (row_info <$> rs)
    end.
Proof.
  unfold fetch_columns.
  rewrite (foldl_append_to _ row_table row_info); [by rewrite lookup_empty|].
  by intros out [[[[[[[t0 c] dt] udt] nul] cmax] prec] scale].
Qed.

(** [fetch_enum_values] files the labels of an enum under its lowercased
    name, in sort order: enum names that differ in case only share one
    entry. *)
Theorem fetch_enum_values_groups (rows : list (string * string)) (k : string) :
  fetch_enum_values rows !! k =
    match filter (λ r, lower r.1 = k) rows with
    | [] => None
    | rs => Some (snd <$> rs)
    end.
Proof.
  unfold fetch_enum_values.
  rewrite (foldl_append_to _ (λ r, lower r.1) snd); [by rewrite lookup_empty|].
  by intros out [n l].
Qed.

(** [fetch_primary_keys] collects the key columns of a table in ordinal
    order. *)
Theorem fetch_primary_keys_groups (rows : list (string * string * Z)) (t : string) :
  fetch_primary_keys rows !! t =
    match filter (λ r, r.1.1 = t) rows with
    | [] => None
    | rs => Some (PrimaryKey.mk t ((λ r, r.1.2) <$> rs))
    end.
Proof.
  unfold fetch_primary_keys. rewrite map_lookup_imap.
  rewrite (foldl_append_to _ (λ r, r.1.1) (λ r, r.1.2)); [|by intros out [[t0 c] p]].
  rewrite lookup_empty. by destruct (filter _ rows).
Qed.

(** A column is in the UNIQUE set of a lowercased table name exactly when
    the catalogue lists it for a table of that name, whatever the case. *)
Theorem fetch_unique_columns_spec (rows : list (string * string)) (k c : string) :
  c ∈ default ∅ (fetch_unique_columns rows !! k) ↔ ∃ t, (t, c) ∈ rows ∧ lower t = k.
Proof.
  unfold fetch_unique_columns.
  assert (∀ init : gmap string (gset string),
            c ∈ default ∅ (foldl (λ out '(t, c0),
                                    <[lower t := default ∅ (out !! lower t) ∪ {[c0]}]> out)
                                 init rows !! k)
            ↔ c ∈ default ∅ (init !! k) ∨ ∃ t, (t, c) ∈ rows ∧ lower t = k) as H.
  { induction rows as [|[t0 c0] rows IH]; intros init; simpl.
    - split; [by left|]. intros [?|(t & Ht & _)]; [done|]. by apply elem_of_nil in Ht.
    - rewrite IH. destruct (decide (lower t0 = k)) as [Heq|Hne].
      + rewrite Heq, lookup_insert_eq. simpl. rewrite elem_of_union, elem_of_singleton.
        split.
        * intros [[?| ->]|(t & Ht & Hk)]; [by left| |].
          -- right. exists t0. split; [left|done].
          -- right. exists t. split; [by right|done].
        * intros [?|(t & Ht & Hk)]; [by left; left|].
          apply elem_of_cons in Ht as [[= -> ->]|Ht]; [by left; right|].
          right. by exists t.
      + rewrite lookup_insert_ne by done. split.
        * intros [?|(t & Ht & Hk)]; [by left|]. right. exists t. split; [by right|done].
        * intros [?|(t & Ht & Hk)]; [by left|].
          apply elem_of_cons in Ht as [[= -> ->]|Ht]; [done|]. right. by exists t. }
  rewrite H, lookup_empty. simpl. set_solver.
Qed.

End IntrospectionFacts.

Module PlanFacts.

(** The entry of [build_fk_map] for a lowercased table and a column is
    made of the last foreign key declared on them: keys that differ in the
    case of the table name collide, and the later one wins. *)
Theorem build_fk_map_last (fks : list ForeignKey.t) (tl c : string) :
  build_fk_map fks !! (tl, c) =
    (λ fk, (lower (ForeignKey.ref_table fk), ForeignKey.ref_column fk)) <$>
      last (filter (λ fk, lower (ForeignKey.table fk) = tl ∧ ForeignKey.column fk = c) fks).
Proof.
  unfold build_fk_map. induction fks as [|fk fks IH] using rev_ind; [done|].
  rewrite foldl_snoc, filter_app, filter_cons, filter_nil.
  destruct (decide (lower (ForeignKey.table fk) = tl ∧ ForeignKey.column fk = c))
    as [[<- <-]|Hne].
  - by rewrite lookup_insert_eq, last_snoc.
  - rewrite lookup_insert_ne by (intros [= ? ?]; by apply Hne).
    by rewrite app_nil_r.
Qed.

Lemma any_in_true ks name : any_in ks name = true ↔ ∃ k, k ∈ ks ∧ contains k name = true.
Proof.
  unfold any_in. rewrite existsb_exists. setoid_rewrite <-list_elem_of_In. done.
Qed.

Lemma row_count_of_bounds tl : (12 ≤ row_count_of tl ≤ 70000)%Z.
Proof. unfold row_count_of. repeat case_match; lia. Qed.

Lemma default_row_counts_lookup tables t :
  default_row_counts tables !! t =
    if decide (t ∈ tables) then Some (row_count_of (lower t)) else None.
Proof.
  unfold default_row_counts. induction tables as [|t0 tables IH] using rev_ind.
  - simpl. rewrite lookup_empty. by destruct (decide (t ∈ [])) as [?%elem_of_nil|].
  - rewrite foldl_snoc. destruct (decide (t0 = t)) as [->|Hne].
    + rewrite lookup_insert_eq.
      destruct (decide (t ∈ tables ++ [t])) as [|Hn]; [done|].
      destruct Hn. apply elem_of_app. right. by apply list_elem_of_singleton.
    + rewrite lookup_insert_ne, IH by done.
      repeat case_decide; try done; exfalso; set_solver.
Qed.

Lemma overrides_lookup (l : list (string * Z)) : ∀ (rc : gmap string Z) t,
  NoDup l.*1 →
  foldl (λ rc '(k, v), if bool_decide (is_Some (rc !! k)) then <[k := v]> rc else rc)
        rc l !! t =
    match rc !! t with
    | Some n => Some (default n ((list_to_map l : gmap string Z) !! t))
    | None => None
    end.
Proof.
  induction l as [|[k v] l IH]; intros rc t Hnd.
  - simpl. rewrite lookup_empty. by destruct (rc !! t).
  - simpl in *. apply NoDup_cons in Hnd as [Hk Hnd]. rewrite IH by done.
    destruct (decide (k = t)) as [->|Hne].
    + rewrite lookup_insert_eq.
      assert ((list_to_map l : gmap string Z) !! t = None) as Hl
        by (by apply not_elem_of_list_to_map_1).
      rewrite Hl. simpl. case_bool_decide as Hs.
      * rewrite lookup_insert_eq. simpl. by destruct Hs as [n ->].
      * destruct (rc !! t) eqn:E; [|done]. destruct Hs. by eexists.
    + rewrite lookup_insert_ne by done. case_bool_decide.
      * by rewrite lookup_insert_ne.
      * done.
Qed.

(** The row-count plan of [main]: every listed table, and no other name,
    gets a count; it is the override when the table's name is spelled as
    an override key, and else the default chosen from the lowercased name;
    the count lies between 12 and 120000, so no table of the plan is
    skipped for a count of zero. *)
Theorem planned_row_count (tables : list string) (t : string) :
  apply_overrides (default_row_counts tables) !! t =
    (if decide (t ∈ tables)
     then Some (default (row_count_of (lower t))
                  ((list_to_map ROW_COUNTS_OVERRIDE : gmap string Z) !! t))
     else None) ∧
  (∀ n, apply_overrides (default_row_counts tables) !! t = Some n →
        (12 ≤ n ≤ 120000)%Z).
Proof.
  remember ((list_to_map ROW_COUNTS_OVERRIDE : gmap string Z) !! t) as o eqn:Ho.
  assert (apply_overrides (default_row_counts tables) !! t =
            (if decide (t ∈ tables) then Some (default (row_count_of (lower t)) o)
             else None)) as Heq.
  { unfold apply_overrides. rewrite overrides_lookup.
    - rewrite default_row_counts_lookup, <-Ho. by case_decide.
    - apply (bool_decide_unpack _). by vm_compute. }
  split; [done|]. rewrite Heq. intros n Hn. case_decide; [|done].
  inversion Hn; subst n; clear Hn.
  destruct o as [v|]; simpl.
  - symmetry in Ho. apply elem_of_list_to_map_2 in Ho. unfold ROW_COUNTS_OVERRIDE in Ho.
    repeat (apply elem_of_cons in Ho as [[= _ ->]|Ho]; [lia|]).
    by apply elem_of_nil in Ho.
  - pose proof (row_count_of_bounds (lower t)). lia.
Qed.

End PlanFacts.

Module TopoOrderFacts.
Import Topo TopoFacts Inputs.

#[local] Instance str_le_trans : Transitive str_le.
Proof.
  unfold str_le, String.leb. intros a. induction a as [|c1 a IH]; intros [|c2 b] [|c3 c];
    simpl; try done.
  unfold Ascii.compare.
  destruct (N.compare_spec (N_of_ascii c1) (N_of_ascii c2)),
           (N.compare_spec (N_of_ascii c2) (N_of_ascii c3)),
           (N.compare_spec (N_of_ascii c1) (N_of_ascii c3)); try done; try lia.
  apply IH.
Qed.

#[local] Instance str_le_antisym : AntiSymm (=) str_le.
Proof. intros a b Hab Hba. by apply String.leb_antisym. Qed.

Lemma sorted_Sorted l : Sorted str_le (sorted l).
Proof. apply Sorted_merge_sort. apply _. Qed.

(** [sorted] depends on the entries only, not on their order. *)
Lemma sorted_perm l1 l2 : l1 ≡ₚ l2 → sorted l1 = sorted l2.
Proof.
  intros Hp. apply (Sorted_unique str_le); [apply sorted_Sorted..|].
  by rewrite !sorted_Permutation.
Qed.

Lemma sorted_id l : Sorted str_le l → sorted l = l.
Proof.
  intros Hs. apply (Sorted_unique str_le); [apply sorted_Sorted|done|].
  apply sorted_Permutation.
Qed.


Lemma get_ext (m m' : gmap string (gset string)) :
  dom m = dom m' → (∀ t, get m t = get m' t) → m = m'.
Proof.
  intros Hd Hg. apply map_eq. intros t. specialize (Hg t). unfold get in Hg.
  destruct (m !! t) as [s|] eqn:E, (m' !! t) as [s'|] eqn:E'; simpl in Hg.
  - by rewrite Hg.
  - apply (elem_of_dom_2 m) in E. rewrite Hd in E. by apply not_elem_of_dom in E'.
  - apply (elem_of_dom_2 m') in E'. rewrite <-Hd in E'. by apply not_elem_of_dom in E.
  - done.
Qed.

Lemma edge_perm T T' fks fks' c p :
  T ≡ₚ T' → fks ≡ₚ fks' → edge T fks c p → edge T' fks' c p.
Proof.
  intros HT Hf (fk & Hfk & Hc & Hp & HcT & HpT).
  exists fk. by rewrite <-Hf, <-HT.
Qed.

(** The dependency maps are determined by the set of tables and the set
    of foreign keys. *)
Lemma build_perm T T' fks fks' :
  T ≡ₚ T' → fks ≡ₚ fks' → build T fks = build T' fks'.
Proof.
  intros HT Hf.
  destruct (build_spec T fks) as (Hd1 & Hd2 & He1 & He2).
  destruct (build_spec T' fks') as (Hd1' & Hd2' & He1' & He2').
  destruct (build T fks) as [deps rdeps], (build T' fks') as [deps' rdeps'].
  simpl in *. f_equal; apply get_ext.
  - rewrite Hd1, Hd1'. apply set_eq. intros x. by rewrite !elem_of_list_to_set, HT.
  - intros t. apply set_eq. intros p. rewrite He1, He1'.
    split; by apply edge_perm.
  - rewrite Hd2, Hd2'. apply set_eq. intros x. by rewrite !elem_of_list_to_set, HT.
  - intros t. apply set_eq. intros c. rewrite He2, He2'.
    split; by apply edge_perm.
Qed.

(** The load order depends on which tables and which foreign keys there
    are, not on the order in which the catalogue lists them. *)
Theorem topo_sort_tables_order_independent (tables tables' : list string)
    (fks fks' : list ForeignKey.t) :
  tables ≡ₚ tables' → fks ≡ₚ fks' →
  topo_sort_tables tables fks = topo_sort_tables tables' fks'.
Proof.
  intros HT Hf. unfold topo_sort_tables, topo_sort_tables_fuel.
  rewrite (build_perm tables tables' fks fks' HT Hf), (Permutation_length HT).
  destruct (build tables' fks') as [deps rdeps].
  rewrite (sorted_perm (filter (λ t, get deps t = ∅) tables)
                       (filter (λ t, get deps t = ∅) tables')) by (by rewrite HT).
  destruct (loop _ rdeps deps _ []) as [out|]; simpl; [|done].
  by rewrite (sorted_perm (filter (λ t, t ∉ out) tables)
                          (filter (λ t, t ∉ out) tables')) by (by rewrite HT).
Qed.

Lemma topo_sort_tables_order_independent_witness :
  topo_sort_tables ["grandchild"; "parent"; "child"] (reverse three_fks)
  = topo_sort_tables three_tables three_fks.
Proof.
  apply topo_sort_tables_order_independent.
  - apply (bool_decide_unpack _). by vm_compute.
  - unfold three_fks. simpl. apply perm_swap.
Defined.

Lemma filter_all {A} (P : A → Prop) `{!∀ x, Decision (P x)} (l : list A) :
  Forall P l → filter P l = l.
Proof.
  induction 1 as [|x l Hx Hl IH]; [done|]. by rewrite filter_cons, decide_True, IH.
Qed.

Lemma filter_none {A} (P : A → Prop) `{!∀ x, Decision (P x)} (l : list A) :
  Forall (λ x, ¬ P x) l → filter P l = [].
Proof.
  induction 1 as [|x l Hx Hl IH]; [done|]. by rewrite filter_cons, decide_False, IH.
Qed.

Lemma Sorted_tail (q : list string) n : Sorted str_le (n :: q) → Sorted str_le q.
Proof. by inversion 1. Qed.

(** Without dependents to release, the loop emits the queue as it is. *)
Lemma loop_no_dependents rdeps deps fuel : ∀ q out,
  (∀ n, get rdeps n = ∅) → Sorted str_le q → length q ≤ fuel →
  loop fuel rdeps deps q out = Some (out ++ q).
Proof.
  induction fuel as [|fuel IH]; intros q out Hr Hs Hlen.
  - destruct q; [|simpl in Hlen; lia]. simpl. by rewrite app_nil_r.
  - destruct q as [|n q]; [simpl; by rewrite app_nil_r|].
    simpl. rewrite Hr, elements_empty. simpl.
    rewrite (sorted_id q) by (by eapply Sorted_tail).
    rewrite IH; [|done|by eapply Sorted_tail|simpl in Hlen; lia].
    by rewrite <-app_assoc.
Qed.

(** When no foreign key joins two listed tables, the load order is the
    alphabetical order of the table names. *)
Theorem topo_sort_tables_no_edges (tables : list string) (fks : list ForeignKey.t) :
  (∀ fk, fk ∈ fks →
     ¬ (ForeignKey.table fk ∈ tables ∧ ForeignKey.ref_table fk ∈ tables)) →
  topo_sort_tables tables fks = Some (sorted tables).
Proof.
  intros Hno. unfold topo_sort_tables, topo_sort_tables_fuel.
  destruct (build_spec tables fks) as (Hd1 & Hd2 & He1 & He2).
  destruct (build tables fks) as [deps rdeps]. simpl in *.
  assert (∀ c p, ¬ edge tables fks c p) as Hedge.
  { intros c p (fk & Hfk & <- & <- & HcT & HpT). by apply (Hno fk). }
  assert (∀ t, get deps t = ∅) as Hdeps.
  { intros t. apply set_eq. intros p. rewrite He1. split; [by intros ?%Hedge|set_solver]. }
  assert (∀ t, get rdeps t = ∅) as Hrdeps.
  { intros t. apply set_eq. intros c. rewrite He2. split; [by intros ?%Hedge|set_solver]. }
  rewrite (filter_all (λ t, get deps t = ∅)) by (apply Forall_forall; auto).
  rewrite loop_no_dependents; [|done|apply sorted_Sorted|by rewrite length_sorted].
  simpl.
  rewrite (filter_none (λ t, t ∉ sorted tables)).
  - by rewrite app_nil_r.
  - apply Forall_forall. intros t Ht Hn. apply Hn. by apply elem_of_sorted.
Qed.

Lemma topo_sort_tables_no_edges_witness :
  topo_sort_tables ["room"; "hotel"; "guest"]
    [ForeignKey.mk "room" "hotel_id" "hotel_chain" "id"]
  = Some ["guest"; "hotel"; "room"].
Proof.
  apply (topo_sort_tables_no_edges ["room"; "hotel"; "guest"]
           [ForeignKey.mk "room" "hotel_id" "hotel_chain" "id"]).
  intros fk Hfk [_ Hp]. apply list_elem_of_singleton in Hfk as ->. simpl in Hp.
  revert Hp. apply (bool_decide_unpack _). by vm_compute.
Defined.

End TopoOrderFacts.

Module IssuedFacts.
Import MFacts Inputs.

Lemma unique_text_loop_issues key make_value n : ∀ w r w',
  keeps_registry make_value →
  unique_text_loop key make_value n w = Ok (r, w') →
  match r with
  | Some v =>
    v ≠ "" ∧ (v ∉ issued key w) ∧
    _UNIQUE_SEEN w' = <[key := issued key w ++ [v]]> (_UNIQUE_SEEN w)
  | None => _UNIQUE_SEEN w' = _UNIQUE_SEEN w
  end.
Proof.
  induction n as [|n IH]; intros w r w' Hk H; simpl in H.
  - apply ret_Ok in H. by inversion H; subst.
  - apply bind_Ok in H as (s & w1 & Hs & H).
    apply bind_Ok in H as (seen & w2 & Hseen & H).
    inversion Hseen; subst; clear Hseen.
    pose proof (Hk _ _ _ Hs) as Hreg.
    assert (issued key w2 = issued key w) as Hi by (unfold issued; by rewrite Hreg).
    fold (issued key w2) in H. rewrite Hi in H.
    case_bool_decide as He; case_bool_decide as Hin; simpl in H.
    + apply IH in H; [|done]. rewrite Hi, Hreg in H. done.
    + apply IH in H; [|done]. rewrite Hi, Hreg in H. done.
    + apply IH in H; [|done]. rewrite Hi, Hreg in H. done.
    + apply bind_Ok in H as ([] & w3 & Hput & H). apply ret_Ok in H.
      inversion H; subst; clear H. inversion Hput; subst; clear Hput. simpl.
      by rewrite Hreg.
Qed.

(** A value returned by [unique_text] is not empty, was never issued for
    the key before, and is recorded as issued; when the tries are used up
    nothing is recorded.  Entries of other keys are never touched. *)
Theorem unique_text_issues_fresh (key : string * string) (make_value : M string)
    (w : world) (r : option string) (w' : world) :
  keeps_registry make_value →
  unique_text key make_value w = Ok (r, w') →
  match r with
  | Some v => v ≠ "" ∧ (v ∉ issued key w) ∧ issued key w' = issued key w ++ [v]
  | None => issued key w' = issued key w
  end ∧
  ∀ key', key' ≠ key → _UNIQUE_SEEN w' !! key' = _UNIQUE_SEEN w !! key'.
Proof.
  intros Hk H. unfold unique_text, unique_text_tries in H.
  apply bind_Ok in H as (seen & w1 & Hseen & H). inversion Hseen; subst; clear Hseen.
  apply bind_Ok in H as ([] & w2 & Hput & H). inversion Hput; subst; clear Hput.
  apply unique_text_loop_issues in H; [|done].
  unfold issued in *. simpl in H. rewrite lookup_insert_eq in H. simpl in H.
  destruct r as [v|].
  - destruct H as (Hv & Hin & ->). split.
    + by rewrite insert_insert_eq, lookup_insert_eq.
    + intros key' Hne. by rewrite insert_insert_eq, lookup_insert_ne.
  - rewrite H. split.
    + by rewrite lookup_insert_eq.
    + intros key' Hne. by rewrite lookup_insert_ne.
Qed.

Lemma val_token_keeps_registry : keeps_registry val_token.
Proof.
  intros w s w' H. unfold val_token in H.
  apply bind_Ok in H as (h & w1 & Hh & H). apply ret_Ok in H. inversion H; subst.
  unfold uuid_hex6 in Hh. apply bind_Ok in Hh as (k & w2 & Hd & Hh).
  apply ret_Ok in Hh. pose proof (f_equal snd Hh) as Hw. cbn [snd] in Hw. subst w1.
  by inversion Hd.
Qed.

Lemma unique_text_issues_fresh_witness :
  ∃ w', ("VAL_000000" ≠ "" ∧ ("VAL_000000" ∉ issued ("t", "c") zero_world) ∧
         issued ("t", "c") w' = issued ("t", "c") zero_world ++ ["VAL_000000"]) ∧
        ∀ key', key' ≠ ("t", "c") →
                _UNIQUE_SEEN w' !! key' = _UNIQUE_SEEN zero_world !! key'.
Proof.
  eexists.
  apply (unique_text_issues_fresh ("t", "c") val_token zero_world (Some "VAL_000000"));
    [apply val_token_keeps_registry|].
  vm_compute. reflexivity.
Defined.

End IssuedFacts.

Module PoolFacts.
Import MFacts Inputs.

Lemma insert_cons_perm {A} (x : list A) j b y :
  x !! j = Some b → b :: <[j := y]> x ≡ₚ y :: x.
Proof.
  revert j. induction x as [|z x IH]; intros [|j] Hj; try done.
  - simpl in *. inversion Hj; subst. apply perm_swap.
  - simpl in *. rewrite (perm_swap z b), (IH _ Hj). apply perm_swap.
Qed.

Lemma swap_perm {A} (x : list A) i j : random.swap x i j ≡ₚ x.
Proof.
  unfold random.swap.
  destruct (x !! i) as [a|] eqn:Ei; [|done]. destruct (x !! j) as [b|] eqn:Ej; [|done].
  revert i j Ei Ej. induction x as [|z x IH]; intros [|i] [|j] Ei Ej; try done; simpl in *.
  - by inversion Ei; inversion Ej; subst.
  - inversion Ei; subst. by apply insert_cons_perm.
  - inversion Ej; subst. by apply insert_cons_perm.
  - by rewrite IH.
Qed.

Lemma shuffle_from_perm {A} i : ∀ (x : list A) w x' w',
  random.shuffle_from i x w = Ok (x', w') → x' ≡ₚ x.
Proof.
  induction i as [|i IH]; intros x w x' w' H; simpl in H.
  - apply ret_Ok in H. by inversion H; subst.
  - apply bind_Ok in H as (j & w1 & _ & H). apply IH in H. by rewrite H, swap_perm.
Qed.

(** [random.shuffle] rearranges the list and loses nothing. *)
Lemma shuffle_perm {A} (x : list A) w x' w' :
  random.shuffle x w = Ok (x', w') → x' ≡ₚ x.
Proof. apply shuffle_from_perm. Qed.

Lemma last_removelast_perm {A} (l : list A) v :
  last l = Some v → l ≡ₚ v :: removelast l.
Proof.
  intros Hl. destruct l as [|a l] using rev_ind; [done|].
  rewrite last_snoc in Hl. inversion Hl; subst.
  rewrite removelast_last. by rewrite Permutation_app_comm.
Qed.

(** The entries still to be handed out for [key]. *)
Definition remaining (key : string * string) (base_list : list string) (w : world)
    : list string :=
  default base_list (_UNIQUE_POOL_STATE w !! key).

(** While entries remain, a call hands out one of them and removes it. *)
Lemma unique_choice_from_pool_takes key base maxlen w v w' :
  remaining key base w ≠ [] →
  unique_choice_from_pool key base maxlen w = Ok (v, w') →
  ∃ u, v = slice_opt maxlen u ∧ remaining key base w ≡ₚ u :: remaining key base w'.
Proof.
  unfold unique_choice_from_pool, remaining. intros Hne H.
  apply bind_Ok in H as (st & w1 & Hst & H). inversion Hst; subst; clear Hst.
  apply bind_Ok in H as (pool & w2 & Hpool & H).
  assert (pool ≡ₚ default base (_UNIQUE_POOL_STATE w1 !! key) ∧
          _UNIQUE_POOL_STATE w2 !! key = Some pool) as [Hperm Hw2].
  { destruct (_UNIQUE_POOL_STATE w1 !! key) as [p|] eqn:E.
    - apply ret_Ok in Hpool. inversion Hpool; subst. by rewrite E.
    - apply bind_Ok in Hpool as (p & w3 & Hsh & Hpool).
      apply bind_Ok in Hpool as ([] & w4 & Hput & Hpool).
      apply ret_Ok in Hpool. inversion Hpool; subst; clear Hpool.
      inversion Hput; subst; clear Hput. simpl. rewrite lookup_insert_eq.
      split; [|done]. by eapply shuffle_perm. }
  apply bind_Ok in H as (u & w3 & Hu & H). apply ret_Ok in H. inversion H; subst; clear H.
  destruct (last pool) as [x|] eqn:El.
  - apply bind_Ok in Hu as ([] & w4 & Hput & Hu). apply ret_Ok in Hu.
    inversion Hu; subst; clear Hu. inversion Hput; subst; clear Hput. simpl.
    exists x. split; [done|]. rewrite lookup_insert_eq. simpl.
    rewrite <-Hperm. by apply last_removelast_perm.
  - apply last_None in El. subst pool. apply Permutation_nil_l in Hperm.
    by rewrite <-Hperm in Hne.
Qed.

Lemma unique_choices_spec key base maxlen l : ∀ acc us w vs w',
  acc = slice_opt maxlen <$> us →
  base ≡ₚ us ++ remaining key base w →
  length us + length l ≤ length base →
  foldM (λ acc (_ : nat), v ← unique_choice_from_pool key base maxlen; mret (acc ++ [v]))
        acc l w = Ok (vs, w') →
  ∃ us', vs = slice_opt maxlen <$> us' ∧ base ≡ₚ us' ++ remaining key base w' ∧
         length us' = length us + length l.
Proof.
  induction l as [|k l IH]; intros acc us w vs w' Hacc Hperm Hlen H; simpl in H.
  - apply ret_Ok in H. inversion H; subst. exists us. by rewrite Nat.add_0_r.
  - apply bind_Ok in H as (acc1 & w1 & Hstep & H).
    apply bind_Ok in Hstep as (v & w2 & Hv & Hstep). apply ret_Ok in Hstep.
    inversion Hstep; subst; clear Hstep.
    apply unique_choice_from_pool_takes in Hv as (u & -> & Hu).
    + apply (IH _ (us ++ [u])) in H as (us' & Hvs & Hp' & Hl').
      * exists us'. split_and!; [done|done|]. rewrite Hl', length_app. simpl. lia.
      * by rewrite fmap_app.
      * etrans; [exact Hperm|]. by rewrite Hu, <-app_assoc.
      * rewrite length_app. simpl in *. lia.
    + intros Hnil. rewrite Hnil, app_nil_r in Hperm.
      apply Permutation_length in Hperm. simpl in Hlen. lia.
Qed.

(** Starting with no state for the key, the first [n <= len(base_list)]
    calls of [unique_choice_from_pool] hand out [n] entries of the list,
    none more often than the list holds it (so distinct ones when the
    list has no duplicates); with [maxlen] each is cut to that length. *)
Theorem unique_choices_without_repeats (key : string * string) (base_list : list string)
    (maxlen : option Z) (n : nat) (w : world) (vs : list string) (w' : world) :
  _UNIQUE_POOL_STATE w !! key = None →
  n ≤ length base_list →
  unique_choices key base_list maxlen n w = Ok (vs, w') →
  ∃ us, vs = slice_opt maxlen <$> us ∧ us ⊆+ base_list ∧ length us = n.
Proof.
  intros Hfresh Hn H. unfold unique_choices in H.
  apply (unique_choices_spec key base_list maxlen _ [] []) in H
    as (us & Hvs & Hperm & Hlen); [|done| |by rewrite length_seq].
  - exists us. split_and!; [done| |by rewrite Hlen, length_seq].
    etrans; [|by apply Permutation_submseteq]. by apply submseteq_inserts_r.
  - unfold remaining. by rewrite Hfresh.
Qed.

Lemma unique_choices_without_repeats_witness :
  ∃ us, ["Standard King"; "Family Suite"; "Executive Suite"] = slice_opt None <$> us ∧
        us ⊆+ ROOM_TYPE_NAMES ∧ length us = 3.
Proof.
  eapply (unique_choices_without_repeats ("room_type", "name") ROOM_TYPE_NAMES None 3
            zero_world).
  - reflexivity.
  - vm_compute. lia.
  - vm_compute. reflexivity.
Defined.

End PoolFacts.

Module LocationFacts.
Import MFacts NonNullFacts Inputs.

Lemma randint_range a b w z w' :
  (a ≤ b)%Z → random.randint a b w = Ok (z, w') → (a ≤ z ≤ b)%Z.
Proof.
  unfold random.randint, randbelow. intros Hab (k & w1 & Hk & H)%bind_Ok.
  apply bind_Ok in Hk as (d & w2 & _ & Hk). apply ret_Ok in Hk.
  apply ret_Ok in H. inversion H; subst; clear H. inversion Hk; subst; clear Hk.
  pose proof (Nat.mod_upper_bound d (Z.to_nat (b - a + 1))). lia.
Qed.

Lemma length_append (a b : string) :
  String.length (a +:+ b) = String.length a + String.length b.
Proof. induction a as [|c a IH]; simpl; [done|]. by rewrite IH. Qed.

Lemma zero_pad_3 n : n < 1000 → String.length (zero_pad 3 n) = 3.
Proof.
  intros Hn.
  assert (forallb (λ k, String.length (zero_pad 3 k) =? 3) (seq 0 1000) = true) as Hall
    by (vm_compute; reflexivity).
  rewrite forallb_forall in Hall. apply Nat.eqb_eq, Hall, in_seq. lia.
Qed.

(** The second lookup of a row's location finds the one stored by the
    first: it returns the same location, draws nothing and changes
    nothing, whatever the case of the table name. *)
Theorem get_row_location_cached (fake : Faker) (table table' : string) (row_idx : Z)
    (w : world) (loc : location) (w' : world) :
  lower table' = lower table →
  get_row_location fake table row_idx w = Ok (loc, w') →
  get_row_location fake table' row_idx w' = Ok (loc, w').
Proof.
  intros Hlow H. unfold get_row_location in *. rewrite Hlow.
  apply bind_Ok in H as (cached & w1 & Hc & H). inversion Hc; subst; clear Hc.
  assert (_ROW_LOCATION w' !! (lower table, row_idx) = Some loc) as Hhit.
  { destruct (_ROW_LOCATION w1 !! (lower table, row_idx)) as [l|] eqn:E.
    - apply ret_Ok in H. by inversion H; subst.
    - apply bind_Ok in H as ([[[[c st] co] pfx] tz] & w2 & _ & H).
      apply bind_Ok in H as (code & w3 & _ & H).
      apply bind_Ok in H as (num & w4 & _ & H).
      apply bind_Ok in H as (street & w5 & _ & H).
      apply bind_Ok in H as (apt & w6 & _ & H).
      apply bind_Ok in H as (suite & w7 & _ & H).
      apply bind_Ok in H as (s2 & w8 & _ & H).
      apply bind_Ok in H as ([] & w9 & Hput & H).
      apply ret_Ok in H. inversion H; subst; clear H.
      inversion Hput; subst; clear Hput. simpl. by rewrite lookup_insert_eq. }
  unfold mbind, M_bind, location_of. simpl. by rewrite Hhit.
Qed.

Lemma get_row_location_cached_witness :
  ∃ loc w', get_row_location stub_fake "Hotel" 7 w' = Ok (loc, w').
Proof.
  eexists _, _.
  apply (get_row_location_cached stub_fake "hotel" "Hotel" 7 zero_world);
    [reflexivity|]. vm_compute. reflexivity.
Defined.

Lemma randbelow_location n w k w' :
  randbelow n w = Ok (k, w') → _ROW_LOCATION w' = _ROW_LOCATION w.
Proof.
  unfold randbelow. intros (d & w1 & Hd & H)%bind_Ok. apply ret_Ok in H.
  inversion H; subst. by inversion Hd.
Qed.

Lemma randint_location a b w z w' :
  random.randint a b w = Ok (z, w') → _ROW_LOCATION w' = _ROW_LOCATION w.
Proof.
  unfold random.randint. intros (k & w1 & Hk & H)%bind_Ok. apply ret_Ok in H.
  inversion H; subst. by eapply randbelow_location.
Qed.

Lemma choice_location {A} (l : list A) w a w' :
  random.choice l w = Ok (a, w') → _ROW_LOCATION w' = _ROW_LOCATION w.
Proof.
  unfold random.choice. intros (k & w1 & Hk & H)%bind_Ok.
  destruct (l !! k); [|done]. apply ret_Ok in H. inversion H; subst.
  by eapply randbelow_location.
Qed.

Lemma faker_location {A} fake (p : Faker → nat → A) w a w' :
  faker fake p w = Ok (a, w') → _ROW_LOCATION w' = _ROW_LOCATION w.
Proof.
  unfold faker. intros (k & w1 & Hk & H)%bind_Ok. apply ret_Ok in H.
  inversion H; subst. by inversion Hk.
Qed.

(** A location made for a row takes city, state, country, postal prefix
    and time zone from one entry of [LOCATION_POOL]; its postal code
    starts with the prefix and has five characters in the US and six in
    India; the location is stored for the row. *)
Theorem get_row_location_fresh (fake : Faker) (table : string) (row_idx : Z)
    (w : world) (loc : location) (w' : world) :
  _ROW_LOCATION w !! (lower table, row_idx) = None →
  get_row_location fake table row_idx w = Ok (loc, w') →
  (city loc, state loc, country loc, postal_prefix loc, timezone loc) ∈ LOCATION_POOL ∧
  String.prefix (postal_prefix loc) (postal_code loc) = true ∧
  String.length (postal_code loc) = (if bool_decide (country loc = "US") then 5 else 6) ∧
  _ROW_LOCATION w' = <[(lower table, row_idx) := loc]> (_ROW_LOCATION w).
Proof.
  intros Hfresh H. unfold get_row_location in H.
  apply bind_Ok in H as (cached & w1 & Hc & H). inversion Hc; subst; clear Hc.
  rewrite Hfresh in H.
  apply bind_Ok in H as ([[[[c st] co] pfx] tz] & w2 & Hpick & H).
  apply bind_Ok in H as (code & w3 & Hcode & H).
  apply bind_Ok in H as (num & w4 & Hnum & H).
  apply bind_Ok in H as (street & w5 & Hstreet & H).
  apply bind_Ok in H as (apt & w6 & Hapt & H).
  apply bind_Ok in H as (suite & w7 & Hsuite & H).
  apply bind_Ok in H as (s2 & w8 & Hs2 & H).
  apply bind_Ok in H as ([] & w9 & Hput & H).
  apply ret_Ok in H. inversion H; subst; clear H. simpl.
  assert (∃ n, (0 ≤ n ≤ 999)%Z ∧ (co ≠ "US" → String.length pfx = 3) ∧
               code = pfx +:+ zero_pad 3 (Z.to_nat n) ∧
               _ROW_LOCATION w3 = _ROW_LOCATION w2) as (n & Hn & H3 & -> & Hw3).
  { assert (co ≠ "US" → String.length pfx = 3) as Hlen.
    { intros Hco. apply choice_elem in Hpick. unfold LOCATION_POOL in Hpick.
      repeat (apply elem_of_cons in Hpick as [[= -> -> -> -> ->]|Hpick]; [done|]).
      by apply elem_of_nil in Hpick. }
    assert ((random.randint 0 999 ≫= λ n : Z, mret (pfx +:+ zero_pad 3 (Z.to_nat n))) w2
            = Ok (code, w3)) as Hrun.
    { case_bool_decide as Hco; [done|]. by rewrite (Hlen Hco) in Hcode. }
    apply bind_Ok in Hrun as (n & w0 & Hr & Hrun). apply ret_Ok in Hrun.
    inversion Hrun; subst; clear Hrun. exists n.
    split; [by eapply randint_range; [|exact Hr]|].
    split; [done|]. split; [done|]. by eapply randint_location. }
  split_and!.
  - by apply choice_elem in Hpick.
  - clear. induction pfx as [|a pfx IH]; simpl; [by destruct (zero_pad _ _)|].
    by destruct (ascii_dec a a).
  - rewrite length_append, zero_pad_3 by lia.
    apply choice_elem in Hpick. unfold LOCATION_POOL in Hpick.
    repeat (apply elem_of_cons in Hpick as [[= -> -> -> -> ->]|Hpick]; [done|]).
    by apply elem_of_nil in Hpick.
  - inversion Hput; subst; clear Hput. simpl. f_equal.
    apply choice_location in Hs2, Hpick. apply randint_location in Hsuite, Hapt, Hnum.
    apply faker_location in Hstreet. congruence.
Qed.

Lemma get_row_location_fresh_witness :
  ∃ loc w',
    (city loc, state loc, country loc, postal_prefix loc, timezone loc) ∈ LOCATION_POOL ∧
    String.prefix (postal_prefix loc) (postal_code loc) = true ∧
    String.length (postal_code loc) = (if bool_decide (country loc = "US") then 5 else 6) ∧
    _ROW_LOCATION w' = <[(lower "hotel", 7%Z) := loc]> (_ROW_LOCATION zero_world).
Proof.
  eexists _, _.
  apply (get_row_location_fresh stub_fake "hotel" 7 zero_world); [reflexivity|].
  vm_compute. reflexivity.
Defined.

End LocationFacts.

Module ValueFacts.
Import MFacts NonNullFacts Inputs.

(** An enumerated column gets one of the labels the catalogue lists for
    its type, or null when it is nullable; no label is made up. *)
Theorem generate_value_enum (fake : Faker) (col : ColumnInfo.t) (row_idx : Z)
    (enums : gmap string (list string)) (labels : list string)
    (w : world) (v : value) (w' : world) :
  enums !! lower (ColumnInfo.udt_name col) = Some labels →
  generate_value fake col row_idx enums w = Ok (v, w') →
  (v = VNone ∧ ColumnInfo.is_nullable col = true) ∨ ∃ l, l ∈ labels ∧ v = VStr l.
Proof.
  intros He H. unfold generate_value in H. rewrite He in H.
  apply bind_Ok in H as (null & w1 & Hn & H). destruct null.
  - apply ret_Ok in H. inversion H; subst. left. split; [done|].
    destruct (ColumnInfo.is_nullable col); [done|]. apply ret_Ok in Hn. by inversion Hn.
  - apply fmap_Ok in H as (l & w2 & Hl & H). inversion H; subst. right.
    exists l. split; [by eapply choice_elem|done].
Qed.

Lemma generate_value_enum_witness :
  (VStr "CANCELLED" = VNone ∧ false = true) ∨
  ∃ l, l ∈ ["CANCELLED"; "CHECKED_OUT"; "CHECKED_IN"] ∧ VStr "CANCELLED" = VStr l.
Proof.
  eapply (generate_value_enum stub_fake
            (ColumnInfo.mk "stay" "stay_status" "USER-DEFINED" "stay_status_enum" false
                           None None None) 1 stay_enums _ zero_world).
  - reflexivity.
  - vm_compute. reflexivity.
Defined.

Lemma substring_length n s : String.length (substring 0 n s) ≤ n.
Proof.
  revert s. induction n as [|n IH]; intros [|c s]; simpl; try lia.
  specialize (IH s). lia.
Qed.

Lemma slice_to_length n s : (0 ≤ n)%Z → (Z.of_nat (String.length (slice_to n s)) ≤ n)%Z.
Proof.
  intros Hn. unfold slice_to. rewrite (proj2 (Z.leb_le 0 n)) by done.
  pose proof (substring_length (Z.to_nat n) s). lia.
Qed.

(** Every string a computation returns fits in [maxlen] characters. *)
Definition fits (maxlen : Z) (m : M value) : Prop :=
  ∀ w s w', m w = Ok (VStr s, w') → (Z.of_nat (String.length s) ≤ maxlen)%Z.

Lemma fits_ret_slice maxlen s : (0 ≤ maxlen)%Z → fits maxlen (mret (VStr (slice_to maxlen s))).
Proof.
  intros Hm w s' w' H. apply ret_Ok in H. inversion H; subst. by apply slice_to_length.
Qed.

Lemma fits_ret_other maxlen v : (∀ s, v ≠ VStr s) → fits maxlen (mret v).
Proof. intros Hv w s w' H. apply ret_Ok in H. inversion H; subst. by destruct (Hv s). Qed.

Lemma fits_bind {A} maxlen (m : M A) (f : A → M value) :
  (∀ a, fits maxlen (f a)) → fits maxlen (m ≫= f).
Proof. intros Hf w s w' (a & w1 & _ & H)%bind_Ok. by eapply Hf. Qed.

Lemma fits_fmap {A} maxlen (g : A → value) (m : M A) :
  (∀ a s, g a ≠ VStr s) → fits maxlen (g <$> m).
Proof.
  intros Hg w s w' (a & w1 & _ & H)%fmap_Ok. inversion H; subst. by destruct (Hg a s).
Qed.

Lemma fits_sliced maxlen m : (0 ≤ maxlen)%Z → fits maxlen (sliced maxlen m).
Proof.
  intros Hm. unfold sliced. apply fits_bind. intros [s|]; [by apply fits_ret_slice|].
  by intros w s w' H.
Qed.

Ltac fits :=
  repeat first
    [ apply fits_sliced; done
    | apply fits_ret_slice; done
    | apply fits_ret_other; done
    | apply fits_fmap; done
    | apply fits_bind; intros ?
    | match goal with |- fits _ (if ?b then _ else _) => destruct b eqn:? end
    | match goal with |- fits _ (let '(_, _) := ?p in _) => destruct p end ].

Lemma unique_choice_fits maxlen key base :
  (0 ≤ maxlen)%Z →
  fits maxlen (v ← unique_choice_from_pool key base (Some maxlen); mret (VStr v)).
Proof.
  intros Hm w s w' H. apply bind_Ok in H as (v & w1 & Hv & H). apply ret_Ok in H.
  inversion H; subst; clear H. unfold unique_choice_from_pool in Hv.
  apply bind_Ok in Hv as (st & w2 & _ & Hv). apply bind_Ok in Hv as (pool & w3 & _ & Hv).
  apply bind_Ok in Hv as (u & w4 & _ & Hv). apply ret_Ok in Hv. inversion Hv; subst.
  by apply slice_to_length.
Qed.

Lemma generate_text_fits fake col row_idx name :
  (0 ≤ or_default (ColumnInfo.char_max_len col) 255)%Z →
  fits (or_default (ColumnInfo.char_max_len col) 255) (generate_text fake col row_idx name).
Proof.
  intros Hm. unfold generate_text.
  repeat first
    [ apply unique_choice_fits; done
    | apply fits_sliced; done
    | apply fits_ret_slice; done
    | apply fits_bind; intros ?
    | match goal with |- fits _ (if ?b then _ else _) => destruct b eqn:? end ].
Qed.

Lemma uniform_round_fits maxlen a b scale : fits maxlen (random.uniform_round a b scale).
Proof. unfold random.uniform_round. fits. Qed.

(** Apart from enum labels and UUIDs, every string [generate_value]
    returns is cut to the column's [char_max_len] (255 when the catalogue
    gives none or zero). *)
Theorem generate_value_fits (fake : Faker) (col : ColumnInfo.t) (row_idx : Z)
    (enums : gmap string (list string)) (w : world) (s : string) (w' : world) :
  enums !! lower (ColumnInfo.udt_name col) = None →
  lower (ColumnInfo.data_type col) ≠ "uuid" →
  lower (ColumnInfo.udt_name col) ≠ "uuid" →
  (0 ≤ or_default (ColumnInfo.char_max_len col) 255)%Z →
  generate_value fake col row_idx enums w = Ok (VStr s, w') →
  (Z.of_nat (String.length s) ≤ or_default (ColumnInfo.char_max_len col) 255)%Z.
Proof.
  intros He Hdt Hudt Hm. revert w s w'.
  change (fits (or_default (ColumnInfo.char_max_len col) 255)
            (generate_value fake col row_idx enums)).
  unfold generate_value. rewrite He.
  rewrite (bool_decide_eq_false_2 (lower (ColumnInfo.data_type col) = "uuid")) by done.
  rewrite (bool_decide_eq_false_2 (lower (ColumnInfo.udt_name col) = "uuid")) by done.
  simpl orb. unfold generate_numeric, generate_int.
  repeat first
    [ apply generate_text_fits; done
    | apply uniform_round_fits
    | apply fits_ret_other; done
    | apply fits_fmap; done
    | apply fits_bind; intros ?
    | match goal with |- fits _ (if ?b then _ else _) => destruct b eqn:? end ].
Qed.

Lemma generate_value_fits_witness :
  (Z.of_nat (String.length "USD") ≤ or_default (Some 3%Z) 255)%Z.
Proof.
  eapply (generate_value_fits stub_fake
            (ColumnInfo.mk "fx" "currency_code" "character varying" "varchar" false
                           (Some 3%Z) None None) 1 ∅ zero_world "USD");
    [reflexivity|done|done|done|]. vm_compute. reflexivity.
Defined.

End ValueFacts.

Module PairFacts.
Import MFacts StayFacts JunctionFacts NonNullFacts PoolFacts Inputs.

Lemma fill_column_keeps fake table_lc fk_map ref_ids enums idx row c w row' w' k x :
  fill_column fake table_lc fk_map ref_ids enums idx row c w = Ok (row', w') →
  row !! k = Some x → row' !! k = Some x.
Proof.
  unfold fill_column. intros H Hk. case_bool_decide as Hin.
  { apply ret_Ok in H. by inversion H; subst. }
  assert (k ≠ ColumnInfo.column c) as Hne by (intros ->; apply Hin; by eexists).
  destruct (fk_map !! _) as [[parent ?]|].
  - apply bind_Ok in H as (v & w1 & _ & H). apply ret_Ok in H. inversion H; subst.
    by rewrite lookup_insert_ne.
  - apply bind_Ok in H as (v & w1 & _ & H). apply bind_Ok in H as (v1 & w2 & _ & H).
    apply ret_Ok in H. inversion H; subst. by rewrite lookup_insert_ne.
Qed.

(** The column loop of a junction assembler never overwrites a key. *)
Lemma fill_row_keeps fake table_lc fk_map ref_ids enums cols idx : ∀ row w row' w' k x,
  fill_row fake table_lc fk_map ref_ids enums cols idx row w = Ok (row', w') →
  row !! k = Some x → row' !! k = Some x.
Proof.
  unfold fill_row. induction cols as [|c cols IH]; intros row w row' w' k x H Hk; simpl in H.
  - apply ret_Ok in H. by inversion H; subst.
  - apply bind_Ok in H as (row1 & w1 & H1 & H). eapply IH; [exact H|].
    by eapply fill_column_keeps.
Qed.

Section Pairs.
Context (fake : Faker) (today : Z).
Context (table : string) (cols : list ColumnInfo.t).
Context (fk_map : gmap (string * string) (string * string)).
Context (ref_ids : gmap string (list value)) (n_rows : Z).
Context (enums : gmap string (list string)).
Context (first_col second_col : string).
Context (PA PB : value → Prop).
Hypothesis Hcols : first_col ≠ second_col.

(** The row holds the pair in its two key columns. *)
Definition pair_row (p : value * value) (row : gmap string value) : Prop :=
  row !! first_col = Some p.1 ∧ row !! second_col = Some p.2.

(** The pairs seen so far are distinct, come from the two pools, and the
    k-th row was built for the k-th pair; no more than [n_rows] rows. *)
Definition pairs_ok (st : junction) : Prop :=
  NoDup st.1 ∧ Forall2 pair_row st.1 st.2 ∧
  Forall (λ p, PA p.1 ∧ PB p.2) st.1 ∧ (len st.2 ≤ 0 `max` n_rows)%Z.

Lemma pairs_ok_nil : pairs_ok ([], []).
Proof. split_and!; simpl; [constructor|constructor|constructor|unfold len; simpl; lia]. Qed.

Lemma pairs_ok_snoc a b row st :
  pairs_ok st → PA a → PB b → pair_in (a, b) st.1 = false →
  (len st.2 < n_rows)%Z →
  row !! first_col = Some a → row !! second_col = Some b →
  pairs_ok (st.1 ++ [(a, b)], st.2 ++ [row]).
Proof.
  intros (Hnd & Hrows & Hin & Hlen) Ha Hb Hnew Hlt Hra Hrb. split_and!; simpl.
  - apply NoDup_app. split_and!; [done| |apply NoDup_singleton].
    intros p Hp ->%list_elem_of_singleton. apply pair_in_elem in Hp. congruence.
  - apply Forall2_app; [done|]. by constructor.
  - apply Forall_app. split; [done|]. by constructor.
  - unfold len in *. rewrite length_app. simpl. lia.
Qed.

Lemma add_pair_ok a b st w st' w' :
  add_pair fake table cols fk_map ref_ids enums first_col second_col a b st w
    = Ok (st', w') →
  pairs_ok st → PA a → PB b → pair_in (a, b) st.1 = false → (len st.2 < n_rows)%Z →
  pairs_ok st' ∧ len st'.2 = (len st.2 + 1)%Z.
Proof.
  unfold add_pair. intros H Hst Ha Hb Hnew Hlt.
  apply bind_Ok in H as (row & w1 & Hrow & H). apply ret_Ok in H. inversion H; subst.
  split.
  - apply pairs_ok_snoc; try done.
    + eapply fill_row_keeps; [exact Hrow|].
      by rewrite lookup_insert_ne, lookup_singleton_eq.
    + eapply fill_row_keeps; [exact Hrow|]. by rewrite lookup_insert_eq.
  - simpl. unfold len. rewrite length_app. simpl. lia.
Qed.

Section Inner.
Context (second_ids : list value).
Hypothesis Hsecond : Forall PB second_ids.

Lemma pairs_inner_ok k : ∀ a st w st' w',
  pairs_inner fake table cols fk_map ref_ids n_rows enums first_col second_col
    second_ids k a st w = Ok (st', w') →
  PA a → pairs_ok st → (len st.2 < n_rows)%Z → pairs_ok st'.
Proof.
  induction k as [|k IH]; intros a st w st' w' H Ha Hst Hlt; simpl in H.
  - apply ret_Ok in H. by inversion H; subst.
  - apply bind_Ok in H as (b & w1 & Hb & H).
    destruct (pair_in (a, b) st.1) eqn:Hnew; [by eapply IH|].
    apply bind_Ok in H as (st1 & w2 & H1 & H).
    apply add_pair_ok in H1 as [Hst1 Hlen1]; [|done|done|by eapply choice_Forall|done|done].
    destruct (n_rows <=? len st1.2)%Z eqn:Hfull.
    + apply ret_Ok in H. by inversion H; subst.
    + eapply IH; [exact H|done|done|]. by apply Z.leb_gt.
Qed.

Lemma booking_room_loop_ok fuel : ∀ ids i st w st' w',
  booking_room_loop fake table cols fk_map ref_ids n_rows enums first_col second_col
    second_ids fuel ids i st w = Ok (st', w') →
  Forall PA ids → pairs_ok st → pairs_ok st' ∧ (n_rows ≤ len st'.2)%Z.
Proof.
  induction fuel as [|fuel IH]; intros ids i st w st' w' H Hids Hst; simpl in H.
  - destruct (len st.2 <? n_rows)%Z eqn:Hlt; [done|]. apply ret_Ok in H.
    inversion H; subst. split; [done|]. by apply Z.ltb_ge.
  - destruct (len st.2 <? n_rows)%Z eqn:Hlt.
    2:{ apply ret_Ok in H. inversion H; subst. split; [done|]. by apply Z.ltb_ge. }
    destruct (ids !! _) as [b|] eqn:Eb; [|done].
    apply bind_Ok in H as (z & w1 & _ & H).
    apply bind_Ok in H as (st1 & w2 & H1 & H).
    eapply IH; [exact H|done|]. eapply pairs_inner_ok; [exact H1| |done|by apply Z.ltb_lt].
    by eapply (proj1 (Forall_lookup _ _) Hids).
Qed.

Lemma product_inner_ok ids : ∀ a st w st' w',
  product_inner fake table cols fk_map ref_ids n_rows enums first_col second_col
    ids a st w = Ok (st', w') →
  Forall PB ids → PA a → pairs_ok st → pairs_ok st'.
Proof.
  induction ids as [|b ids IH]; intros a st w st' w' H Hids Ha Hst; simpl in H.
  - apply ret_Ok in H. by inversion H; subst.
  - apply Forall_cons in Hids as [Hb Hids].
    destruct (n_rows <=? len st.2)%Z eqn:Hfull;
      [by apply ret_Ok in H; inversion H; subst|].
    destruct (pair_in (a, b) st.1) eqn:Hnew; [by eapply IH|].
    apply bind_Ok in H as (st1 & w1 & H1 & H).
    apply add_pair_ok in H1 as [Hst1 _]; [|done|done|done|done|by apply Z.leb_gt].
    by eapply IH.
Qed.

Lemma product_fill_ok ids : ∀ st w st' w',
  product_fill fake table cols fk_map ref_ids n_rows enums first_col second_col
    second_ids ids st w = Ok (st', w') →
  Forall PA ids → pairs_ok st → pairs_ok st'.
Proof.
  induction ids as [|a ids IH]; intros st w st' w' H Hids Hst; simpl in H.
  - apply ret_Ok in H. by inversion H; subst.
  - apply Forall_cons in Hids as [Ha Hids].
    apply bind_Ok in H as (st1 & w1 & H1 & H).
    apply product_inner_ok in H1; [|done..].
    destruct (n_rows <=? _)%Z; [by apply ret_Ok in H; inversion H; subst|].
    by eapply IH.
Qed.

Lemma booking_discount_loop_ok fuel : ∀ ids i st w st' w',
  booking_discount_loop fake table cols fk_map ref_ids n_rows enums first_col second_col
    second_ids fuel ids i st w = Ok (st', w') →
  Forall PA ids → pairs_ok st → pairs_ok st' ∧ (n_rows ≤ len st'.2)%Z.
Proof.
  induction fuel as [|fuel IH]; intros ids i st w st' w' H Hids Hst; simpl in H.
  - destruct (len st.2 <? n_rows)%Z eqn:Hlt; [done|]. apply ret_Ok in H.
    inversion H; subst. split; [done|]. by apply Z.ltb_ge.
  - destruct (len st.2 <? n_rows)%Z eqn:Hlt.
    2:{ apply ret_Ok in H. inversion H; subst. split; [done|]. by apply Z.ltb_ge. }
    destruct (ids !! _) as [b|] eqn:Eb; [|done].
    apply bind_Ok in H as (z & w1 & _ & H).
    destruct (z =? 0)%Z; [by eapply IH|].
    apply bind_Ok in H as (st1 & w2 & H1 & H).
    apply bind_Ok in H as (st2 & w3 & H2 & H).
    eapply IH; [exact H|done|].
    apply pairs_inner_ok in H1;
      [|by eapply (proj1 (Forall_lookup _ _) Hids)|done|by apply Z.ltb_lt].
    destruct (_ && _).
    + by eapply product_fill_ok.
    + apply ret_Ok in H2. by inversion H2; subst.
Qed.

Lemma review_inner_ok cids : ∀ rid st w st' w',
  review_inner fake table cols fk_map ref_ids n_rows enums first_col second_col
    cids rid st w = Ok (st', w') →
  Forall PB cids → PA rid → pairs_ok st → pairs_ok st'.
Proof.
  induction cids as [|b ids IH]; intros a st w st' w' H Hids Ha Hst; simpl in H.
  - apply ret_Ok in H. by inversion H; subst.
  - apply Forall_cons in Hids as [Hb Hids].
    destruct (n_rows <=? len st.2)%Z eqn:Hfull;
      [by apply ret_Ok in H; inversion H; subst|].
    destruct (pair_in (a, b) st.1) eqn:Hnew; [by eapply IH|].
    apply bind_Ok in H as (st1 & w1 & H1 & H).
    apply add_pair_ok in H1 as [Hst1 _]; [|done|done|done|done|by apply Z.leb_gt].
    by eapply IH.
Qed.

Lemma review_score_loop_ok fuel : ∀ ids i st w st' w',
  review_score_loop fake table cols fk_map ref_ids n_rows enums first_col second_col
    second_ids fuel ids i st w = Ok (st', w') →
  Forall PA ids → pairs_ok st → pairs_ok st'.
Proof.
  induction fuel as [|fuel IH]; intros ids i st w st' w' H Hids Hst; simpl in H.
  - destruct (len st.2 <? n_rows)%Z; [done|]. apply ret_Ok in H. by inversion H; subst.
  - destruct (len st.2 <? n_rows)%Z; [|by apply ret_Ok in H; inversion H; subst].
    destruct (ids !! _) as [rid|] eqn:Eb; [|done].
    apply bind_Ok in H as (z & w1 & _ & H).
    apply bind_Ok in H as (cids & w2 & Hs & H).
    apply bind_Ok in H as (st1 & w3 & H1 & H).
    apply review_inner_ok in H1;
      [|by eapply sample_Forall|by eapply (proj1 (Forall_lookup _ _) Hids)|done].
    destruct (_ && _).
    + by eapply product_fill_ok.
    + by eapply IH.
Qed.

End Inner.

(** What the written lines say about the pairs. *)
Lemma pairs_ok_lines (st : junction) (rows : list (gmap string value)) jf js cf cs :
  pairs_ok st → rows `prefix_of` st.2 →
  cols !! jf = Some cf → ColumnInfo.column cf = first_col →
  cols !! js = Some cs → ColumnInfo.column cs = second_col →
  ∃ pairs, NoDup pairs ∧ Forall (λ p, PA p.1 ∧ PB p.2) pairs ∧
           Forall2 (λ p line, line !! jf = Some p.1 ∧ line !! js = Some p.2)
                   pairs (writerow cols <$> rows).
Proof.
  intros (Hnd & Hrows & Hin & _) [rest Hpre] Hjf Hcf Hjs Hcs.
  exists (take (length rows) st.1). split_and!.
  - rewrite <-(take_drop (length rows) st.1) in Hnd. by apply NoDup_app in Hnd as [? _].
  - by apply Forall_take.
  - apply Forall2_fmap_r. rewrite Hpre in Hrows.
    apply Forall2_app_inv_r in Hrows as (p1 & p2 & Hr1 & Hr2 & Heq).
    rewrite Heq, (take_app_length' p1 p2 (length rows))
      by exact (eq_sym (Forall2_length _ _ _ Hr1)).
    eapply Forall2_impl; [exact Hr1|]. intros p row [Hf Hs]. unfold compose.
    rewrite (writerow_lookup cols row jf cf), (writerow_lookup cols row js cs) by done.
    by rewrite Hcf, Hcs, Hf, Hs.
Qed.

End Pairs.


Lemma rows_to_prefix {A} n (l : list A) : rows_to n l `prefix_of` l.
Proof. unfold rows_to. case_match; apply prefix_take. Qed.

Lemma rows_to_length {A} n (l : list A) :
  (n ≤ len l)%Z → (len l ≤ 0 `max` n)%Z → length (rows_to n l) = Z.to_nat n.
Proof.
  unfold rows_to, len. intros Hge Hle. case_match eqn:Hn.
  - apply Z.leb_le in Hn. rewrite length_take. lia.
  - apply Z.leb_gt in Hn. rewrite length_take. lia.
Qed.

Lemma shuffle_elem_Forall {A} (pool ids : list A) w w' :
  random.shuffle pool w = Ok (ids, w') → Forall (λ x, x ∈ pool) ids.
Proof.
  intros H. eapply shuffle_Forall; [exact H|]. by apply Forall_forall.
Qed.

Lemma col_lc_distinct cols k1 k2 c1 c2 :
  k1 ≠ k2 → col_lc_of cols !! k1 = Some c1 → col_lc_of cols !! k2 = Some c2 → c1 ≠ c2.
Proof. intros Hne H1%col_lc_of_lookup H2%col_lc_of_lookup ->. congruence. Qed.

(** When [generate_booking_room_csv] returns, it has written exactly
    [n_rows] lines (none for a negative count); their (booking_id,
    room_id) cells are pairwise distinct pairs of a loaded booking key and
    a loaded room key. *)
Theorem booking_room_pairs (fake : Faker) (fuel : nat) (table : string)
    (cols : list ColumnInfo.t) (fk_map : gmap (string * string) (string * string))
    (ref_ids : gmap string (list value)) (n_rows : Z) (enums : gmap string (list string))
    (w : world) (rows : list (list value)) (w' : world)
    (jb jr : nat) (cb cr : ColumnInfo.t) :
  generate_booking_room_csv fake fuel table cols fk_map ref_ids n_rows enums w
    = Ok (rows, w') →
  cols !! jb = Some cb → col_lc_of cols !! "booking_id" = Some (ColumnInfo.column cb) →
  cols !! jr = Some cr → col_lc_of cols !! "room_id" = Some (ColumnInfo.column cr) →
  length rows = Z.to_nat n_rows ∧
  key_pairs (default [] (ref_ids !! "booking")) (default [] (ref_ids !! "room")) jb jr rows.
Proof.
  unfold generate_booking_room_csv. intros H Hjb Hb Hjr Hr. rewrite Hb, Hr in H.
  assert (ColumnInfo.column cb ≠ ColumnInfo.column cr) as Hne
    by (by apply (col_lc_distinct cols "booking_id" "room_id")).
  destruct (_ || _); [done|]. destruct (_ || _); [done|].
  apply bind_Ok in H as (ids & w1 & Hsh & H).
  apply bind_Ok in H as (st & w2 & Hl & H).
  apply ret_Ok in H. inversion H; subst; clear H.
  eapply (booking_room_loop_ok _ _ _ _ _ _ _ _ _
            (λ v, v ∈ default [] (ref_ids !! "booking"))
            (λ v, v ∈ default [] (ref_ids !! "room"))) in Hl as [Hst Hlen];
    [|done|by apply Forall_forall|by eapply shuffle_elem_Forall|apply pairs_ok_nil].
  split.
  - rewrite length_fmap. apply rows_to_length; [done|]. by destruct Hst as (_ & _ & _ & ?).
  - exact (pairs_ok_lines cols n_rows _ _ _ _ st _ _ _ _ _ Hst (rows_to_prefix _ _)
             Hjb eq_refl Hjr eq_refl).
Qed.

Lemma booking_room_pairs_witness :
  length [[VInt 3; VInt 1]; [VInt 3; VInt 2]; [VInt 3; VInt 3]; [VInt 2; VInt 2]]
    = Z.to_nat 4 ∧
  key_pairs (default [] (three_by_three !! "booking")) (default [] (three_by_three !! "room"))
    0 1 [[VInt 3; VInt 1]; [VInt 3; VInt 2]; [VInt 3; VInt 3]; [VInt 2; VInt 2]].
Proof.
  eapply (booking_room_pairs stub_fake 100 "booking_room"
            (pair_cols "booking_room" "booking_id" "room_id") ∅ three_by_three 4 ∅
            count_world);
    [vm_compute; reflexivity|reflexivity|by vm_compute|reflexivity|by vm_compute].
Defined.

(** The same for [generate_booking_discount_csv] and the (booking_id,
    promotion_id) cells. *)
Theorem booking_discount_pairs (fake : Faker) (fuel : nat) (table : string)
    (cols : list ColumnInfo.t) (fk_map : gmap (string * string) (string * string))
    (ref_ids : gmap string (list value)) (n_rows : Z) (enums : gmap string (list string))
    (w : world) (rows : list (list value)) (w' : world)
    (jb jp : nat) (cb cp : ColumnInfo.t) :
  generate_booking_discount_csv fake fuel table cols fk_map ref_ids n_rows enums w
    = Ok (rows, w') →
  cols !! jb = Some cb → col_lc_of cols !! "booking_id" = Some (ColumnInfo.column cb) →
  cols !! jp = Some cp →
  str_or (col_lc_of cols !! "promotion_id") (col_lc_of cols !! "promo_id")
    = Some (ColumnInfo.column cp) →
  length rows = Z.to_nat n_rows ∧
  key_pairs (default [] (ref_ids !! "booking")) (default [] (ref_ids !! "promotion"))
    jb jp rows.
Proof.
  unfold generate_booking_discount_csv. intros H Hjb Hb Hjp Hp. rewrite Hb, Hp in H.
  assert (ColumnInfo.column cb ≠ ColumnInfo.column cp) as Hne.
  { unfold str_or in Hp.
    destruct (truthy (col_lc_of cols !! "promotion_id"));
      [by apply (col_lc_distinct cols "booking_id" "promotion_id")
      |by apply (col_lc_distinct cols "booking_id" "promo_id")]. }
  destruct (_ || _); [done|]. destruct (_ || _); [done|].
  apply bind_Ok in H as (ids & w1 & Hsh & H).
  destruct (_ <? _)%Z; [done|].
  apply bind_Ok in H as (st & w2 & Hl & H).
  apply ret_Ok in H. inversion H; subst; clear H.
  eapply (booking_discount_loop_ok _ _ _ _ _ _ _ _ _
            (λ v, v ∈ default [] (ref_ids !! "booking"))
            (λ v, v ∈ default [] (ref_ids !! "promotion"))) in Hl as [Hst Hlen];
    [|done|by apply Forall_forall|by eapply shuffle_elem_Forall|apply pairs_ok_nil].
  split.
  - rewrite length_fmap. apply rows_to_length; [done|]. by destruct Hst as (_ & _ & _ & ?).
  - exact (pairs_ok_lines cols n_rows _ _ _ _ st _ _ _ _ _ Hst (rows_to_prefix _ _)
             Hjb eq_refl Hjp eq_refl).
Qed.

Lemma booking_discount_pairs_witness :
  length [[VInt 3; VInt 8]; [VInt 3; VInt 7]; [VInt 2; VInt 7]; [VInt 2; VInt 8]]
    = Z.to_nat 4 ∧
  key_pairs (default [] (promo_pool !! "booking")) (default [] (promo_pool !! "promotion"))
    0 1 [[VInt 3; VInt 8]; [VInt 3; VInt 7]; [VInt 2; VInt 7]; [VInt 2; VInt 8]].
Proof.
  eapply (booking_discount_pairs stub_fake 100 "booking_discount"
            (pair_cols "booking_discount" "booking_id" "promotion_id") ∅ promo_pool 4 ∅
            count_world);
    [vm_compute; reflexivity|reflexivity|by vm_compute|reflexivity|by vm_compute].
Defined.

(** [generate_review_score_csv] writes at most [n_rows] lines, with
    pairwise distinct (review_id, review_category_id) cells taken from
    the loaded review and category keys. *)
Theorem review_score_pairs (fake : Faker) (fuel : nat) (table : string)
    (cols : list ColumnInfo.t) (fk_map : gmap (string * string) (string * string))
    (ref_ids : gmap string (list value)) (n_rows : Z) (enums : gmap string (list string))
    (w : world) (rows : list (list value)) (w' : world)
    (jr jc : nat) (cr cc : ColumnInfo.t) :
  generate_review_score_csv fake fuel table cols fk_map ref_ids n_rows enums w
    = Ok (rows, w') →
  cols !! jr = Some cr → col_lc_of cols !! "review_id" = Some (ColumnInfo.column cr) →
  cols !! jc = Some cc →
  str_or (col_lc_of cols !! "review_category_id") (col_lc_of cols !! "category_id")
    = Some (ColumnInfo.column cc) →
  length rows ≤ Z.to_nat n_rows ∧
  key_pairs (default [] (ref_ids !! "review")) (default [] (ref_ids !! "review_category"))
    jr jc rows.
Proof.
  unfold generate_review_score_csv. intros H Hjr Hr Hjc Hc. rewrite Hr, Hc in H.
  assert (ColumnInfo.column cr ≠ ColumnInfo.column cc) as Hne.
  { unfold str_or in Hc.
    destruct (truthy (col_lc_of cols !! "review_category_id"));
      [by apply (col_lc_distinct cols "review_id" "review_category_id")
      |by apply (col_lc_distinct cols "review_id" "category_id")]. }
  destruct (_ || _); [done|]. destruct (_ || _); [done|].
  destruct (_ <? _)%Z; [done|].
  apply bind_Ok in H as (ids & w1 & Hsh & H).
  apply bind_Ok in H as (st & w2 & Hl & H).
  apply ret_Ok in H. inversion H; subst; clear H.
  eapply (review_score_loop_ok _ _ _ _ _ _ _ _ _
            (λ v, v ∈ default [] (ref_ids !! "review"))
            (λ v, v ∈ default [] (ref_ids !! "review_category"))) in Hl as Hst;
    [|done|by apply Forall_forall|by eapply shuffle_elem_Forall|apply pairs_ok_nil].
  split.
  - rewrite length_fmap. destruct Hst as (_ & _ & _ & Hlen). unfold len in Hlen. lia.
  - exact (pairs_ok_lines cols n_rows _ _ _ _ st _ _ _ _ _ Hst (reflexivity _)
             Hjr eq_refl Hjc eq_refl).
Qed.

Lemma review_score_pairs_witness :
  length [[VInt 3; VInt 8]; [VInt 2; VInt 8]; [VInt 1; VInt 8]; [VInt 3; VInt 7]]
    ≤ Z.to_nat 4 ∧
  key_pairs (default [] (review_pool !! "review"))
    (default [] (review_pool !! "review_category"))
    0 1 [[VInt 3; VInt 8]; [VInt 2; VInt 8]; [VInt 1; VInt 8]; [VInt 3; VInt 7]].
Proof.
  eapply (review_score_pairs stub_fake 100 "review_score"
            (pair_cols "review_score" "review_id" "review_category_id") ∅ review_pool 4 ∅
            count_world);
    [vm_compute; reflexivity|reflexivity|by vm_compute|reflexivity|by vm_compute].
Defined.

End PairFacts.

Module WrittenFacts.
Import MFacts StayFacts JunctionFacts NonNullFacts Inputs.

(** A value that is not the empty string. *)
Definition nb (v : value) : Prop := v ≠ VStr "".

(** [m] keeps the registries free of empty text and returns a result
    that satisfies [Q]. *)
Definition triple {A} (m : M A) (Q : A → Prop) : Prop :=
  ∀ w a w', world_ok w → m w = Ok (a, w') → world_ok w' ∧ Q a.

Lemma triple_ret {A} (a : A) (Q : A → Prop) : Q a → triple (mret a) Q.
Proof. intros Ha w a' w' Hw H. apply ret_Ok in H. by inversion H; subst. Qed.

Lemma triple_bind {A B} (m : M A) (f : A → M B) (P : A → Prop) (Q : B → Prop) :
  triple m P → (∀ a, P a → triple (f a) Q) → triple (m ≫= f) Q.
Proof.
  intros Hm Hf w b w' Hw (a & w1 & H1 & H)%bind_Ok.
  destruct (Hm _ _ _ Hw H1) as [Hw1 Ha]. by eapply Hf.
Qed.

Lemma triple_fmap {A B} (g : A → B) (m : M A) (P : A → Prop) (Q : B → Prop) :
  triple m P → (∀ a, P a → Q (g a)) → triple (g <$> m) Q.
Proof.
  intros Hm Hg. unfold fmap, M_fmap. eapply triple_bind; [exact Hm|].
  intros a Ha. apply triple_ret. auto.
Qed.

Lemma triple_raise {A} e (Q : A → Prop) : triple (raise e) Q.
Proof. by intros w a w' _ H. Qed.

Lemma triple_out_of_fuel {A} (Q : A → Prop) : triple out_of_fuel Q.
Proof. by intros w a w' _ H. Qed.

Lemma triple_mono {A} (m : M A) (P Q : A → Prop) :
  triple m P → (∀ a, P a → Q a) → triple m Q.
Proof. intros Hm HPQ w a w' Hw H. destruct (Hm _ _ _ Hw H). auto. Qed.

Lemma triple_also {A} (m : M A) (P Q : A → Prop) :
  triple m P → (∀ w a w', m w = Ok (a, w') → Q a) → triple m (λ a, P a ∧ Q a).
Proof. intros Hm HQ w a w' Hw H. destruct (Hm _ _ _ Hw H). eauto. Qed.

Lemma triple_foldM {A B} (f : A → B → M A) (I : A → Prop) l :
  (∀ a b, b ∈ l → I a → triple (f a b) I) → ∀ a, I a → triple (foldM f a l) I.
Proof.
  induction l as [|b l IH]; intros Hf a Ha; simpl.
  - by apply triple_ret.
  - eapply triple_bind; [apply Hf; [left|done]|].
    intros a1 Ha1. apply IH; [|done]. intros a2 b2 Hb2. apply Hf. by right.
Qed.

(** Computations that only consume random outcomes. *)
Lemma triple_draw : triple draw (λ _, True).
Proof. intros w a w' Hw H. inversion H; subst. done. Qed.

Lemma triple_randbelow n : triple (randbelow n) (λ _, True).
Proof. unfold randbelow. eapply triple_bind; [apply triple_draw|]. intros. by apply triple_ret. Qed.

Lemma triple_choice {A} (l : list A) : triple (random.choice l) (λ a, a ∈ l).
Proof.
  apply (triple_mono _ (λ a, True ∧ a ∈ l)); [|tauto].
  apply triple_also; [|apply @choice_elem].
  unfold random.choice. eapply triple_bind; [apply triple_randbelow|].
  intros k _. destruct (l !! k); [by apply triple_ret|apply triple_raise].
Qed.

Lemma triple_randint a b : triple (random.randint a b) (λ _, True).
Proof.
  unfold random.randint. eapply triple_bind; [apply triple_randbelow|].
  intros. by apply triple_ret.
Qed.

Lemma triple_below p : triple (random.below p) (λ _, True).
Proof.
  unfold random.below. eapply triple_bind; [apply triple_randbelow|].
  intros. by apply triple_ret.
Qed.

Lemma triple_uniform_round a b scale : triple (random.uniform_round a b scale) nb.
Proof.
  unfold random.uniform_round. eapply triple_bind; [apply triple_randbelow|].
  intros. by apply triple_ret.
Qed.

Lemma triple_shuffle {A} (l : list A) (P : A → Prop) :
  Forall P l → triple (random.shuffle l) (Forall P).
Proof.
  intros HP. apply (triple_mono _ (λ a, True ∧ Forall P a)); [|tauto].
  apply triple_also; [|intros w a w' H; by eapply shuffle_Forall].
  unfold random.shuffle. generalize (length l - 1). intros i. revert l HP.
  induction i as [|i IH]; intros l HP; simpl; [by apply triple_ret|].
  eapply triple_bind; [apply triple_randbelow|]. intros j _.
  apply IH. by apply swap_Forall.
Qed.

Lemma triple_sample_from {A} k : ∀ (l : list A) n,
  triple (random.sample_from k l n) (λ _, True).
Proof.
  induction k as [|k IH]; intros l n; simpl; [by apply triple_ret|].
  eapply triple_bind; [apply triple_randbelow|]. intros j _.
  destruct (l !! j); [|apply triple_raise]. destruct (l !! (n - 1)); [|apply triple_raise].
  eapply triple_bind; [apply IH|]. intros. by apply triple_ret.
Qed.

Lemma triple_sample {A} (l : list A) k (P : A → Prop) :
  Forall P l → triple (random.sample l k) (Forall P).
Proof.
  intros HP. apply (triple_mono _ (λ a, True ∧ Forall P a)); [|tauto].
  apply triple_also; [|intros w a w' H; by eapply sample_Forall].
  unfold random.sample. destruct (_ <? _); [apply triple_raise|apply triple_sample_from].
Qed.

Lemma triple_faker {A} fake (p : Faker → nat → A) :
  triple (faker fake p) (λ a, ∃ k, a = p fake k).
Proof.
  unfold faker. eapply triple_bind; [apply triple_draw|].
  intros k _. apply triple_ret. by exists k.
Qed.

Lemma triple_uuid_hex6 : triple uuid_hex6 (λ _, True).
Proof. unfold uuid_hex6. eapply triple_bind; [apply triple_draw|]. intros. by apply triple_ret. Qed.

(** Text that is not empty. *)
Lemma append_nonempty_l (a b : string) : a ≠ "" → a +:+ b ≠ "".
Proof. by destruct a. Qed.

Lemma append_nonempty_r (a b : string) : b ≠ "" → a +:+ b ≠ "".
Proof. destruct a; [done|]. by intros _. Qed.

Lemma slice_to_nonempty n s : (0 < n)%Z → s ≠ "" → slice_to n s ≠ "".
Proof.
  intros Hn Hs. unfold slice_to. rewrite (proj2 (Z.leb_le 0 n)) by lia.
  destruct s as [|c s]; [done|].
  destruct (Z.to_nat n) as [|k] eqn:E; [lia|]. done.
Qed.

Lemma triple_uuid4 : triple uuid4 (λ s, s ≠ "").
Proof.
  unfold uuid4. eapply triple_bind; [apply triple_draw|].
  intros k _. apply triple_ret. by apply append_nonempty_l.
Qed.

Lemma or_default_pos o d : (0 < d)%Z → (∀ n, o = Some n → (0 ≤ n)%Z) → (0 < or_default o d)%Z.
Proof.
  intros Hd Ho. unfold or_default. destruct o as [n|]; [|done].
  destruct (n =? 0)%Z eqn:E; [done|]. specialize (Ho n eq_refl). lia.
Qed.

(** The registries. *)
Lemma triple_seen_of key : triple (seen_of key) (λ _, True).
Proof. intros w a w' Hw H. inversion H; subst. done. Qed.

Lemma triple_seen_put key seen : triple (seen_put key seen) (λ _, True).
Proof. intros w a w' Hw H. inversion H; subst. done. Qed.

Lemma triple_pool_state key :
  triple (pool_state key) (λ st, ∀ pool, st = Some pool → "" ∉ pool).
Proof.
  intros w a w' [Hl Hp] H. inversion H; subst. split; [done|].
  intros pool Hpool. by eapply Hp.
Qed.

Lemma triple_pool_put key pool : "" ∉ pool → triple (pool_put key pool) (λ _, True).
Proof.
  intros Hpool w a w' [Hl Hp] H. inversion H; subst. split; [|done]. split; [done|].
  simpl. intros k p. rewrite lookup_insert. case_decide; [by intros [= <-]|apply Hp].
Qed.

Lemma triple_location_of key :
  triple (location_of key) (λ o, ∀ loc, o = Some loc → location_ok loc).
Proof.
  intros w a w' [Hl Hp] H. inversion H; subst. split; [done|].
  intros loc Hloc. by eapply Hl.
Qed.

Lemma triple_location_put key loc :
  location_ok loc → triple (location_put key loc) (λ _, True).
Proof.
  intros Hloc w a w' [Hl Hp] H. inversion H; subst. split; [|done]. split; [|done].
  simpl. intros k p. rewrite lookup_insert. case_decide; [by intros [= <-]|apply Hl].
Qed.

Lemma LOCATION_POOL_nonempty :
  Forall (λ '(c, st, co, pfx, tz), c ≠ "" ∧ st ≠ "" ∧ co ≠ "" ∧ pfx ≠ "" ∧ tz ≠ "")
         LOCATION_POOL.
Proof. unfold LOCATION_POOL. repeat constructor; done. Qed.

Lemma triple_get_row_location fake table row_idx :
  triple (get_row_location fake table row_idx) location_ok.
Proof.
  unfold get_row_location.
  eapply triple_bind; [apply triple_location_of|]. intros [loc|] Hc.
  { apply triple_ret. by apply Hc. }
  eapply triple_bind; [apply triple_choice|]. intros [[[[c st] co] pfx] tz] Hin.
  pose proof (proj1 (Forall_forall _ _) LOCATION_POOL_nonempty _ Hin)
    as (Hc1 & Hst & Hco & Hpfx & Htz).
  eapply (triple_bind _ _ (λ code, code ≠ "")).
  { repeat case_match;
      (eapply triple_bind; [apply triple_randint|]; intros n _; apply triple_ret;
       by apply append_nonempty_l). }
  intros code Hcode.
  eapply triple_bind; [apply triple_randint|]. intros num _.
  eapply triple_bind; [apply triple_faker|]. intros street _.
  eapply triple_bind; [apply triple_randint|]. intros apt _.
  eapply triple_bind; [apply triple_randint|]. intros suite _.
  eapply triple_bind; [apply triple_choice|]. intros s2 _.
  assert (location_ok (Location c st co pfx tz code (pretty num +:+ " " +:+ street) s2))
    as Hok.
  { split_and!; simpl; try done. by apply append_nonempty_r, append_nonempty_l. }
  eapply triple_bind; [by apply triple_location_put|]. intros _ _. by apply triple_ret.
Qed.

Lemma triple_unique_text_loop key (make_value : M string) n :
  triple make_value (λ _, True) →
  triple (unique_text_loop key make_value n) (λ r, ∀ s, r = Some s → s ≠ "").
Proof.
  intros Hmk. induction n as [|n IH]; simpl; [by apply triple_ret|].
  eapply triple_bind; [exact Hmk|]. intros s _.
  eapply triple_bind; [apply triple_seen_of|]. intros seen _.
  destruct (negb (bool_decide (strip s = ""))) eqn:E; simpl; [|exact IH].
  destruct (negb (bool_decide (strip s ∈ seen))); [|exact IH].
  eapply triple_bind; [apply triple_seen_put|]. intros _ _. apply triple_ret.
  intros s' [= <-]. apply negb_true_iff, bool_decide_eq_false in E. done.
Qed.

Lemma triple_unique_text key (make_value : M string) :
  triple make_value (λ _, True) →
  triple (unique_text key make_value) (λ r, ∀ s, r = Some s → s ≠ "").
Proof.
  intros Hmk. unfold unique_text, unique_text_tries.
  eapply triple_bind; [apply triple_seen_of|]. intros seen _.
  eapply triple_bind; [apply triple_seen_put|]. intros _ _.
  by apply triple_unique_text_loop.
Qed.

Lemma triple_sliced maxlen m :
  (0 < maxlen)%Z →
  triple m (λ r : option string, ∀ s, r = Some s → s ≠ "") →
  triple (sliced maxlen m) nb.
Proof.
  intros Hlen Hm. unfold sliced. eapply triple_bind; [exact Hm|].
  intros [s|] Hs; [|apply triple_raise]. apply triple_ret.
  intros [= Heq]. by eapply slice_to_nonempty in Heq; [|done|apply Hs].
Qed.

Lemma not_in_removelast {A} (x : A) l : x ∉ l → x ∉ removelast l.
Proof.
  intros Hx Hin. apply Hx. clear Hx. induction l as [|a l IH]; [done|].
  simpl in Hin. destruct l as [|b l]; [by apply elem_of_nil in Hin|].
  apply elem_of_cons in Hin as [->|Hin]; [left|right; by apply IH].
Qed.

Lemma triple_unique_choice_from_pool key base maxlen :
  "" ∉ base → (0 < maxlen)%Z →
  triple (unique_choice_from_pool key base (Some maxlen)) (λ s, s ≠ "").
Proof.
  intros Hbase Hlen. unfold unique_choice_from_pool.
  eapply triple_bind; [apply triple_pool_state|]. intros st Hst.
  eapply (triple_bind _ _ (λ pool, "" ∉ pool)).
  { destruct st as [pool|]; [apply triple_ret; by apply Hst|].
    eapply triple_bind; [apply (triple_shuffle _ (λ s, s ≠ ""))|].
    { apply Forall_forall. intros s Hs ->. done. }
    intros pool Hpool.
    assert ("" ∉ pool) as Hn
      by (intros Hin; by apply (proj1 (Forall_forall _ _) Hpool) in Hin).
    eapply triple_bind; [by apply triple_pool_put|]. intros _ _. by apply triple_ret. }
  intros pool Hpool.
  eapply (triple_bind _ _ (λ s, s ≠ "")).
  { destruct (last pool) as [v|] eqn:El.
    - eapply triple_bind; [apply triple_pool_put; by apply not_in_removelast|].
      intros _ _. apply triple_ret. intros ->. apply Hpool. by apply last_Some_elem_of.
    - eapply triple_bind; [apply triple_choice|]. intros b Hb.
      eapply triple_bind; [apply triple_uuid_hex6|]. intros h _.
      apply triple_ret. by apply append_nonempty_r. }
  intros v Hv. apply triple_ret. simpl. by apply slice_to_nonempty.
Qed.


Lemma nb_VStr s : s ≠ "" → nb (VStr s).
Proof. intros Hs [= Heq]. done. Qed.

Lemma nb_slice maxlen s : (0 < maxlen)%Z → s ≠ "" → nb (VStr (slice_to maxlen s)).
Proof. intros Hn Hs [= Heq]. by eapply slice_to_nonempty in Heq. Qed.

(** Membership in a list literal. *)
Ltac mem := repeat first [apply list_elem_of_here | apply list_elem_of_further].

Lemma street2_only name :
  one_of name ["city"; "state"; "country"; "postal_code"; "zipcode"; "zip"]
  || contains "timezone" name
  || one_of name ["address_line1"; "address_line2"; "street"; "street1"; "street2"] = true →
  contains "timezone" name = false →
  one_of name ["city"] = false → one_of name ["state"] = false →
  one_of name ["country"] = false →
  one_of name ["postal_code"; "zipcode"; "zip"] = false →
  one_of name ["address_line1"; "street"; "street1"] = false →
  one_of name ["address_line2"; "street2"] = true.
Proof.
  unfold one_of. intros H Htz H1 H2 H3 H4 H5. rewrite Htz in H.
  apply bool_decide_eq_false in H1, H2, H3, H4, H5.
  rewrite orb_false_r in H. apply orb_true_iff in H as [H|H];
    apply bool_decide_eq_true in H; apply bool_decide_eq_true;
    repeat (apply elem_of_cons in H as [->|H]); try (by apply elem_of_nil in H);
    first [ solve [mem]
          | exfalso; apply H1; solve [mem]
          | exfalso; apply H2; solve [mem]
          | exfalso; apply H3; solve [mem]
          | exfalso; apply H4; solve [mem]
          | exfalso; apply H5; solve [mem] ].
Qed.

(** Case analysis on the condition the computation tests next. *)
Ltac tif :=
  lazymatch goal with
  | |- triple (if ?b then _ else _) _ => destruct b eqn:?
  end.

Tactic Notation "bind_with" open_constr(lem) := eapply triple_bind; [apply lem|].

Lemma ROOM_TYPE_NAMES_nonempty : "" ∉ ROOM_TYPE_NAMES.
Proof.
  unfold ROOM_TYPE_NAMES. intros H.
  repeat (apply elem_of_cons in H as [H|H]; [done|]). by apply elem_of_nil in H.
Qed.

Section Values.
Context (fake : Faker) (today : Z) (str_of : value → string).
Context (enums : gmap string (list string)).
Hypothesis Hfaker : faker_ok fake.
Hypothesis Henums : enums_ok enums.

(** The declared length of [c] is not negative. *)
Definition length_ok (c : ColumnInfo.t) : Prop :=
  ∀ n, ColumnInfo.char_max_len c = Some n → (0 ≤ n)%Z.


Lemma triple_generate_text col row_idx name :
  length_ok col →
  triple (generate_text fake col row_idx name)
         (λ v, one_of name ["address_line2"; "street2"] = false → nb v).
Proof.
  intros Hlen. unfold generate_text.
  pose proof (or_default_pos _ 255 ltac:(lia) Hlen) as Hpos.
  set (maxlen := or_default (ColumnInfo.char_max_len col) 255) in *.
  destruct (_ || _ || _) eqn:E1.
  { bind_with triple_get_row_location.
    intros loc (Hc & Hst & Hco & Htz & Hpc & Hs1).
    destruct (contains "timezone" name) eqn:E2;
      [apply triple_ret; intros _; by apply nb_slice|].
    destruct (one_of name ["city"]) eqn:E3;
      [apply triple_ret; intros _; by apply nb_slice|].
    destruct (one_of name ["state"]) eqn:E4;
      [apply triple_ret; intros _; by apply nb_slice|].
    destruct (one_of name ["country"]) eqn:E5;
      [apply triple_ret; intros _; by apply nb_slice|].
    destruct (one_of name ["postal_code"; "zipcode"; "zip"]) eqn:E6;
      [apply triple_ret; intros _; by apply nb_slice|].
    destruct (one_of name ["address_line1"; "street"; "street1"]) eqn:E7;
      [apply triple_ret; intros _; by apply nb_slice|].
    apply triple_ret. intros Hno.
    pose proof (street2_only name) as Hs2. rewrite E2 in Hs2.
    by rewrite (Hs2 E1 eq_refl E3 E4 E5 E6 E7) in Hno. }
  tif.
  { bind_with triple_choice. intros brand _.
    bind_with triple_get_row_location. intros loc _.
    bind_with triple_choice. intros suffix _.
    apply triple_ret. intros _. apply nb_slice; [done|].
    by apply append_nonempty_r, append_nonempty_l. }
  tif.
  { eapply triple_bind;
      [apply triple_unique_choice_from_pool; [apply ROOM_TYPE_NAMES_nonempty|done]|].
    intros v Hv. apply triple_ret. intros _ [= ->]. done. }
  tif.
  { bind_with triple_faker. intros p [k ->]. apply triple_ret. intros _.
    apply nb_slice; [done|]. apply Hfaker. }
  tif.
  { bind_with triple_choice. intros c Hc. apply triple_ret. intros _.
    apply nb_slice; [done|]. intros ->.
    repeat (apply elem_of_cons in Hc as [Hc|Hc]; [done|]). by apply elem_of_nil in Hc. }
  tif.
  { bind_with triple_get_row_location. intros loc (Hc & Hst & _).
    apply triple_ret. intros _. by apply nb_slice. }
  tif.
  { apply triple_ret; intros _; by apply nb_slice. }
  tif.
  { eapply triple_mono; [|by intros v Hv _].
    apply triple_sliced; [done|]. apply triple_unique_text.
    eapply triple_mono; [apply triple_faker|done]. }
  tif.
  { eapply triple_mono; [|by intros v Hv _].
    apply triple_sliced; [done|]. apply triple_unique_text.
    bind_with triple_faker. intros wd _. bind_with triple_uuid_hex6. intros h _.
    by apply triple_ret. }
  try (tif; [apply triple_ret; intros _; by apply nb_slice|]).
  tif.
  { bind_with triple_faker. intros p [k ->]. apply triple_ret. intros _.
    apply nb_slice; [done|]. apply Hfaker. }
  tif.
  - bind_with triple_faker. intros p [k ->]. apply triple_ret. intros _.
    apply nb_slice; [done|]. apply Hfaker.
  - bind_with triple_faker. intros p [k ->]. apply triple_ret. intros _.
    apply nb_slice; [done|]. apply Hfaker.
Qed.

Lemma triple_generate_int row_idx name : triple (generate_int row_idx name) nb.
Proof.
  unfold generate_int.
  repeat case_match; first [by apply triple_ret
    | eapply triple_fmap; [apply triple_randint|done] ].
Qed.

Lemma triple_generate_numeric col name : triple (generate_numeric col name) nb.
Proof. unfold generate_numeric. repeat case_match; apply triple_uniform_round. Qed.

Lemma triple_generate_value c i :
  length_ok c →
  triple (generate_value fake c i enums) (λ v, blank_source c = false → nb v).
Proof.
  intros Hlen. unfold generate_value.
  destruct (enums !! _) as [labels|] eqn:El.
  { eapply triple_bind.
    { instantiate (1 := λ _, True).
      destruct (ColumnInfo.is_nullable c); [apply triple_below|by apply triple_ret]. }
    intros [] _; [by apply triple_ret|].
    eapply triple_fmap; [apply triple_choice|]. intros s Hs _ [= ->].
    by apply (Henums _ _ El). }
  destruct (one_of _ ["created_at"; "updated_at"; "loaded_at"; "ingested_at"]).
  { bind_with triple_faker. intros base _. destruct (bool_decide _).
    - bind_with triple_randint. intros d _. by apply triple_ret.
    - by apply triple_ret. }
  destruct (bool_decide (_ = "date")).
  { eapply triple_fmap; [apply triple_faker|done]. }
  destruct (_ || _).
  { eapply triple_fmap; [apply triple_faker|done]. }
  destruct (_ || _).
  { eapply triple_mono; [apply triple_generate_int|done]. }
  destruct (_ || _).
  { eapply triple_fmap; [apply triple_uuid4|]. intros s Hs _ [= ->]. done. }
  destruct (bool_decide (_ = "boolean")).
  { eapply triple_fmap; [|done]. instantiate (1 := λ _, True).
    destruct (_ || _); apply triple_below. }
  destruct (_ || _).
  { eapply triple_mono; [apply triple_generate_numeric|done]. }
  destruct (one_of (lower (ColumnInfo.data_type c)) TEXT_TYPES) eqn:Et.
  - eapply triple_mono; [by apply triple_generate_text|].
    intros v Hv Hbs. apply Hv. unfold blank_source in Hbs. rewrite Et in Hbs.
    by rewrite andb_true_r in Hbs.
  - by apply triple_ret.
Qed.

Lemma triple_sentinel c v :
  triple (sentinel today c v) (λ v', nb v → nb v').
Proof.
  unfold sentinel. destruct (_ && _); [|by apply triple_ret].
  destruct (one_of _ TEXT_TYPES).
  { eapply triple_bind.
    { apply triple_unique_text. bind_with triple_uuid_hex6. intros h _. by apply triple_ret. }
    intros [s|] Hs; apply triple_ret; intros _; [|done].
    intros [= ->]. by apply (Hs "" eq_refl). }
  repeat case_match; by apply triple_ret.
Qed.

Lemma triple_getattr_missing c :
  triple (getattr c "character_maximum_length") (λ _, False).
Proof.
  unfold getattr. rewrite !bool_decide_eq_false_2 by done. apply triple_raise.
Qed.

Lemma triple_force_unique c i tries v : triple (force_unique str_of c i tries v) nb.
Proof.
  unfold force_unique. destruct v; try by apply triple_ret.
  - bind_with triple_uuid_hex6. intros h _. apply triple_ret.
    apply nb_VStr. by apply append_nonempty_r, append_nonempty_l.
  - bind_with triple_uuid_hex6. intros h _. apply triple_ret.
    apply nb_VStr. by apply append_nonempty_r, append_nonempty_l.
  - bind_with triple_uuid_hex6. intros h _.
    bind_with triple_getattr_missing. by intros ? [].
  - bind_with triple_uuid_hex6. intros h _. apply triple_ret.
    apply nb_VStr. by apply append_nonempty_r, append_nonempty_l.
  - bind_with triple_uuid_hex6. intros h _. apply triple_ret.
    apply nb_VStr. by apply append_nonempty_r, append_nonempty_l.
Qed.

Lemma triple_retry_unique c i seen budget : ∀ tries v,
  length_ok c →
  triple (retry_unique fake c i enums seen budget tries v)
         (λ p, blank_source c = false → nb v → nb p.1).
Proof.
  induction budget as [|budget IH]; intros tries v Hlen; simpl.
  - destruct (py_in v seen); by apply triple_ret.
  - destruct (py_in v seen); [|by apply triple_ret].
    eapply triple_bind; [by apply triple_generate_value|]. intros v1 Hv1.
    eapply triple_mono; [by apply IH|]. intros p Hp Hbs _. apply Hp; auto.
Qed.

Lemma triple_enforce_unique c i v seen :
  length_ok c →
  triple (enforce_unique fake str_of c i enums v seen)
         (λ p, blank_source c = false → nb v → nb p.1).
Proof.
  intros Hlen. unfold enforce_unique.
  eapply triple_bind; [by apply triple_retry_unique|]. intros [v1 tries] Hv1.
  eapply (triple_bind _ _ (λ v2, blank_source c = false → nb v → nb v2)).
  { destruct (py_in v1 seen).
    - eapply triple_mono; [apply triple_force_unique|]. by intros.
    - by apply triple_ret. }
  intros v2 Hv2. by apply triple_ret.
Qed.

(** The local [v] is unbound or bound to a value that is not the empty
    string. *)
Definition v_nb (st : Locals.t) : Prop := ∀ x, Locals.v st = Some x → nb x.

Lemma triple_read_v st : triple (read_v st) (λ v, Locals.v st = Some v).
Proof. unfold read_v. destruct (Locals.v st); [by apply triple_ret|apply triple_raise]. Qed.

Lemma triple_unique_block c i st :
  length_ok c →
  triple (unique_block fake str_of c i enums st)
         (λ st', Locals.row st' = Locals.row st ∧
                 (blank_source c = false → v_nb st → v_nb st')).
Proof.
  intros Hlen. unfold unique_block.
  destruct (Locals.seen_uniques st !! _) as [seen|]; [|by apply triple_ret].
  bind_with triple_read_v. intros v Hv.
  destruct (is_none v); [by apply triple_ret|].
  eapply triple_bind; [by apply triple_enforce_unique|]. intros [v1 seen1] Hv1.
  apply triple_ret. split; [done|]. intros Hbs Hst x. simpl. intros [= <-].
  apply Hv1; [done|]. by apply Hst.
Qed.

Lemma triple_register_loop n c : ∀ i st,
  length_ok c →
  triple (register_loop fake enums n c i st)
         (λ st', Locals.row st' = Locals.row st ∧
                 (blank_source c = false → v_nb st → v_nb st')).
Proof.
  induction n as [|n IH]; intros i st Hlen; simpl; [by apply triple_ret|].
  bind_with triple_read_v. intros v Hv.
  destruct (_register_unique (ColumnInfo.column c) v st) as [ok st1] eqn:Hr.
  assert (Locals.row st1 = Locals.row st ∧ Locals.v st1 = Locals.v st) as [Hrow Hv1].
  { unfold _register_unique in Hr. repeat case_match; by inversion Hr; subst. }
  destruct ok.
  - apply triple_ret. split; [done|]. intros _ Hst x Hx. apply Hst. congruence.
  - eapply triple_bind; [by apply triple_generate_value|]. intros v' Hv'.
    eapply triple_mono; [by apply IH|]. intros st' [Hrow' Hnb].
    split; [by rewrite Hrow'|]. intros Hbs _. apply Hnb; [done|].
    intros x. simpl. intros [= <-]. by apply Hv'.
Qed.

End Values.



Lemma pools_filled_Forall ref_ids t :
  pools_filled ref_ids → Forall nb (default [] (ref_ids !! t)).
Proof.
  intros Hp. apply Forall_forall. intros x Hx ->.
  destruct (ref_ids !! t) as [ids|] eqn:E; simpl in Hx; [by eapply Hp|].
  by apply elem_of_nil in Hx.
Qed.

Lemma Forall_elem {A} (P : A → Prop) l x : Forall P l → x ∈ l → P x.
Proof. intros HP Hx. by eapply (proj1 (Forall_forall _ _) HP). Qed.

Lemma triple_fk_choice ref_ids parent c :
  pools_filled ref_ids → triple (fk_choice ref_ids parent c) nb.
Proof.
  intros Hp. unfold fk_choice.
  pose proof (pools_filled_Forall ref_ids parent Hp) as Hall.
  destruct (default [] (ref_ids !! parent)) as [|x ids] eqn:E.
  - apply triple_ret. by destruct (ColumnInfo.is_nullable c).
  - eapply triple_mono; [apply triple_choice|]. intros a Ha. by eapply Forall_elem.
Qed.

Lemma triple_fk_value ref_ids pools parent i c :
  pools_filled ref_ids → pools_filled pools →
  triple (fk_value ref_ids pools parent i c) nb.
Proof.
  intros Hp Hq. unfold fk_value.
  destruct (pools !! ColumnInfo.column c) as [[|p pool]|] eqn:Ep;
    [by apply triple_fk_choice| |by apply triple_fk_choice].
  pose proof (Hq _ _ Ep) as Hpool. destruct (_ <? _)%Z.
  - destruct ((p :: pool) !! Z.to_nat (i - 1)) eqn:El; [|apply triple_raise].
    apply triple_ret. intros ->. apply Hpool. by eapply list_elem_of_lookup_2.
  - apply triple_ret. destruct (ColumnInfo.is_nullable c); [done|].
    destruct (last (p :: pool)) as [y|] eqn:El; [|done]. simpl.
    intros ->. apply Hpool. by apply last_Some_elem_of.
Qed.

Lemma rows_to_Forall {A} (P : A → Prop) n l : Forall P l → Forall P (rows_to n l).
Proof. intros HP. unfold rows_to. case_match; by apply Forall_take. Qed.

Lemma triple_unique_fk_pools_of table_lc cols fk_map ref_ids uniq n_rows :
  pools_filled ref_ids →
  triple (unique_fk_pools_of table_lc cols fk_map ref_ids uniq n_rows) pools_filled.
Proof.
  intros Hp. unfold unique_fk_pools_of. apply triple_foldM.
  - intros pools fk_col _ Hpools. cbv beta.
    destruct (fk_map !! (table_lc, fk_col)) as [[parent ?]|]; [|by apply triple_ret].
    eapply triple_bind; [apply (triple_shuffle _ nb); by apply pools_filled_Forall|].
    intros ids Hids. apply triple_ret. intros t l.
    rewrite lookup_insert. case_decide; [|by apply Hpools].
    intros [= <-] Hin. apply (rows_to_Forall _ n_rows) in Hids.
    by apply (Forall_elem _ _ _ Hids) in Hin.
  - intros t l. by rewrite lookup_empty.
Qed.

(** ** One column of the written lines *)

Section Cell.
Context (fake : Faker) (today : Z) (str_of : value → string).
Context (cols : list ColumnInfo.t).
Context (fk_map : gmap (string * string) (string * string)).
Context (ref_ids : gmap string (list value)).
Context (enums : gmap string (list string)).
Context (c0 : ColumnInfo.t) (j : nat).
Hypothesis Hfaker : faker_ok fake.
Hypothesis Henums : enums_ok enums.
Hypothesis Hlens : lengths_ok cols.
Hypothesis Hpools : pools_filled ref_ids.
Hypothesis Hnd : NoDup (ColumnInfo.column <$> cols).
Hypothesis Hj : cols !! j = Some c0.
Hypothesis Hbs0 : blank_source c0 = false.

(** Whatever the row holds for the column is not the empty string. *)
Definition G (row : gmap string value) : Prop :=
  ∀ x, row !! ColumnInfo.column c0 = Some x → nb x.

(** The same for a written line. *)
Definition L (line : list value) : Prop := ∀ x, line !! j = Some x → nb x.

Lemma G_empty : G ∅.
Proof. intros x. by rewrite lookup_empty. Qed.

Lemma G_insert k x row : G row → (k = ColumnInfo.column c0 → nb x) → G (<[k := x]> row).
Proof.
  intros Hg Hx y. rewrite lookup_insert. case_decide; [|apply Hg].
  intros [= <-]. by apply Hx.
Qed.

Lemma G_put col x row : G row → nb x → G (put col x row).
Proof.
  intros Hg Hx. unfold put. destruct col as [n|]; [|done]. case_match; [|done].
  by apply G_insert.
Qed.

Lemma G_writerow row : G row → L (writerow cols row).
Proof.
  intros Hg x. rewrite (writerow_lookup cols row j c0 Hj). intros [= <-].
  destruct (row !! ColumnInfo.column c0) as [y|] eqn:E; simpl; [by apply Hg|done].
Qed.

Lemma same_column c : c ∈ cols → ColumnInfo.column c = ColumnInfo.column c0 → c = c0.
Proof.
  intros [i Hi]%list_elem_of_lookup_1 Heq.
  assert (i = j) as ->; [|congruence].
  eapply NoDup_lookup; [exact Hnd| |]; rewrite list_lookup_fmap.
  - by rewrite Hi.
  - rewrite Hj. simpl. by rewrite Heq.
Qed.

Lemma target_ok c :
  c ∈ cols → ColumnInfo.column c = ColumnInfo.column c0 → blank_source c = false.
Proof. intros Hc Heq. by rewrite (same_column c Hc Heq). Qed.

Lemma col_length_ok c : c ∈ cols → length_ok c.
Proof. intros Hc n Hn. by eapply Hlens. Qed.

Lemma triple_fill_column table_lc idx row c :
  c ∈ cols → G row →
  triple (fill_column fake table_lc fk_map ref_ids enums idx row c) G.
Proof.
  intros Hc Hg. unfold fill_column. tif; [by apply triple_ret|].
  destruct (fk_map !! _) as [[parent ?]|].
  - bind_with triple_fk_choice; [done|]. intros v Hv. apply triple_ret.
    by apply G_insert.
  - eapply triple_bind;
      [apply (triple_generate_value fake enums Hfaker Henums); by apply col_length_ok|].
    intros v Hv.
    eapply (triple_bind _ _ (λ v', nb v → nb v')).
    { tif; [|by apply triple_ret]. tif; [by apply triple_ret|].
      bind_with triple_uuid_hex6. intros h _. apply triple_ret. intros _.
      by apply nb_VStr, append_nonempty_l. }
    intros v1 Hv1. apply triple_ret. apply G_insert; [done|].
    intros Heq. apply Hv1, Hv. by apply target_ok.
Qed.

Lemma triple_fill_row table_lc idx row :
  G row → triple (fill_row fake table_lc fk_map ref_ids enums cols idx row) G.
Proof.
  intros Hg. unfold fill_row. apply triple_foldM; [|done].
  intros r c Hc Hr. by apply triple_fill_column.
Qed.

Section Junction.
Context (table : string) (n_rows : Z).
Context (first_col second_col : string).

Definition rowsG (st : junction) : Prop := Forall G st.2.

Lemma pair_row_G a b : nb a → nb b → G (<[second_col := b]> {[first_col := a]}).
Proof.
  intros Ha Hb. apply G_insert; [|done]. rewrite <-insert_empty.
  apply G_insert; [apply G_empty|done].
Qed.

Lemma triple_add_pair a b st :
  nb a → nb b → rowsG st →
  triple (add_pair fake table cols fk_map ref_ids enums first_col second_col a b st) rowsG.
Proof.
  intros Ha Hb Hst. unfold add_pair.
  eapply triple_bind; [apply triple_fill_row; by apply pair_row_G|].
  intros row Hrow. apply triple_ret. unfold rowsG. simpl.
  apply Forall_app. split; [done|]. by apply Forall_singleton.
Qed.

Section Inner.
Context (second_ids : list value).
Hypothesis Hsecond : Forall nb second_ids.

Lemma triple_pairs_inner k : ∀ a st,
  nb a → rowsG st →
  triple (pairs_inner fake table cols fk_map ref_ids n_rows enums first_col second_col
            second_ids k a st) rowsG.
Proof.
  induction k as [|k IH]; intros a st Ha Hst; simpl; [by apply triple_ret|].
  bind_with triple_choice. intros b Hb.
  tif; [by apply IH|].
  eapply triple_bind; [apply triple_add_pair; [done|by eapply Forall_elem|done]|].
  intros st1 Hst1. tif; [by apply triple_ret|by apply IH].
Qed.

Lemma triple_booking_room_loop fuel : ∀ ids i st,
  Forall nb ids → rowsG st →
  triple (booking_room_loop fake table cols fk_map ref_ids n_rows enums first_col
            second_col second_ids fuel ids i st) rowsG.
Proof.
  induction fuel as [|fuel IH]; intros ids i st Hids Hst; simpl.
  - tif; [apply triple_out_of_fuel|by apply triple_ret].
  - tif; [|by apply triple_ret].
    destruct (ids !! _) as [b|] eqn:Eb; [|apply triple_raise].
    bind_with triple_randint. intros z _.
    eapply triple_bind; [apply triple_pairs_inner; [|done]|].
    { eapply (Forall_elem nb); [exact Hids|]. by eapply list_elem_of_lookup_2. }
    intros st1 Hst1. by apply IH.
Qed.

Lemma triple_product_inner ids : ∀ a st,
  Forall nb ids → nb a → rowsG st →
  triple (product_inner fake table cols fk_map ref_ids n_rows enums first_col second_col
            ids a st) rowsG.
Proof.
  induction ids as [|b ids IH]; intros a st Hids Ha Hst; simpl; [by apply triple_ret|].
  apply Forall_cons in Hids as [Hb Hids].
  tif; [by apply triple_ret|]. tif; [by apply IH|].
  eapply triple_bind; [by apply triple_add_pair|]. intros st1 Hst1. by apply IH.
Qed.

Lemma triple_product_fill ids : ∀ st,
  Forall nb ids → rowsG st →
  triple (product_fill fake table cols fk_map ref_ids n_rows enums first_col second_col
            second_ids ids st) rowsG.
Proof.
  induction ids as [|a ids IH]; intros st Hids Hst; simpl; [by apply triple_ret|].
  apply Forall_cons in Hids as [Ha Hids].
  eapply triple_bind; [by apply triple_product_inner|]. intros st1 Hst1.
  tif; [by apply triple_ret|by apply IH].
Qed.

Lemma triple_booking_discount_loop fuel : ∀ ids i st,
  Forall nb ids → rowsG st →
  triple (booking_discount_loop fake table cols fk_map ref_ids n_rows enums first_col
            second_col second_ids fuel ids i st) rowsG.
Proof.
  induction fuel as [|fuel IH]; intros ids i st Hids Hst; simpl.
  - tif; [apply triple_out_of_fuel|by apply triple_ret].
  - tif; [|by apply triple_ret].
    destruct (ids !! _) as [b|] eqn:Eb; [|apply triple_raise].
    bind_with triple_randint. intros z _.
    tif; [by apply IH|].
    eapply triple_bind; [apply triple_pairs_inner; [|done]|].
    { eapply (Forall_elem nb); [exact Hids|]. by eapply list_elem_of_lookup_2. }
    intros st1 Hst1.
    eapply (triple_bind _ _ rowsG).
    { tif; [by apply triple_product_fill|by apply triple_ret]. }
    intros st2 Hst2. by apply IH.
Qed.

Lemma triple_review_inner cids : ∀ rid st,
  Forall nb cids → nb rid → rowsG st →
  triple (review_inner fake table cols fk_map ref_ids n_rows enums first_col second_col
            cids rid st) rowsG.
Proof.
  induction cids as [|b ids IH]; intros a st Hids Ha Hst; simpl; [by apply triple_ret|].
  apply Forall_cons in Hids as [Hb Hids].
  tif; [by apply triple_ret|]. tif; [by apply IH|].
  eapply triple_bind; [by apply triple_add_pair|]. intros st1 Hst1. by apply IH.
Qed.

Lemma triple_review_score_loop fuel : ∀ ids i st,
  Forall nb ids → rowsG st →
  triple (review_score_loop fake table cols fk_map ref_ids n_rows enums first_col
            second_col second_ids fuel ids i st) rowsG.
Proof.
  induction fuel as [|fuel IH]; intros ids i st Hids Hst; simpl.
  - tif; [apply triple_out_of_fuel|by apply triple_ret].
  - tif; [|by apply triple_ret].
    destruct (ids !! _) as [rid|] eqn:Eb; [|apply triple_raise].
    bind_with triple_randint. intros z _.
    eapply triple_bind; [by apply (triple_sample _ _ nb)|]. intros cids Hcids.
    eapply triple_bind; [apply triple_review_inner; [done| |done]|].
    { eapply (Forall_elem nb); [exact Hids|]. by eapply list_elem_of_lookup_2. }
    intros st1 Hst1. tif; [by apply triple_product_fill|by apply IH].
Qed.

End Inner.

Lemma triple_room_night_inner room_id_col night_date_col offsets : ∀ rid st,
  nb rid → rowsG st →
  triple (room_night_inner fake today table cols fk_map ref_ids n_rows enums
            room_id_col night_date_col offsets rid st) rowsG.
Proof.
  induction offsets as [|off offsets IH]; intros rid st Hrid Hst; simpl;
    [by apply triple_ret|].
  tif; [by apply IH|].
  eapply triple_bind.
  { apply triple_fill_row. apply G_insert; [|done]. rewrite <-insert_empty.
    apply G_insert; [apply G_empty|done]. }
  intros row Hrow.
  assert (rowsG (st.1 ++ [(rid, VDate (today - 730 + Z.of_nat off))], st.2 ++ [row]))
    as Hst1.
  { unfold rowsG. simpl. apply Forall_app. split; [done|]. by apply Forall_singleton. }
  tif; [by apply triple_ret|by apply IH].
Qed.

Lemma triple_room_night_loop room_id_col night_date_col per_room room_ids : ∀ st,
  Forall nb room_ids → rowsG st →
  triple (room_night_loop fake today table cols fk_map ref_ids n_rows enums
            room_id_col night_date_col per_room room_ids st) rowsG.
Proof.
  induction room_ids as [|rid room_ids IH]; intros st Hids Hst.
  - by apply triple_ret.
  - rewrite RoomNightFacts.room_night_loop_cons.
    apply Forall_cons in Hids as [Hrid Hids].
    tif; [by apply triple_ret|].
    eapply triple_bind; [apply (triple_sample _ _ (λ _, True)); by apply Forall_true|].
    intros offsets _.
    eapply triple_bind; [by apply triple_room_night_inner|]. intros st1 Hst1.
    by apply IH.
Qed.

End Junction.

Section Assemblers.
Context (table : string) (n_rows : Z).

Lemma lines_junction (st : junction) :
  rowsG st → Forall L (writerow cols <$> rows_to n_rows st.2).
Proof.
  intros Hst. apply Forall_fmap. apply rows_to_Forall.
  eapply Forall_impl; [exact Hst|]. intros row. apply G_writerow.
Qed.

Lemma rowsG_nil : rowsG ([], []).
Proof. constructor. Qed.

Lemma triple_booking_room fuel :
  triple (generate_booking_room_csv fake fuel table cols fk_map ref_ids n_rows enums)
         (Forall L).
Proof.
  unfold generate_booking_room_csv. tif; [apply triple_raise|].
  destruct (col_lc_of cols !! "booking_id") as [bc|]; [|apply triple_raise].
  destruct (col_lc_of cols !! "room_id") as [rc|]; [|apply triple_raise].
  tif; [apply triple_raise|].
  eapply triple_bind; [apply (triple_shuffle _ nb); by apply pools_filled_Forall|].
  intros ids Hids.
  eapply triple_bind;
    [apply triple_booking_room_loop;
       [by apply pools_filled_Forall|done|apply rowsG_nil]|].
  intros st Hst. apply triple_ret. by apply lines_junction.
Qed.

Lemma triple_room_night :
  triple (generate_room_night_csv fake today table cols fk_map ref_ids n_rows enums)
         (Forall L).
Proof.
  unfold generate_room_night_csv. tif; [apply triple_raise|].
  destruct (col_lc_of cols !! "room_id") as [bc|]; [|apply triple_raise].
  destruct (col_lc_of cols !! "night_date") as [rc|]; [|apply triple_raise].
  tif; [apply triple_raise|].
  eapply triple_bind; [apply (triple_shuffle _ nb); by apply pools_filled_Forall|].
  intros ids Hids.
  eapply triple_bind; [apply triple_room_night_loop; [done|apply rowsG_nil]|].
  intros st Hst. apply triple_ret. by apply lines_junction.
Qed.

Lemma triple_booking_discount fuel :
  triple (generate_booking_discount_csv fake fuel table cols fk_map ref_ids n_rows enums)
         (Forall L).
Proof.
  unfold generate_booking_discount_csv.
  destruct (col_lc_of cols !! "booking_id") as [bc|]; [|apply triple_raise].
  destruct (str_or _ _) as [pc|]; [|apply triple_raise].
  tif; [apply triple_raise|]. tif; [apply triple_raise|].
  eapply triple_bind; [apply (triple_shuffle _ nb); by apply pools_filled_Forall|].
  intros ids Hids. tif; [apply triple_raise|].
  eapply triple_bind;
    [apply triple_booking_discount_loop;
       [by apply pools_filled_Forall|done|apply rowsG_nil]|].
  intros st Hst. apply triple_ret. by apply lines_junction.
Qed.

Lemma triple_review_score fuel :
  triple (generate_review_score_csv fake fuel table cols fk_map ref_ids n_rows enums)
         (Forall L).
Proof.
  unfold generate_review_score_csv.
  destruct (col_lc_of cols !! "review_id") as [bc|]; [|apply triple_raise].
  destruct (str_or _ _) as [pc|]; [|apply triple_raise].
  tif; [apply triple_raise|]. tif; [apply triple_raise|]. tif; [apply triple_raise|].
  eapply triple_bind; [apply (triple_shuffle _ nb); by apply pools_filled_Forall|].
  intros ids Hids.
  eapply triple_bind;
    [apply triple_review_score_loop;
       [by apply pools_filled_Forall|done|apply rowsG_nil]|].
  intros st Hst. apply triple_ret. apply Forall_fmap.
  eapply Forall_impl; [exact Hst|]. intros row. apply G_writerow.
Qed.

End Assemblers.


(** ** The column loops *)

Lemma triple_repair_order lo hi row :
  G row → triple (repair_order lo hi row) G.
Proof.
  intros Hg. unfold repair_order.
  destruct lo as [lo|]; [|by apply triple_ret].
  destruct hi as [hi|]; [|by apply triple_ret].
  tif; [|by apply triple_ret].
  repeat case_match; first [by apply triple_ret | apply triple_raise
    | apply triple_ret; by apply G_insert ].
Qed.

(** [BF]: no column of the table draws on the second address line. *)
Context (BF : Prop).
Hypothesis HBF : BF → ∀ c, c ∈ cols → blank_source c = false.

Lemma v_nb_set_v v st : nb v → v_nb (set_v v st).
Proof. intros Hv x. simpl. by intros [= <-]. Qed.

Lemma v_nb_read st v : Locals.v st = Some v → v_nb st → nb v.
Proof. intros Hv Hst. by apply Hst. Qed.

Section Stay.
Context (table : string) (uniq : gset string).
Context (booking_id_col status_col aci_col aco_col : option string).
Context (is_booking_unique : bool) (booking_ids : list value).
Context (stay_status_choices : list string).

(** The booking key is the column under consideration. *)
Definition bk : Prop :=
  booking_id_col = Some (ColumnInfo.column c0) ∧ ColumnInfo.column c0 ≠ "".

Hypothesis Hstale : is_Some (fk_map !! (lower table, ColumnInfo.column c0)) → bk ∨ BF.
Hypothesis Hids : Forall nb booking_ids.
Hypothesis Hchoices : "" ∉ stay_status_choices.

Definition I_stay (st : Locals.t) : Prop :=
  G (Locals.row st) ∧ (BF → v_nb st) ∧
  (bk → is_Some (Locals.row st !! ColumnInfo.column c0)).

Lemma triple_stay_column i st c :
  c ∈ cols → I_stay st →
  triple (stay_column fake today str_of table fk_map ref_ids enums uniq i st c) I_stay.
Proof.
  intros Hc (Hg & Hv & Hb). unfold stay_column.
  pose proof (col_length_ok c Hc) as Hlen.
  destruct (bool_decide (is_Some (Locals.row st !! ColumnInfo.column c))) eqn:Eskip;
    [by apply triple_ret|].
  apply bool_decide_eq_false in Eskip.
  assert (Locals.row st !! ColumnInfo.column c = None) as Hnone.
  { destruct (Locals.row st !! ColumnInfo.column c) eqn:E; [|done]. destruct Eskip. by eexists. }
  set (fk := fk_map !! (lower table, ColumnInfo.column c)) in *.
  (* the value of [v] entering the uniqueness block is known to be fine *)
  set (known := (is_Some fk ∧ v_nb st) ∨ (fk = None ∧ blank_source c = false)).
  eapply (triple_bind _ _
            (λ st1, (∀ y, <[ColumnInfo.column c := y]> (Locals.row st1)
                          = <[ColumnInfo.column c := y]> (Locals.row st)) ∧
                    (known → v_nb st1))).
  { destruct fk as [[parent ?]|] eqn:Efk.
    - bind_with triple_fk_choice; [done|]. intros x Hx. apply triple_ret. simpl. split.
      + intros y. apply insert_insert_eq.
      + intros [[_ Hvst]|[? _]]; done.
    - eapply triple_bind;
        [by apply (triple_generate_value fake enums Hfaker Henums)|].
      intros v Hv0. apply triple_ret. simpl. split; [done|].
      intros [[[? ?] _]|[_ Hbs]]; [done|]. by apply v_nb_set_v, Hv0. }
  intros st1 [Hr1 Hk1].
  eapply triple_bind; [by apply (triple_unique_block fake str_of enums Hfaker Henums)|].
  intros st2 [Hr2 Hv2].
  bind_with triple_read_v. intros v Hread.
  bind_with triple_sentinel. intros v1 Hv1.
  eapply (triple_bind _ _
            (λ st3, Locals.row st3 = Locals.row st2 ∧
                    (blank_source c = false → nb v1 → v_nb st3))).
  { tif.
    - eapply triple_mono;
        [by apply (triple_register_loop fake enums Hfaker Henums)|].
      intros st3 [Hr3 Hv3]. split; [done|]. intros Hbs Hnb. apply Hv3; [done|].
      by apply v_nb_set_v.
    - apply triple_ret. split; [done|]. intros _ Hnb. by apply v_nb_set_v. }
  intros st3 [Hr3 Hv3].
  eapply triple_bind; [by apply (triple_unique_block fake str_of enums Hfaker Henums)|].
  intros st4 [Hr4 Hv4].
  bind_with triple_read_v. intros v2 Hread2. apply triple_ret.
  assert (blank_source c = false → known → nb v2) as Hfinal.
  { intros Hbs Hk. eapply v_nb_read; [exact Hread2|]. apply Hv4; [done|].
    apply Hv3; [done|]. apply Hv1. eapply v_nb_read; [exact Hread|].
    apply Hv2; [done|]. by apply Hk1. }
  simpl. rewrite Hr4, Hr3, Hr2, Hr1. split_and!.
  - apply G_insert; [done|]. intros Heq.
    apply Hfinal; [by apply target_ok|].
    destruct fk as [[parent ?]|] eqn:Efk; [left|right; split; [done|by apply target_ok]].
    split; [by eexists|]. apply Hv.
    destruct Hstale as [Hbk|HB]; [rewrite <-Heq; by eexists| |done].
    exfalso. apply Hb in Hbk as [y Hy]. rewrite <-Heq in Hy. congruence.
  - intros HB x. simpl. rewrite Hread2. intros [= <-]. apply Hfinal; [by apply HBF|].
    destruct fk as [[parent ?]|] eqn:Efk; [left|right; split; [done|by apply HBF]].
    split; [by eexists|by apply Hv].
  - intros Hbk. simpl. rewrite lookup_insert. case_decide; [by eexists|]. by apply Hb.
Qed.

Lemma triple_stay_row i st :
  (BF → v_nb st) →
  triple (stay_row fake today str_of table cols fk_map ref_ids enums uniq
            booking_id_col status_col aci_col aco_col is_booking_unique booking_ids
            stay_status_choices i st)
         (λ st', G (Locals.row st') ∧ (BF → v_nb st')).
Proof.
  intros Hv. unfold stay_row.
  set (P := λ row : gmap string value,
              G row ∧ (bk → is_Some (row !! ColumnInfo.column c0))).
  eapply (triple_bind _ _ P).
  { destruct (truthy booking_id_col) eqn:Ht.
    - eapply (triple_bind _ _ nb).
      { destruct is_booking_unique.
        - destruct (booking_ids !! _) eqn:E; [|apply triple_raise]. apply triple_ret.
          eapply (Forall_elem nb); [exact Hids|]. by eapply list_elem_of_lookup_2.
        - destruct booking_ids as [|b0 ids0] eqn:E; [by apply triple_ret|].
          eapply triple_mono; [apply triple_choice|]. intros a Ha.
          by eapply (Forall_elem nb). }
      intros x Hx. apply triple_ret. split; [apply G_put; [apply G_empty|done]|].
      intros [-> Hne]. rewrite put_Some by done. rewrite lookup_insert_eq. by eexists.
    - apply triple_ret. split; [apply G_empty|].
      intros [-> Hne]. unfold truthy in Ht. by rewrite bool_decide_eq_false_2 in Ht. }
  intros row1 [Hg1 Hb1].
  eapply (triple_bind _ _ (λ p, P p.2)).
  { tif.
    - bind_with triple_choice. intros sc Hsc. apply triple_ret. simpl. split.
      + apply G_put; [done|]. apply nb_VStr. intros ->. done.
      + intros Hbk. by apply put_keeps, Hb1.
    - by apply triple_ret. }
  intros [scenario row2] [Hg2 Hb2]. simpl in Hg2, Hb2.
  eapply (triple_bind _ _ P).
  { assert (∀ x_a x_o, nb x_a → nb x_o → P (put aco_col x_o (put aci_col x_a row2))) as HP.
    { intros x_a x_o Ha Ho. split; [apply G_put; [by apply G_put|done]|].
      intros Hbk. by apply put_keeps, put_keeps, Hb2. }
    tif; [apply triple_ret; by apply HP|].
    tif.
    { bind_with triple_faker. intros ci _. bind_with triple_randint. intros d _.
      bind_with triple_randint. intros h _. bind_with triple_randint. intros m _.
      apply triple_ret. by apply HP. }
    tif.
    { bind_with triple_faker. intros ci _. apply triple_ret. by apply HP. }
    apply triple_ret. by apply HP. }
  intros row3 [Hg3 Hb3].
  eapply (triple_bind _ _ I_stay).
  { apply triple_foldM; [|by split_and!].
    intros s c Hc Hs. by apply triple_stay_column. }
  intros st4 (Hg4 & Hv4 & _).
  eapply triple_bind; [by apply triple_repair_order|]. intros row5 Hg5.
  by apply triple_ret.
Qed.

End Stay.

Section Columns.
Context (table_lc : string) (pk_col : option string) (uniq : gset string).
Context (unique_fk_pools : gmap string (list value)).
Hypothesis Hfkpools : pools_filled unique_fk_pools.
Hypothesis Hstale :
  ColumnInfo.column c0 ∈ uniq →
  ¬ (pk_col = Some (ColumnInfo.column c0) ∧ ColumnInfo.column c0 ≠ "") → BF.

Definition I_col (st : Locals.t) : Prop :=
  G (Locals.row st) ∧ (BF → v_nb st) ∧ seen_ok uniq st.

Lemma triple_column_step i st c :
  c ∈ cols → I_col st →
  triple (column_step fake today str_of table_lc pk_col fk_map ref_ids enums
            unique_fk_pools i st c) I_col.
Proof.
  intros Hc (Hg & Hv & Hok). unfold column_step.
  pose proof (col_length_ok c Hc) as Hlen.
  destruct (bool_decide (is_Some (Locals.row st !! ColumnInfo.column c))) eqn:Eskip;
    [by apply triple_ret|].
  set (fresh := truthy pk_col && bool_decide (pk_col = Some (ColumnInfo.column c))).
  eapply (triple_bind _ _
            (λ st1, Locals.row st1 = Locals.row st ∧
                    Locals.seen_uniques st1 = Locals.seen_uniques st ∧
                    (fresh = false → Locals.v st1 = Locals.v st) ∧
                    (fresh = true → blank_source c = false → v_nb st1))).
  { destruct fresh eqn:Ef.
    - eapply triple_bind;
        [by apply (triple_generate_value fake enums Hfaker Henums)|].
      intros v Hv0. apply triple_ret. simpl. split_and!; [done|done|done|].
      intros _ Hbs. by apply v_nb_set_v, Hv0.
    - by apply triple_ret. }
  intros st1 (Hr1 & Hs1 & Hsame1 & Hfresh1).
  assert (blank_source c = false →
          (ColumnInfo.column c = ColumnInfo.column c0 →
           is_Some (Locals.seen_uniques st1 !! ColumnInfo.column c)) ∨ BF →
          (ColumnInfo.column c = ColumnInfo.column c0 ∨ BF) → v_nb st1) as Hvst1.
  { intros Hbs Hseen Hwhy. destruct fresh eqn:Ef; [by apply Hfresh1|].
    intros x. rewrite (Hsame1 eq_refl). apply Hv.
    destruct Hwhy as [Heq|HB]; [|done]. destruct Hseen as [Hseen|HB]; [|done].
    apply Hstale.
    - destruct (decide (ColumnInfo.column c0 ∈ uniq)) as [|Hnu]; [done|].
      specialize (Hseen Heq). rewrite Hs1, Heq, (Hok _ Hnu) in Hseen. by destruct Hseen.
    - intros [Hpk Hne]. unfold fresh in Ef. rewrite Hpk, Heq in Ef.
      unfold truthy in Ef. rewrite bool_decide_eq_false_2 in Ef by done.
      by rewrite bool_decide_eq_true_2 in Ef. }
  eapply (triple_bind _ _
            (λ hit, ∀ v' seen', hit = Some (v', seen') →
               is_Some (Locals.seen_uniques st1 !! ColumnInfo.column c) ∧
               (blank_source c = false → v_nb st1 → nb v'))).
  { destruct (Locals.seen_uniques st1 !! ColumnInfo.column c) as [seen|] eqn:Eseen;
      [|by apply triple_ret].
    bind_with triple_read_v. intros v Hread. tif; [by apply triple_ret|].
    eapply triple_bind;
      [by apply (triple_enforce_unique fake str_of enums Hfaker Henums)|].
    intros [v1 seen1] Hv1. apply triple_ret. intros v' seen' Heq'.
    inversion Heq'; subst; clear Heq'.
    split; [by eexists|]. intros Hbs Hst. apply Hv1; [done|]. apply Hst. exact Hread. }
  intros hit Hhit. destruct hit as [[v seen]|].
  { destruct (Hhit v seen eq_refl) as [Hsome Hnb]. apply triple_ret. simpl.
    rewrite Hr1. split_and!.
    - apply G_insert; [done|]. intros Heq.
      assert (blank_source c = false) as Hbs by (by apply target_ok).
      apply Hnb; [done|]. apply Hvst1; [done|by left|by left].
    - intros HB x. simpl. intros [= <-].
      assert (blank_source c = false) as Hbs by (by apply HBF).
      apply Hnb; [done|]. apply Hvst1; [done|by right|by right].
    - intros n Hn. simpl. rewrite lookup_insert_ne; [rewrite Hs1; by apply Hok|].
      intros <-. rewrite Hs1, (Hok _ Hn) in Hsome. by destruct Hsome. }
  assert (seen_ok uniq st1) as Hok1 by (intros n Hn; rewrite Hs1; by apply Hok).
  destruct (fk_map !! _) as [[parent ?]|].
  { bind_with triple_fk_value; [done|done|]. intros x Hx. apply triple_ret. simpl.
    rewrite Hr1. split_and!; [by apply G_insert| |done].
    intros HB. destruct fresh eqn:Ef; [apply Hfresh1; [done|by apply HBF]|].
    intros y. simpl. rewrite (Hsame1 eq_refl). by apply Hv. }
  eapply triple_bind; [by apply (triple_generate_value fake enums Hfaker Henums)|].
  intros v Hv0.
  eapply triple_bind.
  { apply triple_also;
      [by apply (triple_unique_block fake str_of enums Hfaker Henums)|].
    intros w0 st2 w0' H2.
    exact (proj1 (unique_block_spec fake str_of enums uniq c i (set_v v st1)
                    w0 st2 w0' H2 Hok1)). }
  intros st2 [[Hr2 Hv2] Hok2].
  bind_with triple_read_v. intros v2 Hread.
  bind_with triple_sentinel. intros v3 Hv3. apply triple_ret. simpl.
  assert (blank_source c = false → nb v3) as Hfinal.
  { intros Hbs. apply Hv3. eapply v_nb_read; [exact Hread|]. apply Hv2; [done|].
    by apply v_nb_set_v, Hv0. }
  rewrite Hr2. simpl. rewrite Hr1. split_and!.
  - apply G_insert; [done|]. intros Heq. by apply Hfinal, target_ok.
  - intros HB x. simpl. intros [= <-]. by apply Hfinal, HBF.
  - exact Hok2.
Qed.

Lemma triple_column_loop i row st :
  G row → (BF → v_nb st) → seen_ok uniq st →
  triple (foldM (column_step fake today str_of table_lc pk_col fk_map ref_ids enums
                   unique_fk_pools i) (set_row row st) cols) I_col.
Proof.
  intros Hg Hv Hok. apply triple_foldM; [|by split_and!].
  intros s c Hc Hs. by apply triple_column_step.
Qed.

End Columns.


(** ** The assemblers with a column loop *)

Lemma status_choices_nonempty (status_ci : option ColumnInfo.t) :
  "" ∉ match status_ci with
       | Some c => default [] (enums !! lower (ColumnInfo.udt_name c))
       | None => []
       end.
Proof.
  destruct status_ci as [c|]; [|apply not_elem_of_nil].
  destruct (enums !! _) as [labels|] eqn:E; simpl; [by eapply Henums|].
  apply not_elem_of_nil.
Qed.

Lemma L_snoc rows row : Forall L rows → G row → Forall L (rows ++ [writerow cols row]).
Proof.
  intros Hrows Hrow. apply Forall_app. split; [done|].
  apply Forall_singleton. by apply G_writerow.
Qed.

Lemma v_nb_unbound row seen pk_vals : v_nb (Locals.mk row None seen pk_vals).
Proof. by intros x. Qed.

Lemma triple_stay table n_rows unique_cols :
  (is_Some (fk_map !! (lower table, ColumnInfo.column c0)) →
   col_lc_of cols !! "booking_id" = Some (ColumnInfo.column c0) ∨ BF) →
  triple (generate_stay_csv fake today str_of table cols fk_map ref_ids n_rows enums
            unique_cols) (Forall L).
Proof.
  intros Hstale. unfold generate_stay_csv.
  eapply (triple_bind _ _ (Forall nb)).
  { tif; [|apply triple_ret; by apply pools_filled_Forall].
    tif; [apply triple_raise|]. apply triple_shuffle. by apply pools_filled_Forall. }
  intros ids Hids.
  eapply (triple_bind _ _ (λ p, Forall L p.1 ∧ (BF → v_nb p.2))).
  { apply triple_foldM; [|split; [constructor|intros _; apply v_nb_unbound]].
    intros [rows st] i _ [Hrows Hv]. simpl in Hrows, Hv.
    eapply triple_bind.
    { apply triple_stay_row; [|exact Hids|apply status_choices_nonempty|exact Hv].
      intros Hfk. destruct (Hstale Hfk) as [Hb|HB]; [left|by right].
      split; [done|]. eapply col_lc_of_nonempty; [|exact Hb]. done. }
    intros st1 [Hg1 Hv1]. apply triple_ret. simpl. split; [by apply L_snoc|done]. }
  intros [rows st] [Hrows _]. by apply triple_ret.
Qed.

Section ColumnPaths.
Context (table : string) (pk : option PrimaryKey.t) (n_rows : Z).
Context (unique_cols : gmap string (gset string)).
Hypothesis Hstale :
  ColumnInfo.column c0 ∈ default ∅ (unique_cols !! lower table) →
  ¬ (pk_col_of pk = Some (ColumnInfo.column c0) ∧ ColumnInfo.column c0 ≠ "") → BF.

Definition I_rows (p : list (list value) * Locals.t) : Prop :=
  Forall L p.1 ∧ (BF → v_nb p.2) ∧ seen_ok (default ∅ (unique_cols !! lower table)) p.2.

Lemma I_rows_start :
  I_rows ([], Locals.mk ∅ None (fresh_seen (default ∅ (unique_cols !! lower table))) []).
Proof. split_and!; [constructor|intros _; apply v_nb_unbound|apply fresh_seen_ok]. Qed.

Lemma triple_booking :
  triple (generate_booking_csv fake today str_of table cols fk_map ref_ids n_rows enums
            unique_cols pk) (λ p, Forall L p.1).
Proof.
  unfold generate_booking_csv.
  eapply triple_bind; [by apply triple_unique_fk_pools_of|]. intros pools Hfk.
  eapply (triple_bind _ _ I_rows).
  { apply triple_foldM; [|apply I_rows_start].
    intros [rows st] i _ (Hrows & Hv & Hok). simpl in Hrows, Hv, Hok.
    eapply (triple_bind _ _ G).
    { tif; [|apply triple_ret; apply G_empty].
      bind_with triple_choice. intros sc Hsc. apply triple_ret.
      apply G_put; [apply G_empty|]. apply nb_VStr. intros ->.
      by apply status_choices_nonempty in Hsc. }
    intros row1 Hg1.
    eapply (triple_bind _ _ G).
    { tif; [|by apply triple_ret].
      bind_with triple_faker. intros ci _. bind_with triple_randint. intros d _.
      apply triple_ret. apply G_put; [by apply G_put|done]. }
    intros row2 Hg2.
    eapply triple_bind; [by apply triple_column_loop|]. intros st2 (Hg & Hv2 & Hok2).
    eapply triple_bind; [by apply triple_repair_order|]. intros row3 Hg3.
    apply triple_ret. split_and!; simpl; [by apply L_snoc|done|done]. }
  intros [rows st] (Hrows & _). by apply triple_ret.
Qed.

Lemma triple_default fuel :
  lower table ∉ ["booking_room"; "room_night"; "stay"; "booking"; "booking_discount";
                 "review_score"] →
  triple (generate_table_csv fake today str_of fuel table cols pk fk_map ref_ids n_rows
            enums unique_cols) (λ p, Forall L p.1).
Proof.
  intros Hsp. unfold generate_table_csv.
  repeat (rewrite bool_decide_eq_false_2
            by (intros Heq; apply Hsp; rewrite Heq; mem)).
  eapply triple_bind; [by apply triple_unique_fk_pools_of|]. intros pools Hfk.
  eapply (triple_bind _ _ I_rows).
  { apply triple_foldM; [|apply I_rows_start].
    intros [rows st] i _ (Hrows & Hv & Hok). simpl in Hrows, Hv, Hok.
    eapply (triple_bind _ _ G).
    { tif; [|apply triple_ret; apply G_empty].
      bind_with triple_faker. intros ci _. bind_with triple_randint. intros d _.
      apply triple_ret. apply G_put; [apply G_put; [apply G_empty|done]|done]. }
    intros row1 Hg1.
    eapply triple_bind; [by apply triple_column_loop|]. intros st2 (Hg & Hv2 & Hok2).
    apply triple_ret. split_and!; simpl; [by apply L_snoc|done|done]. }
  intros [rows st] (Hrows & _). by apply triple_ret.
Qed.

End ColumnPaths.

Lemma triple_table fuel table pk n_rows unique_cols :
  (takes_stale table cols pk fk_map unique_cols c0 → BF) →
  triple (generate_table_csv fake today str_of fuel table cols pk fk_map ref_ids n_rows
            enums unique_cols) (λ p, Forall L p.1).
Proof.
  intros Hstale.
  destruct (decide (lower table ∈ ["booking_room"; "room_night"; "stay"; "booking";
                                    "booking_discount"; "review_score"]))
    as [Hin|Hout].
  2:{ apply triple_default; [|done]. intros Hu Hpk. apply Hstale. right.
      split_and!; [| |done|done].
      - intros Heq. apply Hout. rewrite Heq. mem.
      - intros Hjt. apply Hout. unfold junction_tables in Hjt.
        repeat (apply elem_of_cons in Hjt as [-> |Hjt]; [mem|]). by apply elem_of_nil in Hjt. }
  unfold generate_table_csv.
  destruct (decide (lower table = "booking_room")) as [E1|E1];
    [rewrite (bool_decide_eq_true_2 _ E1)|rewrite (bool_decide_eq_false_2 _ E1)].
  { eapply triple_bind; [apply triple_booking_room|]. intros rows Hr. by apply triple_ret. }
  destruct (decide (lower table = "room_night")) as [E2|E2];
    [rewrite (bool_decide_eq_true_2 _ E2)|rewrite (bool_decide_eq_false_2 _ E2)].
  { eapply triple_bind; [apply triple_room_night|]. intros rows Hr. by apply triple_ret. }
  destruct (decide (lower table = "stay")) as [E3|E3];
    [rewrite (bool_decide_eq_true_2 _ E3)|rewrite (bool_decide_eq_false_2 _ E3)].
  { eapply triple_bind; [apply triple_stay|]; [|intros rows Hr; by apply triple_ret].
    intros Hfk.
    destruct (decide (col_lc_of cols !! "booking_id" = Some (ColumnInfo.column c0)))
      as [Hb|Hb]; [by left|right].
    apply Hstale. left. done. }
  destruct (decide (lower table = "booking")) as [E4|E4];
    [rewrite (bool_decide_eq_true_2 _ E4)|rewrite (bool_decide_eq_false_2 _ E4)].
  { apply triple_booking. intros Hu Hpk. apply Hstale. right.
    split_and!; [done| |done|done].
    rewrite E4. unfold junction_tables. intros Hjt.
    repeat (apply elem_of_cons in Hjt as [Hjt|Hjt]; [done|]). by apply elem_of_nil in Hjt. }
  destruct (decide (lower table = "booking_discount")) as [E5|E5];
    [rewrite (bool_decide_eq_true_2 _ E5)|rewrite (bool_decide_eq_false_2 _ E5)].
  { eapply triple_bind; [apply triple_booking_discount|]. intros rows Hr.
    by apply triple_ret. }
  destruct (decide (lower table = "review_score")) as [E6|E6];
    [rewrite (bool_decide_eq_true_2 _ E6)|rewrite (bool_decide_eq_false_2 _ E6)].
  { eapply triple_bind; [apply triple_review_score|]. intros rows Hr.
    by apply triple_ret. }
  exfalso. repeat (apply elem_of_cons in Hin as [Hin|Hin]; [done|]).
  by apply elem_of_nil in Hin.
Qed.

End Cell.

(** The cell a column gets is never the empty string when the column
    does not draw on the second address line nor, in a table that has such
    a column, on the value an earlier column left behind. *)
Lemma cells_not_empty fake today str_of fuel table cols pk fk_map ref_ids n_rows
    enums unique_cols w rows ref_ids' w' line j c x :
  NoDup (ColumnInfo.column <$> cols) →
  faker_ok fake → enums_ok enums → lengths_ok cols → pools_filled ref_ids →
  world_ok w →
  generate_table_csv fake today str_of fuel table cols pk fk_map ref_ids n_rows
    enums unique_cols w = Ok ((rows, ref_ids'), w') →
  line ∈ rows → cols !! j = Some c →
  blank_source c = false →
  (takes_stale table cols pk fk_map unique_cols c →
   ∀ c', c' ∈ cols → blank_source c' = false) →
  line !! j = Some x → x ≠ VStr "".
Proof.
  intros Hnd Hfaker Henums Hlens Hpools Hw H Hline Hj Hbs Hstale Hx.
  pose proof (triple_table fake today str_of cols fk_map ref_ids enums c j
                Hfaker Henums Hlens Hpools Hnd Hj Hbs
                (∀ c', c' ∈ cols → blank_source c' = false) (λ H, H)
                fuel table pk n_rows unique_cols Hstale _ _ _ Hw H) as [_ Hrows].
  simpl in Hrows. by apply (Forall_elem _ _ _ Hrows Hline x Hx).
Qed.

Lemma not_blank x : x ≠ VNone → x ≠ VStr "" → blank x = false.
Proof.
  intros Hn Hs. destruct x; simpl; try done.
  apply bool_decide_eq_false. by intros ->.
Qed.


Lemma guest_city_in_contract :
  in_contract "guest" guest_cols ∅ ∅ ∅ (text_col "guest" "city" 40).
Proof.
  split; [reflexivity|]. right. right. split.
  - left. apply not_elem_of_empty.
  - intros Hs. by vm_compute in Hs.
Defined.



(** A text column named [address_line2] is left out of the field
    contract: for a location without a second address line
    [generate_value] returns the empty string, and the field written for
    the NOT NULL column is read back as NULL. *)
Example second_address_line_written_null :
  run (generate_table_csv stub_fake 0 stub_str 0 "guest" address_cols None ∅ ∅ 2
         ∅ ∅) zero_world
  = Ok ([[VInt 1; VStr ""]; [VInt 2; VStr ""]], ∅) ∧
  in_contract "guest" address_cols ∅ ∅ ∅ (text_col "guest" "address_line2" 60) ∧
  written_null [VInt 1; VStr ""] 1 = true.
Proof.
  split; [by vm_compute|]. split; [|reflexivity].
  split; [reflexivity|]. right. right. split.
  - left. apply not_elem_of_empty.
  - intros Hs. by vm_compute in Hs.
Qed.

(** In a table with such a column, a column under a uniqueness constraint
    is left out as well: its uniqueness block runs on the value the
    address column left in [v], and the first row gets the empty string
    for the NOT NULL code. *)
Example stale_value_written_null :
  run (generate_table_csv stub_fake 0 stub_str 0 "guest" stale_cols None ∅ ∅ 2
         ∅ code_unique) zero_world
  = Ok ([[VStr ""; VStr ""]; [VStr ""; VStr "Word_000000"]], ∅) ∧
  in_contract "guest" stale_cols ∅ ∅ code_unique (text_col "guest" "code" 30) ∧
  blank_source (text_col "guest" "code" 30) = false ∧
  written_null [VStr ""; VStr ""] 1 = true.
Proof.
  split; [by vm_compute|]. split; [|split; reflexivity].
  split; [reflexivity|]. right. right. split.
  - right. reflexivity.
  - intros Hs. by vm_compute in Hs.
Qed.

(** The same in [stay]: the foreign key written from [v] gets the empty
    string the address column left there. *)
Example stay_stale_value_written_null :
  run (generate_table_csv stub_fake 0 stub_str 0 "stay" stay_address_cols None
         stay_fk_map rooms_100_200 2 ∅ ∅) zero_world
  = Ok ([[VStr ""; VStr ""]; [VStr ""; VStr ""]], rooms_100_200) ∧
  in_contract "stay" stay_address_cols stay_fk_map ∅ ∅ (int_col "stay" "room_id") ∧
  written_null [VStr ""; VStr ""] 1 = true.
Proof.
  split; [by vm_compute|]. split; [|reflexivity].
  split; [reflexivity|]. right. right. split.
  - left. apply not_elem_of_empty.
  - intros _. split_and!; [by vm_compute|by vm_compute|by right].
Qed.

End WrittenFacts.

Module NightFacts.
Import MFacts StayFacts JunctionFacts NonNullFacts PoolFacts PairFacts Inputs.

Section Nights.
Context (fake : Faker) (today : Z).
Context (table : string) (cols : list ColumnInfo.t).
Context (fk_map : gmap (string * string) (string * string)).
Context (ref_ids : gmap string (list value)) (n_rows : Z).
Context (enums : gmap string (list string)).
Context (room_id_col night_date_col : string) (per_room : Z).
Context (PA : value → Prop).
Hypothesis Hcols : room_id_col ≠ night_date_col.

(** A night of the window that starts 730 days before today. *)
Definition night (v : value) : Prop := v ∈ nights today.

Lemma room_night_inner_ok offsets : ∀ rid st w st' w',
  room_night_inner fake today table cols fk_map ref_ids n_rows enums
    room_id_col night_date_col offsets rid st w = Ok (st', w') →
  Forall (λ off, off ∈ seq 0 total_days) offsets → PA rid →
  pairs_ok n_rows room_id_col night_date_col PA night st →
  (len st.2 < n_rows)%Z →
  pairs_ok n_rows room_id_col night_date_col PA night st'.
Proof.
  induction offsets as [|off offsets IH]; intros rid st w st' w' H Hoff Hrid Hst Hlt;
    simpl in H.
  - apply ret_Ok in H. by inversion H; subst.
  - apply Forall_cons in Hoff as [Ho Hoff].
    destruct (pair_in _ st.1) eqn:Hnew; [by eapply IH|].
    apply bind_Ok in H as (row & w1 & Hrow & H).
    assert (pairs_ok n_rows room_id_col night_date_col PA night
              (st.1 ++ [(rid, VDate (today - 730 + Z.of_nat off))], st.2 ++ [row]))
      as Hst1.
    { apply pairs_ok_snoc; try done.
      - unfold night, nights.
        by apply (list_elem_of_fmap_2 (λ off, VDate (today - 730 + Z.of_nat off))).
      - eapply fill_row_keeps; [exact Hrow|].
        by rewrite lookup_insert_ne, lookup_singleton_eq.
      - eapply fill_row_keeps; [exact Hrow|]. by rewrite lookup_insert_eq. }
    simpl in H. destruct (n_rows <=? _)%Z eqn:Hfull.
    + apply ret_Ok in H. by inversion H; subst.
    + eapply IH; [exact H|done|done|done|]. simpl. by apply Z.leb_gt.
Qed.

Lemma room_night_loop_ok room_ids : ∀ st w st' w',
  room_night_loop fake today table cols fk_map ref_ids n_rows enums
    room_id_col night_date_col per_room room_ids st w = Ok (st', w') →
  Forall PA room_ids →
  pairs_ok n_rows room_id_col night_date_col PA night st →
  pairs_ok n_rows room_id_col night_date_col PA night st'.
Proof.
  induction room_ids as [|rid room_ids IH]; intros st w st' w' H Hids Hst.
  - apply ret_Ok in H. by inversion H; subst.
  - rewrite RoomNightFacts.room_night_loop_cons in H.
    apply Forall_cons in Hids as [Hrid Hids].
    destruct (n_rows <=? _)%Z eqn:Hfull; [by apply ret_Ok in H; inversion H; subst|].
    apply bind_Ok in H as (offsets & w1 & Hs & H).
    apply bind_Ok in H as (st1 & w2 & H1 & H).
    eapply IH; [exact H|done|].
    eapply room_night_inner_ok; [exact H1| |done|done|by apply Z.leb_gt].
    eapply sample_Forall; [exact Hs|]. by apply Forall_forall.
Qed.

End Nights.

(** When [generate_room_night_csv] returns, the (room_id, night_date)
    cells of its lines are pairwise distinct; every room is a loaded room
    key and every night lies in the 1095 days that start 730 days before
    today. *)
Theorem room_night_pairs (fake : Faker) (today : Z) (table : string)
    (cols : list ColumnInfo.t) (fk_map : gmap (string * string) (string * string))
    (ref_ids : gmap string (list value)) (n_rows : Z) (enums : gmap string (list string))
    (w : world) (rows : list (list value)) (w' : world)
    (jr jn : nat) (cr cn : ColumnInfo.t) :
  generate_room_night_csv fake today table cols fk_map ref_ids n_rows enums w
    = Ok (rows, w') →
  cols !! jr = Some cr → col_lc_of cols !! "room_id" = Some (ColumnInfo.column cr) →
  cols !! jn = Some cn → col_lc_of cols !! "night_date" = Some (ColumnInfo.column cn) →
  key_pairs (default [] (ref_ids !! "room")) (nights today) jr jn rows.
Proof.
  unfold generate_room_night_csv. intros H Hjr Hr Hjn Hn. rewrite Hr, Hn in H.
  assert (ColumnInfo.column cr ≠ ColumnInfo.column cn) as Hne
    by (by apply (col_lc_distinct cols "room_id" "night_date")).
  destruct (bool_decide _); [done|]. destruct (_ || _); [done|].
  apply bind_Ok in H as (ids & w1 & Hsh & H).
  apply bind_Ok in H as (st & w2 & Hl & H).
  apply ret_Ok in H. inversion H; subst; clear H.
  eapply (room_night_loop_ok _ _ _ _ _ _ _ _ _ _ _
            (λ v, v ∈ default [] (ref_ids !! "room"))) in Hl as Hst;
    [|done|by eapply shuffle_elem_Forall|apply pairs_ok_nil].
  exact (pairs_ok_lines cols n_rows _ _ _ _ st _ _ _ _ _ Hst (rows_to_prefix _ _)
           Hjr eq_refl Hjn eq_refl).
Qed.

Lemma room_night_pairs_witness :
  key_pairs (default [] (two_rooms !! "room")) (nights 0) 0 1
    [[VInt 2; VDate (-730)]; [VInt 1; VDate (-730)]].
Proof.
  eapply (room_night_pairs stub_fake 0 "room_night" room_night_cols ∅ two_rooms 3 ∅
            zero_world);
    [vm_compute; reflexivity|reflexivity|by vm_compute|reflexivity|by vm_compute].
Defined.

End NightFacts.
